(** * PaSGAL: local alignment of sequences to a character DAG

    A shallow embedding of [src/include/align.hpp] (the scalar engine:
    [alignToDAGLocal_Phase1_scalar], [alignToDAGLocal_Phase1_rev_scalar],
    [alignToDAGLocal_Phase2], [alignToDAGLocal], [alignToDAG]) and the
    properties of the three-phase alignment pipeline.

    Conventions of the embedding:
    - scores are [int32_t] in the source; they are modelled as [Z].  Signed
      overflow has no defined behaviour in C++, so the model covers the
      executions in which no score leaves the 32-bit range.  The statements
      about score values say so: they assume [int32Scores] (non-negative
      32-bit parameters and [length * match + 1 <= INT32_MAX], the 32-bit
      rung of the precision ladder), or bounds on the parameters that keep
      the scores smaller still;
    - loop counters, vertex ids and coordinates are non-negative in every
      execution and are modelled as [nat];
    - [std::vector] is a [list]; reading outside a vector (undefined in the
      source) yields a default, writing outside does nothing;
    - [assert] is compiled in (the program prints "Assert() checks ON"): a
      failing assertion aborts the run, modelled by [Err AssertionFailed]. *)

From Stdlib Require Import Ascii String DecimalString DecimalNat.
From Stdlib Require Import ZArith List Lia Bool Arith Sorted.
From Stdlib Require Import Orders Mergesort Permutation.
Import ListNotations.
Local Open Scope Z_scope.

(** ** Outcomes of a run *)

Inductive error : Type :=
| InvalidArgument   (* std::cerr << "ERROR ..."; exit(1) *)
| AssertionFailed   (* assert(...) does not hold: abort *)
| RuntimeFault      (* read of an unassigned variable, allocation of a
                       negative size, dereference of end() *)
| LoopBudget.       (* the iteration budget of the model ran out *)

Inductive result (A : Type) : Type :=
| Ok (a : A)
| Err (e : error).
Arguments Ok {A} a.
Arguments Err {A} e.

Definition bind {A B : Type} (r : result A) (k : A -> result B) : result B :=
  match r with
  | Ok a => k a
  | Err e => Err e
  end.

Notation "x <- r ;; k" := (bind r (fun x => k))
  (at level 61, r at next level, right associativity).
Notation "' pat <- r ;; k" := (bind r (fun x => match x with pat => k end))
  (at level 61, pat pattern, r at next level, right associativity).

Definition cassert (b : bool) : result unit :=
  if b then Ok tt else Err AssertionFailed.

Fixpoint foldM {A B : Type} (f : A -> B -> result A) (l : list B) (a : A)
  : result A :=
  match l with
  | [] => Ok a
  | x :: l' => a' <- f a x ;; foldM f l' a'
  end.

(** ** Data model *)

Definition str := list ascii.

Definition s (x : string) : str := list_ascii_of_string x.

(** [psgl::Parameters] (scoring part). *)
Record Parameters : Type := {
  match_ : Z;
  mismatch : Z;
  ins : Z;
  del : Z
}.

(** [psgl::CSR_char_container]: one character per vertex, in- and
    out-adjacency in compressed sparse row form. *)
Record CSR_char_container : Type := {
  numVertices : nat;
  adjcny_in : list nat;
  adjcny_out : list nat;
  offsets_in : list nat;
  offsets_out : list nat;
  vertex_label : list ascii
}.

(** [psgl::BestScoreInfo]. *)
Record BestScoreInfo : Type := {
  score : Z;
  refColumnStart : nat;
  refColumnEnd : nat;
  qryRowStart : nat;
  qryRowEnd : nat;
  strand : ascii;
  qryId : nat;
  cigar : str;
  refColumns : list nat
}.

(** A value-initialised record, as [std::vector<BestScoreInfo> v(n)]
    creates them. *)
Definition BestScoreInfo0 : BestScoreInfo :=
  {| score := 0; refColumnStart := 0; refColumnEnd := 0; qryRowStart := 0;
     qryRowEnd := 0; strand := zero; qryId := 0; cigar := [];
     refColumns := [] |}.

Inductive MODE : Type := GLOBAL | LOCAL | SEMIGLOBAL.

(** ** Vectors *)

Fixpoint list_set {A : Type} (k : nat) (v : A) (l : list A) : list A :=
  match l, k with
  | [], _ => []
  | _ :: t, O => v :: t
  | h :: t, S k' => h :: list_set k' v t
  end.

Definition mget (matrix : list (list Z)) (r c : nat) : Z :=
  nth c (nth r matrix []) 0.

Definition mset (matrix : list (list Z)) (r c : nat) (v : Z)
  : list (list Z) :=
  list_set r (list_set c v (nth r matrix [])) matrix.

(** Ring index [i & 1] of the two-row matrix. *)
Definition ring (i : Z) : nat := Z.to_nat (Z.land i 1).

(** [for (j = n - 1; j >= 0; j--)] *)
Fixpoint countdown (n : nat) : list nat :=
  match n with
  | O => []
  | S k => k :: countdown k
  end.

(** ** The DP cell *)

(** [#define psgl_max(a,b) (((a)>(b))?(a):(b))] *)
Definition psgl_max (a b : Z) : Z := if a >? b then a else b.

(** The vertices [adjcny[k]] for [offsets[j] <= k < offsets[j+1]]. *)
Definition adjRange (offsets adjcny : list nat) (j : nat) : list nat :=
  map (fun k => nth k adjcny 0%nat)
      (seq (nth j offsets 0%nat)
           (nth (j + 1) offsets 0%nat - nth j offsets 0%nat)).

Definition inNbrs (g : CSR_char_container) (j : nat) : list nat :=
  adjRange (offsets_in g) (adjcny_in g) j.

Definition outNbrs (g : CSR_char_container) (j : nat) : list nat :=
  adjRange (offsets_out g) (adjcny_out g) j.

(** [curChar == read[i] ? parameters.match : -1 * parameters.mismatch] *)
Definition matchScoreOf (p : Parameters) (curChar qc : ascii) : Z :=
  if Ascii.eqb curChar qc then match_ p else -1 * mismatch p.

(** The computation of [currentMax] shared by both Phase-1 sweeps
    (align.hpp 83-102 and 186-205): [prevRow] is [matrix[(i-1) & 1]],
    [curRow] is [matrix[i & 1]], [nbrs] the adjacency range of column [j]. *)
Definition currentMaxOf (p : Parameters) (nbrs : list nat)
           (prevRow curRow : nat -> Z) (matchScore : Z) (j : nat) : Z :=
  let currentMax := 0 in
  let currentMax := psgl_max currentMax matchScore in
  let currentMax :=
    fold_left (fun cm u =>
                 let cm := psgl_max cm (prevRow u + matchScore) in
                 psgl_max cm (curRow u - del p))
              nbrs currentMax in
  psgl_max currentMax (prevRow j - ins p).

(** ** Phase 1: forward sweep *)

Record sweepState : Type := {
  matrix : list (list Z);
  bestScore : Z;
  bestRow : nat;
  bestCol : nat
}.

(** Body of the loop over [j] (align.hpp 78-113). *)
Definition phase1_cell (g : CSR_char_container) (p : Parameters) (read : str)
           (i : nat) (st : sweepState) (j : nat) : sweepState :=
  let curChar := nth j (vertex_label g) zero in
  let matchScore := matchScoreOf p curChar (nth i read zero) in
  let currentMax :=
    currentMaxOf p (inNbrs g j)
                 (mget (matrix st) (ring (Z.of_nat i - 1)))
                 (mget (matrix st) (ring (Z.of_nat i)))
                 matchScore j in
  let matrix' := mset (matrix st) (ring (Z.of_nat i)) j currentMax in
  let bestScore' := psgl_max (bestScore st) currentMax in
  if bestScore' =? currentMax
  then {| matrix := matrix'; bestScore := currentMax;
          bestRow := i; bestCol := j |}
  else {| matrix := matrix'; bestScore := bestScore';
          bestRow := bestRow st; bestCol := bestCol st |}.

Definition phase1_row (g : CSR_char_container) (p : Parameters) (read : str)
           (st : sweepState) (i : nat) : sweepState :=
  fold_left (phase1_cell g p read i) (seq 0 (numVertices g)) st.

(** The first [k] iterations of the loop over [i]. *)
Definition phase1_rows (g : CSR_char_container) (p : Parameters) (read : str)
           (st : sweepState) (k : nat) : sweepState :=
  fold_left (phase1_row g p read) (seq 0 k) st.

(** [std::fill(matrix[1].begin(), matrix[1].end(), 0)] and the start values
    of one iteration of the loop over reads.  Row 0 of the thread's matrix
    is not reset and keeps what the previous read left there. *)
Definition sweepInit (matrix0 : list (list Z)) : sweepState :=
  {| matrix := list_set 1 (map (fun _ => 0) (nth 1 matrix0 [])) matrix0;
     bestScore := 0; bestRow := 0; bestCol := 0 |}.

(** One iteration of the loop over reads (align.hpp 66-118). *)
Definition phase1_read (g : CSR_char_container) (p : Parameters) (read : str)
           (matrix0 : list (list Z)) : sweepState :=
  phase1_rows g p read (sweepInit matrix0) (length read).

(** The matrix a thread allocates: 2 x numVertices, zero. *)
Definition freshMatrix (g : CSR_char_container) : list (list Z) :=
  repeat (repeat 0 (numVertices g)) 2.

(** [alignToDAGLocal_Phase1_scalar], run by one thread: the reads are taken
    in order and the matrix is handed from one read to the next. *)
Definition alignToDAGLocal_Phase1_scalar (readSet : list str)
           (g : CSR_char_container) (p : Parameters)
           (bestScoreVector : list BestScoreInfo)
  : result (list BestScoreInfo) :=
  _ <- cassert (length bestScoreVector =? length readSet)%nat ;;
  Ok (snd (fold_left
             (fun '(m, bsv) readno =>
                let st := phase1_read g p (nth readno readSet []) m in
                let b := nth readno bsv BestScoreInfo0 in
                (matrix st,
                 list_set readno
                   {| score := bestScore st;
                      refColumnStart := refColumnStart b;
                      refColumnEnd := bestCol st;
                      qryRowStart := qryRowStart b;
                      qryRowEnd := bestRow st;
                      strand := strand b; qryId := qryId b;
                      cigar := cigar b; refColumns := refColumns b |}
                   bsv))
             (seq 0 (length readSet))
             (freshMatrix g, bestScoreVector))).

(** ** Phase 1-R: reverse sweep *)

(** Body of the loop over [j] (align.hpp 181-226).  [read] is the reversed
    query and [b] the record Phase 1 filled in for it. *)
Definition phase1_rev_cell (g : CSR_char_container) (p : Parameters)
           (read : str) (b : BestScoreInfo) (i : nat) (st : sweepState)
           (j : nat) : result sweepState :=
  let readLength := length read in
  let curChar := nth j (vertex_label g) zero in
  let matchScore := matchScoreOf p curChar (nth i read zero) in
  let currentMax :=
    currentMaxOf p (outNbrs g j)
                 (mget (matrix st) (ring (Z.of_nat i - 1)))
                 (mget (matrix st) (ring (Z.of_nat i)))
                 matchScore j in
  let matrix' := mset (matrix st) (ring (Z.of_nat i)) j currentMax in
  let bestScore' := psgl_max (bestScore st) currentMax in
  let st' :=
    if bestScore' =? currentMax
    then {| matrix := matrix'; bestScore := currentMax;
            bestRow := readLength - 1 - i; bestCol := j |}
    else {| matrix := matrix'; bestScore := bestScore';
            bestRow := bestRow st; bestCol := bestCol st |} in
  if ((j =? refColumnEnd b) && (readLength - 1 - i =? qryRowEnd b))%nat
  then
    _ <- cassert (currentMax =? match_ p) ;;
    Ok {| matrix := mset (matrix st') (ring (Z.of_nat i)) j (match_ p + 1);
          bestScore := bestScore st';
          bestRow := bestRow st'; bestCol := bestCol st' |}
  else Ok st'.

Definition phase1_rev_row (g : CSR_char_container) (p : Parameters)
           (read : str) (b : BestScoreInfo) (st : sweepState) (i : nat)
  : result sweepState :=
  foldM (phase1_rev_cell g p read b i) (countdown (numVertices g)) st.

Definition phase1_rev_rows (g : CSR_char_container) (p : Parameters)
           (read : str) (b : BestScoreInfo) (st : sweepState) (k : nat)
  : result sweepState :=
  foldM (phase1_rev_row g p read b) (seq 0 k) st.

(** One iteration of the loop over reads (align.hpp 169-231). *)
Definition phase1_rev_read (g : CSR_char_container) (p : Parameters)
           (read : str) (b : BestScoreInfo) (matrix0 : list (list Z))
  : result sweepState :=
  st <- phase1_rev_rows g p read b (sweepInit matrix0) (length read) ;;
  _ <- cassert (score b =? bestScore st - 1) ;;
  Ok st.

(** [alignToDAGLocal_Phase1_rev_scalar], run by one thread. *)
Definition alignToDAGLocal_Phase1_rev_scalar (readSet : list str)
           (g : CSR_char_container) (p : Parameters)
           (bestScoreVector : list BestScoreInfo)
  : result (list BestScoreInfo) :=
  _ <- cassert (length bestScoreVector =? length readSet)%nat ;;
  r <- foldM
         (fun '(m, bsv) readno =>
            let b := nth readno bsv BestScoreInfo0 in
            st <- phase1_rev_read g p (nth readno readSet []) b m ;;
            Ok (matrix st,
                list_set readno
                  {| score := score b;
                     refColumnStart := bestCol st;
                     refColumnEnd := refColumnEnd b;
                     qryRowStart := bestRow st;
                     qryRowEnd := qryRowEnd b;
                     strand := strand b; qryId := qryId b;
                     cigar := cigar b; refColumns := refColumns b |}
                  bsv))
         (seq 0 (length readSet))
         (freshMatrix g, bestScoreVector) ;;
  Ok (snd r).

(** ** CIGAR utilities *)

Definition opScore (p : Parameters) (c : ascii) : Z :=
  if Ascii.eqb c "=" then match_ p
  else if Ascii.eqb c "X" then - mismatch p
  else if Ascii.eqb c "I" then - ins p
  else if Ascii.eqb c "D" then - del p
  else 0.

Definition digitOf (c : ascii) : option nat :=
  let k := nat_of_ascii c in
  if ((48 <=? k) && (k <=? 57))%nat then Some (k - 48)%nat else None.

Definition decimal (k : nat) : str :=
  list_ascii_of_string (NilEmpty.string_of_uint (Nat.to_uint k)).

Fixpoint compactRun (c : ascii) (count : nat) (rest : str) : str :=
  match rest with
  | [] => decimal count ++ [c]
  | d :: rest' =>
      if Ascii.eqb c d then compactRun c (S count) rest'
      else decimal count ++ [c] ++ compactRun d 1 rest'
  end.

(** Modelled from the spec: [psgl::seqUtils::cigarCompact] (utils.hpp is not
    among the sources): "run-length compact into <count><op> groups". *)
Definition cigarCompact (ops : str) : str :=
  match ops with
  | [] => []
  | c :: rest => compactRun c 1 rest
  end.

Fixpoint cigarScoreFrom (p : Parameters) (cig : str) (count : nat) (acc : Z)
  : Z :=
  match cig with
  | [] => acc
  | c :: rest =>
      match digitOf c with
      | Some d => cigarScoreFrom p rest (10 * count + d)%nat acc
      | None => cigarScoreFrom p rest 0%nat (acc + Z.of_nat count * opScore p c)
      end
  end.

(** Modelled from the spec: [psgl::seqUtils::cigarScore] (utils.hpp is not
    among the sources): the sum of [match] for each '=', minus [mismatch]
    for each 'X', minus [ins] for each 'I', minus [del] for each 'D'. *)
Definition cigarScore (cig : str) (p : Parameters) : Z :=
  cigarScoreFrom p cig 0%nat 0.

(** Modelled from the spec: [psgl::seqUtils::reverse] (utils.hpp is not
    among the sources): the query with its positions flipped. *)
Definition reverse (x : str) : str := rev x.

Definition complement (c : ascii) : ascii :=
  if Ascii.eqb c "A" then "T"%char
  else if Ascii.eqb c "T" then "A"%char
  else if Ascii.eqb c "C" then "G"%char
  else if Ascii.eqb c "G" then "C"%char
  else c.

(** Modelled from the spec: [psgl::seqUtils::reverseComplement] (utils.hpp
    is not among the sources): the reverse complement of a nucleotide
    string. *)
Definition reverseComplement (x : str) : str := rev (map complement x).

(** ** Phase 2: banded recomputation and traceback *)

(** Conversion of an [int32_t] difference to the [int8_t] cell of
    [completeMatrixLog]. *)
Definition to_int8 (z : Z) : Z := (z + 128) mod 256 - 128.

Record bandState : Type := {
  bmatrix : list (list Z);
  completeMatrixLog : list (list Z);
  finalRow : list Z
}.

(** The loop over the in-edges of column [j + j0] (align.hpp 333-341);
    edges that start left of [j0] are ignored. *)
Definition bandEdges (p : Parameters) (nbrs : list nat) (j0 : nat)
           (prevRow curRow : nat -> Z) (matchScore : Z) : Z * Z :=
  fold_left (fun '(fromMatch, fromDeletion) u =>
               if (j0 <=? u)%nat
               then (psgl_max fromMatch (prevRow (u - j0)%nat + matchScore),
                     psgl_max fromDeletion (curRow (u - j0)%nat - del p))
               else (fromMatch, fromDeletion))
            nbrs (matchScore, -1).

Definition bandValue (p : Parameters) (nbrs : list nat) (j0 : nat)
           (prevRow curRow : nat -> Z) (matchScore : Z) (j : nat) : Z :=
  let fromInsertion := prevRow j - ins p in
  let '(fromMatch, fromDeletion) :=
    bandEdges p nbrs j0 prevRow curRow matchScore in
  psgl_max (psgl_max fromInsertion fromMatch) (psgl_max fromDeletion 0).

(** Body of the loop over [j] (align.hpp 317-348). *)
Definition phase2_cell (g : CSR_char_container) (p : Parameters) (read : str)
           (i0 j0 i : nat) (st : bandState) (j : nat) : bandState :=
  let curChar := nth (j + j0) (vertex_label g) zero in
  let matchScore := matchScoreOf p curChar (nth (i + i0) read zero) in
  let v :=
    bandValue p (inNbrs g (j + j0)) j0
              (mget (bmatrix st) (ring (Z.of_nat i - 1)))
              (mget (bmatrix st) (ring (Z.of_nat i)))
              matchScore j in
  let m' := mset (bmatrix st) (ring (Z.of_nat i)) j v in
  {| bmatrix := m';
     completeMatrixLog :=
       mset (completeMatrixLog st) i j
            (to_int8 (mget m' (ring (Z.of_nat i)) j
                      - mget m' (ring (Z.of_nat i - 1)) j));
     finalRow := finalRow st |}.

Definition phase2_row (g : CSR_char_container) (p : Parameters) (read : str)
           (i0 j0 reducedHeight reducedWidth : nat) (st : bandState) (i : nat)
  : bandState :=
  let st' := fold_left (phase2_cell g p read i0 j0 i) (seq 0 reducedWidth) st in
  if (i =? reducedHeight - 1)%nat
  then {| bmatrix := bmatrix st'; completeMatrixLog := completeMatrixLog st';
          finalRow := nth (ring (Z.of_nat i)) (bmatrix st') [] |}
  else st'.

Definition phase2_rows (g : CSR_char_container) (p : Parameters) (read : str)
           (i0 j0 reducedHeight reducedWidth : nat) (st : bandState) (k : nat)
  : bandState :=
  fold_left (phase2_row g p read i0 j0 reducedHeight reducedWidth) (seq 0 k) st.

Definition bandInit (reducedHeight reducedWidth : nat) : bandState :=
  {| bmatrix := repeat (repeat 0 reducedWidth) 2;
     completeMatrixLog := repeat (repeat 0 reducedWidth) reducedHeight;
     finalRow := repeat 0 reducedWidth |}.

(** [*std::max_element(first, last)]; the range must not be empty. *)
Definition max_element (l : list Z) : result Z :=
  match l with
  | [] => Err RuntimeFault
  | x :: t => Ok (fold_left Z.max t x)
  end.

(** The sizes of the band (align.hpp 284-293).  The differences are taken
    on [int32_t] and converted to [std::size_t]: a negative one asks for a
    vector of about 2^64 cells. *)
Definition bandSize (first last : nat) : result nat :=
  let d := Z.of_nat last - Z.of_nat first + 1 in
  if d <? 0 then Err RuntimeFault else Ok (Z.to_nat d).

(** Phase 2.1 (align.hpp 284-363): the final row and the vertical
    differences. *)
Definition phase2_recompute (g : CSR_char_container) (p : Parameters)
           (read : str) (b : BestScoreInfo) : result bandState :=
  reducedWidth <- bandSize (refColumnStart b) (refColumnEnd b) ;;
  reducedHeight <- bandSize (qryRowStart b) (qryRowEnd b) ;;
  let j0 := refColumnStart b in
  let i0 := qryRowStart b in
  let st := phase2_rows g p read i0 j0 reducedHeight reducedWidth
                        (bandInit reducedHeight reducedWidth) reducedHeight in
  bestScoreReComputed <- max_element (finalRow st) ;;
  _ <- cassert (bestScoreReComputed =? score b) ;;
  _ <- cassert (bestScoreReComputed
                =? nth (refColumnEnd b - j0) (finalRow st) 0) ;;
  Ok st.

Record traceState : Type := {
  ops : str;                    (* [cigar], in the order of the push_backs *)
  used_cols : list nat;         (* in the order of the push_backs *)
  currentRowScores : list Z;
  col : nat;
  row : Z
}.

(** The loop over the in-edges of the current column during traceback
    (align.hpp 400-425).  [fromDeletionPos] has no initial value. *)
Definition traceEdges (p : Parameters) (nbrs : list nat) (j0 col : nat)
           (aboveRowScores currentRowScores : list Z) (matchScore : Z)
  : Z * nat * Z * option nat :=
  fold_left
    (fun '(fromMatch, fromMatchPos, fromDeletion, fromDeletionPos) u =>
       if (j0 <=? u)%nat
       then
         let fromCol := (u - j0)%nat in
         let '(fromMatch, fromMatchPos) :=
           if fromMatch <? nth fromCol aboveRowScores 0 + matchScore
           then (nth fromCol aboveRowScores 0 + matchScore, fromCol)
           else (fromMatch, fromMatchPos) in
         let '(fromDeletion, fromDeletionPos) :=
           if fromDeletion <? nth fromCol currentRowScores 0 - del p
           then (nth fromCol currentRowScores 0 - del p, Some fromCol)
           else (fromDeletion, fromDeletionPos) in
         (fromMatch, fromMatchPos, fromDeletion, fromDeletionPos)
       else (fromMatch, fromMatchPos, fromDeletion, fromDeletionPos))
    nbrs (matchScore, col, -1, None).

(** One iteration of the traceback loop (align.hpp 383-462); the boolean
    tells whether the loop goes on ([false]: a [break]). *)
Definition trace_step (g : CSR_char_container) (p : Parameters) (read : str)
           (i0 j0 reducedWidth : nat) (log : list (list Z)) (st : traceState)
  : result (traceState * bool) :=
  let used := used_cols st ++ [(col st + j0)%nat] in
  let cur := currentRowScores st in
  if nth (col st) cur 0 <=? 0
  then Ok ({| ops := ops st; used_cols := used; currentRowScores := cur;
              col := col st; row := row st |}, false)
  else
    let aboveRowScores :=
      map (fun k => nth k cur 0 - mget log (Z.to_nat (row st)) k)
          (seq 0 reducedWidth) in
    let curChar := nth (col st + j0) (vertex_label g) zero in
    let fromInsertion := nth (col st) aboveRowScores 0 - ins p in
    let matchScore :=
      matchScoreOf p curChar (nth (Z.to_nat (row st) + i0) read zero) in
    let '(fromMatch, fromMatchPos, fromDeletion, fromDeletionPos) :=
      traceEdges p (inNbrs g (col st + j0)) j0 (col st)
                 aboveRowScores cur matchScore in
    if nth (col st) cur 0 =? fromMatch
    then
      let ops' := ops st ++ [if matchScore =? match_ p
                             then "="%char else "X"%char] in
      if (fromMatchPos =? col st)%nat
      then Ok ({| ops := ops'; used_cols := used; currentRowScores := cur;
                  col := col st; row := row st |}, false)
      else Ok ({| ops := ops'; used_cols := used;
                  currentRowScores := aboveRowScores;
                  col := fromMatchPos; row := row st - 1 |}, true)
    else if nth (col st) cur 0 =? fromDeletion
    then
      match fromDeletionPos with
      | Some pos =>
          Ok ({| ops := ops st ++ ["D"%char]; used_cols := used;
                 currentRowScores := cur; col := pos; row := row st |}, true)
      | None => Err RuntimeFault
      end
    else
      _ <- cassert (nth (col st) cur 0 =? fromInsertion) ;;
      Ok ({| ops := ops st ++ ["I"%char]; used_cols := used;
             currentRowScores := aboveRowScores;
             col := col st; row := row st - 1 |}, true).

(** [while (col >= 0 && row >= 0)]; [col] never becomes negative. *)
Fixpoint trace_loop (budget : nat) (g : CSR_char_container) (p : Parameters)
         (read : str) (i0 j0 reducedWidth : nat) (log : list (list Z))
         (st : traceState) : result traceState :=
  if row st <? 0 then Ok st
  else
    match budget with
    | O => Err LoopBudget
    | S budget' =>
        '(st', continue) <- trace_step g p read i0 j0 reducedWidth log st ;;
        if continue
        then trace_loop budget' g p read i0 j0 reducedWidth log st'
        else Ok st'
    end.

(** Phase 2.2 up to the end of the loop (align.hpp 375-463).  Every
    iteration that does not leave the loop lowers [row] or moves [col] to an
    in-neighbour, so height + width iterations are enough on a
    topologically numbered graph. *)
Definition phase2_trace (g : CSR_char_container) (p : Parameters)
           (read : str) (b : BestScoreInfo) (band : bandState)
  : result traceState :=
  reducedWidth <- bandSize (refColumnStart b) (refColumnEnd b) ;;
  reducedHeight <- bandSize (qryRowStart b) (qryRowEnd b) ;;
  let st := {| ops := []; used_cols := [];
               currentRowScores := finalRow band;
               col := (reducedWidth - 1)%nat;
               row := Z.of_nat reducedHeight - 1 |} in
  if (reducedWidth =? 0)%nat
  then Ok st                    (* [col] is -1: the loop is not entered *)
  else trace_loop (reducedHeight + reducedWidth) g p read
                  (qryRowStart b) (refColumnStart b) reducedWidth
                  (completeMatrixLog band) st.

(** One iteration of the loop over reads of [alignToDAGLocal_Phase2]. *)
Definition phase2_read (g : CSR_char_container) (p : Parameters) (read : str)
           (b : BestScoreInfo) : result BestScoreInfo :=
  band <- phase2_recompute g p read b ;;
  t <- phase2_trace g p read b band ;;
  let cig := cigarCompact (rev (ops t)) in
  _ <- cassert (cigarScore cig p =? score b) ;;
  Ok {| score := score b;
        refColumnStart := refColumnStart b; refColumnEnd := refColumnEnd b;
        qryRowStart := qryRowStart b; qryRowEnd := qryRowEnd b;
        strand := strand b; qryId := qryId b;
        cigar := cig; refColumns := rev (used_cols t) |}.

Definition alignToDAGLocal_Phase2 (readSet : list str)
           (g : CSR_char_container) (p : Parameters)
           (bestScoreVector : list BestScoreInfo)
  : result (list BestScoreInfo) :=
  _ <- cassert (length bestScoreVector =? length readSet)%nat ;;
  foldM (fun bsv readno =>
           b <- phase2_read g p (nth readno readSet [])
                            (nth readno bsv BestScoreInfo0) ;;
           Ok (list_set readno b bsv))
        (seq 0 (length readSet)) bestScoreVector.

(** ** The pipeline *)

Definition withStrand (b : BestScoreInfo) (c : ascii) (id : nat)
  : BestScoreInfo :=
  {| score := score b;
     refColumnStart := refColumnStart b; refColumnEnd := refColumnEnd b;
     qryRowStart := qryRowStart b; qryRowEnd := qryRowEnd b;
     strand := c; qryId := id;
     cigar := cigar b; refColumns := refColumns b |}.

(** The queries handed to Phase 1 (align.hpp 527-538): [read_reverse] is
    computed, but the statement that pushes it is commented out and the
    query itself is pushed a second time. *)
Definition readSet_P1_of (readSet : list str) : list str :=
  flat_map (fun read => [read; read]) readSet.

(** The choice between the two Phase-1 records of a query
    (align.hpp 597-622): both branches set the strand to '+'. *)
Definition selectStrand (readSet_P1 : list str)
           (bestScoreVector_P1 : list BestScoreInfo) (readno : nat)
  : BestScoreInfo * str * str :=
  let fwd := nth (2 * readno) bestScoreVector_P1 BestScoreInfo0 in
  let rc := nth (2 * readno + 1) bestScoreVector_P1 BestScoreInfo0 in
  if score fwd >? score rc
  then (withStrand fwd "+" readno,
        reverse (nth (2 * readno) readSet_P1 []),
        nth (2 * readno) readSet_P1 [])
  else (withStrand rc "+" readno,
        reverse (nth (2 * readno + 1) readSet_P1 []),
        nth (2 * readno + 1) readSet_P1 []).

(** [alignToDAGLocal] (scalar build); the result is
    [outputBestScoreVector], which is empty at the call. *)
Definition alignToDAGLocal (readSet : list str) (g : CSR_char_container)
           (p : Parameters) : result (list BestScoreInfo) :=
  let bestScoreVector_P1 := repeat BestScoreInfo0 (2 * length readSet) in
  _ <- cassert (0 <? length readSet)%nat ;;
  let readSet_P1 := readSet_P1_of readSet in
  bestScoreVector_P1 <-
    alignToDAGLocal_Phase1_scalar readSet_P1 g p bestScoreVector_P1 ;;
  let chosen :=
    map (selectStrand readSet_P1 bestScoreVector_P1)
        (seq 0 (length readSet)) in
  let outputBestScoreVector := map (fun c => fst (fst c)) chosen in
  let readSet_P1_R := map (fun c => snd (fst c)) chosen in
  let readSet_P2 := map snd chosen in
  outputBestScoreVector <-
    alignToDAGLocal_Phase1_rev_scalar readSet_P1_R g p
                                      outputBestScoreVector ;;
  alignToDAGLocal_Phase2 readSet_P2 g p outputBestScoreVector.

(** [alignToDAG(reads, graph, parameters, mode, outputBestScoreVector)]. *)
Definition alignToDAG (reads : list str) (g : CSR_char_container)
           (p : Parameters) (mode : MODE) : result (list BestScoreInfo) :=
  match mode with
  | LOCAL => alignToDAGLocal reads g p
  | _ => Err InvalidArgument
  end.

(** ** Example graphs *)

(** CSR form of a graph given by its labels and its sorted edge list. *)
Definition graphOfEdges (labels : str) (edges : list (nat * nat))
  : CSR_char_container :=
  let n := length labels in
  let outOf i := map snd (filter (fun e => (fst e =? i)%nat) edges) in
  let inOf i := map fst (filter (fun e => (snd e =? i)%nat) edges) in
  let offs f :=
    fold_left (fun acc i => acc ++ [(last acc 0 + length (f i))%nat])
              (seq 0 n) [0%nat] in
  {| numVertices := n;
     adjcny_in := flat_map inOf (seq 0 n);
     adjcny_out := flat_map outOf (seq 0 n);
     offsets_in := offs inOf;
     offsets_out := offs outOf;
     vertex_label := labels |}.

Definition unitScores : Parameters :=
  {| match_ := 1; mismatch := 1; ins := 1; del := 1 |}.

(** * The CSR container (csr.hpp)

    A shallow embedding of [psgl::CSR_container]: the graph whose vertices
    carry sequences, from which the character graph of the alignment is
    built.  Vertex ids, edge ids and counts are never negative in an
    execution and are modelled as [nat]; the [>= 0] half of the range
    assertions is therefore not written. *)

(** The order of [std::pair<VertexIdType, VertexIdType>]: lexicographic.
    It is total and antisymmetric, so that [std::sort] has one possible
    result, whatever the algorithm. *)
Module PairOrder <: TotalLeBool.
Definition t : Type := (nat * nat)%type.
Definition leb (x y : t) : bool :=
  (fst x <? fst y)%nat || ((fst x =? fst y)%nat && (snd x <=? snd y)%nat).
Lemma leb_total : forall a1 a2, leb a1 a2 = true \/ leb a2 a1 = true.
Proof.
  intros [a b] [c d]. unfold leb. simpl.
  destruct (Nat.ltb_spec a c), (Nat.ltb_spec c a), (Nat.eqb_spec a c),
    (Nat.eqb_spec c a), (Nat.leb_spec b d), (Nat.leb_spec d b);
    simpl; auto; lia.
Qed.
End PairOrder.

Module PairSort := Sort PairOrder.

Module CSR.

Record CSR_container : Type := {
  numVertices : nat;
  numEdges : nat;
  adjcny_in : list nat;
  adjcny_out : list nat;
  offsets_in : list nat;
  offsets_out : list nat;
  vertex_metadata : list str
}.

(** The constructor. *)
Definition CSR_container0 : CSR_container :=
  {| numVertices := 0; numEdges := 0; adjcny_in := []; adjcny_out := [];
     offsets_in := []; offsets_out := []; vertex_metadata := [] |}.

(** [for (auto x : v) assert(f(x));] *)
Definition assertEach {A : Type} (f : A -> bool) (l : list A) : result unit :=
  foldM (fun _ x => cassert (f x)) l tt.

(** [std::is_sorted]: no element is smaller than the one before it. *)
Fixpoint is_sorted (l : list nat) : bool :=
  match l with
  | [] => true
  | x :: t =>
      match t with
      | [] => true
      | y :: _ => negb (y <? x)%nat && is_sorted t
      end
  end.

(** The indices [j] with [offsets[i] <= j < offsets[i+1]]. *)
Definition edgeIds (offsets : list nat) (i : nat) : list nat :=
  seq (nth i offsets 0%nat)
      (nth (i + 1) offsets 0%nat - nth i offsets 0%nat).

(** [verify()]. *)
Definition verify (G : CSR_container) : result unit :=
  _ <- cassert (length (vertex_metadata G) =? numVertices G)%nat ;;
  _ <- assertEach (fun seq : str => (0 <? length seq)%nat)
                  (vertex_metadata G) ;;
  _ <- cassert (length (adjcny_in G) =? numEdges G)%nat ;;
  _ <- cassert (length (adjcny_out G) =? numEdges G)%nat ;;
  _ <- assertEach (fun vId => (vId <? numVertices G)%nat) (adjcny_in G) ;;
  _ <- assertEach (fun vId => (vId <? numVertices G)%nat) (adjcny_out G) ;;
  _ <- cassert (length (offsets_in G) =? numVertices G + 1)%nat ;;
  _ <- cassert (length (offsets_out G) =? numVertices G + 1)%nat ;;
  _ <- assertEach (fun off => (off <=? numEdges G)%nat) (offsets_in G) ;;
  _ <- assertEach (fun off => (off <=? numEdges G)%nat) (offsets_out G) ;;
  _ <- cassert (is_sorted (offsets_in G)) ;;
  _ <- cassert (is_sorted (offsets_out G)) ;;
  _ <- cassert (last (offsets_in G) 0 =? numEdges G)%nat ;;
  _ <- cassert (last (offsets_out G) 0 =? numEdges G)%nat ;;
  foldM (fun _ i =>
           assertEach (fun j => (i <? nth j (adjcny_out G) 0)%nat)
                      (edgeIds (offsets_out G) i))
        (seq 0 (numVertices G)) tt.

(** [std::vector::resize(n)] on a vector of strings. *)
Definition resize (n : nat) (v : list str) : list str :=
  firstn n v ++ repeat [] (n - length v).

(** [addVertexCount(n)]. *)
Definition addVertexCount (G : CSR_container) (n : nat)
  : result CSR_container :=
  _ <- cassert (0 <? n)%nat ;;
  Ok {| numVertices := numVertices G + n; numEdges := numEdges G;
        adjcny_in := adjcny_in G; adjcny_out := adjcny_out G;
        offsets_in := offsets_in G; offsets_out := offsets_out G;
        vertex_metadata := resize (numVertices G + n) (vertex_metadata G) |}.

(** [initVertexSequence(id, seq)]. *)
Definition initVertexSequence (G : CSR_container) (id : nat) (seq : str)
  : result CSR_container :=
  _ <- cassert (id <? length (vertex_metadata G))%nat ;;
  _ <- cassert (length (nth id (vertex_metadata G) []) =? 0)%nat ;;
  Ok {| numVertices := numVertices G; numEdges := numEdges G;
        adjcny_in := adjcny_in G; adjcny_out := adjcny_out G;
        offsets_in := offsets_in G; offsets_out := offsets_out G;
        vertex_metadata := list_set id seq (vertex_metadata G) |}.

(** [std::find_if(first, last, pred) - first]. *)
Fixpoint find_if {A : Type} (pred : A -> bool) (l : list A) : nat :=
  match l with
  | [] => 0
  | x :: t => if pred x then 0 else S (find_if pred t)
  end.

(** One of the two loops of [initEdges] that compute offsets and
    adjacency from the sorted edge vector: [it_b] and [it_e] are positions
    in the vector, [adjcny] grows by [push_back]. *)
Definition fillAdjacency (n : nat) (edges : list (nat * nat))
           (adjcny : list nat) : list nat * list nat :=
  let '(_, offsets, adjcny) :=
    fold_left
      (fun '(it_b, offsets, adjcny) i =>
         let it_e :=
           (it_b + find_if (fun e : nat * nat => (i <? fst e)%nat)
                           (skipn it_b edges))%nat in
         (it_e, offsets ++ [it_e],
          adjcny ++ map snd (firstn (it_e - it_b) (skipn it_b edges))))
      (seq 0 n) (0%nat, [0%nat], adjcny) in
  (offsets, adjcny).

(** [initEdges(diEdgeVector)].  The offsets are written anew; the
    adjacency vectors are appended to. *)
Definition initEdges (G : CSR_container) (diEdgeVector : list (nat * nat))
  : result CSR_container :=
  _ <- assertEach (fun edge : nat * nat =>
                     (fst edge <? numVertices G)%nat
                     && (snd edge <? numVertices G)%nat) diEdgeVector ;;
  let numEdges' := length diEdgeVector in
  let sorted := PairSort.sort diEdgeVector in
  let '(offsets_out', adjcny_out') :=
    fillAdjacency (numVertices G) sorted (adjcny_out G) in
  let reversed := map (fun e : nat * nat => (snd e, fst e)) sorted in
  let sorted' := PairSort.sort reversed in
  let '(offsets_in', adjcny_in') :=
    fillAdjacency (numVertices G) sorted' (adjcny_in G) in
  Ok {| numVertices := numVertices G; numEdges := numEdges';
        adjcny_in := adjcny_in'; adjcny_out := adjcny_out';
        offsets_in := offsets_in'; offsets_out := offsets_out';
        vertex_metadata := vertex_metadata G |}.

(** The out-neighbours and the in-neighbours of a vertex. *)
Definition outNbrs (G : CSR_container) (i : nat) : list nat :=
  adjRange (offsets_out G) (adjcny_out G) i.

Definition inNbrs (G : CSR_container) (i : nat) : list nat :=
  adjRange (offsets_in G) (adjcny_in G) i.

(** [edgeExists(u, v)]. *)
Definition edgeExists (G : CSR_container) (u v : nat) : result bool :=
  _ <- cassert (u <? numVertices G)%nat ;;
  _ <- cassert (v <? numVertices G)%nat ;;
  Ok (fold_left (fun returnVal i =>
                   if (v =? nth i (adjcny_out G) 0)%nat then true
                   else returnVal)
                (edgeIds (offsets_out G) u) false).

(** [totalRefLength()]. *)
Definition totalRefLength (G : CSR_container) : result nat :=
  foldM (fun totalLen (i : str) =>
           _ <- cassert (0 <? length i)%nat ;;
           Ok (totalLen + length i)%nat)
        (vertex_metadata G) 0%nat.

(** [std::size_t] arithmetic: modulo 2^64. *)
Definition size_t (z : Z) : Z := z mod 2 ^ 64.

(** The length of the sequence of a vertex. *)
Definition seqLength (G : CSR_container) (v : nat) : Z :=
  Z.of_nat (length (nth v (vertex_metadata G) [])).

(** [reverseOrder[finalOrder[i]] = i] for all vertices [i]: the vertex at
    each position. *)
Definition reverseOf (n : nat) (finalOrder : list nat) : list nat :=
  fold_left (fun reverseOrder i =>
               list_set (nth i finalOrder 0%nat) i reverseOrder)
            (seq 0 n) (repeat 0%nat n).

(** [tmp_bandwidth] for an edge from position [from_pos] to position
    [to_pos]: the difference of the positions plus the width of the
    vertices in between; [vertexAt k] is the vertex at position [k]. *)
Definition edgeBandwidth (G : CSR_container) (vertexAt : nat -> nat)
           (from_pos to_pos : nat) : Z :=
  fold_left (fun tmp_bandwidth k =>
               size_t (tmp_bandwidth + size_t (seqLength G (vertexAt k) - 1)))
            (seq (from_pos + 1) (to_pos - (from_pos + 1)))
            (size_t (Z.of_nat to_pos - Z.of_nat from_pos)).

(** The two loops over the edges shared by both [directedBandwidth]
    functions; [position v] is the position of the vertex [v]. *)
Definition bandwidthLoop (G : CSR_container) (position vertexAt : nat -> nat)
  : result Z :=
  foldM (fun bandwidth i =>
           foldM (fun bandwidth j =>
                    let from_pos := position i in
                    let to_pos := position (nth j (adjcny_out G) 0%nat) in
                    _ <- cassert (from_pos <? to_pos)%nat ;;
                    let tmp_bandwidth :=
                      edgeBandwidth G vertexAt from_pos to_pos in
                    Ok (if tmp_bandwidth >? bandwidth then tmp_bandwidth
                        else bandwidth))
                 (edgeIds (offsets_out G) i) bandwidth)
        (seq 0 (numVertices G)) 0.

(** [directedBandwidth(finalOrder)]. *)
Definition directedBandwidthOf (G : CSR_container) (finalOrder : list nat)
  : result Z :=
  _ <- cassert (length finalOrder =? numVertices G)%nat ;;
  let reverseOrder := reverseOf (numVertices G) finalOrder in
  bandwidthLoop G (fun v => nth v finalOrder 0%nat)
                (fun k => nth k reverseOrder 0%nat).

(** [directedBandwidth()]. *)
Definition directedBandwidth (G : CSR_container) : result Z :=
  bandwidthLoop G (fun v => v) (fun k => k).

(** The first two loops of [lowerBoundBandwidth]: one plus the widths of
    the neighbours of a vertex but the widest. *)
Definition lowerBoundOf (G : CSR_container) (nbrs : nat -> list nat)
           (lbound : Z) : Z :=
  fold_left (fun lbound i =>
               let '(minimum_dist, max_width) :=
                 fold_left (fun '(minimum_dist, max_width) w =>
                              (size_t (minimum_dist + seqLength G w),
                               Z.max (seqLength G w) max_width))
                           (nbrs i) (1, 0) in
               let minimum_dist := size_t (minimum_dist - max_width) in
               Z.max minimum_dist lbound)
            (seq 0 (numVertices G)) lbound.

(** [lowerBoundBandwidth()]. *)
Definition lowerBoundBandwidth (G : CSR_container) : result Z :=
  let lbound := lowerBoundOf G (outNbrs G) 0 in
  let lbound := lowerBoundOf G (inNbrs G) lbound in
  foldM (fun lbound i =>
           minimum_dist <-
             (if (nth (i + 1) (offsets_out G) 0 - nth i (offsets_out G) 0
                  =? 2)%nat
              then
                let j := nth i (offsets_out G) 0%nat in
                let u := nth j (adjcny_out G) 0%nat in
                let v := nth (j + 1) (adjcny_out G) 0%nat in
                uv <- edgeExists G u v ;;
                if (uv : bool) then Ok (size_t (1 + seqLength G u))
                else
                  vu <- edgeExists G v u ;;
                  if (vu : bool) then Ok (size_t (1 + seqLength G v))
                  else Ok 1
              else Ok 1) ;;
           Ok (Z.max minimum_dist lbound))
        (seq 0 (numVertices G)) lbound.

(** The state of one run of Kahn's algorithm in [topologicalSort]. *)
Record kahnState : Type := {
  tmpOrder : list nat;
  currentOrder : nat;
  Q : list nat;                 (* [std::list<VertexIdType>] *)
  deg : list Z
}.

(** [Q.erase(it)] for the iterator at position [pos]. *)
Definition erase (pos : nat) (Q : list nat) : list nat :=
  firstn pos Q ++ skipn (S pos) Q.

(** [if (--deg[adjcny_out[j]] == 0) Q.emplace_back(adjcny_out[j]);] *)
Definition relax (G : CSR_container) (st : list nat * list Z) (j : nat)
  : list nat * list Z :=
  let '(Q, deg) := st in
  let w := nth j (adjcny_out G) 0%nat in
  let d := nth w deg 0 - 1 in
  if d =? 0 then (Q ++ [w], list_set w d deg) else (Q, list_set w d deg).

(** The body of [while (!Q.empty())]; [pos] is the position that
    [random::select] returns. *)
Definition kahn_step (G : CSR_container) (pos : nat) (st : kahnState)
  : kahnState :=
  let v := nth pos (Q st) 0%nat in
  let '(Q', deg') :=
    fold_left (relax G) (edgeIds (offsets_out G) v)
              (erase pos (Q st), deg st) in
  {| tmpOrder := list_set v (currentOrder st) (tmpOrder st);
     currentOrder := S (currentOrder st);
     Q := Q'; deg := deg' |}.

(** [while (!Q.empty())].  [select] stands for [random::select] (utils.hpp
    is not among the sources): it returns the position of an element of the
    list; a position outside the list is a fault. *)
Fixpoint kahn_loop (budget : nat) (G : CSR_container)
         (select : list nat -> nat) (st : kahnState) : result kahnState :=
  match Q st with
  | [] => Ok st
  | _ :: _ =>
      match budget with
      | O => Err LoopBudget
      | S budget' =>
          if (select (Q st) <? length (Q st))%nat
          then kahn_loop budget' G select (kahn_step G (select (Q st)) st)
          else Err RuntimeFault
      end
  end.

(** One run of Kahn's algorithm: the order it computes.  No vertex enters
    [Q] twice, so [numVertices] iterations are enough. *)
Definition kahn_run (G : CSR_container) (select : list nat -> nat)
           (in_degree : list Z) : result (list nat) :=
  let Q0 := filter (fun i => nth i in_degree 0 =? 0) (seq 0 (numVertices G)) in
  st <- kahn_loop (numVertices G) G select
                  {| tmpOrder := repeat 0%nat (numVertices G);
                     currentOrder := 0; Q := Q0; deg := in_degree |} ;;
  Ok (tmpOrder st).

(** [topologicalSort(runs, finalOrder)]; [select i] makes the random
    choices of run [i]. *)
Definition topologicalSort (G : CSR_container)
           (select : nat -> list nat -> nat) (runs : nat)
           (finalOrder : list nat) : result (list nat) :=
  _ <- cassert (length finalOrder =? numVertices G)%nat ;;
  _ <- cassert (0 <? runs)%nat ;;
  let in_degree :=
    map (fun i => Z.of_nat (nth (i + 1) (offsets_in G) 0%nat)
                  - Z.of_nat (nth i (offsets_in G) 0%nat))
        (seq 0 (numVertices G)) in
  r <- foldM (fun '(minbandwidth, finalOrder) i =>
                tmpOrder <- kahn_run G (select i) in_degree ;;
                currentBandwidth <- directedBandwidthOf G tmpOrder ;;
                if minbandwidth >? currentBandwidth
                then Ok (currentBandwidth, tmpOrder)
                else Ok (minbandwidth, finalOrder))
             (seq 0 runs) (2 ^ 31 - 1, finalOrder) ;;
  Ok (snd r).

(** The relabelling of [sort()]: [order] maps a vertex to its position and
    [rOrder] a position to its vertex.  The degree
    [offsets[rOrder[i] + 1] - offsets[rOrder[i]]] is a difference of
    [EdgeIdType] values in the source and of [nat] values here: the two
    agree where the offsets do not decrease, which the statements about
    the relabelling assume ([csrShape], or a container that [initEdges]
    filled). *)
Definition relabel (G : CSR_container) (order rOrder : list nat)
  : CSR_container :=
  let n := numVertices G in
  let at_ (i : nat) := nth i rOrder 0%nat in
  let degree (offsets : list nat) (i : nat) :=
    (nth (at_ i + 1) offsets 0 - nth (at_ i) offsets 0)%nat in
  let offsetsNew (offsets : list nat) :=
    fold_left (fun new i =>
                 list_set (i + 1) (nth i new 0 + degree offsets i)%nat new)
              (seq 0 n) (repeat 0%nat (n + 1)) in
  {| numVertices := n; numEdges := numEdges G;
     adjcny_in :=
       flat_map (fun i => map (fun j => nth (nth j (adjcny_in G) 0) order 0)
                              (edgeIds (offsets_in G) (at_ i)))%nat
                (seq 0 n);
     adjcny_out :=
       flat_map (fun i => map (fun j => nth (nth j (adjcny_out G) 0) order 0)
                              (edgeIds (offsets_out G) (at_ i)))%nat
                (seq 0 n);
     offsets_in := offsetsNew (offsets_in G);
     offsets_out := offsetsNew (offsets_out G);
     vertex_metadata := map (fun i => nth (at_ i) (vertex_metadata G) [])
                            (seq 0 n) |}.

(** [sort()]. *)
Definition sort (G : CSR_container) (select : nat -> list nat -> nat)
  : result CSR_container :=
  let order := repeat 0%nat (numVertices G) in
  let runs := 5%nat in
  order <- topologicalSort G select runs order ;;
  _ <- directedBandwidthOf G order ;;          (* printed *)
  _ <- lowerBoundBandwidth G ;;                (* printed *)
  let rOrder := reverseOf (numVertices G) order in
  Ok (relabel G order rOrder).

End CSR.

(** * The path of a record ([printResultsToFile]) *)

(** [graph.originalVertexId[c].first]: the vertex of the sequence graph
    that the column [c] belongs to.  The vector is a member of the
    character graph (csr_char.hpp) and holds, for every column, the vertex
    and the offset in its sequence; an index beyond the vector is a
    fault. *)
Definition originalVertex (originalVertexId : list (nat * nat)) (c : nat)
  : result nat :=
  match nth_error originalVertexId c with
  | Some x => Ok (fst x)
  | None => Err RuntimeFault
  end.

(** The loop of [printResultsToFile] over the columns of one record: the
    vector [path] and the string [path_str]. *)
Definition printedPath (originalVertexId : list (nat * nat))
           (e : BestScoreInfo) : result (list nat * str) :=
  n0 <- originalVertex originalVertexId (refColumnStart e) ;;
  foldM (fun '(path, path_str) c =>
           if (refColumnStart e <=? c)%nat && (c <=? refColumnEnd e)%nat
           then
             n <- originalVertex originalVertexId c ;;
             if negb (n =? last path 0)%nat
             then Ok (path ++ [n], path_str ++ "-"%char :: decimal n)
             else Ok (path, path_str)
           else Ok (path, path_str))
        (refColumns e) ([n0], decimal n0).

(** * Tables, invariants and other notions of the statements *)

(** The vertices are numbered in a topological order: every in-neighbour
    of a vertex has a smaller number (cf. [CSR_container::verify]). *)
Definition topological (g : CSR_char_container) : Prop :=
  forall j u, In u (inNbrs g j) -> (u < j)%nat.

Definition topologicalb (g : CSR_char_container) : bool :=
  forallb (fun j => forallb (fun u => (u <? j)%nat) (inNbrs g j))
          (seq 0 (length (offsets_in g))).

(** State of the traceback at the head of its loop: the columns pushed so
    far are in decreasing order, inside the band and not left of the
    current column. *)
Definition traceInv (j0 reducedWidth : nat) (st : traceState) : Prop :=
  (col st < reducedWidth)%nat /\
  StronglySorted ge (used_cols st) /\
  Forall (fun c => (col st + j0 <= c <= j0 + reducedWidth - 1)%nat)
         (used_cols st).

(** A graph that is one chain of characters. *)
Definition chainGraph (labels : str) : CSR_char_container :=
  graphOfEdges labels (map (fun i => (i, S i)) (seq 0 (length labels - 1))).

(** The record Phase 1 leaves for a query. *)
Definition phase1_record (g : CSR_char_container) (p : Parameters)
           (read : str) : BestScoreInfo :=
  let st := phase1_read g p read (freshMatrix g) in
  {| score := bestScore st; refColumnStart := 0; refColumnEnd := bestCol st;
     qryRowStart := 0; qryRowEnd := bestRow st; strand := zero; qryId := 0;
     cigar := []; refColumns := [] |}.

Fixpoint isPath (g : CSR_char_container) (path : list nat) : bool :=
  match path with
  | [] => true
  | u :: rest =>
      (u <? numVertices g)%nat &&
      match rest with
      | [] => true
      | v :: _ => existsb (Nat.eqb v) (outNbrs g u) && isPath g rest
      end
  end.

Definition pathLabel (g : CSR_char_container) (path : list nat) : str :=
  map (fun v => nth v (vertex_label g) zero) path.

(** A DP row as a function of the column; columns that were not written
    hold 0. *)
Definition upd (f : nat -> Z) (j : nat) (v : Z) : nat -> Z :=
  fun c => if (c =? j)%nat then v else f c.

(** The row obtained by visiting the columns in [order] and writing into
    each the value [cell] computes from the row written so far. *)
Definition rowStep (cell : (nat -> Z) -> nat -> Z) (f : nat -> Z) (j : nat)
  : nat -> Z :=
  upd f j (cell f j).

Definition rowOf (cell : (nat -> Z) -> nat -> Z) (order : list nat)
  : nat -> Z :=
  fold_left (rowStep cell) order (fun _ => 0).

Definition labelOf (g : CSR_char_container) (j : nat) : ascii :=
  nth j (vertex_label g) zero.

Definition fwdCell (g : CSR_char_container) (p : Parameters) (qc : ascii)
           (prev cur : nat -> Z) (j : nat) : Z :=
  currentMaxOf p (inNbrs g j) prev cur (matchScoreOf p (labelOf g j) qc) j.

(** The forward table: [Htab g p read (S i) j] is H(i,j), and
    [Htab g p read 0] is the row H(-1,.) = 0. *)
Fixpoint Htab (g : CSR_char_container) (p : Parameters) (read : str)
         (k : nat) : nat -> Z :=
  match k with
  | O => fun _ => 0
  | S i => rowOf (fwdCell g p (nth i read zero) (Htab g p read i))
                 (seq 0 (numVertices g))
  end.

(** The right-hand side of the recurrence of the specification:
    max(0, matchScore, max over in-neighbours u of H(i-1,u) + matchScore,
    max over in-neighbours u of H(i,u) - del, H(i-1,j) - ins). *)
Definition recurrence (p : Parameters) (matchScore : Z) (nbrs : list nat)
           (Hprev Hcur : nat -> Z) (j : nat) : Z :=
  fold_right Z.max 0
             (matchScore
                :: map (fun u => Hprev u + matchScore) nbrs
                ++ map (fun u => Hcur u - del p) nbrs
                ++ [Hprev j - ins p]).

(** The range of [int32_t]. *)
Definition INT32_MAX : Z := 2 ^ 31 - 1.



Definition nonneg (p : Parameters) : Prop :=
  0 <= match_ p /\ 0 <= mismatch p /\ 0 <= ins p /\ 0 <= del p.

(** The scores of a query of [L] characters stay inside [int32_t]: the
    scoring parameters are non-negative 32-bit values and
    [L * match + 1 <= INT32_MAX], the condition of the precision ladder for
    the 32-bit scores of the scalar engine (the 1 is the tag of the reverse
    sweep). *)
Definition int32Scores (p : Parameters) (L : nat) : Prop :=
  nonneg p /\
  match_ p <= INT32_MAX /\ mismatch p <= INT32_MAX /\
  ins p <= INT32_MAX /\ del p <= INT32_MAX /\
  Z.of_nat L * match_ p + 1 <= INT32_MAX.

(** The scores of every query of a set stay inside [int32_t]. *)
Definition int32Run (p : Parameters) (readSet : list str) : Prop :=
  forall read, In read readSet -> int32Scores p (length read).


(** The sums that a cell of the recurrence takes the maximum of. *)
Definition recurrenceTerms (p : Parameters) (matchScore : Z)
           (nbrs : list nat) (Hprev Hcur : nat -> Z) (j : nat) : list Z :=
  matchScore
    :: map (fun u => Hprev u + matchScore) nbrs
    ++ map (fun u => Hcur u - del p) nbrs
    ++ [Hprev j - ins p].

Definition shape (n : nat) (m : list (list Z)) : Prop :=
  length m = 2%nat /\ forall r, (r < 2)%nat -> length (nth r m []) = n.

(** Row-major order on cells. *)
Definition lexle (r c r' c' : nat) : Prop :=
  (r < r' \/ (r = r' /\ c <= c'))%nat.

(** What the variables [bestScore], [bestRow], [bestCol] hold once the
    cells in [done] have been scanned: the largest value seen (0 if no
    cell was scanned), and the last cell, in the order [le2], that has
    it. *)
Definition bestInv (val : nat -> nat -> Z) (done : nat -> nat -> Prop)
           (le2 : nat -> nat -> nat -> nat -> Prop)
           (b : Z) (br bc : nat) : Prop :=
  0 <= b /\
  (forall r c, done r c -> val r c <= b) /\
  (((forall r c, ~ done r c) /\ b = 0 /\ br = 0%nat /\ bc = 0%nat) \/
   (done br bc /\ val br bc = b /\
    forall r c, done r c -> val r c = b -> le2 r c br bc)).

(** The cells scanned before cell (i,k), in the order of Phase 1. *)
Definition processed (n i k r c : nat) : Prop :=
  (c < n)%nat /\ (r < i \/ (r = i /\ c < k))%nat.

(** State of Phase 1 before the cell (i,k) is computed. *)
Definition colInv (g : CSR_char_container) (p : Parameters) (read : str)
           (i k : nat) (st : sweepState) : Prop :=
  shape (numVertices g) (matrix st) /\
  (forall c, (c < numVertices g)%nat ->
             mget (matrix st) (ring (Z.of_nat i - 1)) c = Htab g p read i c) /\
  (forall c, (c < k)%nat ->
             mget (matrix st) (ring (Z.of_nat i)) c = Htab g p read (S i) c) /\
  bestInv (fun r c => Htab g p read (S r) c)
          (processed (numVertices g) i k) lexle
          (bestScore st) (bestRow st) (bestCol st).

(** The value the forward sweep has stored in [matrix[i & 1][j]] when the
    iteration [i] of the loop over the rows ends; row -1 is 0. *)
Definition Hcode (g : CSR_char_container) (p : Parameters) (read : str)
           (matrix0 : list (list Z)) (i : Z) (j : nat) : Z :=
  if i <? 0 then 0
  else mget (matrix (phase1_rows g p read (sweepInit matrix0)
                                 (S (Z.to_nat i))))
            (ring i) j.

(** The graph is topologically numbered, and its out-adjacency lists only
    edges of the in-adjacency, between vertices of the graph. *)
Definition wf_graph (g : CSR_char_container) : Prop :=
  topological g /\
  forall j v, In v (outNbrs g j) ->
              (v < numVertices g)%nat /\ In j (inNbrs g v).

Definition wf_graphb (g : CSR_char_container) : bool :=
  topologicalb g &&
  forallb (fun j =>
             forallb (fun v => (v <? numVertices g)%nat
                               && existsb (Nat.eqb j) (inNbrs g v))
                     (outNbrs g j))
          (seq 0 (length (offsets_out g))).

Definition revCell (g : CSR_char_container) (p : Parameters) (qc : ascii)
           (prev cur : nat -> Z) (j : nat) : Z :=
  currentMaxOf p (outNbrs g j) prev cur (matchScoreOf p (labelOf g j) qc) j.

(** The cell of the reverse sweep that mirrors the end cell of [b]. *)
Definition tagged (b : BestScoreInfo) (m i j : nat) : bool :=
  ((j =? refColumnEnd b) && (m - 1 - i =? qryRowEnd b))%nat.

Definition tagCell (g : CSR_char_container) (p : Parameters)
           (b : BestScoreInfo) (m i : nat) (qc : ascii)
           (prev cur : nat -> Z) (j : nat) : Z :=
  if tagged b m i j then match_ p + 1 else revCell g p qc prev cur j.

(** The table of the reverse sweep: [Ttab g p rread b (S i)] is the row
    that iteration [i] leaves in the matrix, with [match + 1] in the
    tagged cell. *)
Fixpoint Ttab (g : CSR_char_container) (p : Parameters) (rread : str)
         (b : BestScoreInfo) (k : nat) : nat -> Z :=
  match k with
  | O => fun _ => 0
  | S i => rowOf (tagCell g p b (length rread) i (nth i rread zero)
                          (Ttab g p rread b i))
                 (countdown (numVertices g))
  end.

(** [currentMax] of the reverse sweep at cell (i,j). *)
Definition cmT (g : CSR_char_container) (p : Parameters) (rread : str)
           (b : BestScoreInfo) (i j : nat) : Z :=
  revCell g p (nth i rread zero) (Ttab g p rread b i)
          (Ttab g p rread b (S i)) j.

(** The cells scanned before column [k] of iteration [i] is left, named by
    the row the source records for them ([readLength - 1 - i]). *)
Definition doneR (m n i k r c : nat) : Prop :=
  (c < n)%nat /\ (r < m)%nat /\
  (m - 1 - r < i \/ (m - 1 - r = i /\ k <= c))%nat.

Definition revInv (g : CSR_char_container) (p : Parameters) (rread : str)
           (b : BestScoreInfo) (i k : nat) (st : sweepState) : Prop :=
  let m := length rread in
  let n := numVertices g in
  shape n (matrix st) /\
  (forall c, (c < n)%nat ->
             mget (matrix st) (ring (Z.of_nat i - 1)) c
             = Ttab g p rread b i c) /\
  (forall c, (k <= c < n)%nat ->
             mget (matrix st) (ring (Z.of_nat i)) c
             = Ttab g p rread b (S i) c) /\
  bestInv (fun r c => cmT g p rread b (m - 1 - r) c)
          (doneR m n i k) (fun _ _ _ _ => True)
          (bestScore st) (bestRow st) (bestCol st) /\
  (forall r c, doneR m n i k r c ->
               tagged b m (m - 1 - r) c = true ->
               cmT g p rread b (m - 1 - r) c = match_ p).

Definition bandCell (g : CSR_char_container) (p : Parameters) (read : str)
           (i0 j0 i : nat) (prev cur : nat -> Z) (j : nat) : Z :=
  bandValue p (inNbrs g (j + j0)) j0 prev cur
            (matchScoreOf p (labelOf g (j + j0)) (nth (i + i0) read zero)) j.

(** The table of the band that starts at row [i0] and column [j0]:
    [Btab ... (S i) j] is the value of the band cell (i,j), and
    [Btab ... 0] is the zero row above the band. *)
Fixpoint Btab (g : CSR_char_container) (p : Parameters) (read : str)
         (i0 j0 W : nat) (k : nat) : nat -> Z :=
  match k with
  | O => fun _ => 0
  | S i => rowOf (bandCell g p read i0 j0 i (Btab g p read i0 j0 W i))
                 (seq 0 W)
  end.

(** A matrix of [R] rows of [n] cells. *)
Definition shapeN (R n : nat) (m : list (list Z)) : Prop :=
  length m = R /\ forall r, (r < R)%nat -> length (nth r m []) = n.

(** State of Phase 2.1 before the band cell (i,k) is computed. *)
Definition bandInv (g : CSR_char_container) (p : Parameters) (read : str)
           (i0 j0 Hh W i k : nat) (st : bandState) : Prop :=
  let B := Btab g p read i0 j0 W in
  shape W (bmatrix st) /\
  shapeN Hh W (completeMatrixLog st) /\
  (forall c, (c < W)%nat ->
             mget (bmatrix st) (ring (Z.of_nat i - 1)) c = B i c) /\
  (forall c, (c < k)%nat ->
             mget (bmatrix st) (ring (Z.of_nat i)) c = B (S i) c) /\
  (forall r c, (c < W)%nat -> (r < i \/ (r = i /\ c < k))%nat ->
               mget (completeMatrixLog st) r c
               = to_int8 (B (S r) c - B r c)).

(** State of Phase 2.1 after [k] rows. *)
Definition bandRowsInv (g : CSR_char_container) (p : Parameters)
           (read : str) (i0 j0 Hh W k : nat) (st : bandState) : Prop :=
  bandInv g p read i0 j0 Hh W k 0 st /\
  length (finalRow st) = W /\
  (k = Hh -> forall c, (c < W)%nat ->
                       nth c (finalRow st) 0 = Btab g p read i0 j0 W Hh c).

(** matchScore(r,j). *)
Definition msOf (g : CSR_char_container) (p : Parameters) (read : str)
           (r j : nat) : Z :=
  matchScoreOf p (labelOf g j) (nth r read zero).

(** The reverse table by rows of the query: row [r] of the query is swept
    in iteration [length read - 1 - r]; row [length read] is the zero row
    the sweep starts from. *)
Definition TTab (g : CSR_char_container) (p : Parameters) (read : str)
           (b : BestScoreInfo) (r : nat) : nat -> Z :=
  Ttab g p (rev read) b (length read - r).

(** [currentMax] of the reverse sweep at row [r] of the query. *)
Definition cmO (g : CSR_char_container) (p : Parameters) (read : str)
           (b : BestScoreInfo) (r j : nat) : Z :=
  currentMaxOf p (outNbrs g j) (TTab g p read b (S r)) (TTab g p read b r)
               (msOf g p read r j) j.

(** The record of a query after the reverse sweep. *)
Definition withStart (b : BestScoreInfo) (st : sweepState) : BestScoreInfo :=
  {| score := score b;
     refColumnStart := bestCol st; refColumnEnd := refColumnEnd b;
     qryRowStart := bestRow st; qryRowEnd := qryRowEnd b;
     strand := strand b; qryId := qryId b;
     cigar := cigar b; refColumns := refColumns b |}.

(** The sum of the scores of a sequence of edit operations. *)
Definition opsTotal (p : Parameters) (l : str) : Z :=
  fold_right (fun c acc => opScore p c + acc) 0 l.

Definition isOp (c : ascii) : Prop := digitOf c = None.

(** Two vectors of records that agree on the score, the strand and the
    query id of every record. *)
Definition sameMeta (v1 v2 : list BestScoreInfo) : Prop :=
  length v2 = length v1 /\
  forall k, score (nth k v2 BestScoreInfo0) = score (nth k v1 BestScoreInfo0) /\
            strand (nth k v2 BestScoreInfo0)
            = strand (nth k v1 BestScoreInfo0) /\
            qryId (nth k v2 BestScoreInfo0) = qryId (nth k v1 BestScoreInfo0).

Definition rejects {A} (r : result A) : Prop := r = Err InvalidArgument.

(** The four edit operations of a CIGAR string. *)
Definition editOp (c : ascii) : Prop :=
  c = "="%char \/ c = "X"%char \/ c = "I"%char \/ c = "D"%char.

(** The score of a sequence of edit operations, from the number of
    operations of each kind. *)
Definition editScore (p : Parameters) (l : str) : Z :=
  match_ p * Z.of_nat (count_occ ascii_dec l "="%char)
  - mismatch p * Z.of_nat (count_occ ascii_dec l "X"%char)
  - ins p * Z.of_nat (count_occ ascii_dec l "I"%char)
  - del p * Z.of_nat (count_occ ascii_dec l "D"%char).

(** State of the traceback at the head of its loop, as to what it has
    pushed: one operation per column, and the first column pushed is the
    last column of the band. *)
Definition pushInv (j0 c0 : nat) (st : traceState) : Prop :=
  Forall editOp (ops st) /\
  length (used_cols st) = length (ops st) /\
  ((used_cols st = [] /\ col st = c0) \/
   exists l, used_cols st = (c0 + j0)%nat :: l).

(** What the traceback has pushed when its loop is left from the inside. *)
Definition pushEnd (j0 c0 : nat) (st : traceState) : Prop :=
  Forall editOp (ops st) /\
  (length (ops st) <= length (used_cols st) <= length (ops st) + 1)%nat /\
  exists l, used_cols st = (c0 + j0)%nat :: l.

(** A computation that can only fail on an assertion. *)
Definition assertOnly {A} (r : result A) : Prop :=
  forall e, r = Err e -> e = AssertionFailed.

(** The number of edges of a vector that leave a vertex smaller than [k]. *)
Definition edgesBelow (edges : list (nat * nat)) (k : nat) : nat :=
  length (filter (fun e : nat * nat => (fst e <? k)%nat) edges).

(** The edges of a vector that leave the vertex [i]. *)
Definition edgesFrom (edges : list (nat * nat)) (i : nat) : list (nat * nat) :=
  filter (fun e : nat * nat => (fst e =? i)%nat) edges.

(** A vector of edges in non-decreasing order of the first component. *)
Definition keySorted (edges : list (nat * nat)) : Prop :=
  StronglySorted (fun x y : nat * nat => (fst x <= fst y)%nat) edges.

(** A container whose adjacency vectors are still empty, as the
    constructor leaves them. *)
Definition noEdgesYet (G : CSR.CSR_container) : Prop :=
  CSR.adjcny_in G = [] /\ CSR.adjcny_out G = [].

(** [<from, to> -> <to, from>] *)
Definition swapEdge (e : nat * nat) : nat * nat := (snd e, fst e).

(** What [verify()] asserts, in the order of the source. *)
Definition verified (G : CSR.CSR_container) : Prop :=
  length (CSR.vertex_metadata G) = CSR.numVertices G /\
  (forall seq, In seq (CSR.vertex_metadata G) -> (0 < length seq)%nat) /\
  length (CSR.adjcny_in G) = CSR.numEdges G /\
  length (CSR.adjcny_out G) = CSR.numEdges G /\
  (forall v, In v (CSR.adjcny_in G) -> (v < CSR.numVertices G)%nat) /\
  (forall v, In v (CSR.adjcny_out G) -> (v < CSR.numVertices G)%nat) /\
  length (CSR.offsets_in G) = (CSR.numVertices G + 1)%nat /\
  length (CSR.offsets_out G) = (CSR.numVertices G + 1)%nat /\
  (forall off, In off (CSR.offsets_in G) -> (off <= CSR.numEdges G)%nat) /\
  (forall off, In off (CSR.offsets_out G) -> (off <= CSR.numEdges G)%nat) /\
  CSR.is_sorted (CSR.offsets_in G) = true /\
  CSR.is_sorted (CSR.offsets_out G) = true /\
  last (CSR.offsets_in G) 0%nat = CSR.numEdges G /\
  last (CSR.offsets_out G) 0%nat = CSR.numEdges G /\
  (forall i v, (i < CSR.numVertices G)%nat -> In v (CSR.outNbrs G i) ->
               (i < v)%nat).

(** The number of edges that lead from the vertices of [U] to [w]. *)
Definition inCount (G : CSR.CSR_container) (U : list nat) (w : nat) : nat :=
  list_sum (map (fun u => count_occ Nat.eq_dec (CSR.outNbrs G u) w) U).

(** The in-degrees that [topologicalSort] reads off [offsets_in]. *)
Definition inDegrees (G : CSR.CSR_container) : list Z :=
  map (fun i => Z.of_nat (nth (i + 1) (CSR.offsets_in G) 0%nat)
                - Z.of_nat (nth i (CSR.offsets_in G) 0%nat))
      (seq 0 (CSR.numVertices G)).

(** The two adjacency structures of a container agree: the out-neighbours
    are vertices, and the in-degree of a vertex is the number of edges
    that lead to it. *)
Definition consistent (G : CSR.CSR_container) : Prop :=
  (forall v w, (v < CSR.numVertices G)%nat -> In w (CSR.outNbrs G v) ->
               (w < CSR.numVertices G)%nat) /\
  forall w, (w < CSR.numVertices G)%nat ->
            nth w (inDegrees G) 0
            = Z.of_nat (inCount G (seq 0 (CSR.numVertices G)) w).

(** The container has no cycle: its vertices can be ranked so that every
    edge leads to a higher rank. *)
Definition acyclic (G : CSR.CSR_container) : Prop :=
  exists rank : nat -> nat,
    forall v w, (v < CSR.numVertices G)%nat -> In w (CSR.outNbrs G v) ->
                (rank v < rank w)%nat.

(** [order] numbers the vertices of the container topologically: it is a
    bijection onto the positions and every edge leads to a later
    position. *)
Definition topologicalOrder (G : CSR.CSR_container) (order : list nat)
  : Prop :=
  length order = CSR.numVertices G /\
  (forall v, (v < CSR.numVertices G)%nat ->
             (nth v order 0 < CSR.numVertices G)%nat) /\
  (forall v v', (v < CSR.numVertices G)%nat -> (v' < CSR.numVertices G)%nat ->
                nth v order 0%nat = nth v' order 0%nat -> v = v') /\
  (forall v w, (v < CSR.numVertices G)%nat -> In w (CSR.outNbrs G v) ->
               (nth v order 0 < nth w order 0)%nat).

(** [relax] on the vertex itself. *)
Definition relaxTo (st : list nat * list Z) (w : nat) : list nat * list Z :=
  let '(Q, deg) := st in
  let d := nth w deg 0 - 1 in
  if d =? 0 then (Q ++ [w], list_set w d deg) else (Q, list_set w d deg).

(** State of a run of Kahn's algorithm at the head of its loop; [U] holds
    the vertices that have not left [Q] yet. *)
Definition kahnInv (G : CSR.CSR_container) (U : list nat)
           (st : CSR.kahnState) : Prop :=
  let n := CSR.numVertices G in
  NoDup U /\ (forall u, In u U -> (u < n)%nat) /\
  (CSR.currentOrder st + length U = n)%nat /\
  length (CSR.tmpOrder st) = n /\ length (CSR.deg st) = n /\
  (forall w, (w < n)%nat -> nth w (CSR.deg st) 0 = Z.of_nat (inCount G U w)) /\
  NoDup (CSR.Q st) /\
  (forall w, In w (CSR.Q st) <-> In w U /\ inCount G U w = 0%nat) /\
  (forall v, (v < n)%nat -> ~ In v U ->
             (nth v (CSR.tmpOrder st) 0 < CSR.currentOrder st)%nat) /\
  (forall v v', (v < n)%nat -> (v' < n)%nat -> ~ In v U -> ~ In v' U ->
                nth v (CSR.tmpOrder st) 0%nat = nth v' (CSR.tmpOrder st) 0%nat ->
                v = v') /\
  (forall v w, (v < n)%nat -> In w (CSR.outNbrs G v) -> ~ In w U ->
               ~ In v U /\
               (nth v (CSR.tmpOrder st) 0 < nth w (CSR.tmpOrder st) 0)%nat) /\
  (forall u, In u U -> nth u (CSR.tmpOrder st) 0%nat = 0%nat).

(** [random::select] returns the position of an element. *)
Definition validSelect (select : list nat -> nat) : Prop :=
  forall Q, Q <> [] -> (select Q < length Q)%nat.

(** Every vertex has a sequence, of at most [L] characters. *)
Definition seqBound (G : CSR.CSR_container) (L : Z) : Prop :=
  forall v, (v < CSR.numVertices G)%nat -> 1 <= CSR.seqLength G v <= L.

(** A small container for the examples: four vertices with the sequences
    AC, G, T, GGA and no edge yet, and two vectors of edges, one without
    and one with a cycle. *)
Definition fourVertices : CSR.CSR_container :=
  {| CSR.numVertices := 4; CSR.numEdges := 0;
     CSR.adjcny_in := []; CSR.adjcny_out := [];
     CSR.offsets_in := []; CSR.offsets_out := [];
     CSR.vertex_metadata := [s "AC"; s "G"; s "T"; s "GGA"] |}.

Definition diamondEdges : list (nat * nat) :=
  [(3, 1); (1, 0); (3, 2); (2, 0); (3, 0)]%nat.

Definition cycleEdges : list (nat * nat) :=
  [(0, 1); (1, 2); (2, 1); (2, 3)]%nat.

(** The sum of the first [i] values of [deg]. *)
Definition prefixSum (deg : nat -> nat) (i : nat) : nat :=
  list_sum (map deg (seq 0 i)).

(** What [verify()] asserts of the adjacency vectors and of the offsets,
    and that the offsets start at zero. *)
Definition csrShape (G : CSR.CSR_container) : Prop :=
  length (CSR.adjcny_in G) = CSR.numEdges G /\
  length (CSR.adjcny_out G) = CSR.numEdges G /\
  (forall v, In v (CSR.adjcny_in G) -> (v < CSR.numVertices G)%nat) /\
  (forall v, In v (CSR.adjcny_out G) -> (v < CSR.numVertices G)%nat) /\
  length (CSR.offsets_in G) = (CSR.numVertices G + 1)%nat /\
  length (CSR.offsets_out G) = (CSR.numVertices G + 1)%nat /\
  nth 0 (CSR.offsets_in G) 0%nat = 0%nat /\
  nth 0 (CSR.offsets_out G) 0%nat = 0%nat /\
  CSR.is_sorted (CSR.offsets_in G) = true /\
  CSR.is_sorted (CSR.offsets_out G) = true /\
  last (CSR.offsets_in G) 0%nat = CSR.numEdges G /\
  last (CSR.offsets_out G) 0%nat = CSR.numEdges G.

(** [G'] is [G] with every vertex [v] renamed to [order[v]]. *)
Definition relabelled (G G' : CSR.CSR_container) (order : list nat) : Prop :=
  CSR.numVertices G' = CSR.numVertices G /\
  CSR.numEdges G' = CSR.numEdges G /\
  forall v, (v < CSR.numVertices G)%nat ->
    nth (nth v order 0%nat) (CSR.vertex_metadata G') []
    = nth v (CSR.vertex_metadata G) [] /\
    CSR.outNbrs G' (nth v order 0%nat)
    = map (fun w => nth w order 0%nat) (CSR.outNbrs G v) /\
    CSR.inNbrs G' (nth v order 0%nat)
    = map (fun w => nth w order 0%nat) (CSR.inNbrs G v).

(** The sum of a list of integers. *)
Definition sumZ (l : list Z) : Z := fold_right Z.add 0 l.

(** The distance in characters that an edge from the position [from_pos]
    to the position [to_pos] spans: one plus the number of characters of
    the vertices at the positions strictly in between. *)
Definition span (G : CSR.CSR_container) (vertexAt : nat -> nat)
           (from_pos to_pos : nat) : Z :=
  1 + sumZ (map (fun k => CSR.seqLength G (vertexAt k))
                (seq (from_pos + 1) (to_pos - (from_pos + 1)))).

(** [bw] is the largest span of an edge of the container, or zero when
    there is no edge. *)
Definition maxSpan (G : CSR.CSR_container) (position vertexAt : nat -> nat)
           (bw : Z) : Prop :=
  (forall v w, (v < CSR.numVertices G)%nat -> In w (CSR.outNbrs G v) ->
               span G vertexAt (position v) (position w) <= bw) /\
  (bw = 0 \/
   exists v w, (v < CSR.numVertices G)%nat /\ In w (CSR.outNbrs G v) /\
               bw = span G vertexAt (position v) (position w)).

(** A container without parallel edges whose in-neighbours are the
    sources of its edges. *)
Definition simpleGraph (G : CSR.CSR_container) : Prop :=
  (forall v, (v < CSR.numVertices G)%nat -> NoDup (CSR.outNbrs G v)) /\
  (forall v, (v < CSR.numVertices G)%nat -> NoDup (CSR.inNbrs G v)) /\
  (forall v u, (v < CSR.numVertices G)%nat -> In u (CSR.inNbrs G v) ->
               (u < CSR.numVertices G)%nat /\ In v (CSR.outNbrs G u)).

(** A list without the elements that repeat the one before them; [prev]
    is the element before the list. *)
Fixpoint dedupFrom (prev : nat) (l : list nat) : list nat :=
  match l with
  | [] => []
  | x :: t => if (x =? prev)%nat then dedupFrom prev t
              else x :: dedupFrom x t
  end.

(** No element of the list equals the one before it. *)
Definition noRepeat (l : list nat) : Prop :=
  forall i, (i + 1 < length l)%nat -> nth i l 0%nat <> nth (i + 1) l 0%nat.

(** The numbers of a list in decimal, with dashes in between. *)
Definition dashed (path : list nat) : str :=
  match path with
  | [] => []
  | n :: t => decimal n ++ flat_map (fun m => "-"%char :: decimal m) t
  end.

(** * Properties *)

(** ** Well-formed graphs *)

Lemma topologicalb_sound g : topologicalb g = true -> topological g.
Proof.
  unfold topologicalb, topological. intros Hb j u Hin.
  rewrite forallb_forall in Hb.
  destruct (Nat.lt_ge_cases j (length (offsets_in g))) as [Hlt | Hge].
  - specialize (Hb j). rewrite in_seq in Hb.
    assert (Hj : forallb (fun u => (u <? j)%nat) (inNbrs g j) = true)
      by (apply Hb; lia).
    rewrite forallb_forall in Hj. apply Nat.ltb_lt. now apply Hj.
  - unfold inNbrs, adjRange in Hin.
    rewrite (nth_overflow (offsets_in g) 0%nat (n := (j + 1)%nat)) in Hin
      by lia.
    simpl in Hin. contradiction.
Qed.

(** ** Elementary facts *)

Lemma psgl_max_spec a b : psgl_max a b = Z.max a b.
Proof. unfold psgl_max. destruct (Z.gtb_spec a b); lia. Qed.

Lemma list_set_length {A} k (v : A) l : length (list_set k v l) = length l.
Proof.
  revert k. induction l as [| h t IH]; intros [| k]; simpl; auto.
Qed.

Lemma nth_list_set_same {A} k (v d : A) l :
  (k < length l)%nat -> nth k (list_set k v l) d = v.
Proof.
  revert k. induction l as [| h t IH]; intros [| k] Hk; simpl in *;
    try lia; auto. apply IH. lia.
Qed.

Lemma nth_list_set_other {A} k k' (v d : A) l :
  k <> k' -> nth k' (list_set k v l) d = nth k' l d.
Proof.
  revert k k'. induction l as [| h t IH]; intros [| k] [| k'] Hne; simpl;
    auto; try congruence.
Qed.

Lemma bind_Ok {A B} (r : result A) (k : A -> result B) b :
  bind r k = Ok b -> exists a, r = Ok a /\ k a = Ok b.
Proof. destruct r as [a | e]; simpl; intros H; [eauto | discriminate]. Qed.

Lemma cassert_Ok b u : cassert b = Ok u -> b = true.
Proof. destruct b; simpl; [auto | discriminate]. Qed.

Tactic Notation "inv_bind" hyp(H) "as" ident(x) ident(Hx) :=
  apply bind_Ok in H; destruct H as [x [Hx H]].

Lemma StronglySorted_snoc {A} (R : A -> A -> Prop) l x :
  StronglySorted R l -> Forall (fun y => R y x) l ->
  StronglySorted R (l ++ [x]).
Proof.
  induction 1 as [| a l Hs IH Ha]; intros Hall; simpl.
  - repeat constructor.
  - inversion Hall; subst. constructor; auto.
    rewrite Forall_app. split; auto.
Qed.

Lemma StronglySorted_rev_ge l :
  StronglySorted ge l -> StronglySorted le (rev l).
Proof.
  induction 1 as [| a l Hs IH Ha]; simpl; [constructor |].
  apply StronglySorted_snoc; auto.
  rewrite Forall_forall in *. intros y Hy. apply in_rev in Hy.
  specialize (Ha y Hy). lia.
Qed.

Lemma fold_left_inv {A B} (f : A -> B -> A) (P : A -> Prop) l a :
  P a -> (forall a x, In x l -> P a -> P (f a x)) -> P (fold_left f l a).
Proof.
  revert a. induction l as [| x l IH]; intros a Ha Hstep; simpl; auto.
  apply IH.
  - apply Hstep; simpl; auto.
  - intros a' x' Hin. apply Hstep. simpl; auto.
Qed.

(** ** The traceback reads [fromDeletionPos] only after assigning it *)

(** What the loop over the in-edges leaves in its four variables. *)
Lemma traceEdges_inv p nbrs j0 c above cur ms fm fmp fd fdp :
  traceEdges p nbrs j0 c above cur ms = (fm, fmp, fd, fdp) ->
  (fmp = c \/ exists u, In u nbrs /\ (j0 <= u)%nat /\ fmp = (u - j0)%nat) /\
  ((fd = -1 /\ fdp = None) \/
   (-1 < fd /\ exists u, In u nbrs /\ (j0 <= u)%nat /\
                         fdp = Some (u - j0)%nat /\
                         fd = nth (u - j0) cur 0 - del p)).
Proof.
  unfold traceEdges.
  set (P := fun t : Z * nat * Z * option nat =>
    let '(fm, fmp, fd, fdp) := t in
    (fmp = c \/ exists u, In u nbrs /\ (j0 <= u)%nat /\ fmp = (u - j0)%nat) /\
    ((fd = -1 /\ fdp = None) \/
     (-1 < fd /\ exists u, In u nbrs /\ (j0 <= u)%nat /\
                           fdp = Some (u - j0)%nat /\
                           fd = nth (u - j0) cur 0 - del p))).
  intros H.
  match type of H with
  | fold_left ?f _ ?a = _ => assert (HP : P (fold_left f nbrs a))
  end.
  { apply fold_left_inv.
    - simpl. split; auto.
    - intros [[[fm' fmp'] fd'] fdp'] u Hin [Hm Hd].
      destruct (Nat.leb_spec j0 u) as [Hle | Hgt]; [| split; auto].
      destruct (Z.ltb_spec fm' (nth (u - j0) above 0 + ms));
        destruct (Z.ltb_spec fd' (nth (u - j0) cur 0 - del p));
        (split; [ first [ now (right; exists u) | exact Hm ] | ]);
        try exact Hd;
        (right; split;
         [ destruct Hd as [[-> _] | [Hd _]]; lia
         | exists u; auto ]). }
  rewrite H in HP. exact HP.
Qed.

(** C10. In an iteration of the traceback loop that passes the test
    [currentRowScores[col] <= 0], whenever the deletion branch can be taken
    (the score of the current cell equals [fromDeletion]) the loop over the
    in-edges has assigned [fromDeletionPos] in that iteration: its value is
    the band column of an in-neighbour of the current column that lies in
    the band.  So an iteration never reads the variable unassigned. *)
Theorem fromDeletionPos_assigned_before_read
        g p read i0 j0 reducedWidth log st fm fmp fd fdp :
  let cur := currentRowScores st in
  let above := map (fun k => nth k cur 0 - mget log (Z.to_nat (row st)) k)
                   (seq 0 reducedWidth) in
  let ms := matchScoreOf p (nth (col st + j0) (vertex_label g) zero)
                         (nth (Z.to_nat (row st) + i0) read zero) in
  traceEdges p (inNbrs g (col st + j0)) j0 (col st) above cur ms
  = (fm, fmp, fd, fdp) ->
  0 < nth (col st) cur 0 ->
  nth (col st) cur 0 = fd ->
  (exists u, In u (inNbrs g (col st + j0)) /\ (j0 <= u)%nat /\
             fdp = Some (u - j0)%nat) /\
  trace_step g p read i0 j0 reducedWidth log st <> Err RuntimeFault.
Proof.
  intros cur above ms HE Hpos Hdel.
  pose proof (traceEdges_inv _ _ _ _ _ _ _ _ _ _ _ HE) as [_ Hd].
  destruct Hd as [[Hfd _] | [_ [u [Hin [Hle [Hfdp _]]]]]]; [lia |].
  split; [exists u; auto |].
  unfold trace_step. fold cur.
  destruct (Z.leb_spec (nth (col st) cur 0) 0); [lia |].
  fold above. fold ms. rewrite HE.
  destruct (nth (col st) cur 0 =? fm).
  - destruct (fmp =? col st)%nat; discriminate.
  - rewrite Hdel, Z.eqb_refl, Hfdp. discriminate.
Qed.

Lemma fromDeletionPos_assigned_before_read_witness :
  exists fdp,
    (exists u, In u (inNbrs (graphOfEdges (s "ACG") [(0, 1); (1, 2)]%nat) 1)
               /\ (0 <= u)%nat /\ fdp = Some (u - 0)%nat) /\
    trace_step (graphOfEdges (s "ACG") [(0, 1); (1, 2)]%nat)
               {| match_ := 2; mismatch := 1; ins := 1; del := 1 |}
               (s "AG") 0 0 3 [[2; 1; 0]; [-1; 0; 3]]
               {| ops := ["="%char]; used_cols := [2%nat];
                  currentRowScores := [2; 1; 0]; col := 1; row := 0 |}
    <> Err RuntimeFault.
Proof.
  eexists.
  apply (fromDeletionPos_assigned_before_read
           (graphOfEdges (s "ACG") [(0, 1); (1, 2)]%nat)
           {| match_ := 2; mismatch := 1; ins := 1; del := 1 |}
           (s "AG") 0 0 3 [[2; 1; 0]; [-1; 0; 3]]
           {| ops := ["="%char]; used_cols := [2%nat];
              currentRowScores := [2; 1; 0]; col := 1; row := 0 |}
           (-1) 1%nat 1 (Some 0%nat)).
  - reflexivity.
  - simpl. lia.
  - reflexivity.
Defined.

(** ** The columns visited by the traceback *)

Lemma traceInv_push j0 W st c' :
  traceInv j0 W st -> (c' <= col st)%nat ->
  (c' < W)%nat /\
  StronglySorted ge (used_cols st ++ [(col st + j0)%nat]) /\
  Forall (fun c => (c' + j0 <= c <= j0 + W - 1)%nat)
         (used_cols st ++ [(col st + j0)%nat]).
Proof.
  intros (Hc & Hs & Hb) Hle. split; [lia |]. split.
  - apply StronglySorted_snoc; auto.
    eapply Forall_impl; [| exact Hb]. simpl. intros; lia.
  - rewrite Forall_app. split.
    + eapply Forall_impl; [| exact Hb]. simpl. intros; lia.
    + constructor; [lia | constructor].
Qed.

Lemma trace_step_inv g p read i0 j0 W log st st' continue :
  topological g ->
  traceInv j0 W st ->
  trace_step g p read i0 j0 W log st = Ok (st', continue) ->
  traceInv j0 W st'.
Proof.
  intros Htopo Hinv. unfold trace_step.
  destruct (nth (col st) (currentRowScores st) 0 <=? 0).
  { intros H; inversion H; subst; clear H.
    apply (traceInv_push j0 W st (col st)); auto. }
  destruct (traceEdges _ _ _ _ _ _ _) as [[[fm fmp] fd] fdp] eqn:HE.
  apply traceEdges_inv in HE. destruct HE as [Hm Hd].
  assert (Hfmp : (fmp <= col st)%nat).
  { destruct Hm as [-> | (u & Hin & Hle & ->)]; [lia |].
    apply Htopo in Hin. lia. }
  destruct (nth (col st) (currentRowScores st) 0 =? fm).
  { destruct (fmp =? col st)%nat; intros H; inversion H; subst; clear H.
    - apply (traceInv_push j0 W st (col st)); auto.
    - apply (traceInv_push j0 W st fmp); auto. }
  destruct (nth (col st) (currentRowScores st) 0 =? fd).
  { destruct fdp as [pos |]; [| discriminate].
    intros H; inversion H; subst; clear H.
    apply (traceInv_push j0 W st pos); auto.
    destruct Hd as [[_ Hn] | (_ & u & Hin & Hle & Hs & _)];
      [discriminate |].
    inversion Hs; subst. apply Htopo in Hin. lia. }
  intros H. inv_bind H as u Hu. inversion H; subst; clear H.
  apply (traceInv_push j0 W st (col st)); auto.
Qed.

Lemma trace_loop_inv budget g p read i0 j0 W log st st' :
  topological g ->
  traceInv j0 W st ->
  trace_loop budget g p read i0 j0 W log st = Ok st' ->
  traceInv j0 W st'.
Proof.
  intros Htopo. revert st.
  induction budget as [| budget IH]; intros st Hinv; simpl.
  - destruct (row st <? 0); [| discriminate].
    intros H; inversion H; subst; auto.
  - destruct (row st <? 0).
    { intros H; inversion H; subst; auto. }
    intros H. inv_bind H as a Ha. destruct a as [st1 continue].
    pose proof (trace_step_inv _ _ _ _ _ _ _ _ _ _ Htopo Hinv Ha) as Hinv1.
    destruct continue.
    + eapply IH; eauto.
    + inversion H; subst; auto.
Qed.

Lemma bandSize_Ok first last W :
  bandSize first last = Ok W ->
  Z.of_nat W = Z.of_nat last - Z.of_nat first + 1.
Proof.
  unfold bandSize.
  destruct (Z.ltb_spec (Z.of_nat last - Z.of_nat first + 1) 0) as [Hn | Hn];
    [discriminate |].
  intros H; inversion H. lia.
Qed.

(** C7. On a topologically numbered graph, the list [refColumns] that
    Phase 2 stores is non-decreasing, and each of its columns lies in the
    band [refColumnStart .. refColumnEnd]. *)
Theorem refColumns_sorted_in_band g p read b r :
  topological g ->
  phase2_read g p read b = Ok r ->
  StronglySorted le (refColumns r) /\
  Forall (fun c => (refColumnStart b <= c <= refColumnEnd b)%nat)
         (refColumns r).
Proof.
  intros Htopo H. unfold phase2_read in H.
  inv_bind H as band Hband. inv_bind H as t Ht.
  inv_bind H as u Hu. inversion H; subst; clear H. simpl.
  unfold phase2_trace in Ht.
  inv_bind Ht as W HW. inv_bind Ht as Hh HHh.
  apply bandSize_Ok in HW.
  destruct (Nat.eqb_spec W 0) as [HW0 | HW0].
  { inversion Ht; subst; simpl. split; constructor. }
  assert (Hinv : traceInv (refColumnStart b) W t).
  { eapply trace_loop_inv; [exact Htopo | | exact Ht].
    repeat split; simpl; [lia | constructor | constructor]. }
  destruct Hinv as (_ & Hs & Hb). split.
  - now apply StronglySorted_rev_ge.
  - apply Forall_rev. eapply Forall_impl; [| exact Hb].
    simpl. intros c Hc. lia.
Qed.

Lemma refColumns_sorted_in_band_witness :
  let g := graphOfEdges (s "ACGT") [(0, 1); (0, 2); (1, 3); (2, 3)]%nat in
  let b := {| score := 3; refColumnStart := 0; refColumnEnd := 3;
              qryRowStart := 0; qryRowEnd := 2; strand := "+"%char;
              qryId := 0; cigar := []; refColumns := [] |} in
  topological g /\
  exists r, phase2_read g unitScores (s "ACT") b = Ok r /\
            refColumns r = [0; 1; 3]%nat /\
            StronglySorted le (refColumns r) /\
            Forall (fun c => (refColumnStart b <= c <= refColumnEnd b)%nat)
                   (refColumns r).
Proof.
  intros g b.
  assert (Htopo : topological g)
    by (apply topologicalb_sound; vm_compute; reflexivity).
  split; [exact Htopo |].
  eexists. split; [vm_compute; reflexivity |].
  split; [reflexivity |].
  apply (refColumns_sorted_in_band g unitScores (s "ACT") b _ Htopo).
  vm_compute; reflexivity.
Defined.

(** ** Runs of the pipeline on small inputs *)

(** C3 at the graph with the single vertex "A" and the query "A" (scores
    1,1,1,1).  Phase 1 finds the score 1 ending at cell (0,0).  The reverse
    sweep computes [match] at the mirror cell and stores [match + 1] there,
    but it has updated [bestScore] before, from [currentMax]: the best score
    it observes is 1, not 1 + 1, and the assertion after the sweep fails. *)
Theorem reverse_best_single_match :
  let g := chainGraph (s "A") in
  let b := phase1_record g unitScores (s "A") in
  (score b = 1 /\ qryRowEnd b = 0%nat /\ refColumnEnd b = 0%nat) /\
  (exists st,
      phase1_rev_rows g unitScores (reverse (s "A")) b
                      (sweepInit (freshMatrix g)) 1 = Ok st /\
      mget (matrix st) 0 0 = match_ unitScores + 1 /\
      bestScore st = 1 /\ bestScore st <> score b + 1) /\
  phase1_rev_read g unitScores (reverse (s "A")) b (freshMatrix g)
  = Err AssertionFailed /\
  alignToDAGLocal [s "A"] g unitScores = Err AssertionFailed.
Proof.
  intros g b. split; [vm_compute; auto |]. split.
  - eexists. split; [vm_compute; reflexivity |].
    vm_compute. repeat split; discriminate.
  - split; vm_compute; reflexivity.
Qed.

(** C8 at the graph with the single vertex "A" and the query "C" (scores
    1,1,1,1).  The best local score is 0; the reverse sweep computes 0 at
    the mirror cell, the assertion [currentMax == parameters.match] fails
    and the run aborts: no record is produced. *)
Theorem zero_score_query_aborts :
  let g := chainGraph (s "A") in
  let b := phase1_record g unitScores (s "C") in
  score b = 0 /\
  phase1_rev_read g unitScores (reverse (s "C")) b (freshMatrix g)
  = Err AssertionFailed /\
  alignToDAGLocal [s "C"] g unitScores = Err AssertionFailed.
Proof.
  intros g b. repeat split; vm_compute; reflexivity.
Qed.

(** ** Strand selection *)

(** C1 fails on the code.  In the chain AACTT the vertices 0,1,2 spell AAC,
    whose reverse complement is the query GTT.  The record of that query
    has the strand '+', and its score is 2 (the query as it is, on TT)
    although AAC itself scores 3. *)
Lemma strand_selection_counterexample :
  let g := chainGraph (s "AACTT") in
  let q := s "GTT" in
  isPath g [0; 1; 2]%nat = true /\
  q = reverseComplement (pathLabel g [0; 1; 2]%nat) /\
  exists r,
    alignToDAGLocal [q] g unitScores = Ok [r] /\
    strand r <> "-"%char /\
    score r <> score (phase1_record g unitScores (pathLabel g [0; 1; 2]%nat)).
Proof.
  intros g q. split; [reflexivity |]. split; [reflexivity |].
  eexists. split; [vm_compute; reflexivity |].
  split; vm_compute; discriminate.
Qed.

(** ** Rows built column by column *)

Section RowOf.
Variable cell : (nat -> Z) -> nat -> Z.
Variable dep : nat -> list nat.
Hypothesis cell_ext :
  forall f f' j, (forall u, In u (dep j) -> f u = f' u) ->
                 cell f j = cell f' j.

Let step := rowStep cell.

Lemma sweep_notin order f c :
  ~ In c order -> fold_left step order f c = f c.
Proof.
  revert f. induction order as [| j order IH]; intros f Hn; simpl; auto.
  rewrite IH by (simpl in Hn; tauto).
  unfold step, rowStep, upd. destruct (Nat.eqb_spec c j); auto.
  subst. simpl in Hn. tauto.
Qed.

Lemma rowOf_notin order c : ~ In c order -> rowOf cell order c = 0.
Proof. intros Hn. unfold rowOf. now rewrite (sweep_notin order _ c Hn). Qed.

(** The columns a cell depends on come earlier in the order. *)
Definition depsBefore (order : list nat) : Prop :=
  forall l1 j l2, order = l1 ++ j :: l2 ->
                  forall u, In u (dep j) -> In u l1.

Lemma rowOf_rec order j :
  NoDup order -> depsBefore order -> In j order ->
  rowOf cell order j = cell (rowOf cell order) j.
Proof.
  intros Hnd Hdeps Hin.
  destruct (in_split _ _ Hin) as (l1 & l2 & Heq).
  unfold rowOf. fold step. rewrite Heq, fold_left_app. simpl.
  set (f1 := fold_left step l1 (fun _ => 0)).
  assert (Hnd' : NoDup (l1 ++ j :: l2)) by (rewrite <- Heq; exact Hnd).
  assert (Hj2 : ~ In j l2).
  { apply NoDup_remove_2 in Hnd'. rewrite in_app_iff in Hnd'. tauto. }
  rewrite (sweep_notin l2 _ j Hj2).
  assert (Hj : step f1 j j = cell f1 j)
    by (unfold step, rowStep, upd; now rewrite Nat.eqb_refl).
  rewrite Hj.
  apply cell_ext. intros u Hu.
  assert (Hu1 : In u l1) by (eapply Hdeps; eauto).
  assert (Hu2 : ~ In u (j :: l2)).
  { intros Hc. clear - Hnd' Hu1 Hc.
    induction l1 as [| a l1 IH]; simpl in *; [contradiction |].
    inversion Hnd'; subst. destruct Hu1 as [-> | Hu1].
    - apply H1. rewrite in_app_iff. auto.
    - apply IH; auto. }
  rewrite (sweep_notin l2 _ u) by (simpl in Hu2; tauto).
  unfold step, rowStep, upd. destruct (Nat.eqb_spec u j); auto.
  subst. simpl in Hu2. tauto.
Qed.
End RowOf.

Lemma seq_split_before a n l1 j l2 :
  seq a n = l1 ++ j :: l2 -> forall u, (a <= u < j)%nat -> In u l1.
Proof.
  revert a n. induction l1 as [| x l1 IH]; intros a n Heq u Hu.
  - destruct n; simpl in Heq; [discriminate |]. inversion Heq. lia.
  - destruct n; simpl in Heq; [discriminate |]. inversion Heq; subst.
    destruct (Nat.eq_dec u x) as [-> | Hne]; [now left |].
    right. eapply IH; eauto. lia.
Qed.

Lemma countdown_In n u : In u (countdown n) <-> (u < n)%nat.
Proof.
  induction n as [| k IH]; simpl; [lia |]. rewrite IH. lia.
Qed.

Lemma countdown_NoDup n : NoDup (countdown n).
Proof.
  induction n as [| k IH]; simpl; constructor; auto.
  rewrite countdown_In. lia.
Qed.

Lemma countdown_split_before n l1 j l2 :
  countdown n = l1 ++ j :: l2 -> forall u, (j < u < n)%nat -> In u l1.
Proof.
  revert l1. induction n as [| k IH]; intros l1 Heq u Hu; simpl in Heq.
  - destruct l1; discriminate.
  - destruct l1 as [| x l1]; simpl in Heq; inversion Heq; subst; [lia |].
    destruct (Nat.eq_dec u x) as [-> | Hne]; [now left |].
    right. eapply IH; eauto. lia.
Qed.

(** ** The value of a cell *)

Lemma currentMaxOf_ext p nbrs prev prev' cur cur' ms j :
  (forall u, In u nbrs -> prev u = prev' u) ->
  (forall u, In u nbrs -> cur u = cur' u) ->
  prev j = prev' j ->
  currentMaxOf p nbrs prev cur ms j = currentMaxOf p nbrs prev' cur' ms j.
Proof.
  intros Hp Hc Hj. unfold currentMaxOf. rewrite Hj. f_equal.
  generalize (psgl_max 0 ms).
  induction nbrs as [| u nbrs IH]; intros a; simpl; auto.
  rewrite (Hp u), (Hc u) by (simpl; auto).
  apply IH; intros; [apply Hp | apply Hc]; simpl; auto.
Qed.





(** Lower bounds of [currentMax]: every candidate of the recurrence. *)
Lemma currentMaxOf_lb p nbrs prev cur ms j :
  let cm := currentMaxOf p nbrs prev cur ms j in
  0 <= cm /\ ms <= cm /\ prev j - ins p <= cm /\
  forall u, In u nbrs -> prev u + ms <= cm /\ cur u - del p <= cm.
Proof.
  unfold currentMaxOf. rewrite !psgl_max_spec.
  set (f := fun cm u =>
              psgl_max (psgl_max cm (prev u + ms)) (cur u - del p)).
  assert (Hfold : forall l a,
    a <= fold_left f l a /\
    forall u, In u l -> prev u + ms <= fold_left f l a /\
                        cur u - del p <= fold_left f l a).
  { induction l as [| v l IH]; intros a; simpl; [split; [lia | tauto] |].
    destruct (IH (f a v)) as [Ha Hl].
    assert (Hf : a <= f a v /\ prev v + ms <= f a v /\
                 cur v - del p <= f a v)
      by (unfold f; rewrite !psgl_max_spec; lia).
    split; [lia |]. intros u [-> | Hu]; [lia | auto]. }
  destruct (Hfold nbrs (Z.max 0 ms)) as [Ha Hl].
  repeat split; try lia; destruct (Hl u H); lia.
Qed.

(** [currentMax] is one of the candidates of the recurrence. *)
Lemma currentMaxOf_cases p nbrs prev cur ms j :
  let cm := currentMaxOf p nbrs prev cur ms j in
  cm = 0 \/ cm = ms \/ cm = prev j - ins p \/
  exists u, In u nbrs /\ (cm = prev u + ms \/ cm = cur u - del p).
Proof.
  unfold currentMaxOf. rewrite !psgl_max_spec.
  set (f := fun cm u =>
              psgl_max (psgl_max cm (prev u + ms)) (cur u - del p)).
  assert (Hfold : forall l a,
    fold_left f l a = a \/
    exists u, In u l /\ (fold_left f l a = prev u + ms \/
                         fold_left f l a = cur u - del p)).
  { induction l as [| v l IH]; intros a; simpl; [auto |].
    destruct (IH (f a v)) as [Ha | (u & Hu & Hc)].
    - rewrite Ha. unfold f. rewrite !psgl_max_spec.
      destruct (Z.max_spec (Z.max a (prev v + ms)) (cur v - del p))
        as [[_ ->] | [_ ->]]; [right; exists v; auto |].
      destruct (Z.max_spec a (prev v + ms)) as [[_ ->] | [_ ->]];
        [right; exists v; auto | auto].
    - right. exists u. auto. }
  destruct (Hfold nbrs (Z.max 0 ms)) as [Ha | (u & Hu & Hc)].
  - rewrite Ha. lia.
  - destruct (Z.max_spec (fold_left f nbrs (Z.max 0 ms)) (prev j - ins p))
      as [[_ ->] | [_ ->]]; [auto |].
    right. right. right. exists u. auto.
Qed.


(** The forward table satisfies the recurrence on a topologically numbered
    graph. *)
Lemma Htab_rec g p read i j :
  topological g -> (j < numVertices g)%nat ->
  Htab g p read (S i) j
  = fwdCell g p (nth i read zero) (Htab g p read i) (Htab g p read (S i)) j.
Proof.
  intros Htopo Hj. simpl.
  apply (rowOf_rec _ (inNbrs g)).
  - intros f f' c Hext. unfold fwdCell. now apply currentMaxOf_ext.
  - apply seq_NoDup.
  - intros l1 c l2 Heq u Hu. eapply seq_split_before; eauto.
    apply Htopo in Hu. lia.
  - apply in_seq. lia.
Qed.

Lemma Htab_nonneg g p read k j : 0 <= Htab g p read k j.
Proof.
  destruct k as [| i]; simpl; [lia |].
  destruct (in_dec Nat.eq_dec j (seq 0 (numVertices g))) as [Hin | Hout].
  - unfold rowOf.
    set (P := fun f : nat -> Z => forall c, 0 <= f c).
    apply (fold_left_inv _ P); unfold P; [intros; lia |].
    intros f x _ Hf c. unfold rowStep, upd.
    destruct (c =? x)%nat; auto.
    unfold fwdCell. apply currentMaxOf_lb.
  - rewrite rowOf_notin; auto; lia.
Qed.

(** ** The two-row matrix *)

Lemma land_1_mod x : Z.land x 1 = x mod 2.
Proof. change 1 with (Z.ones 1). rewrite Z.land_ones by lia. reflexivity. Qed.

Lemma ring_facts i :
  (ring (Z.of_nat i) < 2)%nat /\
  ring (Z.of_nat i - 1) = (1 - ring (Z.of_nat i))%nat.
Proof.
  unfold ring. rewrite !land_1_mod.
  pose proof (Z.mod_pos_bound (Z.of_nat i) 2 ltac:(lia)).
  pose proof (Z.mod_pos_bound (Z.of_nat i - 1) 2 ltac:(lia)).
  pose proof (Z.div_mod (Z.of_nat i) 2 ltac:(lia)).
  pose proof (Z.div_mod (Z.of_nat i - 1) 2 ltac:(lia)).
  lia.
Qed.

Lemma ring_S i : ring (Z.of_nat (S i) - 1) = ring (Z.of_nat i).
Proof. f_equal. lia. Qed.

Lemma nth_list_set {A} k k' (v d : A) l :
  nth k' (list_set k v l) d
  = if ((k' =? k) && (k <? length l))%nat then v else nth k' l d.
Proof.
  destruct (Nat.eqb_spec k' k) as [-> | Hne]; simpl.
  - destruct (Nat.ltb_spec k (length l)).
    + now apply nth_list_set_same.
    + rewrite !nth_overflow; auto; rewrite ?list_set_length; lia.
  - apply nth_list_set_other. congruence.
Qed.

Lemma mset_shape n m r c v : shape n m -> shape n (mset m r c v).
Proof.
  intros [Hl Hr]. unfold mset. split; [now rewrite list_set_length |].
  intros r' Hr'. rewrite nth_list_set.
  destruct ((r' =? r) && (r <? length m))%nat eqn:E; auto.
  rewrite list_set_length. apply Hr.
  apply andb_true_iff in E. destruct E as [E _].
  apply Nat.eqb_eq in E. lia.
Qed.

Lemma mget_mset n m r c v r' c' :
  shape n m -> (r < 2)%nat -> (c < n)%nat ->
  mget (mset m r c v) r' c'
  = if ((r' =? r) && (c' =? c))%nat then v else mget m r' c'.
Proof.
  intros [Hl Hr] Hr2 Hc. unfold mget, mset. rewrite nth_list_set.
  destruct (Nat.eqb_spec r' r) as [-> | Hne]; simpl; auto.
  replace (r <? length m)%nat with true
    by (symmetry; apply Nat.ltb_lt; lia).
  rewrite nth_list_set. rewrite (Hr r Hr2).
  replace (c <? n)%nat with true by (symmetry; apply Nat.ltb_lt; lia).
  now rewrite andb_true_r.
Qed.

Lemma sweepInit_shape n m0 : shape n m0 -> shape n (matrix (sweepInit m0)).
Proof.
  intros [Hl Hr]. unfold sweepInit. cbn [matrix].
  split; [now rewrite list_set_length |].
  intros r Hr2. rewrite nth_list_set.
  destruct ((r =? 1) && (1 <? length m0))%nat; auto.
  rewrite length_map. apply Hr. lia.
Qed.

Lemma nth_map_zero {A} (l : list A) c : nth c (map (fun _ => 0) l) 0 = 0.
Proof. revert c. induction l; intros [| c]; simpl; auto. Qed.

Lemma sweepInit_row1 n m0 c :
  shape n m0 -> mget (matrix (sweepInit m0)) 1 c = 0.
Proof.
  intros [Hl Hr]. unfold sweepInit. cbn [matrix].
  unfold mget. rewrite nth_list_set.
  rewrite Hl. simpl. apply nth_map_zero.
Qed.

Lemma sweepInit_row0 m0 c :
  mget (matrix (sweepInit m0)) 0 c = mget m0 0 c.
Proof.
  unfold sweepInit. cbn [matrix]. unfold mget.
  now rewrite nth_list_set_other by discriminate.
Qed.

Lemma freshMatrix_shape g : shape (numVertices g) (freshMatrix g).
Proof.
  unfold freshMatrix. split; [reflexivity |].
  intros [| [| r]] Hr; simpl; try lia; apply repeat_length.
Qed.

(** ** Tracking the best cell *)

Lemma bestInv_step val done done' (le2 : nat -> nat -> nat -> nat -> Prop)
      b br bc i k v :
  bestInv val done le2 b br bc ->
  val i k = v -> 0 <= v ->
  (forall r c, done' r c <-> done r c \/ (r = i /\ c = k)) ->
  (forall r c, done' r c -> le2 r c i k) ->
  if psgl_max b v =? v
  then bestInv val done' le2 v i k
  else bestInv val done' le2 (psgl_max b v) br bc.
Proof.
  intros (Hb & Hub & Hlast) Hv Hv0 Hdone Hle. rewrite psgl_max_spec.
  destruct (Z.eqb_spec (Z.max b v) v) as [He | Hne].
  - split; [lia |]. split.
    + intros r c Hrc. apply Hdone in Hrc.
      destruct Hrc as [Hrc | [-> ->]]; [specialize (Hub r c Hrc) |]; lia.
    + right. split; [apply Hdone; auto |]. split; auto.
  - assert (Hlt : v < b) by lia.
    replace (Z.max b v) with b by lia.
    split; [lia |]. split.
    + intros r c Hrc. apply Hdone in Hrc.
      destruct Hrc as [Hrc | [-> ->]]; [auto | lia].
    + destruct Hlast as [(Hnone & -> & _) | (Hd & Hval & Hl)]; [lia |].
      right. split; [apply Hdone; auto |]. split; auto.
      intros r c Hrc Hrcv. apply Hdone in Hrc.
      destruct Hrc as [Hrc | [-> ->]]; [auto | lia].
Qed.

(** ** Phase 1 computes the forward table *)

Lemma phase1_cell_inv g p read i k st :
  topological g -> (k < numVertices g)%nat ->
  colInv g p read i k st ->
  colInv g p read i (S k) (phase1_cell g p read i st k).
Proof.
  intros Htopo Hk (Hsh & Hprev & Hcur & Hbest).
  destruct (ring_facts i) as [Hr2 Hrp].
  unfold phase1_cell.
  set (v := currentMaxOf _ _ _ _ _ _).
  assert (Hv : v = Htab g p read (S i) k).
  { rewrite Htab_rec by auto. unfold v, fwdCell, labelOf.
    apply currentMaxOf_ext.
    - intros u Hu. apply Hprev. apply Htopo in Hu. lia.
    - intros u Hu. apply Hcur. now apply Htopo in Hu.
    - now apply Hprev. }
  assert (Hv0 : 0 <= v) by (rewrite Hv; apply Htab_nonneg).
  assert (Hm : forall r c,
    mget (mset (matrix st) (ring (Z.of_nat i)) k v) r c
    = if ((r =? ring (Z.of_nat i)) && (c =? k))%nat
      then v else mget (matrix st) r c).
  { intros. now apply (mget_mset (numVertices g)). }
  pose proof (bestInv_step _ _ (processed (numVertices g) i (S k)) lexle
                           _ _ _ i k v Hbest (eq_sym Hv) Hv0) as Hstep.
  assert (Hbest' :
    if psgl_max (bestScore st) v =? v
    then bestInv (fun r c => Htab g p read (S r) c)
                 (processed (numVertices g) i (S k)) lexle v i k
    else bestInv (fun r c => Htab g p read (S r) c)
                 (processed (numVertices g) i (S k)) lexle
                 (psgl_max (bestScore st) v) (bestRow st) (bestCol st)).
  { apply Hstep.
    - unfold processed. intros r c. lia.
    - unfold processed, lexle. intros r c [Hc [Hr | [-> Hck]]]; lia. }
  assert (Hmat : shape (numVertices g)
                       (mset (matrix st) (ring (Z.of_nat i)) k v) /\
    (forall c, (c < numVertices g)%nat ->
       mget (mset (matrix st) (ring (Z.of_nat i)) k v)
            (ring (Z.of_nat i - 1)) c = Htab g p read i c) /\
    (forall c, (c < S k)%nat ->
       mget (mset (matrix st) (ring (Z.of_nat i)) k v)
            (ring (Z.of_nat i)) c = Htab g p read (S i) c)).
  { split; [now apply mset_shape |]. split.
    - intros c Hc. rewrite Hm.
      replace (ring (Z.of_nat i - 1) =? ring (Z.of_nat i))%nat with false
        by (symmetry; apply Nat.eqb_neq; lia).
      simpl. now apply Hprev.
    - intros c Hc. rewrite Hm, Nat.eqb_refl. simpl.
      destruct (Nat.eqb_spec c k) as [-> | Hne]; auto.
      apply Hcur. lia. }
  destruct Hmat as (H1 & H2 & H3).
  destruct (psgl_max (bestScore st) v =? v);
    unfold colInv; cbn [matrix bestScore bestRow bestCol];
    (split; [exact H1 | split; [exact H2 | split; [exact H3 | exact Hbest']]]).
Qed.

Lemma phase1_cols_inv g p read i st k :
  topological g -> (k <= numVertices g)%nat ->
  colInv g p read i 0 st ->
  colInv g p read i k (fold_left (phase1_cell g p read i) (seq 0 k) st).
Proof.
  intros Htopo. induction k as [| k IH]; intros Hk Hinv; [simpl; auto |].
  rewrite seq_S, fold_left_app. simpl.
  apply phase1_cell_inv; auto. apply IH; auto. lia.
Qed.

Lemma colInv_next_row g p read i st :
  colInv g p read i (numVertices g) st -> colInv g p read (S i) 0 st.
Proof.
  intros (Hsh & Hprev & Hcur & Hbest). split; auto. split.
  - intros c Hc. rewrite ring_S. now apply Hcur.
  - split; [intros c Hc; lia |].
    destruct Hbest as (Hb & Hub & Hlast).
    assert (Heq : forall r c, processed (numVertices g) (S i) 0 r c
                              <-> processed (numVertices g) i (numVertices g) r c)
      by (unfold processed; intros; lia).
    split; auto. split.
    + intros r c Hrc. apply Hub. now apply Heq.
    + destruct Hlast as [(Hnone & Hz) | (Hd & Hval & Hl)].
      * left. split; auto. intros r c Hrc. apply (Hnone r c). now apply Heq.
      * right. split; [now apply Heq |]. split; auto.
        intros r c Hrc. apply Hl. now apply Heq.
Qed.

Lemma phase1_rows_inv g p read st k :
  topological g ->
  colInv g p read 0 0 st ->
  colInv g p read k 0 (phase1_rows g p read st k).
Proof.
  intros Htopo Hinv. unfold phase1_rows.
  induction k as [| k IH]; [simpl; auto |].
  rewrite seq_S, fold_left_app. simpl.
  apply colInv_next_row. unfold phase1_row.
  apply phase1_cols_inv; auto.
Qed.

Lemma sweepInit_inv g p read m0 :
  shape (numVertices g) m0 -> colInv g p read 0 0 (sweepInit m0).
Proof.
  intros Hsh. split; [now apply sweepInit_shape |]. split.
  - intros c Hc. change (ring (Z.of_nat 0 - 1)) with 1%nat.
    now rewrite (sweepInit_row1 (numVertices g)).
  - split; [intros; lia |]. split; [simpl; lia |]. split.
    + unfold processed. intros; lia.
    + left. unfold processed. simpl. split; auto. intros; lia.
Qed.

Lemma Hcode_Htab g p read m0 i j :
  topological g -> shape (numVertices g) m0 -> (j < numVertices g)%nat ->
  Hcode g p read m0 (Z.of_nat i) j = Htab g p read (S i) j.
Proof.
  intros Htopo Hsh Hj. unfold Hcode.
  destruct (Z.ltb_spec (Z.of_nat i) 0); [lia |].
  rewrite Nat2Z.id.
  pose proof (phase1_rows_inv g p read _ (S i) Htopo
                              (sweepInit_inv g p read m0 Hsh))
    as (_ & Hprev & _).
  rewrite <- ring_S. now apply Hprev.
Qed.


Lemma phase1_read_best g p read m0 :
  topological g -> shape (numVertices g) m0 ->
  let st := phase1_read g p read m0 in
  bestInv (fun r c => Htab g p read (S r) c)
          (fun r c => (r < length read)%nat /\ (c < numVertices g)%nat)
          lexle (bestScore st) (bestRow st) (bestCol st).
Proof.
  intros Htopo Hsh st.
  pose proof (phase1_rows_inv g p read _ (length read) Htopo
                              (sweepInit_inv g p read m0 Hsh))
    as (_ & _ & _ & (Hb & Hub & Hlast)).
  fold (phase1_read g p read m0) in Hb, Hub, Hlast. fold st in Hb, Hub, Hlast.
  assert (Heq : forall r c,
    processed (numVertices g) (length read) 0 r c
    <-> (r < length read)%nat /\ (c < numVertices g)%nat)
    by (unfold processed; intros; lia).
  split; auto. split.
  - intros r c Hrc. apply Hub. now apply Heq.
  - destruct Hlast as [(Hnone & Hz) | (Hd & Hval & Hl)].
    + left. split; auto. intros r c Hrc. apply (Hnone r c). now apply Heq.
    + right. split; [now apply Heq |]. split; auto.
      intros r c Hrc. apply Hl. now apply Heq.
Qed.


(** Among the cells whose value is the final maximum, one sweep of Phase 1
    holds at the end the last one in row-major order. *)
Lemma phase1_read_last_maximum g p read matrix0 :
  topological g ->
  shape (numVertices g) matrix0 ->
  (0 < length read)%nat ->
  (0 < numVertices g)%nat ->
  let H := Hcode g p read matrix0 in
  let st := phase1_read g p read matrix0 in
  (bestRow st < length read)%nat /\ (bestCol st < numVertices g)%nat /\
  H (Z.of_nat (bestRow st)) (bestCol st) = bestScore st /\
  forall i j, (i < length read)%nat -> (j < numVertices g)%nat ->
    H (Z.of_nat i) j <= bestScore st /\
    (H (Z.of_nat i) j = bestScore st ->
     (i < bestRow st \/ (i = bestRow st /\ j <= bestCol st))%nat).
Proof.
  intros Htopo Hsh Hm Hn H st.
  pose proof (phase1_read_best g p read matrix0 Htopo Hsh)
    as (Hb & Hub & Hlast).
  fold st in Hb, Hub, Hlast.
  destruct Hlast as [(Hnone & _) | ((Hr & Hc) & Hval & Hl)].
  { exfalso. apply (Hnone 0%nat 0%nat). lia. }
  split; auto. split; auto. split.
  - unfold H. now rewrite Hcode_Htab.
  - intros i j Hi Hj. unfold H. rewrite Hcode_Htab by auto. split.
    + now apply Hub.
    + intros Heq. now apply (Hl i j).
Qed.

(** ** The reverse sweep computes the tagged reverse table *)

Lemma wf_graphb_sound g : wf_graphb g = true -> wf_graph g.
Proof.
  unfold wf_graphb, wf_graph. rewrite andb_true_iff. intros [Ht Ho].
  split; [now apply topologicalb_sound |].
  intros j v Hin. rewrite forallb_forall in Ho.
  destruct (Nat.lt_ge_cases j (length (offsets_out g))) as [Hlt | Hge].
  - assert (Hj : forallb (fun v => (v <? numVertices g)%nat
                                   && existsb (Nat.eqb j) (inNbrs g v))
                         (outNbrs g j) = true)
      by (apply Ho; apply in_seq; lia).
    rewrite forallb_forall in Hj. specialize (Hj v Hin).
    apply andb_true_iff in Hj. destruct Hj as [Hv He].
    split; [now apply Nat.ltb_lt |].
    apply existsb_exists in He. destruct He as (x & Hx & Heq).
    apply Nat.eqb_eq in Heq. now subst.
  - unfold outNbrs, adjRange in Hin.
    rewrite (nth_overflow (offsets_out g) 0%nat (n := (j + 1)%nat)) in Hin
      by lia.
    simpl in Hin. contradiction.
Qed.

Lemma Ttab_rec g p rread b i j :
  wf_graph g -> (j < numVertices g)%nat ->
  Ttab g p rread b (S i) j
  = if tagged b (length rread) i j then match_ p + 1
    else cmT g p rread b i j.
Proof.
  intros [Htopo Hout] Hj. unfold cmT.
  change (Ttab g p rread b (S i) j =
          tagCell g p b (length rread) i (nth i rread zero)
                  (Ttab g p rread b i) (Ttab g p rread b (S i)) j).
  simpl.
  apply (rowOf_rec _ (outNbrs g)).
  - intros f f' c Hext. unfold tagCell, revCell.
    destruct (tagged b (length rread) i c); auto.
    now apply currentMaxOf_ext.
  - apply countdown_NoDup.
  - intros l1 c l2 Heq u Hu. eapply countdown_split_before; eauto.
    destruct (Hout _ _ Hu) as [Hun Hin]. apply Htopo in Hin. lia.
  - apply countdown_In. lia.
Qed.

Lemma foldM_app {A B} (f : A -> B -> result A) l1 l2 a :
  foldM f (l1 ++ l2) a = bind (foldM f l1 a) (foldM f l2).
Proof.
  revert a. induction l1 as [| x l1 IH]; intros a; simpl; auto.
  destruct (f a x); simpl; auto.
Qed.

Lemma cmT_nonneg g p rread b i j : 0 <= cmT g p rread b i j.
Proof. unfold cmT, revCell. apply currentMaxOf_lb. Qed.

Lemma phase1_rev_cell_inv g p rread b i k st st' :
  wf_graph g -> (i < length rread)%nat -> (k < numVertices g)%nat ->
  revInv g p rread b i (S k) st ->
  phase1_rev_cell g p rread b i st k = Ok st' ->
  revInv g p rread b i k st'.
Proof.
  intros Hwf Hi Hk (Hsh & Hprev & Hcur & Hbest & Has) Hrun.
  pose proof Hwf as [Htopo Hout].
  destruct (ring_facts i) as [Hr2 Hrp].
  unfold phase1_rev_cell in Hrun.
  set (m := length rread) in *. set (n := numVertices g) in *.
  set (v := currentMaxOf _ _ _ _ _ _) in Hrun.
  assert (Hv : v = cmT g p rread b i k).
  { unfold v, cmT, revCell, labelOf. apply currentMaxOf_ext.
    - intros u Hu. apply Hprev. now apply Hout in Hu.
    - intros u Hu. apply Hcur. destruct (Hout _ _ Hu) as [Hun Hin].
      apply Htopo in Hin. fold n in Hun. lia.
    - now apply Hprev. }
  assert (Hv0 : 0 <= v) by (rewrite Hv; apply cmT_nonneg).
  assert (Hm : forall w r c,
    mget (mset (matrix st) (ring (Z.of_nat i)) k w) r c
    = if ((r =? ring (Z.of_nat i)) && (c =? k))%nat
      then w else mget (matrix st) r c).
  { intros. now apply (mget_mset n). }
  assert (Hri : (m - 1 - (m - 1 - i) = i)%nat) by lia.
  assert (Hbest' :
    if psgl_max (bestScore st) v =? v
    then bestInv (fun r c => cmT g p rread b (m - 1 - r) c)
                 (doneR m n i k) (fun _ _ _ _ => True) v (m - 1 - i) k
    else bestInv (fun r c => cmT g p rread b (m - 1 - r) c)
                 (doneR m n i k) (fun _ _ _ _ => True)
                 (psgl_max (bestScore st) v) (bestRow st) (bestCol st)).
  { apply (bestInv_step _ _ (doneR m n i k) _ _ _ _ (m - 1 - i)%nat k v
                        Hbest); auto.
    - now rewrite Hri.
    - unfold doneR. intros r c. lia. }
  assert (Has' : tagged b m i k = true -> v = match_ p ->
    forall r c, doneR m n i k r c ->
                tagged b m (m - 1 - r) c = true ->
                cmT g p rread b (m - 1 - r) c = match_ p).
  { intros Ht Hvm r c Hd Htag.
    destruct (Nat.eq_dec c k) as [-> | Hne].
    - destruct (Nat.eq_dec (m - 1 - r) i) as [-> | Hne'];
        [congruence |].
      apply Has; auto. unfold doneR in *. lia.
    - apply Has; auto. unfold doneR in *. lia. }
  assert (Has'' : tagged b m i k = false ->
    forall r c, doneR m n i k r c ->
                tagged b m (m - 1 - r) c = true ->
                cmT g p rread b (m - 1 - r) c = match_ p).
  { intros Ht r c Hd Htag.
    destruct (Nat.eq_dec c k) as [-> | Hne].
    - destruct (Nat.eq_dec (m - 1 - r) i) as [He | Hne'];
        [rewrite He in Htag; congruence |].
      apply Has; auto. unfold doneR in *. lia.
    - apply Has; auto. unfold doneR in *. lia. }
  assert (Hrows : forall w,
    (w = if tagged b m i k then match_ p + 1 else v) ->
    forall m', (forall r c, mget m' r c
                 = if ((r =? ring (Z.of_nat i)) && (c =? k))%nat
                   then w else mget (matrix st) r c) ->
    (forall c, (c < n)%nat ->
               mget m' (ring (Z.of_nat i - 1)) c = Ttab g p rread b i c) /\
    (forall c, (k <= c < n)%nat ->
               mget m' (ring (Z.of_nat i)) c = Ttab g p rread b (S i) c)).
  { intros w Hw m' Hm'. split.
    - intros c Hc. rewrite Hm'.
      replace (ring (Z.of_nat i - 1) =? ring (Z.of_nat i))%nat with false
        by (symmetry; apply Nat.eqb_neq; lia).
      simpl. now apply Hprev.
    - intros c Hc. rewrite Hm', Nat.eqb_refl. cbn [andb].
      destruct (Nat.eqb_spec c k) as [-> | Hne].
      + rewrite Ttab_rec by auto. fold m. rewrite Hw, Hv. reflexivity.
      + apply Hcur. lia. }
  fold (tagged b m i k) in Hrun.
  destruct (tagged b m i k) eqn:Htag.
  - inv_bind Hrun as u Hu. apply cassert_Ok in Hu.
    apply Z.eqb_eq in Hu. inversion Hrun; subst st'; clear Hrun.
    assert (Hsh1 : shape n (mset (matrix st) (ring (Z.of_nat i)) k v))
      by now apply mset_shape.
    destruct (psgl_max (bestScore st) v =? v);
      unfold revInv; cbn [matrix bestScore bestRow bestCol];
      fold m; fold n;
      (split; [now apply mset_shape |]);
      (destruct (Hrows (match_ p + 1) eq_refl
                       (mset (mset (matrix st) (ring (Z.of_nat i)) k v)
                             (ring (Z.of_nat i)) k (match_ p + 1)))
         as [Hp1 Hc1];
       [ intros r c; rewrite (mget_mset n) by auto; rewrite Hm;
         destruct ((r =? ring (Z.of_nat i)) && (c =? k))%nat; reflexivity
       | split; [exact Hp1 | split; [exact Hc1 | split;
           [exact Hbest' | now apply Has']]] ]).
  - inversion Hrun; subst st'; clear Hrun.
    destruct (psgl_max (bestScore st) v =? v);
      unfold revInv; cbn [matrix bestScore bestRow bestCol];
      fold m; fold n;
      (split; [now apply mset_shape |]);
      (destruct (Hrows v eq_refl
                       (mset (matrix st) (ring (Z.of_nat i)) k v) (Hm v))
         as [Hp1 Hc1];
       split; [exact Hp1 | split; [exact Hc1 | split;
           [exact Hbest' | now apply Has'']]]).
Qed.

Lemma phase1_rev_cols_inv g p rread b i k st st' :
  wf_graph g -> (i < length rread)%nat -> (k <= numVertices g)%nat ->
  revInv g p rread b i k st ->
  foldM (phase1_rev_cell g p rread b i) (countdown k) st = Ok st' ->
  revInv g p rread b i 0 st'.
Proof.
  intros Hwf Hi. revert st.
  induction k as [| k IH]; intros st Hk Hinv Hrun; simpl in Hrun.
  - inversion Hrun; subst; auto.
  - inv_bind Hrun as st1 Hst1.
    apply (IH st1); auto; [lia |].
    eapply phase1_rev_cell_inv; eauto.
Qed.

Lemma revInv_next_row g p rread b i st :
  revInv g p rread b i 0 st ->
  revInv g p rread b (S i) (numVertices g) st.
Proof.
  intros (Hsh & Hprev & Hcur & Hbest & Has).
  set (m := length rread) in *. set (n := numVertices g) in *.
  assert (Heq : forall r c, doneR m n (S i) n r c <-> doneR m n i 0 r c)
    by (unfold doneR; intros; lia).
  unfold revInv. fold m. fold n.
  split; auto. split.
  { intros c Hc. rewrite ring_S. apply Hcur. lia. }
  split; [intros c Hc; lia |]. split.
  - destruct Hbest as (Hb & Hub & Hlast).
    split; auto. split.
    + intros r c Hrc. apply Hub. now apply Heq.
    + destruct Hlast as [(Hnone & Hz) | (Hd & Hval & Hl)].
      * left. split; auto. intros r c Hrc. apply (Hnone r c). now apply Heq.
      * right. split; [now apply Heq |]. split; auto.
  - intros r c Hrc. apply Has. now apply Heq.
Qed.

Lemma phase1_rev_rows_inv g p rread b st k st' :
  wf_graph g -> (k <= length rread)%nat ->
  revInv g p rread b 0 (numVertices g) st ->
  phase1_rev_rows g p rread b st k = Ok st' ->
  revInv g p rread b k (numVertices g) st'.
Proof.
  intros Hwf. unfold phase1_rev_rows. revert st'.
  induction k as [| k IH]; intros st' Hk Hinv Hrun.
  - simpl in Hrun. inversion Hrun; subst; auto.
  - rewrite seq_S, foldM_app in Hrun. inv_bind Hrun as st1 Hst1.
    simpl in Hrun. inv_bind Hrun as st2 Hst2. inversion Hrun; subst st2.
    apply revInv_next_row. unfold phase1_rev_row in Hst2.
    assert (Hst1inv : revInv g p rread b k (numVertices g) st1)
      by (apply IH; auto; lia).
    apply (phase1_rev_cols_inv g p rread b k (numVertices g) st1 st' Hwf);
      auto; lia.
Qed.

Lemma sweepInit_revInv g p rread b m0 :
  shape (numVertices g) m0 ->
  revInv g p rread b 0 (numVertices g) (sweepInit m0).
Proof.
  intros Hsh. split; [now apply sweepInit_shape |]. split.
  - intros c Hc. change (ring (Z.of_nat 0 - 1)) with 1%nat.
    now rewrite (sweepInit_row1 (numVertices g)).
  - split; [intros; lia |]. split.
    + split; [simpl; lia |]. split.
      * unfold doneR. intros; lia.
      * left. unfold doneR. simpl. split; auto. intros; lia.
    + unfold doneR. intros; lia.
Qed.

(** ** Phase 2.1 computes the band table *)

Lemma bandEdges_spec p nbrs j0 prev cur ms fm fd :
  bandEdges p nbrs j0 prev cur ms = (fm, fd) ->
  (ms <= fm /\ -1 <= fd /\
   forall u, In u nbrs -> (j0 <= u)%nat ->
             prev (u - j0)%nat + ms <= fm /\ cur (u - j0)%nat - del p <= fd) /\
  (fm = ms \/ exists u, In u nbrs /\ (j0 <= u)%nat /\
                        fm = prev (u - j0)%nat + ms) /\
  (fd = -1 \/ exists u, In u nbrs /\ (j0 <= u)%nat /\
                        fd = cur (u - j0)%nat - del p).
Proof.
  unfold bandEdges.
  set (f := fun '(fromMatch, fromDeletion) u =>
              if (j0 <=? u)%nat
              then (psgl_max fromMatch (prev (u - j0)%nat + ms),
                    psgl_max fromDeletion (cur (u - j0)%nat - del p))
              else (fromMatch, fromDeletion)).
  assert (Hgen : forall l a d fm fd,
    fold_left f l (a, d) = (fm, fd) ->
    (a <= fm /\ d <= fd /\
     forall u, In u l -> (j0 <= u)%nat ->
               prev (u - j0)%nat + ms <= fm /\
               cur (u - j0)%nat - del p <= fd) /\
    (fm = a \/ exists u, In u l /\ (j0 <= u)%nat /\
                         fm = prev (u - j0)%nat + ms) /\
    (fd = d \/ exists u, In u l /\ (j0 <= u)%nat /\
                         fd = cur (u - j0)%nat - del p));
    [| intros Hrun; exact (Hgen nbrs ms (-1) fm fd Hrun)].
  clear fm fd.
  induction l as [| x l IH]; intros a d fm fd Hrun.
  - simpl in Hrun. inversion Hrun; subst.
    repeat split; auto; try lia; contradiction.
  - change (fold_left f (x :: l) (a, d))
      with (fold_left f l (f (a, d) x)) in Hrun.
    destruct (f (a, d) x) as [a' d'] eqn:Ef.
    destruct (IH _ _ _ _ Hrun) as ((Ha & Hd & Hub) & Hm & Hdl).
    unfold f in Ef.
    destruct (Nat.leb_spec j0 x) as [Hx | Hx].
    + rewrite !psgl_max_spec in Ef. inversion Ef; subst a' d'; clear Ef.
      split; [split; [lia | split; [lia |]] | split].
      * intros u [-> | Hu] Hju; [lia | now apply Hub].
      * destruct Hm as [-> | (u & Hu & Hju & ->)];
          [| right; exists u; simpl; auto].
        destruct (Z.max_spec a (prev (x - j0)%nat + ms))
          as [[_ ->] | [_ ->]]; [right; exists x; simpl; auto | auto].
      * destruct Hdl as [-> | (u & Hu & Hju & ->)];
          [| right; exists u; simpl; auto].
        destruct (Z.max_spec d (cur (x - j0)%nat - del p))
          as [[_ ->] | [_ ->]]; [right; exists x; simpl; auto | auto].
    + inversion Ef; subst a' d'; clear Ef.
      split; [split; [lia | split; [lia |]] | split].
      * intros u [-> | Hu] Hju; [lia | now apply Hub].
      * destruct Hm as [-> | (u & Hu & Hju & ->)];
          [auto | right; exists u; simpl; auto].
      * destruct Hdl as [-> | (u & Hu & Hju & ->)];
          [auto | right; exists u; simpl; auto].
Qed.

Lemma bandValue_lb p nbrs j0 prev cur ms j :
  let v := bandValue p nbrs j0 prev cur ms j in
  0 <= v /\ ms <= v /\ prev j - ins p <= v /\
  forall u, In u nbrs -> (j0 <= u)%nat ->
            prev (u - j0)%nat + ms <= v /\ cur (u - j0)%nat - del p <= v.
Proof.
  unfold bandValue.
  destruct (bandEdges p nbrs j0 prev cur ms) as [fm fd] eqn:Hs.
  apply bandEdges_spec in Hs.
  destruct Hs as ((Ha & Hd & Hub) & _). rewrite !psgl_max_spec.
  repeat split; try lia; destruct (Hub u H H0); lia.
Qed.

Lemma bandValue_cases p nbrs j0 prev cur ms j :
  let v := bandValue p nbrs j0 prev cur ms j in
  v = 0 \/ v = ms \/ v = prev j - ins p \/
  exists u, In u nbrs /\ (j0 <= u)%nat /\
            (v = prev (u - j0)%nat + ms \/ v = cur (u - j0)%nat - del p).
Proof.
  unfold bandValue.
  destruct (bandEdges p nbrs j0 prev cur ms) as [fm fd] eqn:Hs.
  apply bandEdges_spec in Hs.
  destruct Hs as ((Ha & Hd & _) & Hm & Hdl). rewrite !psgl_max_spec.
  destruct (Z.max_spec (Z.max (prev j - ins p) fm) (Z.max fd 0))
    as [[Hlt ->] | [Hle ->]].
  - destruct (Z.max_spec fd 0) as [[_ ->] | [Hfd ->]]; [auto |].
    destruct Hdl as [-> | (u & Hu & Hju & ->)]; [lia |].
    right. right. right. exists u. auto.
  - destruct (Z.max_spec (prev j - ins p) fm) as [[_ ->] | [_ ->]]; [| auto].
    destruct Hm as [-> | (u & Hu & Hju & ->)]; [auto |].
    right. right. right. exists u. auto.
Qed.

Lemma bandValue_ext p nbrs j0 prev prev' cur cur' ms j :
  (forall u, In u nbrs -> (j0 <= u)%nat ->
             prev (u - j0)%nat = prev' (u - j0)%nat /\
             cur (u - j0)%nat = cur' (u - j0)%nat) ->
  prev j = prev' j ->
  bandValue p nbrs j0 prev cur ms j = bandValue p nbrs j0 prev' cur' ms j.
Proof.
  intros Hn Hj. unfold bandValue. rewrite Hj.
  replace (bandEdges p nbrs j0 prev' cur' ms)
    with (bandEdges p nbrs j0 prev cur ms); auto.
  unfold bandEdges. generalize (ms, -1).
  induction nbrs as [| x l IH]; intros a; simpl; auto.
  rewrite IH by (intros; apply Hn; simpl; auto).
  f_equal. destruct a as [fm fd].
  destruct (Nat.leb_spec j0 x) as [Hx | Hx]; auto.
  destruct (Hn x (or_introl eq_refl) Hx) as [-> ->]. reflexivity.
Qed.

Lemma Btab_rec g p read i0 j0 W i j :
  topological g -> (j < W)%nat ->
  Btab g p read i0 j0 W (S i) j
  = bandCell g p read i0 j0 i (Btab g p read i0 j0 W i)
             (Btab g p read i0 j0 W (S i)) j.
Proof.
  intros Htopo Hj. simpl.
  apply (rowOf_rec _ (fun c => map (fun u => (u - j0)%nat)
                                   (filter (fun u => (j0 <=? u)%nat)
                                           (inNbrs g (c + j0))))).
  - intros f f' c Hext. unfold bandCell. apply bandValue_ext; auto.
    intros u Hu Hju. split; auto. apply Hext.
    apply in_map_iff. exists u. split; auto.
    apply filter_In. split; auto. now apply Nat.leb_le.
  - apply seq_NoDup.
  - intros l1 c l2 Heq u' Hu'. apply in_map_iff in Hu'.
    destruct Hu' as (u & <- & Hu). apply filter_In in Hu.
    destruct Hu as [Hu Hju]. apply Nat.leb_le in Hju.
    eapply seq_split_before; eauto. apply Htopo in Hu. lia.
  - apply in_seq. lia.
Qed.

Lemma Btab_nonneg g p read i0 j0 W k j : 0 <= Btab g p read i0 j0 W k j.
Proof.
  destruct k as [| i]; simpl; [lia |].
  unfold rowOf.
  set (P := fun f : nat -> Z => forall c, 0 <= f c).
  apply (fold_left_inv _ P); unfold P; [intros; lia |].
  intros f x _ Hf c. unfold rowStep, upd.
  destruct (c =? x)%nat; auto.
  unfold bandCell. apply bandValue_lb.
Qed.

Lemma shape_shapeN n m : shape n m <-> shapeN 2 n m.
Proof. reflexivity. Qed.

Lemma mset_shapeN R n m r c v : shapeN R n m -> shapeN R n (mset m r c v).
Proof.
  intros [Hl Hr]. unfold mset. split; [now rewrite list_set_length |].
  intros r' Hr'. rewrite nth_list_set.
  destruct ((r' =? r) && (r <? length m))%nat eqn:E; auto.
  rewrite list_set_length. apply Hr.
  apply andb_true_iff in E. destruct E as [E _].
  apply Nat.eqb_eq in E. lia.
Qed.

Lemma mget_msetN R n m r c v r' c' :
  shapeN R n m -> (r < R)%nat -> (c < n)%nat ->
  mget (mset m r c v) r' c'
  = if ((r' =? r) && (c' =? c))%nat then v else mget m r' c'.
Proof.
  intros [Hl Hr] Hr2 Hc. unfold mget, mset. rewrite nth_list_set.
  destruct (Nat.eqb_spec r' r) as [-> | Hne]; simpl; auto.
  replace (r <? length m)%nat with true
    by (symmetry; apply Nat.ltb_lt; lia).
  rewrite nth_list_set. rewrite (Hr r Hr2).
  replace (c <? n)%nat with true by (symmetry; apply Nat.ltb_lt; lia).
  now rewrite andb_true_r.
Qed.

Lemma phase2_cell_inv g p read i0 j0 Hh W i k st :
  topological g -> (i < Hh)%nat -> (k < W)%nat ->
  bandInv g p read i0 j0 Hh W i k st ->
  bandInv g p read i0 j0 Hh W i (S k) (phase2_cell g p read i0 j0 i st k)
  /\ finalRow (phase2_cell g p read i0 j0 i st k) = finalRow st.
Proof.
  intros Htopo Hi Hk (Hsh & Hlog & Hprev & Hcur & Hlogv).
  destruct (ring_facts i) as [Hr2 Hrp].
  unfold phase2_cell.
  set (v := bandValue _ _ _ _ _ _ _).
  assert (Hv : v = Btab g p read i0 j0 W (S i) k).
  { rewrite Btab_rec by auto. unfold v, bandCell, labelOf.
    apply bandValue_ext.
    - intros u Hu Hju. apply Htopo in Hu. split.
      + apply Hprev. lia.
      + apply Hcur. lia.
    - now apply Hprev. }
  assert (Hm : forall r c,
    mget (mset (bmatrix st) (ring (Z.of_nat i)) k v) r c
    = if ((r =? ring (Z.of_nat i)) && (c =? k))%nat
      then v else mget (bmatrix st) r c).
  { intros. now apply (mget_mset W). }
  split; [| reflexivity].
  unfold bandInv. cbn [bmatrix completeMatrixLog finalRow].
  split; [now apply mset_shape |].
  split; [now apply mset_shapeN |].
  split; [| split].
  - intros c Hc. rewrite Hm.
    replace (ring (Z.of_nat i - 1) =? ring (Z.of_nat i))%nat with false
      by (symmetry; apply Nat.eqb_neq; lia).
    cbn [andb]. now apply Hprev.
  - intros c Hc. rewrite Hm, Nat.eqb_refl. cbn [andb].
    destruct (Nat.eqb_spec c k) as [-> | Hne]; auto.
    apply Hcur. lia.
  - intros r c Hc Hrc. rewrite (mget_msetN Hh W _ _ _ _ _ _ Hlog Hi Hk).
    destruct (Nat.eqb_spec r i) as [-> | Hne]; cbn [andb].
    + destruct (Nat.eqb_spec c k) as [-> | Hne].
      * rewrite !Hm, !Nat.eqb_refl.
        replace (ring (Z.of_nat i - 1) =? ring (Z.of_nat i))%nat with false
          by (symmetry; apply Nat.eqb_neq; lia).
        cbn [andb]. rewrite Hprev by auto. now rewrite Hv.
      * apply Hlogv; auto. lia.
    + apply Hlogv; auto. lia.
Qed.

Lemma phase2_cols_inv g p read i0 j0 Hh W i st k :
  topological g -> (i < Hh)%nat -> (k <= W)%nat ->
  bandInv g p read i0 j0 Hh W i 0 st ->
  bandInv g p read i0 j0 Hh W i k
          (fold_left (phase2_cell g p read i0 j0 i) (seq 0 k) st) /\
  finalRow (fold_left (phase2_cell g p read i0 j0 i) (seq 0 k) st)
  = finalRow st.
Proof.
  intros Htopo Hi. induction k as [| k IH]; intros Hk Hinv; [simpl; auto |].
  rewrite seq_S, fold_left_app. simpl.
  assert (Hk' : (k <= W)%nat) by lia.
  destruct (IH Hk' Hinv) as [IH1 IH2].
  destruct (phase2_cell_inv g p read i0 j0 Hh W i k _ Htopo Hi Hk IH1)
    as [H1 H2].
  split; [exact H1 | congruence].
Qed.

Lemma phase2_row_inv g p read i0 j0 Hh W i st :
  topological g -> (i < Hh)%nat ->
  bandRowsInv g p read i0 j0 Hh W i st ->
  bandRowsInv g p read i0 j0 Hh W (S i)
              (phase2_row g p read i0 j0 Hh W st i).
Proof.
  intros Htopo Hi (Hinv & Hlen & _).
  unfold phase2_row.
  destruct (phase2_cols_inv g p read i0 j0 Hh W i st W Htopo Hi
                            (Nat.le_refl W) Hinv) as [Hc Hf].
  set (st' := fold_left _ _ _) in *.
  destruct Hc as (Hsh & Hlog & Hprev & Hcur & Hlogv).
  assert (Hnext : forall st2,
    bmatrix st2 = bmatrix st' ->
    completeMatrixLog st2 = completeMatrixLog st' ->
    bandInv g p read i0 j0 Hh W (S i) 0 st2).
  { intros st2 E1 E2. unfold bandInv. rewrite E1, E2.
    split; auto. split; auto. split.
    - intros c Hc. rewrite ring_S. now apply Hcur.
    - split; [intros; lia |].
      intros r c Hc Hr. apply Hlogv; auto. lia. }
  destruct (ring_facts i) as [Hr2 _].
  destruct (Nat.eqb_spec i (Hh - 1)) as [He | Hne].
  - split; [now apply Hnext |]. cbn [finalRow]. split.
    + destruct Hsh as [_ Hrows]. now apply Hrows.
    + intros _ c Hc. replace Hh with (S i) by lia. now apply Hcur.
  - split; [now apply Hnext |]. split; [congruence |]. lia.
Qed.

Lemma phase2_rows_inv g p read i0 j0 Hh W st k :
  topological g -> (k <= Hh)%nat ->
  bandRowsInv g p read i0 j0 Hh W 0 st ->
  bandRowsInv g p read i0 j0 Hh W k
              (phase2_rows g p read i0 j0 Hh W st k).
Proof.
  intros Htopo. unfold phase2_rows.
  induction k as [| k IH]; intros Hk Hinv; [simpl; auto |].
  rewrite seq_S, fold_left_app. simpl.
  apply phase2_row_inv; auto. apply IH; auto. lia.
Qed.

Lemma nth_repeat_zero k c : nth c (repeat 0 k) 0 = 0.
Proof. revert c. induction k; intros [| c]; simpl; auto. Qed.

Lemma bandInit_inv g p read i0 j0 Hh W :
  bandRowsInv g p read i0 j0 Hh W 0 (bandInit Hh W).
Proof.
  assert (Hrep : forall R r, (r < R)%nat ->
            length (nth r (repeat (repeat 0 W) R) []) = W).
  { induction R as [| R IH]; intros [| r] Hr; simpl; try lia.
    - apply repeat_length.
    - apply IH. lia. }
  unfold bandRowsInv, bandInv, bandInit.
  cbn [bmatrix completeMatrixLog finalRow].
  split; [| split].
  - split; [split; [reflexivity | now apply Hrep] |].
    split; [split; [apply repeat_length | now apply Hrep] |].
    split; [| split; intros; lia].
    intros c Hc. change (ring (Z.of_nat 0 - 1)) with 1%nat.
    unfold mget. simpl. apply nth_repeat_zero.
  - apply repeat_length.
  - intros <- c Hc. simpl. apply nth_repeat_zero.
Qed.

(** ** The three tables in the coordinates of the query *)

Lemma down_ind (P : nat -> Prop) m :
  P m -> (forall r, (r < m)%nat -> P (S r) -> P r) ->
  forall r, (r <= m)%nat -> P r.
Proof.
  intros Hm Hstep r Hr.
  remember (m - r)%nat as d eqn:Hd. revert r Hr Hd.
  induction d as [| d IH]; intros r Hr Hd.
  - replace r with m by lia. exact Hm.
  - apply Hstep; [lia |]. apply IH; lia.
Qed.

Lemma down_strong_ind (P : nat -> Prop) n :
  (forall j, (j < n)%nat -> (forall v, (j < v < n)%nat -> P v) -> P j) ->
  forall j, (j < n)%nat -> P j.
Proof.
  intros Hstep.
  assert (H : forall d j, (n <= j + d)%nat -> (j < n)%nat -> P j).
  { induction d as [| d IH]; intros j Hd Hj; [lia |].
    apply Hstep; auto. intros v Hv. apply IH; lia. }
  intros j Hj. apply (H n); lia.
Qed.

Lemma matchScoreOf_cases p a c :
  matchScoreOf p a c = match_ p \/ matchScoreOf p a c = - mismatch p.
Proof. unfold matchScoreOf. destruct (Ascii.eqb a c); [auto | right; lia]. Qed.

Section Tables.
Variables (g : CSR_char_container) (p : Parameters) (read : str).
Hypothesis Hwf : wf_graph g.
Hypothesis Hnn : nonneg p.

Let n := numVertices g.
Let m := length read.
Let HH := Htab g p read.
Let ms := msOf g p read.

Lemma in_lt j u : In u (inNbrs g j) -> (u < j)%nat.
Proof. destruct Hwf as [Htopo _]. apply Htopo. Qed.

Lemma out_facts j v :
  In v (outNbrs g j) -> (j < v < n)%nat /\ In j (inNbrs g v).
Proof.
  intros Hv. destruct Hwf as [Htopo Hout].
  destruct (Hout _ _ Hv) as [Hn Hin]. apply Htopo in Hin as Hlt.
  unfold n. auto.
Qed.

(** Lower bounds of a cell of the forward table. *)
Lemma Htab_lb r j :
  (j < n)%nat ->
  0 <= HH (S r) j /\ ms r j <= HH (S r) j /\
  HH r j - ins p <= HH (S r) j /\
  forall u, In u (inNbrs g j) ->
            HH r u + ms r j <= HH (S r) j /\
            HH (S r) u - del p <= HH (S r) j.
Proof.
  intros Hj. unfold HH. rewrite (Htab_rec g p read r j) by
      (auto; apply Hwf).
  unfold fwdCell. apply currentMaxOf_lb.
Qed.

Lemma Htab_cases r j :
  (j < n)%nat ->
  HH (S r) j = 0 \/ HH (S r) j = ms r j \/
  HH (S r) j = HH r j - ins p \/
  exists u, In u (inNbrs g j) /\
            (HH (S r) j = HH r u + ms r j \/
             HH (S r) j = HH (S r) u - del p).
Proof.
  intros Hj. unfold HH. rewrite (Htab_rec g p read r j) by
      (auto; apply Hwf).
  unfold fwdCell. apply currentMaxOf_cases.
Qed.

Lemma Htab_del k j u :
  (j < n)%nat -> In u (inNbrs g j) -> HH k u - del p <= HH k j.
Proof.
  intros Hj Hu. destruct k as [| r].
  - unfold HH. simpl. destruct Hnn as (_ & _ & _ & Hd). lia.
  - now apply Htab_lb.
Qed.

Lemma Htab_zero k j : match_ p = 0 -> HH k j <= 0.
Proof.
  intros Hm0. revert j. induction k as [| r IH]; intros j.
  - unfold HH. simpl. lia.
  - destruct (Nat.lt_ge_cases j n) as [Hj | Hj].
    + induction j as [j IHj] using lt_wf_ind.
      destruct Hnn as (_ & Hmm & Hi & Hd).
      assert (Hms : ms r j <= 0).
      { unfold ms, msOf.
        destruct (matchScoreOf_cases p (labelOf g j) (nth r read zero))
          as [-> | ->]; lia. }
      destruct (Htab_cases r j Hj)
        as [-> | [-> | [-> | (u & Hu & [-> | ->])]]]; try lia.
      * specialize (IH j). lia.
      * specialize (IH u). lia.
      * apply in_lt in Hu as Hlt.
        assert (HH (S r) u <= 0) by (apply IHj; lia). lia.
    + unfold HH. simpl. rewrite rowOf_notin; [lia |].
      rewrite in_seq. fold n. lia.
Qed.

(** The connection of a forward prefix to a reverse suffix that starts
    in cell (r,j): the prefix is empty or ends in row r-1 at an
    in-neighbour of j. *)
Definition conn (r j : nat) (y : Z) : Prop :=
  y = 0 \/ exists u, In u (inNbrs g j) /\ y = HH r u.

Lemma conn_match r j y :
  (j < n)%nat -> conn r j y -> y + ms r j <= HH (S r) j.
Proof.
  intros Hj [-> | (u & Hu & ->)].
  - destruct (Htab_lb r j Hj) as (_ & H & _). lia.
  - destruct (Htab_lb r j Hj) as (_ & _ & _ & H). now apply H.
Qed.

Lemma conn_ins r j y :
  (j < n)%nat -> conn r j y ->
  exists y', conn (S r) j y' /\ y - ins p <= y'.
Proof.
  intros Hj [-> | (u & Hu & ->)].
  - exists 0. split; [now left |]. destruct Hnn as (_ & _ & Hi & _). lia.
  - exists (HH (S r) u). split; [right; eauto |].
    apply in_lt in Hu as Hlt.
    destruct (Htab_lb r u ltac:(lia)) as (_ & _ & H & _). exact H.
Qed.

Lemma conn_del r j v y :
  (j < n)%nat -> In v (outNbrs g j) -> conn r j y ->
  exists y', conn r v y' /\ y - del p <= y'.
Proof.
  intros Hj Hv Hy. destruct (out_facts _ _ Hv) as [_ Hin].
  destruct Hy as [-> | (u & Hu & ->)].
  - exists 0. split; [now left |]. destruct Hnn as (_ & _ & _ & Hd). lia.
  - exists (HH r j). split; [right; eauto |]. now apply Htab_del.
Qed.

Lemma conn_diag r j v :
  In v (outNbrs g j) -> conn (S r) v (HH (S r) j).
Proof.
  intros Hv. destruct (out_facts _ _ Hv) as [_ Hin]. right. eauto.
Qed.

(** *** The reverse table *)

Variable b : BestScoreInfo.
Let er := qryRowEnd b.
Let ec := refColumnEnd b.
Let TT := TTab g p read b.

Lemma TTab_last j : TT m j = 0.
Proof. unfold TT, TTab. fold m. now rewrite Nat.sub_diag. Qed.

Lemma TTab_rec r j :
  (r < m)%nat -> (j < n)%nat ->
  TT r j = if ((j =? ec) && (r =? er))%nat then match_ p + 1
           else cmO g p read b r j.
Proof.
  intros Hr Hj. unfold TT, TTab. fold m.
  replace (m - r)%nat with (S (m - 1 - r)) by lia.
  rewrite Ttab_rec by auto.
  unfold tagged. rewrite length_rev. fold m. fold ec. fold er.
  replace (m - 1 - (m - 1 - r))%nat with r by lia.
  destruct ((j =? ec) && (r =? er))%nat; auto.
  unfold cmO, cmT, revCell, TTab, msOf. fold m.
  replace (S (m - 1 - r)) with (m - r)%nat by lia.
  replace (m - S r)%nat with (m - 1 - r)%nat by lia.
  rewrite rev_nth by (fold m; lia). fold m.
  replace (m - S (m - 1 - r))%nat with r by lia.
  reflexivity.
Qed.

Lemma cmO_nonneg r j : 0 <= cmO g p read b r j.
Proof. unfold cmO. apply currentMaxOf_lb. Qed.

Lemma TTab_nonneg r j : (r <= m)%nat -> (j < n)%nat -> 0 <= TT r j.
Proof.
  intros Hr Hj. destruct (Nat.eq_dec r m) as [-> | Hne].
  - rewrite TTab_last. lia.
  - rewrite TTab_rec by lia.
    destruct ((j =? ec) && (r =? er))%nat; [| apply cmO_nonneg].
    destruct Hnn as (H & _). lia.
Qed.

Lemma cmO_cases r j :
  let cm := cmO g p read b r j in
  cm = 0 \/ cm = ms r j \/ cm = TT (S r) j - ins p \/
  exists v, In v (outNbrs g j) /\
            (cm = TT (S r) v + ms r j \/ cm = TT r v - del p).
Proof. unfold cmO. apply currentMaxOf_cases. Qed.

(** *** The reverse table never exceeds the forward optimum *)

Variable best : Z.
Hypothesis Her : (er < m)%nat.
Hypothesis Hec : (ec < n)%nat.
Hypothesis Hbest_ub :
  forall r c, (r < m)%nat -> (c < n)%nat -> HH (S r) c <= best.
Hypothesis Hbest_end : HH (S er) ec = best.
Hypothesis Hbest_last :
  forall r c, (r < m)%nat -> (c < n)%nat -> HH (S r) c = best ->
              lexle r c er ec.

Lemma best_nonneg : 0 <= best.
Proof. rewrite <- Hbest_end. now apply Htab_lb. Qed.

Lemma HH_le_best k c : (k <= m)%nat -> (c < n)%nat -> HH k c <= best.
Proof.
  intros Hk Hc. destruct k as [| r].
  - unfold HH. simpl. apply best_nonneg.
  - apply Hbest_ub; auto.
Qed.

Lemma conn_le_best r j y :
  (r <= m)%nat -> (j < n)%nat -> conn r j y -> y <= best.
Proof.
  intros Hr Hj [-> | (u & Hu & ->)]; [apply best_nonneg |].
  apply in_lt in Hu as Hlt. apply HH_le_best; auto. lia.
Qed.

Lemma untagged r j :
  (er < r \/ ec < j \/ r < er \/ j < ec)%nat ->
  ((j =? ec) && (r =? er))%nat = false.
Proof.
  intros H. apply andb_false_iff.
  destruct (Nat.eqb_spec j ec); destruct (Nat.eqb_spec r er); auto; lia.
Qed.

(** A reverse suffix that starts outside the rows and columns up to the
    end cell is not affected by the tag: together with any forward
    prefix it is an alignment, so the sum is at most [best]. *)
Lemma outside_le_best :
  forall r, (r <= m)%nat ->
  forall j, (j < n)%nat -> (er < r \/ ec < j)%nat ->
  forall y, conn r j y -> y + TT r j <= best.
Proof.
  apply (down_ind (fun r => forall j, (j < n)%nat ->
                                      (er < r \/ ec < j)%nat ->
                   forall y, conn r j y -> y + TT r j <= best)).
  { intros j Hj _ y Hy. rewrite TTab_last.
    pose proof (conn_le_best m j y (Nat.le_refl m) Hj Hy). lia. }
  intros r Hr IHr.
  apply (down_strong_ind (fun j => (er < r \/ ec < j)%nat ->
                   forall y, conn r j y -> y + TT r j <= best)).
  intros j Hj IHj Hreg y Hy.
  rewrite TTab_rec, untagged by (auto; lia).
  pose proof (conn_le_best r j y ltac:(lia) Hj Hy) as Hyb.
  pose proof (conn_match r j y Hj Hy) as Hym.
  pose proof (Hbest_ub r j Hr Hj) as Hcell.
  destruct (cmO_cases r j) as [-> | [-> | [-> | (v & Hv & [-> | ->])]]].
  - lia.
  - fold ms in Hym. lia.
  - destruct (conn_ins r j y Hj Hy) as (y' & Hy' & Hle).
    specialize (IHr j Hj ltac:(lia) y' Hy'). fold TT. lia.
  - destruct (out_facts _ _ Hv) as [Hvn _].
    pose proof (IHr v ltac:(lia) ltac:(lia) _ (conn_diag r j v Hv)).
    fold TT. fold ms in Hym. fold ms. lia.
  - destruct (out_facts _ _ Hv) as [Hvn _].
    destruct (conn_del r j v y Hj Hv Hy) as (y' & Hy' & Hle).
    specialize (IHj v ltac:(lia) ltac:(lia) y' Hy'). fold TT. lia.
Qed.

(** Past the end cell in row-major order the bound is strict: the end
    cell is the last cell of the forward table with the value [best]. *)
Lemma after_lt_best :
  forall r, (r <= m)%nat ->
  forall j, (j < n)%nat ->
  ((er <= r /\ ec < j) \/ (er < r /\ ec <= j))%nat ->
  forall y, conn r j y -> TT r j = 0 \/ y + TT r j < best.
Proof.
  apply (down_ind (fun r => forall j, (j < n)%nat ->
                   ((er <= r /\ ec < j) \/ (er < r /\ ec <= j))%nat ->
                   forall y, conn r j y ->
                             TT r j = 0 \/ y + TT r j < best)).
  { intros j Hj _ y Hy. left. apply TTab_last. }
  intros r Hr IHr.
  apply (down_strong_ind (fun j =>
                   ((er <= r /\ ec < j) \/ (er < r /\ ec <= j))%nat ->
                   forall y, conn r j y ->
                             TT r j = 0 \/ y + TT r j < best)).
  intros j Hj IHj Hreg y Hy.
  rewrite TTab_rec, untagged by (auto; lia).
  pose proof (conn_match r j y Hj Hy) as Hym. fold ms in Hym.
  assert (Hcell : HH (S r) j < best).
  { pose proof (Hbest_ub r j Hr Hj) as Hle.
    destruct (Z.eq_dec (HH (S r) j) best) as [He | Hne]; [| lia].
    apply Hbest_last in He; auto. unfold lexle in He. lia. }
  pose proof (cmO_nonneg r j) as Hcm0.
  destruct (cmO_cases r j) as [Hc | [Hc | [Hc | (v & Hv & [Hc | Hc])]]].
  - now left.
  - right. rewrite Hc. lia.
  - destruct (conn_ins r j y Hj Hy) as (y' & Hy' & Hle).
    destruct Hnn as (_ & _ & Hi & _).
    destruct (IHr j Hj ltac:(lia) y' Hy') as [H0 | Hlt];
      fold TT in Hc; [left | right]; lia.
  - destruct (out_facts _ _ Hv) as [Hvn _].
    destruct (IHr v ltac:(lia) ltac:(lia) _ (conn_diag r j v Hv))
      as [H0 | Hlt]; fold TT in Hc; fold ms in Hc; right; lia.
  - destruct (out_facts _ _ Hv) as [Hvn _].
    destruct (conn_del r j v y Hj Hv Hy) as (y' & Hy' & Hle).
    destruct Hnn as (_ & _ & _ & Hd).
    destruct (IHj v ltac:(lia) ltac:(lia) y' Hy') as [H0 | Hlt];
      fold TT in Hc; [left | right]; lia.
Qed.

(** *** The tagged cell *)

Hypothesis Htag : cmO g p read b er ec = match_ p.

(** If the end cell is not a match, a forward prefix that connects to it
    leaves room for [match + 1]. *)
Lemma tag_strict yh :
  ms er ec <> match_ p -> 0 < match_ p -> conn er ec yh ->
  yh + match_ p + 1 <= best.
Proof.
  intros Hms Hpos Hy.
  destruct Hnn as (_ & Hmm & Hi & Hd).
  pose proof (cmO_cases er ec) as Hc. cbv zeta in Hc.
  rewrite Htag in Hc. fold TT in Hc.
  destruct Hc as [Hc | [Hc | [Hc | (v & Hv & [Hc | Hc])]]].
  - lia.
  - congruence.
  - destruct (conn_ins er ec yh Hec Hy) as (y' & Hy' & Hle).
    destruct (after_lt_best (S er) ltac:(lia) ec Hec ltac:(lia) y' Hy')
      as [H0 | Hlt]; lia.
  - destruct (out_facts _ _ Hv) as [Hvn _].
    pose proof (TTab_nonneg (S er) v ltac:(lia) ltac:(lia)) as Hv0.
    fold TT in Hv0.
    destruct (after_lt_best (S er) ltac:(lia) v ltac:(lia) ltac:(lia)
                            _ (conn_diag er ec v Hv)) as [H0 | Hlt].
    + rewrite H0 in Hc. lia.
    + rewrite Hbest_end in Hlt. lia.
  - destruct (out_facts _ _ Hv) as [Hvn _].
    destruct (conn_del er ec v yh Hec Hv Hy) as (y' & Hy' & Hle).
    destruct (after_lt_best er ltac:(lia) v ltac:(lia) ltac:(lia) y' Hy')
      as [H0 | Hlt]; lia.
Qed.

(** *** The start cell and the band *)

Variables sr sc : nat.
Hypothesis Hsr : (sr < m)%nat.
Hypothesis Hsc : (sc < n)%nat.
Hypothesis Hstart : cmO g p read b sr sc = best + 1.

Lemma start_before_end : (sr <= er)%nat /\ (sc <= ec)%nat.
Proof.
  destruct (Nat.le_gt_cases sr er) as [H1 | H1];
    destruct (Nat.le_gt_cases sc ec) as [H2 | H2]; auto; exfalso;
    pose proof (outside_le_best sr ltac:(lia) sc Hsc ltac:(lia) 0
                                (or_introl eq_refl)) as Hx;
    rewrite TTab_rec, untagged, Hstart in Hx by (auto; lia); lia.
Qed.

Lemma start_not_end : ~ (sr = er /\ sc = ec).
Proof.
  intros [-> ->]. fold er ec in Hstart.
  rewrite Htag in Hstart.
  pose proof best_nonneg as Hb0.
  destruct (Htab_lb er ec Hec) as (_ & Hms & _). rewrite Hbest_end in Hms.
  pose proof (tag_strict 0 ltac:(lia) ltac:(lia) (or_introl eq_refl)).
  lia.
Qed.

Let W := (ec - sc + 1)%nat.
Let Hh := (er - sr + 1)%nat.
Let BB := Btab g p read sr sc W.

Lemma Btab_lb i j :
  (j < W)%nat ->
  0 <= BB (S i) j /\ ms (i + sr) (j + sc) <= BB (S i) j /\
  BB i j - ins p <= BB (S i) j /\
  forall u, In u (inNbrs g (j + sc)) -> (sc <= u)%nat ->
            BB i (u - sc)%nat + ms (i + sr) (j + sc) <= BB (S i) j /\
            BB (S i) (u - sc)%nat - del p <= BB (S i) j.
Proof.
  intros Hj. unfold BB. rewrite (Btab_rec g p read sr sc W i j) by
      (auto; apply Hwf).
  unfold bandCell. apply bandValue_lb.
Qed.

Lemma Btab_cases i j :
  (j < W)%nat ->
  BB (S i) j = 0 \/ BB (S i) j = ms (i + sr) (j + sc) \/
  BB (S i) j = BB i j - ins p \/
  exists u, In u (inNbrs g (j + sc)) /\ (sc <= u)%nat /\
            (BB (S i) j = BB i (u - sc)%nat + ms (i + sr) (j + sc) \/
             BB (S i) j = BB (S i) (u - sc)%nat - del p).
Proof.
  intros Hj. unfold BB. rewrite (Btab_rec g p read sr sc W i j) by
      (auto; apply Hwf).
  unfold bandCell. apply bandValue_cases.
Qed.

(** The band table is below the forward table. *)
Lemma Btab_le_Htab k j :
  (sc <= ec)%nat -> (j < W)%nat -> BB k j <= HH (k + sr) (j + sc).
Proof.
  intros Hle. revert j. induction k as [| i IH]; intros j Hj.
  - unfold BB. simpl. destruct (sr) as [| r'].
    + unfold HH. simpl. lia.
    + apply Htab_lb. unfold W in Hj. lia.
  - induction j as [j IHj] using lt_wf_ind.
    assert (Hjn : (j + sc < n)%nat) by (unfold W in Hj; lia).
    destruct (Htab_lb (i + sr) (j + sc) Hjn) as (H0 & Hm & Hi & Hu).
    change (S i + sr)%nat with (S (i + sr)).
    destruct (Btab_cases i j Hj)
      as [-> | [-> | [-> | (u & Hin & Hsu & [-> | ->])]]]; auto.
    + specialize (IH j Hj). lia.
    + apply in_lt in Hin as Hlt. destruct (Hu u Hin) as [Hd _].
      specialize (IH (u - sc)%nat ltac:(lia)).
      replace (u - sc + sc)%nat with u in IH by lia. lia.
    + apply in_lt in Hin as Hlt. destruct (Hu u Hin) as [_ Hd].
      specialize (IHj (u - sc)%nat ltac:(lia) ltac:(lia)).
      change (S i + sr)%nat with (S (i + sr)) in IHj.
      replace (u - sc + sc)%nat with u in IHj by lia. lia.
Qed.

Hypothesis Hsre : (sr <= er)%nat.
Hypothesis Hsce : (sc <= ec)%nat.

(** The connection of a prefix inside the band to a reverse suffix. *)
Definition bconn (r j : nat) (y : Z) : Prop :=
  y = 0 \/ exists u, In u (inNbrs g j) /\ (sc <= u)%nat /\
                     y = BB (r - sr) (u - sc)%nat.

Lemma bconn_conn r j y :
  (sr <= r)%nat -> (j <= ec)%nat -> bconn r j y ->
  exists yh, conn r j yh /\ y <= yh.
Proof.
  intros Hr Hj [-> | (u & Hu & Hsu & ->)].
  - exists 0. split; [now left | lia].
  - exists (HH r u). split; [right; eauto |].
    apply in_lt in Hu as Hlt.
    pose proof (Btab_le_Htab (r - sr) (u - sc) Hsce) as H.
    replace (r - sr + sr)%nat with r in H by lia.
    replace (u - sc + sc)%nat with u in H by lia.
    apply H. unfold W. lia.
Qed.

Lemma bconn_match r j y :
  (sr <= r)%nat -> (sc <= j <= ec)%nat -> bconn r j y ->
  y + ms r j <= BB (S (r - sr)) (j - sc)%nat.
Proof.
  intros Hr Hj Hy.
  destruct (Btab_lb (r - sr) (j - sc) ltac:(unfold W; lia))
    as (_ & Hm & _ & Hu).
  replace (r - sr + sr)%nat with r in * by lia.
  replace (j - sc + sc)%nat with j in * by lia.
  destruct Hy as [-> | (u & Hin & Hsu & ->)]; [lia |].
  now apply Hu.
Qed.

Lemma bconn_ins r j y :
  (sr <= r)%nat -> (j <= ec)%nat -> bconn r j y ->
  exists y', bconn (S r) j y' /\ y - ins p <= y'.
Proof.
  intros Hr Hj [-> | (u & Hu & Hsu & ->)].
  - exists 0. split; [now left |]. destruct Hnn as (_ & _ & Hi & _). lia.
  - exists (BB (S r - sr) (u - sc)%nat).
    split; [right; exists u; auto |].
    apply in_lt in Hu as Hlt.
    replace (S r - sr)%nat with (S (r - sr)) by lia.
    apply Btab_lb. unfold W. lia.
Qed.

Lemma bconn_del r j v y :
  (sr <= r)%nat -> (sc <= j)%nat -> In v (outNbrs g j) -> (v <= ec)%nat ->
  bconn r j y ->
  exists y', bconn r v y' /\ y - del p <= y'.
Proof.
  intros Hr Hj Hv Hve Hy.
  destruct (out_facts _ _ Hv) as [Hjv Hin].
  destruct Hnn as (_ & _ & _ & Hd).
  destruct Hy as [-> | (u & Hu & Hsu & ->)].
  - exists 0. split; [now left | lia].
  - exists (BB (r - sr) (j - sc)%nat).
    split; [right; exists j; auto |].
    destruct (r - sr)%nat as [| i] eqn:Ei.
    + unfold BB. simpl. lia.
    + destruct (Btab_lb i (j - sc) ltac:(unfold W; lia))
        as (_ & _ & _ & Hlb).
      replace (j - sc + sc)%nat with j in Hlb by lia.
      now apply Hlb.
Qed.

Lemma bconn_diag r j v :
  (sr <= r)%nat -> (sc <= j)%nat -> In v (outNbrs g j) ->
  bconn (S r) v (BB (S (r - sr)) (j - sc)%nat).
Proof.
  intros Hr Hj Hv. destruct (out_facts _ _ Hv) as [_ Hin].
  right. exists j. replace (S r - sr)%nat with (S (r - sr)) by lia. auto.
Qed.

(** Inside the band a prefix and a reverse suffix add up to at most the
    value the band table has at the end cell, plus the tag. *)
Lemma inside_le :
  forall r, (r <= S er)%nat -> (r <= er)%nat -> (sr <= r)%nat ->
  forall j, (j < S ec)%nat -> (sc <= j)%nat ->
  forall y, bconn r j y ->
            y + TT r j <= Z.max best (BB Hh (ec - sc)%nat + 1).
Proof.
  set (E := BB Hh (ec - sc)%nat).
  destruct Hnn as (Hm0 & Hmm & Hi & Hd).
  apply (down_ind (fun r => (r <= er)%nat -> (sr <= r)%nat ->
    forall j, (j < S ec)%nat -> (sc <= j)%nat ->
    forall y, bconn r j y -> y + TT r j <= Z.max best (E + 1))).
  { intros; lia. }
  intros r _ IHr Hre Hrs.
  apply (down_strong_ind (fun j => (sc <= j)%nat ->
    forall y, bconn r j y -> y + TT r j <= Z.max best (E + 1))).
  intros j Hj IHj Hjs y Hy.
  assert (Hrm : (r < m)%nat) by lia.
  assert (Hjn : (j < n)%nat) by lia.
  destruct (bconn_conn r j y Hrs ltac:(lia) Hy) as (yh & Hyh & Hyle).
  pose proof (conn_le_best r j yh ltac:(lia) Hjn Hyh) as Hyhb.
  pose proof (bconn_match r j y Hrs ltac:(lia) Hy) as Hym.
  pose proof (Btab_le_Htab (S (r - sr)) (j - sc) Hsce
                           ltac:(unfold W; lia)) as HBH.
  replace (S (r - sr) + sr)%nat with (S r) in HBH by lia.
  replace (j - sc + sc)%nat with j in HBH by lia.
  pose proof (Hbest_ub r j Hrm Hjn) as Hcell.
  rewrite TTab_rec by auto.
  destruct ((j =? ec) && (r =? er))%nat eqn:Etag.
  { apply andb_true_iff in Etag. destruct Etag as [Ej Er].
    apply Nat.eqb_eq in Ej, Er. subst j r.
    assert (HE : E = BB (S (er - sr)) (ec - sc)%nat)
      by (unfold E, Hh; f_equal; lia).
    destruct (Z.eq_dec (ms er ec) (match_ p)) as [Hms | Hms].
    - rewrite Hms in Hym. lia.
    - destruct (Z.eq_dec (match_ p) 0) as [Hz | Hz].
      + assert (yh <= 0).
        { destruct Hyh as [-> | (u & _ & ->)]; [lia |].
          now apply Htab_zero. }
        pose proof (Btab_nonneg g p read sr sc W Hh (ec - sc)) as HE0.
        fold BB in HE0. fold E in HE0. lia.
      + pose proof (tag_strict yh Hms ltac:(lia) Hyh). lia. }
  assert (Hnt : (r < er \/ j < ec)%nat).
  { apply andb_false_iff in Etag.
    destruct Etag as [E1 | E1]; apply Nat.eqb_neq in E1; lia. }
  destruct (cmO_cases r j) as [-> | [-> | [-> | (v & Hv & [-> | ->])]]].
  - lia.
  - fold ms in Hym. lia.
  - fold TT. destruct (Nat.le_gt_cases (S r) er) as [Hin | Hout].
    + destruct (bconn_ins r j y Hrs ltac:(lia) Hy) as (y' & Hy' & Hle).
      specialize (IHr Hin ltac:(lia) j Hj Hjs y' Hy'). lia.
    + destruct (conn_ins r j yh Hjn Hyh) as (y' & Hy' & Hle).
      pose proof (outside_le_best (S r) ltac:(lia) j Hjn ltac:(lia)
                                  y' Hy'). lia.
  - fold TT. fold ms. fold ms in Hym.
    destruct (out_facts _ _ Hv) as [Hvn _].
    destruct (Nat.le_gt_cases (S r) er) as [Hin | Hout];
      [destruct (Nat.le_gt_cases v ec) as [Hvin | Hvout] |].
    + pose proof (IHr Hin ltac:(lia) v ltac:(lia) ltac:(lia) _
                      (bconn_diag r j v Hrs Hjs Hv)). lia.
    + pose proof (outside_le_best (S r) ltac:(lia) v ltac:(lia)
                                  ltac:(lia) _ (conn_diag r j v Hv)). lia.
    + pose proof (outside_le_best (S r) ltac:(lia) v ltac:(lia)
                                  ltac:(lia) _ (conn_diag r j v Hv)). lia.
  - fold TT. destruct (out_facts _ _ Hv) as [Hvn _].
    destruct (Nat.le_gt_cases v ec) as [Hvin | Hvout].
    + destruct (bconn_del r j v y Hrs Hjs Hv Hvin Hy) as (y' & Hy' & Hle).
      specialize (IHj v ltac:(lia) ltac:(lia) y' Hy'). lia.
    + destruct (conn_del r j v yh Hjn Hv Hyh) as (y' & Hy' & Hle).
      pose proof (outside_le_best r ltac:(lia) v ltac:(lia) ltac:(lia)
                                  y' Hy'). lia.
Qed.

(** The band table has the forward optimum at the end cell, and nothing
    larger in its last row. *)
Lemma band_end_value :
  BB Hh (ec - sc)%nat = best /\
  forall c, (c < W)%nat -> BB Hh c <= best.
Proof.
  assert (Hub : forall c, (c < W)%nat -> BB Hh c <= best).
  { intros c Hc. pose proof (Btab_le_Htab Hh c Hsce Hc) as H.
    unfold Hh in H at 2.
    replace (er - sr + 1 + sr)%nat with (S er) in H by lia.
    pose proof (Hbest_ub er (c + sc) Her ltac:(unfold W in Hc; lia)).
    lia. }
  split; auto.
  pose proof (Hub (ec - sc)%nat ltac:(unfold W; lia)) as Hle.
  pose proof (inside_le sr ltac:(lia) Hsre (Nat.le_refl sr) sc
                        ltac:(lia) (Nat.le_refl sc) 0
                        (or_introl eq_refl)) as Hy.
  rewrite TTab_rec in Hy by auto.
  rewrite untagged in Hy.
  - rewrite Hstart in Hy. lia.
  - pose proof start_not_end. lia.
Qed.
(*MORE*)
End Tables.

(** ** Phase 2.1 finds the Phase-1 score again *)

Lemma cmT_cmO g p read b r c :
  (r < length read)%nat ->
  cmT g p (rev read) b (length read - 1 - r) c = cmO g p read b r c.
Proof.
  intros Hr. unfold cmT, cmO, revCell, TTab, msOf.
  set (m := length read) in *.
  replace (S (m - 1 - r)) with (m - r)%nat by lia.
  replace (m - S r)%nat with (m - 1 - r)%nat by lia.
  rewrite rev_nth by (fold m; lia). fold m.
  replace (m - S (m - 1 - r))%nat with r by lia.
  reflexivity.
Qed.

(** What a completed reverse sweep of a query has established. *)
Lemma phase1_rev_read_spec g p read b matrix1 st2 :
  wf_graph g -> shape (numVertices g) matrix1 ->
  phase1_rev_read g p (reverse read) b matrix1 = Ok st2 ->
  score b = bestScore st2 - 1 /\
  (bestScore st2 = 0 \/
   ((bestRow st2 < length read)%nat /\ (bestCol st2 < numVertices g)%nat /\
    cmO g p read b (bestRow st2) (bestCol st2) = bestScore st2)) /\
  ((qryRowEnd b < length read)%nat -> (refColumnEnd b < numVertices g)%nat ->
   cmO g p read b (qryRowEnd b) (refColumnEnd b) = match_ p).
Proof.
  intros Hwf Hsh Hrun. unfold phase1_rev_read in Hrun.
  inv_bind Hrun as st Hst. inv_bind Hrun as u Hu.
  inversion Hrun; subst st2; clear Hrun.
  apply cassert_Ok in Hu. apply Z.eqb_eq in Hu.
  pose proof (phase1_rev_rows_inv g p (reverse read) b _ _ _ Hwf
                (Nat.le_refl _) (sweepInit_revInv g p _ b matrix1 Hsh) Hst)
    as (_ & _ & _ & Hbest & Has).
  unfold reverse in Hbest, Has. rewrite !length_rev in Hbest, Has.
  set (m := length read) in *. set (n := numVertices g) in *.
  split; [exact Hu |]. split.
  - destruct Hbest as (_ & _ & [(_ & Hz & _) | (Hd & Hval & _)]);
      [now left | right].
    destruct Hd as (Hc & Hr & _). repeat split; auto.
    rewrite <- Hval. symmetry. now apply cmT_cmO.
  - intros Hr Hc. rewrite <- cmT_cmO by auto. fold m.
    apply Has.
    + unfold doneR. lia.
    + unfold tagged.
      replace (m - 1 - (m - 1 - qryRowEnd b))%nat with (qryRowEnd b) by lia.
      now rewrite !Nat.eqb_refl.
Qed.

Lemma fold_left_max_spec t h :
  let x := fold_left Z.max t h in
  h <= x /\ (forall y, In y t -> y <= x) /\ (x = h \/ In x t).
Proof.
  revert h. induction t as [| a t IH]; intros h; simpl.
  - repeat split; auto; try lia; try contradiction.
  - destruct (IH (Z.max h a)) as (H1 & H2 & H3).
    split; [lia |]. split.
    + intros y [-> | Hy]; [lia | auto].
    + destruct H3 as [H3 | H3]; [| auto].
      destruct (Z.max_spec h a) as [[_ E] | [_ E]];
        [right; left | left]; lia.
Qed.

Lemma max_element_spec l x :
  max_element l = Ok x -> In x l /\ forall y, In y l -> y <= x.
Proof.
  destruct l as [| h t]; simpl; [discriminate |].
  intros H; inversion H; subst x; clear H.
  destruct (fold_left_max_spec t h) as (H1 & H2 & H3).
  split; [destruct H3 as [H3 | H3]; [left; now symmetry | now right] |].
  intros y [<- | Hy]; auto.
Qed.

Lemma max_element_total l :
  l <> [] -> exists x, max_element l = Ok x.
Proof. destruct l; [congruence | simpl; eauto]. Qed.

Lemma bandSize_nat first last :
  (first <= last)%nat -> bandSize first last = Ok (last - first + 1)%nat.
Proof.
  intros Hle. unfold bandSize.
  destruct (Z.ltb_spec (Z.of_nat last - Z.of_nat first + 1) 0); [lia |].
  f_equal. lia.
Qed.

(** The state Phase 2.1 reaches on a band: its final row is the last row
    of the band table, and the log holds the vertical differences. *)
Lemma phase2_rows_final g p read i0 j0 Hh W :
  topological g ->
  let st := phase2_rows g p read i0 j0 Hh W (bandInit Hh W) Hh in
  length (finalRow st) = W /\
  (forall c, (c < W)%nat ->
             nth c (finalRow st) 0 = Btab g p read i0 j0 W Hh c) /\
  (forall r c, (r < Hh)%nat -> (c < W)%nat ->
               mget (completeMatrixLog st) r c
               = to_int8 (Btab g p read i0 j0 W (S r) c
                          - Btab g p read i0 j0 W r c)).
Proof.
  intros Htopo st.
  pose proof (phase2_rows_inv g p read i0 j0 Hh W _ Hh Htopo
                              (Nat.le_refl Hh)
                              (bandInit_inv g p read i0 j0 Hh W))
    as ((_ & _ & _ & _ & Hlog) & Hlen & Hfin).
  fold st in Hlog, Hlen, Hfin.
  split; [exact Hlen |]. split; [exact (Hfin eq_refl) |].
  intros r c Hr Hc. apply Hlog; auto.
Qed.

(** Phase 2.1 completes when the last row of the band table has its
    maximum, the stored score, at the end column. *)
Lemma phase2_recompute_complete g p read b :
  topological g ->
  (refColumnStart b <= refColumnEnd b)%nat ->
  (qryRowStart b <= qryRowEnd b)%nat ->
  let W := (refColumnEnd b - refColumnStart b + 1)%nat in
  let Hh := (qryRowEnd b - qryRowStart b + 1)%nat in
  let B := Btab g p read (qryRowStart b) (refColumnStart b) W in
  B Hh (refColumnEnd b - refColumnStart b)%nat = score b ->
  (forall c, (c < W)%nat -> B Hh c <= score b) ->
  exists band,
    phase2_recompute g p read b = Ok band /\
    band = phase2_rows g p read (qryRowStart b) (refColumnStart b) Hh W
                       (bandInit Hh W) Hh.
Proof.
  intros Htopo Hc Hr W Hh B Hend Hub.
  unfold phase2_recompute.
  rewrite (bandSize_nat _ _ Hc), (bandSize_nat _ _ Hr). simpl bind.
  fold W. fold Hh.
  destruct (phase2_rows_final g p read (qryRowStart b) (refColumnStart b)
                              Hh W Htopo) as (Hlen & Hfin & _).
  set (st := phase2_rows _ _ _ _ _ _ _ _ _) in *.
  fold B in Hfin.
  destruct (max_element_total (finalRow st)) as [x Hx].
  { intros E. rewrite E in Hlen. simpl in Hlen. unfold W in Hlen. lia. }
  rewrite Hx. simpl bind.
  apply max_element_spec in Hx. destruct Hx as [Hin Hmax].
  assert (Hxs : x = score b).
  { apply Z.le_antisymm.
    - apply (In_nth _ _ 0) in Hin. destruct Hin as (c & Hc' & <-).
      rewrite Hfin by lia. apply Hub. lia.
    - rewrite <- Hend, <- Hfin by (unfold W; lia).
      apply Hmax. apply nth_In. rewrite Hlen. unfold W. lia. }
  subst x. rewrite Z.eqb_refl. simpl bind.
  rewrite Hfin, Hend, Z.eqb_refl by (unfold W; lia). simpl.
  eauto.
Qed.


Lemma nonneg_unitScores : nonneg unitScores.
Proof. unfold nonneg, unitScores. simpl. lia. Qed.

Lemma unitScores_int32 L : (L < 1000)%nat -> int32Scores unitScores L.
Proof.
  intros HL. split; [exact nonneg_unitScores |].
  unfold INT32_MAX, unitScores. simpl. lia.
Qed.

(** ** The score of a CIGAR string *)

Lemma opsTotal_app p l1 l2 :
  opsTotal p (l1 ++ l2) = opsTotal p l1 + opsTotal p l2.
Proof. induction l1 as [| c l1 IH]; simpl; lia. Qed.

Lemma opsTotal_rev p l : opsTotal p (rev l) = opsTotal p l.
Proof.
  induction l as [| c l IH]; simpl; auto.
  rewrite opsTotal_app, IH. simpl. lia.
Qed.

Lemma parse_uint p d rest count acc :
  cigarScoreFrom p (list_ascii_of_string (NilEmpty.string_of_uint d) ++ rest)
                 count acc
  = cigarScoreFrom p rest (Nat.of_uint_acc d count) acc.
Proof.
  revert count.
  induction d as [| d IH | d IH | d IH | d IH | d IH | d IH | d IH | d IH
                  | d IH | d IH]; intros count; simpl; auto;
    rewrite IH; f_equal; f_equal; rewrite Nat.tail_mul_spec; lia.
Qed.

Lemma parse_decimal p k rest acc :
  cigarScoreFrom p (decimal k ++ rest) 0 acc = cigarScoreFrom p rest k acc.
Proof.
  unfold decimal. rewrite parse_uint.
  change (Nat.of_uint_acc (Nat.to_uint k) 0) with (Nat.of_uint (Nat.to_uint k)).
  now rewrite DecimalNat.Unsigned.of_to.
Qed.

Lemma compactRun_score p rest :
  Forall isOp rest ->
  forall c count acc,
    isOp c ->
    cigarScoreFrom p (compactRun c count rest) 0 acc
    = acc + Z.of_nat count * opScore p c + opsTotal p rest.
Proof.
  induction 1 as [| d rest Hd Hrest IH]; intros c count acc Hc; simpl.
  - rewrite parse_decimal. simpl. unfold isOp in Hc. rewrite Hc. simpl. lia.
  - destruct (Ascii.eqb_spec c d) as [-> | Hne].
    + rewrite IH by auto. lia.
    + rewrite parse_decimal. simpl. unfold isOp in Hc. rewrite Hc.
      rewrite IH by auto. lia.
Qed.

(** Scoring the compacted CIGAR gives the sum of the scores of the
    operations. *)
Lemma cigarScore_compact p l :
  Forall isOp l -> cigarScore (cigarCompact l) p = opsTotal p l.
Proof.
  intros Hl. unfold cigarScore, cigarCompact.
  destruct l as [| c rest]; simpl; auto.
  inversion Hl; subst. rewrite compactRun_score by auto. lia.
Qed.

(** ** The vertical differences fit the log *)

Lemma to_int8_small z : -128 <= z <= 127 -> to_int8 z = z.
Proof. intros Hz. unfold to_int8. rewrite Z.mod_small; lia. Qed.

Lemma Btab_lower g p read i0 j0 W i j :
  topological g -> (j < W)%nat ->
  let B := Btab g p read i0 j0 W in
  0 <= B (S i) j /\ B i j - ins p <= B (S i) j /\
  forall u, In u (inNbrs g (j + j0)) -> (j0 <= u)%nat ->
            B (S i) (u - j0)%nat - del p <= B (S i) j.
Proof.
  intros Htopo Hj B. unfold B. rewrite (Btab_rec g p read i0 j0 W i j) by auto.
  unfold bandCell.
  match goal with
  | |- context [bandValue ?p ?nb ?j0 ?pr ?cu ?ms ?j] =>
      pose proof (bandValue_lb p nb j0 pr cu ms j) as (H0 & _ & Hi & Hu)
  end.
  repeat split; auto. intros u Hu1 Hu2. now apply Hu.
Qed.

Lemma Btab_del g p read i0 j0 W k j u :
  topological g -> 0 <= del p -> (j < W)%nat ->
  In u (inNbrs g (j + j0)) -> (j0 <= u)%nat ->
  Btab g p read i0 j0 W k (u - j0)%nat - del p <= Btab g p read i0 j0 W k j.
Proof.
  intros Htopo Hd Hj Hu Hju. destruct k as [| i].
  - simpl. lia.
  - now apply Btab_lower.
Qed.

(** A vertical difference of the band table lies between [-ins] and
    [match + del]. *)
Lemma Btab_diff g p read i0 j0 W i j :
  topological g -> nonneg p -> (j < W)%nat ->
  let B := Btab g p read i0 j0 W in
  - ins p <= B (S i) j - B i j <= match_ p + del p.
Proof.
  intros Htopo (Hm & Hmm & Hi & Hd) Hj B.
  induction j as [j IHj] using lt_wf_ind.
  destruct (Btab_lower g p read i0 j0 W i j Htopo Hj) as (H0 & Hins & _).
  fold B in H0, Hins. split; [lia |].
  pose proof (Btab_nonneg g p read i0 j0 W i j) as Hprev. fold B in Hprev.
  assert (Hrec := Btab_rec g p read i0 j0 W i j Htopo Hj).
  fold B in Hrec. unfold bandCell in Hrec.
  match type of Hrec with
  | _ = bandValue ?p ?nb ?j0 ?pr ?cu ?ms ?j =>
      pose proof (bandValue_cases p nb j0 pr cu ms j) as Hc;
      pose proof (matchScoreOf_cases p (labelOf g (j + j0))
                                     (nth (i + i0) read zero)) as Hms
  end.
  cbv zeta in Hc. rewrite <- Hrec in Hc.
  destruct Hc as [Hc | [Hc | [Hc | (u & Hu & Hju & [Hc | Hc])]]]; try lia.
  - pose proof (Btab_del g p read i0 j0 W i j u Htopo Hd Hj Hu Hju) as Hdl.
    fold B in Hdl. lia.
  - pose proof (Btab_del g p read i0 j0 W i j u Htopo Hd Hj Hu Hju) as Hdl.
    fold B in Hdl. apply Htopo in Hu as Hlt.
    specialize (IHj (u - j0)%nat ltac:(lia) ltac:(lia)). lia.
Qed.

(** ** The traceback follows the band table *)

Lemma bandEdges_ext p nbrs j0 prev prev' cur cur' ms :
  (forall u, In u nbrs -> (j0 <= u)%nat ->
             prev (u - j0)%nat = prev' (u - j0)%nat /\
             cur (u - j0)%nat = cur' (u - j0)%nat) ->
  bandEdges p nbrs j0 prev cur ms = bandEdges p nbrs j0 prev' cur' ms.
Proof.
  intros Hn. unfold bandEdges. generalize (ms, -1).
  induction nbrs as [| x l IH]; intros a; simpl; auto.
  rewrite IH by (intros; apply Hn; simpl; auto).
  f_equal. destruct a as [fm fd].
  destruct (Nat.leb_spec j0 x) as [Hx | Hx]; auto.
  destruct (Hn x (or_introl eq_refl) Hx) as [-> ->]. reflexivity.
Qed.

(** The loop over the in-edges of the traceback finds the two maxima of
    the recomputation, and where [fromMatch] comes from. *)
Lemma traceEdges_values p nbrs j0 c above cur ms fm fmp fd fdp :
  traceEdges p nbrs j0 c above cur ms = (fm, fmp, fd, fdp) ->
  bandEdges p nbrs j0 (fun k => nth k above 0) (fun k => nth k cur 0) ms
  = (fm, fd) /\
  ((fmp = c /\ fm = ms) \/
   exists u, In u nbrs /\ (j0 <= u)%nat /\ fmp = (u - j0)%nat /\
             fm = nth (u - j0) above 0 + ms).
Proof.
  unfold traceEdges, bandEdges.
  set (fT := fun '(fromMatch, fromMatchPos, fromDeletion, fromDeletionPos) u =>
               if (j0 <=? u)%nat
               then
                 let fromCol := (u - j0)%nat in
                 let '(fromMatch, fromMatchPos) :=
                   if fromMatch <? nth fromCol above 0 + ms
                   then (nth fromCol above 0 + ms, fromCol)
                   else (fromMatch, fromMatchPos) in
                 let '(fromDeletion, fromDeletionPos) :=
                   if fromDeletion <? nth fromCol cur 0 - del p
                   then (nth fromCol cur 0 - del p, Some fromCol)
                   else (fromDeletion, fromDeletionPos) in
                 (fromMatch, fromMatchPos, fromDeletion, fromDeletionPos)
               else (fromMatch, fromMatchPos, fromDeletion, fromDeletionPos)).
  set (fB := fun '(fromMatch, fromDeletion) u =>
               if (j0 <=? u)%nat
               then (psgl_max fromMatch (nth (u - j0) above 0 + ms),
                     psgl_max fromDeletion (nth (u - j0) cur 0 - del p))
               else (fromMatch, fromDeletion)).
  assert (Hgen : forall l a ap d dp fm fmp fd fdp,
    fold_left fT l (a, ap, d, dp) = (fm, fmp, fd, fdp) ->
    fold_left fB l (a, d) = (fm, fd) /\
    ((fmp = ap /\ fm = a) \/
     exists u, In u l /\ (j0 <= u)%nat /\ fmp = (u - j0)%nat /\
               fm = nth (u - j0) above 0 + ms));
    [| intros Hrun; exact (Hgen nbrs ms c (-1) None fm fmp fd fdp Hrun)].
  clear fm fmp fd fdp.
  induction l as [| x l IH]; intros a ap d dp fm fmp fd fdp Hrun.
  - simpl in Hrun. inversion Hrun; subst. simpl. auto.
  - change (fold_left fT (x :: l) (a, ap, d, dp))
      with (fold_left fT l (fT (a, ap, d, dp) x)) in Hrun.
    change (fold_left fB (x :: l) (a, d))
      with (fold_left fB l (fB (a, d) x)).
    unfold fT at 2 in Hrun. unfold fB at 2.
    destruct (Nat.leb_spec j0 x) as [Hx | Hx].
    + rewrite !psgl_max_spec.
      destruct (Z.ltb_spec a (nth (x - j0) above 0 + ms)) as [Ha | Ha];
        destruct (Z.ltb_spec d (nth (x - j0) cur 0 - del p)) as [Hd | Hd];
        destruct (IH _ _ _ _ _ _ _ _ Hrun) as [Hv Hp];
        (split;
         [ rewrite <- Hv;
           rewrite ?(Z.max_r a) by lia; rewrite ?(Z.max_l a) by lia;
           rewrite ?(Z.max_r d) by lia; rewrite ?(Z.max_l d) by lia;
           reflexivity
         | destruct Hp as [[-> ->] | (u & Hu & Hju & Hp1 & Hp2)];
           [ first [ now left | right; exists x; simpl; auto ]
           | right; exists u; simpl; auto ] ]).
    + destruct (IH _ _ _ _ _ _ _ _ Hrun) as [Hv Hp].
      split; auto.
      destruct Hp as [[-> ->] | (u & Hu & Hju & Hp1 & Hp2)];
        [now left | right; exists u; simpl; auto].
Qed.

Lemma nth_map_seq (f : nat -> Z) W c :
  (c < W)%nat -> nth c (map f (seq 0 W)) 0 = f c.
Proof.
  intros Hc. rewrite (nth_indep _ 0 (f 0%nat)) by
      (rewrite length_map, length_seq; lia).
  rewrite map_nth, seq_nth; auto.
Qed.

Section Traceback.
Variables (g : CSR_char_container) (p : Parameters) (read : str).
Variables (i0 j0 W Hh : nat) (log : list (list Z)) (target : Z).
Hypothesis Htopo : topological g.
Hypothesis Hnn : nonneg p.

Let B := Btab g p read i0 j0 W.

(** The log holds the vertical differences of the band table. *)
Hypothesis Hlog :
  forall r c, (r < Hh)%nat -> (c < W)%nat ->
              mget log r c = B (S r) c - B r c.

(** State of the traceback at the head of the loop: the current row is a
    row of the band table, and the operations emitted so far make up the
    difference between the end cell and the current cell. *)
Definition traceOK (st : traceState) : Prop :=
  (col st < W)%nat /\
  -1 <= row st < Z.of_nat Hh /\
  (forall c, (c < W)%nat ->
             nth c (currentRowScores st) 0 = B (Z.to_nat (row st + 1)) c) /\
  opsTotal p (ops st) + B (Z.to_nat (row st + 1)) (col st) = target /\
  Forall isOp (ops st).

Definition traceDone (st : traceState) : Prop :=
  opsTotal p (ops st) = target /\ Forall isOp (ops st).

Definition traceMeasure (st : traceState) : nat :=
  (Z.to_nat (row st + 1) + col st)%nat.

Lemma matchOp_score ms :
  ms = match_ p \/ ms = - mismatch p ->
  opScore p (if ms =? match_ p then "="%char else "X"%char) = ms /\
  isOp (if ms =? match_ p then "="%char else "X"%char).
Proof.
  intros Hms. destruct (Z.eqb_spec ms (match_ p)) as [-> | Hne].
  - split; reflexivity.
  - split; [| reflexivity]. destruct Hms as [Hms | ->]; [congruence |].
    reflexivity.
Qed.

Lemma trace_step_ok st :
  traceOK st -> 0 <= row st ->
  exists st' continue,
    trace_step g p read i0 j0 W log st = Ok (st', continue) /\
    if continue
    then traceOK st' /\ (traceMeasure st' < traceMeasure st)%nat
    else traceDone st'.
Proof.
  intros (Hc & Hrow & Hcur & Htot & Hops) Hr0.
  destruct Hnn as (Hm0 & Hmm & Hi0 & Hd0).
  set (r := Z.to_nat (row st)).
  assert (Hr1 : Z.to_nat (row st + 1) = S r) by (unfold r; lia).
  assert (Hr2 : Z.to_nat (row st - 1 + 1) = r) by (unfold r; lia).
  assert (HrH : (r < Hh)%nat) by (unfold r; lia).
  rewrite Hr1 in Hcur, Htot.
  unfold trace_step, traceOK, traceDone, traceMeasure.
  set (cur := currentRowScores st) in *.
  pose proof (Btab_nonneg g p read i0 j0 W (S r) (col st)) as Hcell0.
  fold B in Hcell0.
  destruct (Z.leb_spec (nth (col st) cur 0) 0) as [Hle | Hpos].
  { do 2 eexists. split; [reflexivity |]. cbn [ops].
    rewrite (Hcur _ Hc) in Hle. split; [lia | auto]. }
  fold r.
  set (above := map (fun k => nth k cur 0 - mget log r k) (seq 0 W)).
  assert (Habove : forall c, (c < W)%nat -> nth c above 0 = B r c).
  { intros c Hc'. unfold above. rewrite nth_map_seq by auto.
    rewrite Hcur, Hlog by auto. lia. }
  set (ms := matchScoreOf p (nth (col st + j0) (vertex_label g) zero)
                          (nth (r + i0) read zero)).
  assert (Hms : ms = match_ p \/ ms = - mismatch p)
    by apply matchScoreOf_cases.
  destruct (matchOp_score ms Hms) as [Hop Hisop].
  destruct (traceEdges p (inNbrs g (col st + j0)) j0 (col st) above cur ms)
    as [[[fm fmp] fd] fdp] eqn:HE.
  destruct (traceEdges_values _ _ _ _ _ _ _ _ _ _ _ HE) as [Hv Hp].
  destruct (traceEdges_inv _ _ _ _ _ _ _ _ _ _ _ HE) as [_ Hdl].
  assert (Hval : nth (col st) cur 0
                 = Z.max (Z.max (B r (col st) - ins p) fm) (Z.max fd 0)).
  { rewrite (Hcur _ Hc). unfold B.
    rewrite (Btab_rec g p read i0 j0 W r (col st) Htopo Hc).
    unfold bandCell, bandValue. fold B. fold (labelOf g (col st + j0)).
    unfold labelOf. fold ms.
    rewrite (bandEdges_ext p _ j0 (B r) (fun k => nth k above 0)
                           (B (S r)) (fun k => nth k cur 0) ms).
    - rewrite Hv. now rewrite !psgl_max_spec.
    - intros u Hu Hju. apply Htopo in Hu.
      rewrite Habove, Hcur by lia. auto. }
  destruct (Z.eqb_spec (nth (col st) cur 0) fm) as [Efm | Nfm].
  { destruct (Nat.eqb_spec fmp (col st)) as [Epos | Npos].
    - do 2 eexists. split; [reflexivity |]. cbn [ops].
      rewrite opsTotal_app. simpl opsTotal at 2. rewrite Hop.
      split; [| apply Forall_app; auto].
      destruct Hp as [[_ Hfm] | (u & Hu & Hju & Hfp & _)].
      + rewrite (Hcur _ Hc) in Efm. lia.
      + apply Htopo in Hu. lia.
    - do 2 eexists. split; [reflexivity |].
      cbn [ops col row currentRowScores].
      destruct Hp as [[Hfp _] | (u & Hu & Hju & Hfp & Hfm)]; [congruence |].
      apply Htopo in Hu as Hlt. rewrite Hr2, Hr1.
      split; [| lia]. split; [lia |]. split; [lia |].
      split; [exact Habove |]. split.
      + rewrite opsTotal_app. simpl opsTotal at 2. rewrite Hop.
        rewrite Hfp. rewrite Habove in Hfm by lia.
        rewrite (Hcur _ Hc) in Efm. lia.
      + apply Forall_app; auto. }
  destruct (Z.eqb_spec (nth (col st) cur 0) fd) as [Efd | Nfd].
  { destruct Hdl as [[Hfd _] | (_ & u & Hu & Hju & Hfdp & Hfd)]; [lia |].
    rewrite Hfdp.
    do 2 eexists. split; [reflexivity |].
    cbn [ops col row currentRowScores]. fold cur.
    apply Htopo in Hu as Hlt. rewrite Hr1.
    split; [| lia]. split; [lia |]. split; [lia |].
    split; [exact Hcur |]. split.
    - rewrite opsTotal_app. simpl opsTotal at 2.
      change (opScore p "D") with (- del p).
      rewrite Hcur in Hfd by lia. rewrite (Hcur _ Hc) in Efd. lia.
    - apply Forall_app; split; auto. constructor; [reflexivity | constructor]. }
  assert (Eins : nth (col st) cur 0 = nth (col st) above 0 - ins p).
  { rewrite Habove by auto. lia. }
  rewrite <- Eins, Z.eqb_refl. simpl bind.
  do 2 eexists. split; [reflexivity |].
  cbn [ops col row currentRowScores]. rewrite Hr2, Hr1.
  split; [| lia]. split; [lia |]. split; [lia |].
  split; [exact Habove |]. split.
  - rewrite opsTotal_app. simpl opsTotal at 2.
    change (opScore p "I") with (- ins p).
    rewrite Habove in Eins by auto. rewrite (Hcur _ Hc) in Eins. lia.
  - apply Forall_app; split; auto. constructor; [reflexivity | constructor].
Qed.

Lemma trace_loop_ok budget st :
  traceOK st -> (traceMeasure st < budget)%nat ->
  exists st', trace_loop budget g p read i0 j0 W log st = Ok st' /\
              traceDone st'.
Proof.
  revert st. induction budget as [| budget IH]; intros st Hok Hlt; [lia |].
  simpl. destruct (Z.ltb_spec (row st) 0) as [Hneg | Hr0].
  - exists st. split; auto.
    destruct Hok as (_ & Hrow & _ & Htot & Hops).
    replace (Z.to_nat (row st + 1)) with 0%nat in Htot by lia.
    unfold B in Htot. simpl in Htot. split; [lia | auto].
  - destruct (trace_step_ok st Hok Hr0) as (st1 & continue & Hstep & Hnext).
    rewrite Hstep. simpl bind. destruct continue.
    + destruct Hnext as [Hok1 Hm1]. apply IH; auto. lia.
    + exists st1. auto.
Qed.
End Traceback.

Lemma phase2_recompute_Ok g p read b band :
  phase2_recompute g p read b = Ok band ->
  exists W Hh,
    bandSize (refColumnStart b) (refColumnEnd b) = Ok W /\
    bandSize (qryRowStart b) (qryRowEnd b) = Ok Hh /\
    band = phase2_rows g p read (qryRowStart b) (refColumnStart b) Hh W
                       (bandInit Hh W) Hh /\
    finalRow band <> [] /\
    nth (refColumnEnd b - refColumnStart b) (finalRow band) 0 = score b.
Proof.
  unfold phase2_recompute. intros H.
  inv_bind H as W HW. inv_bind H as Hh HHh.
  inv_bind H as x Hx. inv_bind H as u1 Hu1. inv_bind H as u2 Hu2.
  inversion H; subst band; clear H.
  apply cassert_Ok in Hu1, Hu2. apply Z.eqb_eq in Hu1, Hu2.
  exists W, Hh. repeat split; auto.
  - intros E. rewrite E in Hx. discriminate.
  - congruence.
Qed.

(** The traceback is right whenever the log can hold the vertical
    differences.  When Phase 2.1 has completed for a query, on a
    topologically numbered graph and with non-negative scoring parameters
    such that [ins <= 128] and [match + del <= 127] (every vertical
    difference then fits an [int8_t]), the traceback completes, the
    assertion on the CIGAR holds, and the CIGAR that is stored scores
    exactly the stored best score. *)
Theorem traceback_cigar_scores_best g p read b band :
  topological g -> nonneg p ->
  ins p <= 128 -> match_ p + del p <= 127 ->
  phase2_recompute g p read b = Ok band ->
  exists r, phase2_read g p read b = Ok r /\
            cigarScore (cigar r) p = score b /\
            score r = score b.
Proof.
  intros Htopo Hnn Hins Hmd Hrun.
  destruct (phase2_recompute_Ok g p read b band Hrun)
    as (W & Hh & HW & HHh & Hband & Hne & Hend).
  destruct (phase2_rows_final g p read (qryRowStart b) (refColumnStart b)
                              Hh W Htopo) as (Hlen & Hfin & Hlog).
  rewrite <- Hband in Hlen, Hfin, Hlog.
  assert (HW1 : (1 <= W)%nat).
  { destruct (finalRow band); [congruence | simpl in Hlen; lia]. }
  pose proof (bandSize_Ok _ _ _ HW) as HWz.
  set (B := Btab g p read (qryRowStart b) (refColumnStart b) W) in *.
  assert (Hlog' : forall r c, (r < Hh)%nat -> (c < W)%nat ->
                    mget (completeMatrixLog band) r c = B (S r) c - B r c).
  { intros r c Hr Hc. rewrite Hlog by auto. apply to_int8_small.
    pose proof (Btab_diff g p read (qryRowStart b) (refColumnStart b) W
                          r c Htopo Hnn Hc) as Hd.
    fold B in Hd. cbv zeta in Hd. lia. }
  assert (Hcol : (refColumnEnd b - refColumnStart b = W - 1)%nat) by lia.
  rewrite Hcol, Hfin in Hend by lia.
  destruct (trace_loop_ok g p read (qryRowStart b) (refColumnStart b) W Hh
              (completeMatrixLog band) (score b) Htopo Hnn Hlog'
              (Hh + W)
              {| ops := []; used_cols := [];
                 currentRowScores := finalRow band;
                 col := (W - 1)%nat; row := Z.of_nat Hh - 1 |})
    as (t & Ht & Htot & Hops).
  { unfold traceOK. cbn [ops col row currentRowScores].
    replace (Z.to_nat (Z.of_nat Hh - 1 + 1)) with Hh by lia.
    fold B. repeat split; auto; try lia. }
  { unfold traceMeasure. cbn [col row]. lia. }
  unfold phase2_read. rewrite Hrun. simpl bind.
  unfold phase2_trace. rewrite HW, HHh. simpl bind.
  replace (W =? 0)%nat with false by (symmetry; apply Nat.eqb_neq; lia).
  rewrite Ht. simpl bind.
  assert (Hscore : cigarScore (cigarCompact (rev (ops t))) p = score b).
  { rewrite cigarScore_compact by (apply Forall_rev; exact Hops).
    now rewrite opsTotal_rev. }
  rewrite Hscore, Z.eqb_refl. simpl bind.
  eexists. split; [reflexivity |]. cbn [cigar score]. auto.
Qed.

(** C5 at the chain C -> C with the query AC and the scores match = 129,
    mismatch = 0, ins = 127, del = 2.  The best score is 129.  The vertical
    differences of the second band row are 129; stored in the [int8_t] log
    they become -127, the traceback rebuilds a wrong row above, and the
    operations it emits, a mismatch and an insertion (CIGAR 1X1I), score
    -127 instead of 129: the assertion on the CIGAR score fails and the run
    aborts. *)
Theorem int8_log_breaks_traceback :
  let g := chainGraph (s "CC") in
  let p := {| match_ := 129; mismatch := 0; ins := 127; del := 2 |} in
  let q := s "AC" in
  let b := phase1_record g p q in
  score b = 129 /\
  exists st2 band t,
    phase1_rev_read g p (reverse q) b (freshMatrix g) = Ok st2 /\
    phase2_recompute g p q (withStart b st2) = Ok band /\
    completeMatrixLog band = [[0; 0]; [-127; -127]] /\
    phase2_trace g p q (withStart b st2) band = Ok t /\
    rev (ops t) = s "XI" /\
    opsTotal p (ops t) = -127 /\
    cigarCompact (rev (ops t)) = s "1X1I" /\
    cigarScore (cigarCompact (rev (ops t))) p = -127 /\
    alignToDAGLocal [q] g p = Err AssertionFailed.
Proof.
  intros g p q b. split; [reflexivity |].
  do 3 eexists.
  split; [vm_compute; reflexivity |].
  split; [vm_compute; reflexivity |].
  split; [reflexivity |].
  split; [vm_compute; reflexivity |].
  split; [reflexivity |].
  split; [reflexivity |].
  split; [reflexivity |].
  split; vm_compute; reflexivity.
Qed.

(** ** The records of a run *)

Lemma nth_map_seq_gen {A} (f : nat -> A) n k d :
  (k < n)%nat -> nth k (map f (seq 0 n)) d = f k.
Proof.
  intros Hk. rewrite (nth_indep _ d (f 0%nat))
    by (rewrite length_map, length_seq; lia).
  rewrite map_nth, seq_nth; auto.
Qed.

Lemma readSet_P1_of_length readSet :
  length (readSet_P1_of readSet) = (2 * length readSet)%nat.
Proof.
  unfold readSet_P1_of. induction readSet as [| r l IH]; simpl; auto.
  rewrite IH. lia.
Qed.

(** Phase 1 gets every query twice, and nothing else. *)
Lemma readSet_P1_of_nth readSet k :
  nth (2 * k) (readSet_P1_of readSet) [] = nth k readSet [] /\
  nth (2 * k + 1) (readSet_P1_of readSet) [] = nth k readSet [].
Proof.
  unfold readSet_P1_of. revert k.
  induction readSet as [| r l IH]; intros k.
  - simpl. destruct (2 * k)%nat, (2 * k + 1)%nat, k; auto.
  - destruct k as [| k].
    + simpl. auto.
    + replace (2 * S k)%nat with (S (S (2 * k))) by lia.
      replace (S (S (2 * k)) + 1)%nat with (S (S (2 * k + 1))) by lia.
      simpl flat_map. cbn [nth app]. apply IH.
Qed.

Lemma phase1_read_shape g p read m0 :
  shape (numVertices g) m0 ->
  shape (numVertices g) (matrix (phase1_read g p read m0)).
Proof.
  intros Hsh. unfold phase1_read, phase1_rows.
  apply (fold_left_inv _ (fun st => shape (numVertices g) (matrix st))).
  - now apply sweepInit_shape.
  - intros st i _ Hst. unfold phase1_row.
    apply (fold_left_inv _ (fun st => shape (numVertices g) (matrix st)));
      auto.
    intros st' j _ Hst'. unfold phase1_cell.
    destruct (_ =? _); cbn [matrix]; now apply mset_shape.
Qed.

Lemma bestInv_unique val done b br bc b' br' bc' :
  bestInv val done lexle b br bc -> bestInv val done lexle b' br' bc' ->
  b = b' /\ br = br' /\ bc = bc'.
Proof.
  intros (_ & Hub & Hlast) (_ & Hub' & Hlast').
  destruct Hlast as [(Hn & -> & -> & ->) | (Hd & Hv & Hl)];
    destruct Hlast' as [(Hn' & -> & -> & ->) | (Hd' & Hv' & Hl')]; auto.
  - exfalso. exact (Hn _ _ Hd').
  - exfalso. exact (Hn' _ _ Hd).
  - pose proof (Hub _ _ Hd') as H1. pose proof (Hub' _ _ Hd) as H2.
    assert (Hb : b = b') by lia. split; auto.
    pose proof (Hl _ _ Hd' (eq_trans Hv' (eq_sym Hb))) as H3.
    pose proof (Hl' _ _ Hd (eq_trans Hv Hb)) as H4.
    unfold lexle in H3, H4. lia.
Qed.

(** On a topologically numbered graph, what Phase 1 finds for a query does
    not depend on what the previous query left in the matrix. *)
Lemma phase1_read_indep g p read m0 m0' :
  topological g ->
  shape (numVertices g) m0 -> shape (numVertices g) m0' ->
  bestScore (phase1_read g p read m0) = bestScore (phase1_read g p read m0') /\
  bestRow (phase1_read g p read m0) = bestRow (phase1_read g p read m0') /\
  bestCol (phase1_read g p read m0) = bestCol (phase1_read g p read m0').
Proof.
  intros Htopo Hsh Hsh'.
  exact (bestInv_unique _ _ _ _ _ _ _ _
           (phase1_read_best g p read m0 Htopo Hsh)
           (phase1_read_best g p read m0' Htopo Hsh')).
Qed.

(** The records Phase 1 leaves: record [j] holds the best score and the end
    cell of read [j]. *)
Lemma phase1_scalar_spec rs g p bsv out :
  alignToDAGLocal_Phase1_scalar rs g p bsv = Ok out ->
  length out = length rs /\
  forall j, (j < length rs)%nat ->
    exists m, shape (numVertices g) m /\
      score (nth j out BestScoreInfo0)
      = bestScore (phase1_read g p (nth j rs []) m) /\
      refColumnEnd (nth j out BestScoreInfo0)
      = bestCol (phase1_read g p (nth j rs []) m) /\
      qryRowEnd (nth j out BestScoreInfo0)
      = bestRow (phase1_read g p (nth j rs []) m).
Proof.
  unfold alignToDAGLocal_Phase1_scalar. intros H.
  inv_bind H as u Hu. apply cassert_Ok in Hu. apply Nat.eqb_eq in Hu.
  inversion H; subst out; clear H.
  match goal with |- context [fold_left ?f _ _] => set (F := f) end.
  assert (Hgen : forall k, (k <= length rs)%nat ->
    shape (numVertices g) (fst (fold_left F (seq 0 k) (freshMatrix g, bsv))) /\
    length (snd (fold_left F (seq 0 k) (freshMatrix g, bsv))) = length rs /\
    forall j, (j < k)%nat ->
      exists m, shape (numVertices g) m /\
        score (nth j (snd (fold_left F (seq 0 k) (freshMatrix g, bsv)))
                   BestScoreInfo0)
        = bestScore (phase1_read g p (nth j rs []) m) /\
        refColumnEnd (nth j (snd (fold_left F (seq 0 k) (freshMatrix g, bsv)))
                          BestScoreInfo0)
        = bestCol (phase1_read g p (nth j rs []) m) /\
        qryRowEnd (nth j (snd (fold_left F (seq 0 k) (freshMatrix g, bsv)))
                       BestScoreInfo0)
        = bestRow (phase1_read g p (nth j rs []) m)).
  { induction k as [| k IH]; intros Hk.
    - cbn [seq fold_left fst snd].
      split; [apply freshMatrix_shape |]. split; [auto | intros; lia].
    - rewrite seq_S, fold_left_app. cbn [fold_left Nat.add].
      destruct (fold_left F (seq 0 k) (freshMatrix g, bsv)) as [m b].
      destruct IH as (Hsh & Hlen & Hrec); [lia |]. cbn [fst snd] in *.
      unfold F. cbn [fst snd].
      split; [now apply phase1_read_shape |].
      split; [now rewrite list_set_length |].
      intros j Hj. destruct (Nat.eq_dec j k) as [-> | Hne].
      + rewrite nth_list_set_same by lia. exists m. cbn. auto.
      + rewrite nth_list_set_other by auto. apply Hrec. lia. }
  destruct (Hgen (length rs) (Nat.le_refl _)) as (_ & Hlen & Hrec).
  split; auto.
Qed.

Lemma phase1_scalar_Ok rs g p bsv :
  length bsv = length rs ->
  exists out, alignToDAGLocal_Phase1_scalar rs g p bsv = Ok out.
Proof.
  intros Hl. unfold alignToDAGLocal_Phase1_scalar.
  rewrite Hl, Nat.eqb_refl. simpl bind. eauto.
Qed.

Lemma foldM_inv {A B} (f : A -> B -> result A) (P : A -> Prop) l a a' :
  P a -> (forall a x a', P a -> f a x = Ok a' -> P a') ->
  foldM f l a = Ok a' -> P a'.
Proof.
  intros Ha Hstep. revert a Ha.
  induction l as [| x l IH]; intros a Ha H; simpl in H.
  - inversion H; subst; auto.
  - inv_bind H as a1 Ha1. apply (IH a1); [eapply Hstep; eauto | exact H].
Qed.

Lemma sameMeta_refl v : sameMeta v v.
Proof. split; auto. Qed.

Lemma sameMeta_set v1 v2 k r :
  sameMeta v1 v2 ->
  score r = score (nth k v2 BestScoreInfo0) ->
  strand r = strand (nth k v2 BestScoreInfo0) ->
  qryId r = qryId (nth k v2 BestScoreInfo0) ->
  sameMeta v1 (list_set k r v2).
Proof.
  intros [Hl Hk] Hs Ht Hq. split; [now rewrite list_set_length |].
  intros k'. rewrite nth_list_set.
  destruct ((k' =? k) && (k <? length v2))%nat eqn:E; auto.
  apply andb_true_iff in E. destruct E as [E _].
  apply Nat.eqb_eq in E. subst k'.
  rewrite Hs, Ht, Hq. apply Hk.
Qed.

(** The reverse sweep changes only the start coordinates of the records. *)
Lemma phase1_rev_scalar_meta rs g p bsv out :
  alignToDAGLocal_Phase1_rev_scalar rs g p bsv = Ok out -> sameMeta bsv out.
Proof.
  unfold alignToDAGLocal_Phase1_rev_scalar. intros H.
  inv_bind H as u Hu. inv_bind H as r Hr. inversion H; subst out; clear H.
  revert Hr. apply (foldM_inv _ (fun a => sameMeta bsv (snd a))).
  - apply sameMeta_refl.
  - intros [m v] x [m' v'] Hv Hstep. cbn [snd] in *.
    inv_bind Hstep as st Hst. inversion Hstep; subst; clear Hstep.
    apply sameMeta_set; auto.
Qed.

(** Phase 2 changes only the CIGAR and the list of columns. *)
Lemma phase2_meta rs g p bsv out :
  alignToDAGLocal_Phase2 rs g p bsv = Ok out -> sameMeta bsv out.
Proof.
  unfold alignToDAGLocal_Phase2. intros H.
  inv_bind H as u Hu.
  revert H. apply (foldM_inv _ (fun a => sameMeta bsv a)).
  - apply sameMeta_refl.
  - intros v x v' Hv Hstep.
    inv_bind Hstep as b Hb. inversion Hstep; subst; clear Hstep.
    unfold phase2_read in Hb.
    inv_bind Hb as band Hband. inv_bind Hb as t Ht. inv_bind Hb as w Hw.
    inversion Hb; subst; clear Hb.
    apply sameMeta_set; auto.
Qed.

(** C1 as amended.  Phase 1 is given every query twice, as it is; the
    reverse complement of a query is not aligned.  In every run that
    completes (on a topologically numbered graph, the scores inside
    [int32_t]) there is one record per query, its strand field is '+', it
    carries the id of the query, and its score is the Phase-1 score of the
    query itself. *)
Theorem strand_is_always_forward readSet g p out :
  topological g ->
  int32Run p readSet ->
  alignToDAGLocal readSet g p = Ok out ->
  length out = length readSet /\
  forall k, (k < length readSet)%nat ->
    nth (2 * k) (readSet_P1_of readSet) [] = nth k readSet [] /\
    nth (2 * k + 1) (readSet_P1_of readSet) [] = nth k readSet [] /\
    strand (nth k out BestScoreInfo0) = "+"%char /\
    qryId (nth k out BestScoreInfo0) = k /\
    score (nth k out BestScoreInfo0)
    = score (phase1_record g p (nth k readSet [])).
Proof.
  intros Htopo _ H. unfold alignToDAGLocal in H.
  inv_bind H as u Hu. inv_bind H as v1 Hv1. inv_bind H as v2 Hv2.
  apply phase1_scalar_spec in Hv1. destruct Hv1 as [Hl1 Hrec].
  rewrite readSet_P1_of_length in Hl1, Hrec.
  apply phase1_rev_scalar_meta in Hv2. apply phase2_meta in H.
  destruct Hv2 as [Hl2 Hm2]. destruct H as [Hl3 Hm3].
  rewrite length_map, length_map, length_seq in Hl2.
  split; [congruence |].
  intros k Hk. destruct (readSet_P1_of_nth readSet k) as [He Ho].
  split; auto. split; auto.
  destruct (Hm3 k) as (-> & -> & ->). destruct (Hm2 k) as (-> & -> & ->).
  rewrite map_map, nth_map_seq_gen by auto.
  assert (Hfwd : score (nth (2 * k) v1 BestScoreInfo0)
                 = score (phase1_record g p (nth k readSet []))).
  { destruct (Hrec (2 * k)%nat) as (m & Hm & Hs & _); [lia |].
    rewrite Hs, He. unfold phase1_record. cbn [score].
    apply phase1_read_indep; auto. apply freshMatrix_shape. }
  assert (Hrc : score (nth (2 * k + 1) v1 BestScoreInfo0)
                = score (phase1_record g p (nth k readSet []))).
  { destruct (Hrec (2 * k + 1)%nat) as (m & Hm & Hs & _); [lia |].
    rewrite Hs, Ho. unfold phase1_record. cbn [score].
    apply phase1_read_indep; auto. apply freshMatrix_shape. }
  unfold selectStrand.
  destruct (_ >? _); cbn [fst withStrand strand qryId score]; auto.
Qed.

Lemma strand_is_always_forward_witness :
  let g := chainGraph (s "AACTT") in
  topological g /\ int32Run unitScores [s "GTT"] /\
  exists out,
    alignToDAGLocal [s "GTT"] g unitScores = Ok out /\
    length out = 1%nat /\
    strand (nth 0 out BestScoreInfo0) = "+"%char /\
    score (nth 0 out BestScoreInfo0) = 2.
Proof.
  intros g.
  assert (Htopo : topological g)
    by (apply topologicalb_sound; vm_compute; reflexivity).
  split; [exact Htopo |].
  assert (Hfit : int32Run unitScores [s "GTT"])
    by (intros read [<- | []]; apply unitScores_int32; simpl; lia).
  split; [exact Hfit |].
  assert (Hrun : exists out, alignToDAGLocal [s "GTT"] g unitScores = Ok out)
    by (eexists; vm_compute; reflexivity).
  destruct Hrun as [out Hrun]. exists out. split; [exact Hrun |].
  destruct (strand_is_always_forward [s "GTT"] g unitScores out Htopo Hfit
              Hrun) as [Hlen Hk].
  split; [exact Hlen |].
  destruct (Hk 0%nat (Nat.lt_0_succ 0)) as (_ & _ & Hs & _ & Hsc).
  split; [exact Hs |]. rewrite Hsc. vm_compute. reflexivity.
Defined.

(** ** Runs that end with InvalidArgument *)

Lemma Ok_rejects {A} (a : A) : ~ rejects (Ok a).
Proof. unfold rejects. discriminate. Qed.

Lemma bind_rejects {A B} (r : result A) (k : A -> result B) :
  ~ rejects r -> (forall a, ~ rejects (k a)) -> ~ rejects (bind r k).
Proof.
  unfold rejects. destruct r as [a | e]; simpl; intros Hr Hk; auto.
  intros E. apply Hr. congruence.
Qed.

Lemma cassert_rejects b : ~ rejects (cassert b).
Proof. unfold rejects. destruct b; simpl; discriminate. Qed.

Lemma foldM_rejects {A B} (f : A -> B -> result A) l a :
  (forall a x, ~ rejects (f a x)) -> ~ rejects (foldM f l a).
Proof.
  intros Hf. revert a. induction l as [| x l IH]; intros a; simpl.
  - apply Ok_rejects.
  - apply bind_rejects; auto.
Qed.

Ltac no_reject :=
  repeat match goal with
    | |- ~ rejects (Ok _) => apply Ok_rejects
    | |- ~ rejects (cassert _) => apply cassert_rejects
    | |- ~ rejects (bind _ _) => apply bind_rejects; [| intros ]
    | |- ~ rejects (foldM _ _ _) => apply foldM_rejects; intros
    | |- ~ rejects (if ?c then _ else _) => destruct c
    | |- ~ rejects (match ?x with (_, _) => _ end) => destruct x
    | |- ~ rejects ((match ?x with (_, _) => _ end) _) =>
        destruct x; cbv beta
    | |- ~ rejects (match ?x with Some _ => _ | None => _ end) => destruct x
    | |- ~ rejects (Err RuntimeFault) => unfold rejects; discriminate
    | |- ~ rejects (Err LoopBudget) => unfold rejects; discriminate
    end.

Lemma phase1_rev_read_rejects g p read b m :
  ~ rejects (phase1_rev_read g p read b m).
Proof.
  unfold phase1_rev_read, phase1_rev_rows, phase1_rev_row, phase1_rev_cell.
  no_reject.
Qed.

Lemma phase1_rev_scalar_rejects rs g p bsv :
  ~ rejects (alignToDAGLocal_Phase1_rev_scalar rs g p bsv).
Proof.
  unfold alignToDAGLocal_Phase1_rev_scalar. no_reject.
  apply phase1_rev_read_rejects.
Qed.

Lemma bandSize_rejects a b : ~ rejects (bandSize a b).
Proof. unfold bandSize. cbv zeta. no_reject. Qed.

Lemma phase2_recompute_rejects g p read b :
  ~ rejects (phase2_recompute g p read b).
Proof.
  unfold phase2_recompute. no_reject; try apply bandSize_rejects.
  unfold max_element. destruct (finalRow _); no_reject.
Qed.

Lemma trace_step_rejects g p read i0 j0 W log st :
  ~ rejects (trace_step g p read i0 j0 W log st).
Proof.
  unfold trace_step. cbv zeta. no_reject.
Qed.

Lemma trace_loop_rejects budget g p read i0 j0 W log st :
  ~ rejects (trace_loop budget g p read i0 j0 W log st).
Proof.
  revert st. induction budget as [| budget IH]; intros st; simpl.
  - no_reject.
  - no_reject; auto. apply trace_step_rejects.
Qed.

Lemma phase2_read_rejects g p read b : ~ rejects (phase2_read g p read b).
Proof.
  unfold phase2_read. no_reject.
  - apply phase2_recompute_rejects.
  - unfold phase2_trace. no_reject; try apply bandSize_rejects.
    apply trace_loop_rejects.
Qed.

Lemma alignToDAGLocal_rejects readSet g p :
  ~ rejects (alignToDAGLocal readSet g p).
Proof.
  unfold alignToDAGLocal. no_reject.
  - unfold alignToDAGLocal_Phase1_scalar. no_reject.
  - apply phase1_rev_scalar_rejects.
  - unfold alignToDAGLocal_Phase2. no_reject. apply phase2_read_rejects.
Qed.

(** ** Phase 1 over a read set *)

(** On a topologically numbered graph, with the scores inside [int32_t],
    Phase 1 completes whenever the vector of records has one entry per
    read, and entry [j] then holds the best score and the end cell of read
    [j] alone: neither the reads that the thread has aligned before nor
    their order matter. *)
Theorem phase1_scalar_per_read rs g p bsv :
  topological g ->
  int32Run p rs ->
  length bsv = length rs ->
  exists out,
    alignToDAGLocal_Phase1_scalar rs g p bsv = Ok out /\
    length out = length rs /\
    forall j, (j < length rs)%nat ->
      score (nth j out BestScoreInfo0)
      = score (phase1_record g p (nth j rs [])) /\
      refColumnEnd (nth j out BestScoreInfo0)
      = refColumnEnd (phase1_record g p (nth j rs [])) /\
      qryRowEnd (nth j out BestScoreInfo0)
      = qryRowEnd (phase1_record g p (nth j rs [])).
Proof.
  intros Htopo _ Hlen.
  destruct (phase1_scalar_Ok rs g p bsv Hlen) as [out Hout].
  exists out. split; [exact Hout |].
  destruct (phase1_scalar_spec rs g p bsv out Hout) as [Hl Hrec].
  split; [exact Hl |].
  intros j Hj. destruct (Hrec j Hj) as (m & Hm & Hs & Hc & Hr).
  destruct (phase1_read_indep g p (nth j rs []) m (freshMatrix g) Htopo Hm
                              (freshMatrix_shape g)) as (Es & Er & Ec).
  unfold phase1_record. cbn [score refColumnEnd qryRowEnd].
  rewrite Hs, Hc, Hr. auto.
Qed.

Lemma phase1_scalar_per_read_witness :
  let g := chainGraph (s "AACTT") in
  let rs := [s "GTT"; s "AAC"; s "GTT"] in
  exists out,
    alignToDAGLocal_Phase1_scalar rs g unitScores (repeat BestScoreInfo0 3)
    = Ok out /\
    score (nth 0 out BestScoreInfo0) = 2 /\
    score (nth 1 out BestScoreInfo0) = 3 /\
    score (nth 2 out BestScoreInfo0) = 2.
Proof.
  intros g rs.
  assert (Htopo : topological g)
    by (apply topologicalb_sound; vm_compute; reflexivity).
  assert (Hfit : int32Run unitScores rs)
    by (intros read [<- | [<- | [<- | []]]]; apply unitScores_int32;
        simpl; lia).
  destruct (phase1_scalar_per_read rs g unitScores (repeat BestScoreInfo0 3)
              Htopo Hfit eq_refl) as (out & Hout & _ & Hrec).
  exists out. split; [exact Hout |].
  destruct (Hrec 0%nat) as (H0 & _); [simpl; lia |].
  destruct (Hrec 1%nat) as (H1 & _); [simpl; lia |].
  destruct (Hrec 2%nat) as (H2 & _); [simpl; lia |].
  rewrite H0, H1, H2. vm_compute. auto.
Defined.

(** ** An upper bound on the scores *)

Lemma Htab_upper g p read :
  wf_graph g -> nonneg p ->
  forall k j, (j < numVertices g)%nat ->
              Htab g p read k j <= Z.of_nat k * match_ p.
Proof.
  intros Hwf Hnn. pose proof Hnn as (Hm & Hmm & Hi & Hd).
  induction k as [| k IHk].
  - intros j _. simpl. lia.
  - intros j. induction j as [j IHj] using lt_wf_ind. intros Hj.
    assert (Hms : msOf g p read k j <= match_ p).
    { unfold msOf. destruct (matchScoreOf_cases p (labelOf g j)
                               (nth k read zero)) as [-> | ->]; lia. }
    destruct (Htab_cases g p read Hwf k j Hj)
      as [E | [E | [E | (u & Hu & [E | E])]]]; rewrite E.
    + nia.
    + nia.
    + specialize (IHk j Hj). nia.
    + pose proof (in_lt g Hwf j u Hu) as Hlt.
      specialize (IHk u ltac:(lia)). nia.
    + pose proof (in_lt g Hwf j u Hu) as Hlt.
      specialize (IHj u Hlt ltac:(lia)). nia.
Qed.

(** The best score of a query is at most its length times the match score
    (well-formed graph, non-negative 32-bit scoring parameters with
    [length * match + 1 <= INT32_MAX]): the bound the engine uses to
    choose the width of its scores. *)
Theorem phase1_score_upper_bound g p read matrix0 :
  wf_graph g -> int32Scores p (length read) ->
  shape (numVertices g) matrix0 ->
  0 <= bestScore (phase1_read g p read matrix0)
    <= Z.of_nat (length read) * match_ p /\
  Z.of_nat (length read) * match_ p < INT32_MAX.
Proof.
  intros Hwf Hfit Hsh. pose proof Hwf as [Htopo _].
  pose proof Hfit as (Hnn & _ & _ & _ & _ & Hbig).
  split; [| lia].
  pose proof Hnn as (Hm & _).
  destruct (phase1_read_best g p read matrix0 Htopo Hsh)
    as (Hb0 & _ & Hlast).
  split; [exact Hb0 |].
  destruct Hlast as [(_ & -> & _) | ((Hr & Hc) & <- & _)]; [nia |].
  pose proof (Htab_upper g p read Hwf Hnn
                (S (bestRow (phase1_read g p read matrix0)))
                (bestCol (phase1_read g p read matrix0)) Hc) as Hub.
  nia.
Qed.

Lemma phase1_score_upper_bound_witness :
  let g := graphOfEdges (s "ACGT") [(0, 1); (0, 2); (1, 3); (2, 3)]%nat in
  0 <= bestScore (phase1_read g unitScores (s "ACT") (freshMatrix g)) <= 3.
Proof.
  intros g.
  assert (Hwf : wf_graph g)
    by (apply wf_graphb_sound; vm_compute; reflexivity).
  assert (Hfit : int32Scores unitScores (length (s "ACT")))
    by (apply unitScores_int32; simpl; lia).
  exact (proj1 (phase1_score_upper_bound g unitScores (s "ACT")
                  (freshMatrix g) Hwf Hfit (freshMatrix_shape g))).
Defined.

(** ** What the traceback pushes *)

Lemma editOp_score p l :
  Forall editOp l -> opsTotal p l = editScore p l.
Proof.
  unfold editScore. induction 1 as [| c l Hc Hl IH]; [simpl; lia |].
  simpl opsTotal. rewrite IH.
  destruct Hc as [-> | [-> | [-> | ->]]];
    repeat first [ rewrite count_occ_cons_eq by reflexivity
                 | rewrite count_occ_cons_neq by discriminate ];
    cbv [opScore Ascii.eqb Bool.eqb]; lia.
Qed.

Lemma pushInv_first j0 c0 st :
  pushInv j0 c0 st ->
  exists l, used_cols st ++ [(col st + j0)%nat] = (c0 + j0)%nat :: l.
Proof.
  intros (_ & _ & [[-> ->] | (l & ->)]); simpl; eauto.
Qed.

Lemma trace_step_push g p read i0 j0 W log c0 st st' continue :
  pushInv j0 c0 st ->
  trace_step g p read i0 j0 W log st = Ok (st', continue) ->
  if continue then pushInv j0 c0 st' else pushEnd j0 c0 st'.
Proof.
  intros Hinv Hstep.
  pose proof (pushInv_first j0 c0 st Hinv) as (l0 & Hl0).
  destruct Hinv as (Hops & Hlen & _).
  assert (Hop : forall c, editOp c -> Forall editOp (ops st ++ [c]))
    by (intros c Hc; apply Forall_app; auto).
  assert (Hlu : length (used_cols st ++ [(col st + j0)%nat])
                = S (length (ops st)))
    by (rewrite length_app; simpl; lia).
  assert (Hlo : forall c : ascii, length (ops st ++ [c]) = S (length (ops st)))
    by (intros; rewrite length_app; simpl; lia).
  unfold trace_step in Hstep.
  destruct (_ <=? 0).
  { inversion Hstep; subst; clear Hstep. unfold pushEnd. cbn [ops used_cols].
    rewrite length_app. simpl. split; [auto |]. split; [lia | eauto]. }
  cbv zeta in Hstep.
  destruct (traceEdges _ _ _ _ _ _ _) as [[[fm fmp] fd] fdp].
  set (mc := if _ =? match_ p then "="%char else "X"%char) in Hstep.
  assert (Hmc : editOp mc)
    by (unfold mc, editOp; destruct (_ =? match_ p); auto).
  destruct (_ =? fm).
  { destruct (fmp =? col st)%nat; inversion Hstep; subst; clear Hstep;
      unfold pushInv, pushEnd; cbn [ops used_cols col];
      rewrite Hlu, Hlo; (split; [auto |]); (split; [lia || auto | eauto]). }
  destruct (_ =? fd).
  { destruct fdp as [pos |]; [| discriminate].
    inversion Hstep; subst; clear Hstep.
    unfold pushInv. cbn [ops used_cols col]. rewrite Hlu, Hlo.
    split; [apply Hop; unfold editOp; auto |]. split; eauto. }
  inv_bind Hstep as u Hu. inversion Hstep; subst; clear Hstep.
  unfold pushInv. cbn [ops used_cols col]. rewrite Hlu, Hlo.
  split; [apply Hop; unfold editOp; auto |]. split; eauto.
Qed.

Lemma trace_loop_push budget g p read i0 j0 W log c0 st st' :
  pushInv j0 c0 st ->
  trace_loop budget g p read i0 j0 W log st = Ok st' ->
  (st' = st /\ row st < 0) \/ pushEnd j0 c0 st' \/
  (pushInv j0 c0 st' /\ exists l, used_cols st' = (c0 + j0)%nat :: l).
Proof.
  revert st. induction budget as [| budget IH]; intros st Hinv Hrun;
    simpl in Hrun.
  - destruct (Z.ltb_spec (row st) 0) as [Hn | Hn]; [| discriminate].
    inversion Hrun; subst. auto.
  - destruct (Z.ltb_spec (row st) 0) as [Hn | Hn].
    { inversion Hrun; subst. auto. }
    inv_bind Hrun as r Hr. destruct r as [st1 continue].
    pose proof (trace_step_push _ _ _ _ _ _ _ _ _ _ _ Hinv Hr) as Hnext.
    destruct continue.
    + destruct (IH st1 Hnext Hrun) as [[-> Hneg] | H]; auto.
      right. right. split; auto.
      destruct Hnext as (_ & Hlen & [[He _] | Hl]); auto.
      exfalso. unfold trace_step in Hr.
      pose proof (pushInv_first j0 c0 st Hinv) as (l0 & Hl0).
      destruct (_ <=? 0); [inversion Hr |]. cbv zeta in Hr.
      destruct (traceEdges _ _ _ _ _ _ _) as [[[fm fmp] fd] fdp].
      destruct (_ =? fm).
      { destruct (fmp =? col st)%nat; inversion Hr; subst;
          cbn [used_cols] in He; destruct (used_cols st); discriminate. }
      destruct (_ =? fd).
      { destruct fdp; [| discriminate]. inversion Hr; subst.
        cbn [used_cols] in He. destruct (used_cols st); discriminate. }
      inv_bind Hr as u Hu. inversion Hr; subst.
      cbn [used_cols] in He. destruct (used_cols st); discriminate.
    + inversion Hrun; subst. auto.
Qed.

(** Every iteration of the traceback pushes one column, and one edit
    operation unless it leaves the loop on a cell that is not positive.
    So, for a band that is not empty, the traceback returns only the
    operations =, X, I, D, at most one column more than operations, and the
    first column it pushes - the last of [refColumns] - is
    [refColumnEnd]. *)
Theorem traceback_pushes g p read b band t :
  (refColumnStart b <= refColumnEnd b)%nat ->
  (qryRowStart b <= qryRowEnd b)%nat ->
  phase2_trace g p read b band = Ok t ->
  Forall editOp (ops t) /\
  (length (ops t) <= length (used_cols t) <= length (ops t) + 1)%nat /\
  exists l, used_cols t = refColumnEnd b :: l.
Proof.
  intros Hc Hr Hrun. unfold phase2_trace in Hrun.
  rewrite (bandSize_nat _ _ Hc), (bandSize_nat _ _ Hr) in Hrun.
  simpl bind in Hrun.
  set (W := (refColumnEnd b - refColumnStart b + 1)%nat) in *.
  set (Hh := (qryRowEnd b - qryRowStart b + 1)%nat) in *.
  replace (W =? 0)%nat with false in Hrun
    by (symmetry; apply Nat.eqb_neq; unfold W; lia).
  assert (Hend : (W - 1 + refColumnStart b = refColumnEnd b)%nat)
    by (unfold W; lia).
  match type of Hrun with
  | trace_loop _ _ _ _ _ _ _ _ ?st0 = _ =>
      assert (Hinv : pushInv (refColumnStart b) (W - 1) st0)
        by (split; [constructor | split; [reflexivity | left; auto]]);
      destruct (trace_loop_push _ _ _ _ _ _ _ _ _ _ _ Hinv Hrun)
        as [[_ Hneg] | [(Ho & Hl & Hf) | ((Ho & Hl & _) & Hf)]]
  end.
  - cbn [row] in Hneg. unfold Hh in Hneg. lia.
  - rewrite Hend in Hf. auto.
  - rewrite Hend in Hf. split; auto. split; [lia | auto].
Qed.

Lemma traceback_pushes_witness :
  let g := graphOfEdges (s "ACGT") [(0, 1); (0, 2); (1, 3); (2, 3)]%nat in
  let b := {| score := 3; refColumnStart := 0; refColumnEnd := 3;
              qryRowStart := 0; qryRowEnd := 2; strand := "+"%char;
              qryId := 0; cigar := []; refColumns := [] |} in
  exists band t,
    phase2_recompute g unitScores (s "ACT") b = Ok band /\
    phase2_trace g unitScores (s "ACT") b band = Ok t /\
    Forall editOp (ops t) /\
    exists l, used_cols t = 3%nat :: l.
Proof.
  intros g b.
  assert (Hb : exists band, phase2_recompute g unitScores (s "ACT") b = Ok band)
    by (eexists; vm_compute; reflexivity).
  destruct Hb as [band Hband].
  assert (Ht : exists t, phase2_trace g unitScores (s "ACT") b band = Ok t).
  { vm_compute in Hband. inversion Hband; subst band.
    eexists. vm_compute. reflexivity. }
  destruct Ht as [t Ht].
  exists band, t. split; [exact Hband |]. split; [exact Ht |].
  destruct (traceback_pushes g unitScores (s "ACT") b band t) as (Ho & _ & Hl).
  - simpl. lia.
  - simpl. lia.
  - exact Ht.
  - split; [exact Ho | exact Hl].
Defined.

(** ** From the reverse sweep to the traceback *)

(** What a completed reverse sweep tells about the start cell, for a record
    that Phase 1 has filled in. *)
Lemma reverse_sweep_band g p read b matrix0 matrix1 st2 :
  wf_graph g -> nonneg p ->
  shape (numVertices g) matrix0 -> shape (numVertices g) matrix1 ->
  score b = bestScore (phase1_read g p read matrix0) ->
  refColumnEnd b = bestCol (phase1_read g p read matrix0) ->
  qryRowEnd b = bestRow (phase1_read g p read matrix0) ->
  phase1_rev_read g p (rev read) b matrix1 = Ok st2 ->
  (bestRow st2 <= qryRowEnd b < length read)%nat /\
  (bestCol st2 <= refColumnEnd b < numVertices g)%nat /\
  ~ (bestRow st2 = qryRowEnd b /\ bestCol st2 = refColumnEnd b) /\
  exists band, phase2_recompute g p read (withStart b st2) = Ok band.
Proof.
  intros Hwf Hnn Hsh0 Hsh1 Hscore Hcol Hrow Hrev.
  pose proof Hwf as [Htopo _].
  pose proof (phase1_read_best g p read matrix0 Htopo Hsh0)
    as (Hb0 & Hub & Hlast).
  cbv zeta in Hb0, Hub, Hlast.
  rewrite <- Hscore, <- Hcol, <- Hrow in *.
  change (rev read) with (reverse read) in Hrev.
  destruct (phase1_rev_read_spec g p read b matrix1 st2 Hwf Hsh1 Hrev)
    as (Hs & Hstart & Htag).
  destruct Hstart as [Hz | (Hsr & Hsc & Hstart)]; [lia |].
  destruct Hlast as [(Hnone & _) | ((Her & Hec) & Hend & Hl)].
  { exfalso. apply (Hnone (bestRow st2) (bestCol st2)). auto. }
  specialize (Htag Her Hec).
  assert (Hst : cmO g p read b (bestRow st2) (bestCol st2) = score b + 1)
    by lia.
  assert (Hub' : forall r c, (r < length read)%nat ->
                             (c < numVertices g)%nat ->
                             Htab g p read (S r) c <= score b)
    by (intros; apply Hub; auto).
  assert (Hl' : forall r c, (r < length read)%nat ->
                            (c < numVertices g)%nat ->
                            Htab g p read (S r) c = score b ->
                            lexle r c (qryRowEnd b) (refColumnEnd b))
    by (intros; apply Hl; auto).
  destruct (start_before_end g p read Hwf Hnn b (score b) Her Hec Hub' Hend
                             _ _ Hsr Hsc Hst) as [Hsre Hsce].
  pose proof (start_not_end g p read Hwf Hnn b (score b) Her Hec Hub' Hend
                            Hl' Htag _ _ Hsr Hsc Hst) as Hne.
  destruct (band_end_value g p read Hwf Hnn b (score b) Her Hec Hub' Hend
                           Hl' Htag _ _ Hsr Hsc Hst Hsre Hsce)
    as [HE HBub].
  destruct (phase2_recompute_complete g p read (withStart b st2) Htopo
                                      Hsce Hsre HE HBub)
    as (band & Hrun & _).
  split; [lia |]. split; [lia |]. split; [exact Hne |]. eauto.
Qed.

(** When the reverse sweep completes for a record of Phase 1 (well-formed
    graph, non-negative scoring parameters, the scores inside [int32_t]),
    the start cell it reports lies inside the DP grid, at or before the end
    cell in both coordinates, and is not the end cell itself: the band of
    Phase 2 has at least one row and one column, and at least two cells. *)
Theorem reverse_sweep_start_before_end g p read b matrix0 matrix1 st2 :
  wf_graph g -> int32Scores p (length read) ->
  shape (numVertices g) matrix0 -> shape (numVertices g) matrix1 ->
  score b = bestScore (phase1_read g p read matrix0) ->
  refColumnEnd b = bestCol (phase1_read g p read matrix0) ->
  qryRowEnd b = bestRow (phase1_read g p read matrix0) ->
  phase1_rev_read g p (rev read) b matrix1 = Ok st2 ->
  (bestRow st2 <= qryRowEnd b < length read)%nat /\
  (bestCol st2 <= refColumnEnd b < numVertices g)%nat /\
  (bestRow st2 < qryRowEnd b \/ bestCol st2 < refColumnEnd b)%nat.
Proof.
  intros Hwf [Hnn _] Hsh0 Hsh1 Hscore Hcol Hrow Hrev.
  destruct (reverse_sweep_band g p read b matrix0 matrix1 st2 Hwf Hnn Hsh0
              Hsh1 Hscore Hcol Hrow Hrev) as (Hr & Hc & Hne & _).
  split; [exact Hr |]. split; [exact Hc |]. lia.
Qed.

Lemma reverse_sweep_start_before_end_witness :
  let g := graphOfEdges (s "ACGT") [(0, 1); (0, 2); (1, 3); (2, 3)]%nat in
  let p := unitScores in
  let read := s "ACT" in
  let b := phase1_record g p read in
  exists st2,
    phase1_rev_read g p (rev read) b (freshMatrix g) = Ok st2 /\
    (bestRow st2 <= qryRowEnd b < length read)%nat /\
    (bestCol st2 <= refColumnEnd b < numVertices g)%nat /\
    (bestRow st2 < qryRowEnd b \/ bestCol st2 < refColumnEnd b)%nat.
Proof.
  intros g p read b.
  assert (Hwf : wf_graph g)
    by (apply wf_graphb_sound; vm_compute; reflexivity).
  assert (Hrev : exists st2,
             phase1_rev_read g p (rev read) b (freshMatrix g) = Ok st2)
    by (eexists; vm_compute; reflexivity).
  destruct Hrev as [st2 Hrev]. exists st2. split; [exact Hrev |].
  assert (Hfit : int32Scores p (length read))
    by (apply unitScores_int32; simpl; lia).
  exact (reverse_sweep_start_before_end g p read b (freshMatrix g)
           (freshMatrix g) st2 Hwf Hfit
           (freshMatrix_shape g) (freshMatrix_shape g)
           eq_refl eq_refl eq_refl Hrev).
Defined.

(** The traceback completes when Phase 2.1 has, provided the log can hold
    the vertical differences. *)
Lemma phase2_trace_complete g p read b band :
  topological g -> nonneg p ->
  ins p <= 128 -> match_ p + del p <= 127 ->
  phase2_recompute g p read b = Ok band ->
  exists t, phase2_trace g p read b band = Ok t /\
            opsTotal p (ops t) = score b /\
            Forall editOp (ops t).
Proof.
  intros Htopo Hnn Hins Hmd Hrun.
  destruct (phase2_recompute_Ok g p read b band Hrun)
    as (W & Hh & HW & HHh & Hband & Hne & Hend).
  destruct (phase2_rows_final g p read (qryRowStart b) (refColumnStart b)
                              Hh W Htopo) as (Hlen & Hfin & Hlog).
  rewrite <- Hband in Hlen, Hfin, Hlog.
  assert (HW1 : (1 <= W)%nat).
  { destruct (finalRow band); [congruence | simpl in Hlen; lia]. }
  pose proof (bandSize_Ok _ _ _ HW) as HWz.
  set (B := Btab g p read (qryRowStart b) (refColumnStart b) W) in *.
  assert (Hlog' : forall r c, (r < Hh)%nat -> (c < W)%nat ->
                    mget (completeMatrixLog band) r c = B (S r) c - B r c).
  { intros r c Hr Hc. rewrite Hlog by auto. apply to_int8_small.
    pose proof (Btab_diff g p read (qryRowStart b) (refColumnStart b) W
                          r c Htopo Hnn Hc) as Hd.
    fold B in Hd. cbv zeta in Hd. lia. }
  assert (Hcol : (refColumnEnd b - refColumnStart b = W - 1)%nat) by lia.
  rewrite Hcol, Hfin in Hend by lia.
  set (st0 := {| ops := []; used_cols := [];
                 currentRowScores := finalRow band;
                 col := (W - 1)%nat; row := Z.of_nat Hh - 1 |}).
  destruct (trace_loop_ok g p read (qryRowStart b) (refColumnStart b) W Hh
              (completeMatrixLog band) (score b) Htopo Hnn Hlog'
              (Hh + W) st0)
    as (t & Ht & Htot & _).
  { unfold traceOK, st0. cbn [ops col row currentRowScores].
    replace (Z.to_nat (Z.of_nat Hh - 1 + 1)) with Hh by lia.
    fold B. repeat split; auto; try lia. }
  { unfold traceMeasure, st0. cbn [col row]. lia. }
  exists t. unfold phase2_trace. rewrite HW, HHh. simpl bind.
  replace (W =? 0)%nat with false by (symmetry; apply Nat.eqb_neq; lia).
  fold st0. split; [exact Ht |]. split; [exact Htot |].
  assert (Hinv : pushInv (refColumnStart b) (W - 1) st0)
    by (split; [constructor | split; [reflexivity | left; auto]]).
  destruct (trace_loop_push _ _ _ _ _ _ _ _ _ _ _ Hinv Ht)
    as [[-> _] | [(Ho & _) | ((Ho & _) & _)]]; auto.
Qed.

(** Phase 2.2 after Phase 2.1.  On a topologically numbered graph, with
    non-negative scoring parameters such that [ins <= 128] and
    [match + del <= 127], the traceback completes for every record for
    which Phase 2.1 has completed: the budget of iterations is enough, no
    unassigned position is read, the assertion on the insertion case
    holds.  The operations it pushes score exactly the best score. *)
Theorem traceback_completes g p read b band :
  topological g -> nonneg p ->
  ins p <= 128 -> match_ p + del p <= 127 ->
  phase2_recompute g p read b = Ok band ->
  exists t, phase2_trace g p read b band = Ok t /\
            Forall editOp (ops t) /\
            editScore p (ops t) = score b.
Proof.
  intros Htopo Hnn Hins Hmd Hrun.
  destruct (phase2_trace_complete g p read b band Htopo Hnn Hins Hmd Hrun)
    as (t & Ht & Htot & Hops).
  exists t. split; [exact Ht |]. split; [exact Hops |].
  now rewrite <- editOp_score.
Qed.

Lemma traceback_completes_witness :
  let g := graphOfEdges (s "ACGT") [(0, 1); (0, 2); (1, 3); (2, 3)]%nat in
  let b := {| score := 3; refColumnStart := 0; refColumnEnd := 3;
              qryRowStart := 0; qryRowEnd := 2; strand := "+"%char;
              qryId := 0; cigar := []; refColumns := [] |} in
  exists band t,
    phase2_recompute g unitScores (s "ACT") b = Ok band /\
    phase2_trace g unitScores (s "ACT") b band = Ok t /\
    Forall editOp (ops t) /\
    editScore unitScores (ops t) = 3.
Proof.
  intros g b.
  assert (Htopo : topological g)
    by (apply topologicalb_sound; vm_compute; reflexivity).
  assert (Hb : exists band, phase2_recompute g unitScores (s "ACT") b = Ok band)
    by (eexists; vm_compute; reflexivity).
  destruct Hb as [band Hband]. exists band.
  destruct (traceback_completes g unitScores (s "ACT") b band Htopo
              nonneg_unitScores ltac:(simpl; lia) ltac:(simpl; lia) Hband)
    as (t & Ht & Ho & Hs).
  exists t. auto.
Defined.

(** The three phases for one query.  On a well-formed graph, with
    non-negative scoring parameters such that [ins <= 128] and
    [match + del <= 127]: once the reverse sweep has completed for a record
    of Phase 1, Phase 2 cannot fail any more before the CIGAR string is
    compacted.  The recomputation completes, the traceback completes, and
    the operations score the best score of Phase 1. *)
Theorem phase2_completes_after_reverse_sweep g p read b matrix0 matrix1 st2 :
  wf_graph g -> nonneg p ->
  ins p <= 128 -> match_ p + del p <= 127 ->
  shape (numVertices g) matrix0 -> shape (numVertices g) matrix1 ->
  score b = bestScore (phase1_read g p read matrix0) ->
  refColumnEnd b = bestCol (phase1_read g p read matrix0) ->
  qryRowEnd b = bestRow (phase1_read g p read matrix0) ->
  phase1_rev_read g p (rev read) b matrix1 = Ok st2 ->
  exists band t,
    phase2_recompute g p read (withStart b st2) = Ok band /\
    phase2_trace g p read (withStart b st2) band = Ok t /\
    Forall editOp (ops t) /\
    editScore p (ops t) = bestScore (phase1_read g p read matrix0).
Proof.
  intros Hwf Hnn Hins Hmd Hsh0 Hsh1 Hscore Hcol Hrow Hrev.
  pose proof Hwf as [Htopo _].
  destruct (reverse_sweep_band g p read b matrix0 matrix1 st2 Hwf Hnn Hsh0
              Hsh1 Hscore Hcol Hrow Hrev) as (_ & _ & _ & band & Hband).
  destruct (phase2_trace_complete g p read (withStart b st2) band Htopo Hnn
              Hins Hmd Hband) as (t & Ht & Htot & Hops).
  exists band, t. split; [exact Hband |]. split; [exact Ht |].
  split; [exact Hops |].
  rewrite <- editOp_score by exact Hops. rewrite Htot, <- Hscore. reflexivity.
Qed.

Lemma phase2_completes_after_reverse_sweep_witness :
  let g := graphOfEdges (s "ACGT") [(0, 1); (0, 2); (1, 3); (2, 3)]%nat in
  let p := unitScores in
  let read := s "ACT" in
  let b := phase1_record g p read in
  exists st2 band t,
    phase1_rev_read g p (rev read) b (freshMatrix g) = Ok st2 /\
    phase2_recompute g p read (withStart b st2) = Ok band /\
    phase2_trace g p read (withStart b st2) band = Ok t /\
    editScore p (ops t) = 3.
Proof.
  intros g p read b.
  assert (Hwf : wf_graph g)
    by (apply wf_graphb_sound; vm_compute; reflexivity).
  assert (Hrev : exists st2,
             phase1_rev_read g p (rev read) b (freshMatrix g) = Ok st2)
    by (eexists; vm_compute; reflexivity).
  destruct Hrev as [st2 Hrev]. exists st2.
  destruct (phase2_completes_after_reverse_sweep g p read b (freshMatrix g)
              (freshMatrix g) st2 Hwf nonneg_unitScores
              ltac:(simpl; lia) ltac:(simpl; lia)
              (freshMatrix_shape g) (freshMatrix_shape g)
              eq_refl eq_refl eq_refl Hrev) as (band & t & Hb & Ht & _ & Hs).
  exists band, t. split; [exact Hrev |]. split; [exact Hb |].
  split; [exact Ht |]. rewrite Hs. vm_compute. reflexivity.
Defined.

(** ** Queries without any match *)

Lemma Ok_assertOnly {A} (a : A) : assertOnly (Ok a).
Proof. intros e H. discriminate. Qed.

Lemma cassert_assertOnly b : assertOnly (cassert b).
Proof. intros e. destruct b; simpl; intros H; [discriminate | congruence]. Qed.

Lemma bind_assertOnly {A B} (r : result A) (k : A -> result B) :
  assertOnly r -> (forall a, assertOnly (k a)) -> assertOnly (bind r k).
Proof.
  intros Hr Hk e. destruct r as [a | e']; simpl.
  - apply Hk.
  - intros H. inversion H; subst. now apply Hr.
Qed.

Lemma foldM_assertOnly {A B} (f : A -> B -> result A) l a :
  (forall a x, assertOnly (f a x)) -> assertOnly (foldM f l a).
Proof.
  intros Hf. revert a. induction l as [| x l IH]; intros a; simpl.
  - apply Ok_assertOnly.
  - apply bind_assertOnly; auto.
Qed.

Lemma phase1_rev_read_assertOnly g p read b m :
  assertOnly (phase1_rev_read g p read b m).
Proof.
  unfold phase1_rev_read.
  apply bind_assertOnly; [| intros st; apply bind_assertOnly;
                            [apply cassert_assertOnly
                            | intros; apply Ok_assertOnly]].
  unfold phase1_rev_rows. apply foldM_assertOnly. intros st i.
  unfold phase1_rev_row. apply foldM_assertOnly. intros st' j.
  unfold phase1_rev_cell. cbv zeta.
  destruct (_ && _)%bool; [| apply Ok_assertOnly].
  apply bind_assertOnly; [apply cassert_assertOnly |].
  intros; apply Ok_assertOnly.
Qed.

(** A query whose best local score is 0 never gets through the reverse
    sweep (well-formed graph with at least one vertex, query with at least
    one character, non-negative scoring parameters, [match > 0]).  Phase 1
    then ends in the last cell of the grid; the reverse sweep computes 0
    there, and its assertion that the value is [match] stops the run. *)
Theorem zero_score_stops_reverse_sweep g p read b matrix0 matrix1 :
  wf_graph g -> nonneg p -> 0 < match_ p ->
  (0 < numVertices g)%nat -> (0 < length read)%nat ->
  shape (numVertices g) matrix0 -> shape (numVertices g) matrix1 ->
  score b = bestScore (phase1_read g p read matrix0) ->
  refColumnEnd b = bestCol (phase1_read g p read matrix0) ->
  qryRowEnd b = bestRow (phase1_read g p read matrix0) ->
  score b = 0 ->
  phase1_rev_read g p (rev read) b matrix1 = Err AssertionFailed.
Proof.
  intros Hwf Hnn Hm Hn Hlen Hsh0 Hsh1 Hscore Hcol Hrow Hzero.
  destruct (phase1_rev_read g p (rev read) b matrix1) as [st2 | e] eqn:Hrev.
  2:{ now rewrite (phase1_rev_read_assertOnly _ _ _ _ _ e Hrev). }
  exfalso. pose proof Hwf as [Htopo _].
  pose proof Hnn as (_ & Hmm & Hi & Hd).
  pose proof (phase1_read_best g p read matrix0 Htopo Hsh0)
    as (_ & Hub & Hlast).
  cbv zeta in Hub, Hlast.
  rewrite <- Hscore, <- Hcol, <- Hrow in *.
  destruct Hlast as [(Hnone & _) | ((Her & Hec) & Hend & Hl)].
  { apply (Hnone 0%nat 0%nat). auto. }
  (* the end cell is the last cell of the grid *)
  assert (Hcorner : (qryRowEnd b = length read - 1
                     /\ refColumnEnd b = numVertices g - 1)%nat).
  { assert (Hle : lexle (length read - 1) (numVertices g - 1)
                        (qryRowEnd b) (refColumnEnd b)).
    { apply Hl; [lia |].
      pose proof (Hub (length read - 1)%nat (numVertices g - 1)%nat
                      ltac:(lia)) as H1.
      pose proof (Htab_nonneg g p read (S (length read - 1))
                              (numVertices g - 1)) as H2.
      lia. }
    unfold lexle in Hle. lia. }
  destruct Hcorner as [Hrc Hcc].
  change (rev read) with (reverse read) in Hrev.
  destruct (phase1_rev_read_spec g p read b matrix1 st2 Hwf Hsh1 Hrev)
    as (_ & _ & Htag).
  specialize (Htag Her Hec).
  assert (Hms : msOf g p read (qryRowEnd b) (refColumnEnd b) <= 0).
  { destruct (Htab_lb g p read Hwf (qryRowEnd b) (refColumnEnd b) Hec)
      as (_ & H1 & _). lia. }
  destruct (cmO_cases g p read b (qryRowEnd b) (refColumnEnd b))
    as [E | [E | [E | (v & Hv & _)]]].
  - lia.
  - lia.
  - replace (S (qryRowEnd b)) with (length read) in E by lia.
    rewrite TTab_last in E. lia.
  - destruct (out_facts g Hwf _ _ Hv) as [Hlt _]. lia.
Qed.

Lemma zero_score_stops_reverse_sweep_witness :
  let g := graphOfEdges (s "ACGT") [(0, 1); (0, 2); (1, 3); (2, 3)]%nat in
  let b := phase1_record g unitScores (s "NN") in
  score b = 0 /\
  phase1_rev_read g unitScores (rev (s "NN")) b (freshMatrix g)
  = Err AssertionFailed.
Proof.
  intros g b.
  assert (Hwf : wf_graph g)
    by (apply wf_graphb_sound; vm_compute; reflexivity).
  assert (Hz : score b = 0) by (vm_compute; reflexivity).
  split; [exact Hz |].
  apply (zero_score_stops_reverse_sweep g unitScores (s "NN") b
           (freshMatrix g) (freshMatrix g) Hwf nonneg_unitScores);
    try reflexivity; try (simpl; lia);
    try apply freshMatrix_shape.
Defined.

(** * The CSR container *)

(** ** Vectors of edges in sorted order *)

Lemma keySorted_inv x l :
  keySorted (x :: l) ->
  keySorted l /\ forall y, In y l -> (fst x <= fst y)%nat.
Proof.
  intros H. inversion H as [| a b Hs Hf]; subst. split; auto.
  now rewrite Forall_forall in Hf.
Qed.

Lemma filter_none {A} (f : A -> bool) l :
  (forall x, In x l -> f x = false) -> filter f l = [].
Proof.
  induction l as [| x l IH]; intros H; simpl; auto.
  rewrite (H x) by (simpl; auto). apply IH. intros; apply H; simpl; auto.
Qed.

Lemma filter_all {A} (f : A -> bool) l :
  (forall x, In x l -> f x = true) -> filter f l = l.
Proof.
  induction l as [| x l IH]; intros H; simpl; auto.
  rewrite (H x) by (simpl; auto). f_equal. apply IH.
  intros; apply H; simpl; auto.
Qed.

(** In a sorted vector, the edges that leave a vertex smaller than [k] are
    a prefix. *)
Lemma keySorted_prefix l k :
  keySorted l ->
  firstn (edgesBelow l k) l
  = filter (fun e : nat * nat => (fst e <? k)%nat) l /\
  skipn (edgesBelow l k) l
  = filter (fun e : nat * nat => negb (fst e <? k)%nat) l.
Proof.
  unfold edgesBelow. induction l as [| x l IH]; intros Hs; [simpl; auto |].
  destruct (keySorted_inv _ _ Hs) as [Hl Hx]. simpl.
  destruct (Nat.ltb_spec (fst x) k) as [Hlt | Hge]; simpl.
  - destruct (IH Hl) as [E1 E2]. rewrite E1, E2. auto.
  - rewrite (filter_none (fun e : nat * nat => (fst e <? k)%nat) l).
    + simpl. split; auto. f_equal. symmetry. apply filter_all.
      intros y Hy. specialize (Hx y Hy).
      destruct (Nat.ltb_spec (fst y) k); simpl; auto; lia.
    + intros y Hy. specialize (Hx y Hy). apply Nat.ltb_ge. lia.
Qed.

Lemma find_if_sorted l i :
  keySorted l ->
  CSR.find_if (fun e : nat * nat => (i <? fst e)%nat) l
  = length (filter (fun e : nat * nat => negb (i <? fst e)%nat) l).
Proof.
  induction l as [| x l IH]; intros Hs; [reflexivity |].
  destruct (keySorted_inv _ _ Hs) as [Hl Hx]. simpl.
  destruct (Nat.ltb_spec i (fst x)) as [Hlt | Hge]; simpl.
  - rewrite filter_none; auto.
    intros y Hy. specialize (Hx y Hy).
    destruct (Nat.ltb_spec i (fst y)); simpl; auto; lia.
  - now rewrite IH.
Qed.

Lemma keySorted_skipn l k : keySorted l -> keySorted (skipn k l).
Proof.
  revert l. induction k as [| k IH]; intros l Hs; [exact Hs |].
  destruct l as [| x l]; [exact Hs |]. simpl. apply IH.
  now destruct (keySorted_inv _ _ Hs).
Qed.

Lemma filter_length_ext {A} (f g : A -> bool) l :
  (forall x, In x l -> f x = g x) -> filter f l = filter g l.
Proof.
  induction l as [| x l IH]; intros H; simpl; auto.
  rewrite (H x) by (simpl; auto).
  rewrite IH by (intros; apply H; simpl; auto). reflexivity.
Qed.

Lemma filter_filter {A} (f g : A -> bool) l :
  filter f (filter g l) = filter (fun x => g x && f x) l.
Proof.
  induction l as [| x l IH]; simpl; auto.
  destruct (g x); simpl; [destruct (f x) |]; now rewrite IH.
Qed.

Lemma edgesBelow_S l k :
  edgesBelow l (S k) = (edgesBelow l k + length (edgesFrom l k))%nat.
Proof.
  unfold edgesBelow, edgesFrom. induction l as [| x l IH]; simpl; auto.
  destruct (Nat.ltb_spec (fst x) (S k)), (Nat.ltb_spec (fst x) k),
    (Nat.eqb_spec (fst x) k); simpl; lia.
Qed.

Lemma edgesBelow_0 l : edgesBelow l 0 = 0%nat.
Proof. unfold edgesBelow. now rewrite filter_none. Qed.

Lemma edgesBelow_le l k : (edgesBelow l k <= length l)%nat.
Proof. unfold edgesBelow. apply filter_length_le. Qed.

Lemma edgesBelow_mono l j k :
  (j <= k)%nat -> (edgesBelow l j <= edgesBelow l k)%nat.
Proof.
  induction 1 as [| k Hle IH]; auto. rewrite edgesBelow_S. lia.
Qed.

Lemma edgesBelow_all l n :
  (forall e, In e l -> (fst e < n)%nat) -> edgesBelow l n = length l.
Proof.
  intros H. unfold edgesBelow. rewrite filter_all; auto.
  intros e He. apply Nat.ltb_lt. auto.
Qed.

(** The edges that leave [i], as a segment of the sorted vector. *)
Lemma keySorted_segment l i :
  keySorted l ->
  firstn (length (edgesFrom l i)) (skipn (edgesBelow l i) l) = edgesFrom l i.
Proof.
  intros Hs. destruct (keySorted_prefix l i Hs) as [_ E2].
  pose proof (keySorted_skipn l (edgesBelow l i) Hs) as Hs'.
  destruct (keySorted_prefix _ (S i) Hs') as [E1 _].
  assert (Hf : filter (fun e : nat * nat => (fst e <? S i)%nat)
                      (skipn (edgesBelow l i) l) = edgesFrom l i).
  { rewrite E2, filter_filter. unfold edgesFrom. apply filter_length_ext.
    intros x _. destruct (Nat.ltb_spec (fst x) i),
      (Nat.ltb_spec (fst x) (S i)), (Nat.eqb_spec (fst x) i);
      simpl; auto; lia. }
  unfold edgesBelow in E1 at 1. rewrite Hf in E1. exact E1.
Qed.

Lemma find_if_segment l i :
  keySorted l ->
  CSR.find_if (fun e : nat * nat => (i <? fst e)%nat) (skipn (edgesBelow l i) l)
  = length (edgesFrom l i).
Proof.
  intros Hs. rewrite find_if_sorted by now apply keySorted_skipn.
  destruct (keySorted_prefix l i Hs) as [_ E2]. rewrite E2, filter_filter.
  unfold edgesFrom. f_equal. apply filter_length_ext.
  intros x _. destruct (Nat.ltb_spec (fst x) i), (Nat.ltb_spec i (fst x)),
    (Nat.eqb_spec (fst x) i); simpl; auto; lia.
Qed.

(** What the loop of [initEdges] computes from a sorted vector. *)
Lemma fillAdjacency_spec n l adj0 :
  keySorted l ->
  CSR.fillAdjacency n l adj0
  = (map (edgesBelow l) (seq 0 (S n)),
     adj0 ++ map snd (firstn (edgesBelow l n) l)).
Proof.
  intros Hs. unfold CSR.fillAdjacency.
  match goal with |- context [fold_left ?f _ _] => set (F := f) end.
  assert (Hgen : forall k,
    fold_left F (seq 0 k) (0%nat, [0%nat], adj0)
    = (edgesBelow l k, map (edgesBelow l) (seq 0 (S k)),
       adj0 ++ map snd (firstn (edgesBelow l k) l))).
  { induction k as [| k IH].
    - cbn [seq fold_left map]. rewrite edgesBelow_0. simpl.
      rewrite app_nil_r. reflexivity.
    - rewrite seq_S, fold_left_app, IH. cbn [fold_left Nat.add].
      unfold F. rewrite find_if_segment by exact Hs.
      rewrite <- edgesBelow_S.
      replace (edgesBelow l (S k) - edgesBelow l k)%nat
        with (length (edgesFrom l k)) by (rewrite edgesBelow_S; lia).
      rewrite keySorted_segment by exact Hs.
      f_equal; [f_equal |].
      + rewrite (seq_S (S k)), map_app. reflexivity.
      + rewrite <- app_assoc. f_equal. rewrite <- map_app. f_equal.
        destruct (keySorted_prefix l k Hs) as [E1 _].
        destruct (keySorted_prefix l (S k) Hs) as [E1' _].
        rewrite E1, E1'.
        rewrite <- (firstn_skipn (edgesBelow l k) l) at 3.
        rewrite filter_app.
        destruct (keySorted_prefix l k Hs) as [F1 F2]. rewrite F1, F2.
        rewrite !filter_filter. f_equal.
        * apply filter_length_ext. intros x _.
          destruct (Nat.ltb_spec (fst x) k), (Nat.ltb_spec (fst x) (S k));
            simpl; auto; lia.
        * unfold edgesFrom. apply filter_length_ext. intros x _.
          destruct (Nat.ltb_spec (fst x) k), (Nat.ltb_spec (fst x) (S k)),
            (Nat.eqb_spec (fst x) k); simpl; auto; lia. }
  rewrite Hgen. reflexivity.
Qed.

(** ** Loops of assertions *)

Lemma assertEach_Ok {A} (f : A -> bool) l :
  CSR.assertEach f l = Ok tt <-> forallb f l = true.
Proof.
  unfold CSR.assertEach. induction l as [| x l IH]; simpl.
  - tauto.
  - destruct (f x); simpl; [exact IH |]. split; discriminate.
Qed.

Lemma assertEach_cases {A} (f : A -> bool) l :
  CSR.assertEach f l = (if forallb f l then Ok tt else Err AssertionFailed).
Proof.
  unfold CSR.assertEach. induction l as [| x l IH]; simpl; auto.
  destruct (f x); simpl; auto.
Qed.

(** ** [initEdges] *)

Lemma pair_leb_trans : Transitive (fun x y => is_true (PairOrder.leb x y)).
Proof.
  intros [a b] [c d] [e f]. unfold is_true, PairOrder.leb. simpl.
  destruct (Nat.ltb_spec a c), (Nat.ltb_spec c e), (Nat.ltb_spec a e),
    (Nat.eqb_spec a c), (Nat.eqb_spec c e), (Nat.eqb_spec a e),
    (Nat.leb_spec b d), (Nat.leb_spec d f), (Nat.leb_spec b f);
    simpl; auto; try lia; try discriminate.
Qed.

Lemma StronglySorted_weaken {A} (R R' : A -> A -> Prop) l :
  (forall x y, R x y -> R' x y) -> StronglySorted R l -> StronglySorted R' l.
Proof.
  intros HR. induction 1 as [| x l Hs IH Hf]; constructor; auto.
  rewrite Forall_forall in *. auto.
Qed.

Lemma sort_keySorted l : keySorted (PairSort.sort l).
Proof.
  apply (StronglySorted_weaken (fun x y => is_true (PairOrder.leb x y))).
  - intros [a b] [c d]. unfold is_true, PairOrder.leb. simpl.
    destruct (Nat.ltb_spec a c) as [H1 | H1],
      (Nat.eqb_spec a c) as [H2 | H2]; simpl;
      intros H3; try lia; discriminate.
  - apply PairSort.StronglySorted_sort. exact pair_leb_trans.
Qed.

Lemma sort_In l e : In e (PairSort.sort l) <-> In e l.
Proof.
  split; apply Permutation_in;
    [apply Permutation_sym |]; apply PairSort.Permuted_sort.
Qed.

Lemma sort_length l : length (PairSort.sort l) = length l.
Proof. symmetry. apply Permutation_length, PairSort.Permuted_sort. Qed.

(** The adjacency list of a vertex is sorted. *)
Lemma edgesFrom_sorted l i :
  StronglySorted le (map snd (edgesFrom (PairSort.sort l) i)).
Proof.
  pose proof (PairSort.StronglySorted_sort l pair_leb_trans) as Hs.
  unfold edgesFrom. induction Hs as [| x t Hs IH Hf]; simpl; [constructor |].
  destruct (Nat.eqb_spec (fst x) i) as [Hx | Hx]; [| exact IH].
  simpl. constructor; [exact IH |].
  rewrite Forall_forall in *. intros v Hv.
  apply in_map_iff in Hv. destruct Hv as (y & <- & Hy).
  apply filter_In in Hy. destruct Hy as [Hy Hyi].
  apply Nat.eqb_eq in Hyi. specialize (Hf y Hy).
  unfold is_true, PairOrder.leb in Hf.
  destruct (Nat.ltb_spec (fst x) (fst y)); [lia |]. simpl in Hf.
  apply andb_true_iff in Hf. destruct Hf as [_ Hf].
  now apply Nat.leb_le.
Qed.

Lemma nth_segment {A} (l : list A) d a len :
  (a + len <= length l)%nat ->
  map (fun k => nth k l d) (seq a len) = firstn len (skipn a l).
Proof.
  revert a l. induction len as [| len IH]; intros a l Hle; [reflexivity |].
  simpl seq. simpl map.
  destruct (skipn a l) as [| x t] eqn:E.
  { exfalso. assert (Hl : length (skipn a l) = 0%nat) by now rewrite E.
    rewrite length_skipn in Hl. lia. }
  simpl. f_equal.
  - rewrite <- (firstn_skipn a l) at 1.
    rewrite app_nth2 by (rewrite length_firstn; lia).
    rewrite length_firstn, E.
    replace (a - Nat.min a (length l))%nat with 0%nat by lia. reflexivity.
  - rewrite IH by lia. f_equal.
    replace (S a) with (1 + a)%nat by lia.
    rewrite <- skipn_skipn, E. reflexivity.
Qed.

(** The adjacency range of a vertex after the loop of [initEdges]. *)
Lemma fillAdjacency_range n l i :
  keySorted l -> (forall e, In e l -> (fst e < n)%nat) -> (i < n)%nat ->
  adjRange (fst (CSR.fillAdjacency n l [])) (snd (CSR.fillAdjacency n l [])) i
  = map snd (edgesFrom l i).
Proof.
  intros Hs Hrange Hi. rewrite fillAdjacency_spec by exact Hs.
  cbn [fst snd app]. rewrite (edgesBelow_all l n Hrange), firstn_all.
  unfold adjRange.
  rewrite !nth_map_seq_gen by lia.
  replace (i + 1)%nat with (S i) by lia.
  rewrite edgesBelow_S.
  replace (edgesBelow l i + length (edgesFrom l i) - edgesBelow l i)%nat
    with (length (edgesFrom l i)) by lia.
  rewrite nth_segment.
  - rewrite skipn_map, firstn_map. f_equal.
    now apply keySorted_segment.
  - rewrite length_map. pose proof (edgesBelow_le l (S i)) as Hle.
    rewrite edgesBelow_S in Hle. exact Hle.
Qed.

Lemma edgesFrom_In l i e : In e (edgesFrom l i) <-> In e l /\ fst e = i.
Proof.
  unfold edgesFrom. rewrite filter_In. now rewrite Nat.eqb_eq.
Qed.

Lemma edgesFrom_perm l l' i :
  Permutation l l' -> Permutation (edgesFrom l i) (edgesFrom l' i).
Proof.
  unfold edgesFrom. induction 1; simpl;
    repeat match goal with |- context [if ?c then _ else _] => destruct c end;
    eauto using Permutation.
Qed.

Lemma initEdges_Ok G E G' :
  CSR.initEdges G E = Ok G' ->
  (forall e, In e E ->
             (fst e < CSR.numVertices G)%nat /\
             (snd e < CSR.numVertices G)%nat) /\
  CSR.numVertices G' = CSR.numVertices G /\
  CSR.numEdges G' = length E /\
  CSR.vertex_metadata G' = CSR.vertex_metadata G /\
  CSR.offsets_out G'
  = fst (CSR.fillAdjacency (CSR.numVertices G) (PairSort.sort E)
                           (CSR.adjcny_out G)) /\
  CSR.adjcny_out G'
  = snd (CSR.fillAdjacency (CSR.numVertices G) (PairSort.sort E)
                           (CSR.adjcny_out G)) /\
  CSR.offsets_in G'
  = fst (CSR.fillAdjacency (CSR.numVertices G)
           (PairSort.sort (map swapEdge (PairSort.sort E)))
           (CSR.adjcny_in G)) /\
  CSR.adjcny_in G'
  = snd (CSR.fillAdjacency (CSR.numVertices G)
           (PairSort.sort (map swapEdge (PairSort.sort E)))
           (CSR.adjcny_in G)).
Proof.
  unfold CSR.initEdges. intros H. inv_bind H as u Hu.
  destruct u. apply assertEach_Ok in Hu. rewrite forallb_forall in Hu.
  cbv zeta in H.
  fold swapEdge in H.
  change (fun e : nat * nat => (snd e, fst e)) with swapEdge in H.
  destruct (CSR.fillAdjacency _ (PairSort.sort E) _) as [oo ao].
  destruct (CSR.fillAdjacency _ (PairSort.sort (map swapEdge _)) _)
    as [oi ai].
  inversion H; subst G'; clear H. cbn.
  split; [| repeat split; reflexivity].
  intros e He. specialize (Hu e He). apply andb_true_iff in Hu.
  destruct Hu as [H1 H2]. apply Nat.ltb_lt in H1, H2. auto.
Qed.

Lemma swapEdge_from E i :
  map snd (edgesFrom (map swapEdge E) i)
  = map fst (filter (fun e : nat * nat => (snd e =? i)%nat) E).
Proof.
  unfold edgesFrom. induction E as [| e E IH]; simpl; auto.
  destruct (snd e =? i)%nat; simpl; now rewrite IH.
Qed.

Lemma initEdges_adjacency G E G' i :
  noEdgesYet G ->
  CSR.initEdges G E = Ok G' ->
  (i < CSR.numVertices G)%nat ->
  CSR.outNbrs G' i = map snd (edgesFrom (PairSort.sort E) i) /\
  CSR.inNbrs G' i
  = map snd (edgesFrom (PairSort.sort (map swapEdge (PairSort.sort E))) i).
Proof.
  intros [Hin Hout] Hrun Hi.
  destruct (initEdges_Ok G E G' Hrun)
    as (Hrange & _ & _ & _ & Eoo & Eao & Eoi & Eai).
  unfold CSR.outNbrs, CSR.inNbrs. rewrite Eoo, Eao, Eoi, Eai, Hin, Hout.
  split; (apply fillAdjacency_range; [apply sort_keySorted | | exact Hi]).
  - intros e He. apply -> sort_In in He. now destruct (Hrange e He).
  - intros e He. apply -> sort_In in He. apply in_map_iff in He.
    destruct He as (e' & <- & He'). apply -> sort_In in He'.
    unfold swapEdge. simpl. now destruct (Hrange e' He').
Qed.

(** [initEdges] on a container without edges: the adjacency list of every
    vertex is in ascending order and holds the targets of the edges of the
    vector that leave the vertex, as often as the vector has them; the list
    of in-neighbours likewise holds the sources of the edges that enter
    it. *)
Theorem initEdges_neighbours G E G' i :
  noEdgesYet G ->
  CSR.initEdges G E = Ok G' ->
  (i < CSR.numVertices G)%nat ->
  StronglySorted le (CSR.outNbrs G' i) /\
  Permutation (CSR.outNbrs G' i)
              (map snd (filter (fun e : nat * nat => (fst e =? i)%nat) E)) /\
  StronglySorted le (CSR.inNbrs G' i) /\
  Permutation (CSR.inNbrs G' i)
              (map fst (filter (fun e : nat * nat => (snd e =? i)%nat) E)).
Proof.
  intros Hfresh Hrun Hi.
  destruct (initEdges_adjacency G E G' i Hfresh Hrun Hi) as [-> ->].
  split; [apply edgesFrom_sorted |].
  split.
  { apply Permutation_map. apply edgesFrom_perm.
    apply Permutation_sym, PairSort.Permuted_sort. }
  split; [apply edgesFrom_sorted |].
  rewrite <- swapEdge_from. apply Permutation_map. apply edgesFrom_perm.
  eapply Permutation_trans.
  - apply Permutation_sym, PairSort.Permuted_sort.
  - apply Permutation_map. apply Permutation_sym, PairSort.Permuted_sort.
Qed.

Lemma initEdges_neighbours_witness :
  let G := {| CSR.numVertices := 3; CSR.numEdges := 0;
              CSR.adjcny_in := []; CSR.adjcny_out := [];
              CSR.offsets_in := []; CSR.offsets_out := [];
              CSR.vertex_metadata := [s "AC"; s "G"; s "T"] |} in
  exists G',
    CSR.initEdges G [(1, 2); (0, 2); (0, 1)]%nat = Ok G' /\
    StronglySorted le (CSR.outNbrs G' 0) /\
    Permutation (CSR.outNbrs G' 0) [2; 1]%nat.
Proof.
  intros G.
  assert (Hrun : exists G',
             CSR.initEdges G [(1, 2); (0, 2); (0, 1)]%nat = Ok G')
    by (eexists; vm_compute; reflexivity).
  destruct Hrun as [G' Hrun]. exists G'. split; [exact Hrun |].
  destruct (initEdges_neighbours G _ G' 0%nat (conj eq_refl eq_refl) Hrun)
    as (Hs & Hp & _); [simpl; lia |].
  split; [exact Hs | exact Hp].
Defined.

Lemma edgeExists_fold v adj ids :
  fold_left (fun (returnVal : bool) i =>
               if (v =? nth i adj 0)%nat then true else returnVal) ids false
  = existsb (fun i => (v =? nth i adj 0)%nat) ids.
Proof.
  assert (Hgen : forall acc,
    fold_left (fun (returnVal : bool) i =>
                 if (v =? nth i adj 0)%nat then true else returnVal) ids acc
    = acc || existsb (fun i => (v =? nth i adj 0)%nat) ids).
  { induction ids as [| i ids IH]; intros acc; simpl.
    - now rewrite orb_false_r.
    - rewrite IH. destruct (v =? nth i adj 0)%nat, acc; reflexivity. }
  apply Hgen.
Qed.

Lemma edgeExists_Ok G u v :
  (u < CSR.numVertices G)%nat -> (v < CSR.numVertices G)%nat ->
  exists b, CSR.edgeExists G u v = Ok b /\
            (b = true <-> In v (CSR.outNbrs G u)).
Proof.
  intros Hu Hv. unfold CSR.edgeExists.
  apply Nat.ltb_lt in Hu, Hv. rewrite Hu, Hv. simpl bind.
  eexists. split; [reflexivity |].
  rewrite edgeExists_fold, existsb_exists.
  unfold CSR.outNbrs, adjRange, CSR.edgeIds. rewrite in_map_iff.
  split; intros (i & H1 & H2); exists i.
  - apply Nat.eqb_eq in H2. auto.
  - split; auto. apply Nat.eqb_eq. auto.
Qed.

(** [edgeExists] after [initEdges]: for two vertices of the container, it
    answers whether the pair is in the vector of edges; for anything else
    it stops on an assertion. *)
Theorem initEdges_edgeExists G E G' u v :
  noEdgesYet G ->
  CSR.initEdges G E = Ok G' ->
  ((u < CSR.numVertices G)%nat /\ (v < CSR.numVertices G)%nat ->
   exists b, CSR.edgeExists G' u v = Ok b /\ (b = true <-> In (u, v) E)) /\
  (~ ((u < CSR.numVertices G)%nat /\ (v < CSR.numVertices G)%nat) ->
   CSR.edgeExists G' u v = Err AssertionFailed).
Proof.
  intros Hfresh Hrun.
  destruct (initEdges_Ok G E G' Hrun) as (_ & Hn & _).
  split.
  - intros [Hu Hv].
    destruct (edgeExists_Ok G' u v) as (b & Hb & Hiff); try lia.
    exists b. split; [exact Hb |]. rewrite Hiff.
    destruct (initEdges_adjacency G E G' u Hfresh Hrun Hu) as [-> _].
    rewrite in_map_iff. split.
    + intros ([a c] & Hc & He). simpl in Hc. subst c.
      apply edgesFrom_In in He. destruct He as [He Ha].
      simpl in Ha. subst a. apply -> sort_In in He. exact He.
    + intros He. exists (u, v). split; [reflexivity |].
      apply edgesFrom_In. split; [now apply <- sort_In | reflexivity].
  - intros Hno. unfold CSR.edgeExists. rewrite Hn.
    destruct (Nat.ltb_spec u (CSR.numVertices G)); simpl; auto.
    destruct (Nat.ltb_spec v (CSR.numVertices G)); simpl; auto.
    exfalso. apply Hno. auto.
Qed.

Lemma initEdges_edgeExists_witness :
  let G := {| CSR.numVertices := 3; CSR.numEdges := 0;
              CSR.adjcny_in := []; CSR.adjcny_out := [];
              CSR.offsets_in := []; CSR.offsets_out := [];
              CSR.vertex_metadata := [s "AC"; s "G"; s "T"] |} in
  exists G',
    CSR.initEdges G [(1, 2); (0, 2); (0, 1)]%nat = Ok G' /\
    CSR.edgeExists G' 0 2 = Ok true /\
    CSR.edgeExists G' 2 0 = Ok false /\
    CSR.edgeExists G' 0 3 = Err AssertionFailed.
Proof.
  intros G.
  assert (Hrun : exists G',
             CSR.initEdges G [(1, 2); (0, 2); (0, 1)]%nat = Ok G')
    by (eexists; vm_compute; reflexivity).
  destruct Hrun as [G' Hrun]. exists G'. split; [exact Hrun |].
  split; [| split].
  - destruct (initEdges_edgeExists G _ G' 0%nat 2%nat
                (conj eq_refl eq_refl) Hrun) as [H _].
    destruct H as (b & Hb & Hiff); [simpl; lia |].
    rewrite Hb. f_equal. apply Hiff. simpl. auto.
  - destruct (initEdges_edgeExists G _ G' 2%nat 0%nat
                (conj eq_refl eq_refl) Hrun) as [H _].
    destruct H as (b & Hb & Hiff); [simpl; lia |].
    rewrite Hb. f_equal. destruct b; auto.
    destruct Hiff as [Hiff _]. specialize (Hiff eq_refl). simpl in Hiff.
    repeat destruct Hiff as [Hiff | Hiff]; try discriminate; contradiction.
  - destruct (initEdges_edgeExists G _ G' 0%nat 3%nat
                (conj eq_refl eq_refl) Hrun) as [_ H].
    apply H. simpl. lia.
Defined.

(** [initEdges] accepts a vector of edges exactly when both ends of every
    edge are vertices of the container; it then keeps the vertices and
    their sequences and sets [numEdges] to the length of the vector. *)
Theorem initEdges_accepts G E :
  ((forall e, In e E -> (fst e < CSR.numVertices G)%nat /\
                        (snd e < CSR.numVertices G)%nat) ->
   exists G', CSR.initEdges G E = Ok G' /\
              CSR.numVertices G' = CSR.numVertices G /\
              CSR.numEdges G' = length E /\
              CSR.vertex_metadata G' = CSR.vertex_metadata G /\
              length (CSR.offsets_out G') = S (CSR.numVertices G) /\
              length (CSR.offsets_in G') = S (CSR.numVertices G)) /\
  ((exists e, In e E /\ ~ ((fst e < CSR.numVertices G)%nat /\
                           (snd e < CSR.numVertices G)%nat)) ->
   CSR.initEdges G E = Err AssertionFailed).
Proof.
  split.
  - intros Hrange.
    assert (Hb : forallb (fun edge : nat * nat =>
                            (fst edge <? CSR.numVertices G)%nat
                            && (snd edge <? CSR.numVertices G)%nat) E = true).
    { apply forallb_forall. intros e He. destruct (Hrange e He) as [H1 H2].
      apply Nat.ltb_lt in H1, H2. now rewrite H1, H2. }
    destruct (CSR.initEdges G E) as [G' | err] eqn:Hrun.
    + exists G'. split; [reflexivity |].
      destruct (initEdges_Ok G E G' Hrun)
        as (_ & Hn & Hm & Hv & Eoo & _ & Eoi & _).
      repeat split; auto.
      * rewrite Eoo, fillAdjacency_spec by apply sort_keySorted.
        cbn [fst]. now rewrite length_map, length_seq.
      * rewrite Eoi, fillAdjacency_spec by apply sort_keySorted.
        cbn [fst]. now rewrite length_map, length_seq.
    + exfalso. unfold CSR.initEdges in Hrun.
      rewrite assertEach_cases, Hb in Hrun. simpl bind in Hrun.
      cbv zeta in Hrun.
      destruct (CSR.fillAdjacency _ (PairSort.sort E) _) as [oo ao].
      destruct (CSR.fillAdjacency _ (PairSort.sort (map _ _)) _) as [oi ai].
      discriminate.
  - intros (e & He & Hbad). unfold CSR.initEdges.
    rewrite assertEach_cases.
    destruct (forallb _ E) eqn:Hb; [| reflexivity].
    exfalso. apply Hbad. rewrite forallb_forall in Hb.
    specialize (Hb e He). apply andb_true_iff in Hb.
    destruct Hb as [H1 H2]. apply Nat.ltb_lt in H1, H2. auto.
Qed.

Lemma initEdges_accepts_witness :
  let G := {| CSR.numVertices := 3; CSR.numEdges := 0;
              CSR.adjcny_in := []; CSR.adjcny_out := [];
              CSR.offsets_in := []; CSR.offsets_out := [];
              CSR.vertex_metadata := [s "AC"; s "G"; s "T"] |} in
  (exists G', CSR.initEdges G [(1, 2); (0, 2)]%nat = Ok G' /\
              CSR.numEdges G' = 2%nat) /\
  CSR.initEdges G [(1, 2); (0, 3)]%nat = Err AssertionFailed.
Proof.
  intros G. split.
  - destruct (initEdges_accepts G [(1, 2); (0, 2)]%nat) as [H _].
    destruct H as (G' & Hrun & _ & Hm & _).
    + intros e [<- | [<- | []]]; simpl; lia.
    + exists G'. auto.
  - destruct (initEdges_accepts G [(1, 2); (0, 3)]%nat) as [_ H].
    apply H. exists (0, 3)%nat. split; [simpl; auto |]. simpl. lia.
Defined.

(** ** [verify] *)

Lemma cassert_bind_Ok b (k : unit -> result unit) (P Q : Prop) :
  (b = true <-> P) -> (k tt = Ok tt <-> Q) ->
  (bind (cassert b) k = Ok tt <-> P /\ Q).
Proof.
  intros Hb Hk. destruct b; simpl.
  - rewrite Hk. split; [intros; split; auto; now apply Hb | tauto].
  - split; [discriminate | intros [HP _]; apply Hb in HP; discriminate].
Qed.

Lemma assertEach_bind_Ok {A} (f : A -> bool) l (k : unit -> result unit)
      (P Q : Prop) :
  (forallb f l = true <-> P) -> (k tt = Ok tt <-> Q) ->
  (bind (CSR.assertEach f l) k = Ok tt <-> P /\ Q).
Proof.
  intros Hb Hk. rewrite assertEach_cases. destruct (forallb f l); simpl.
  - rewrite Hk. split; [intros; split; auto; now apply Hb | tauto].
  - split; [discriminate | intros [HP _]; apply Hb in HP; discriminate].
Qed.

Lemma forallb_In {A} (f : A -> bool) (P : A -> Prop) l :
  (forall x, f x = true <-> P x) ->
  (forallb f l = true <-> forall x, In x l -> P x).
Proof.
  intros H. rewrite forallb_forall. split; intros Hl x Hx; apply H; auto.
Qed.

Lemma sortedOrder_Ok G :
  foldM (fun (_ : unit) i =>
           CSR.assertEach (fun j => (i <? nth j (CSR.adjcny_out G) 0)%nat)
                          (CSR.edgeIds (CSR.offsets_out G) i))
        (seq 0 (CSR.numVertices G)) tt = Ok tt
  <-> (forall i v, (i < CSR.numVertices G)%nat -> In v (CSR.outNbrs G i) ->
                   (i < v)%nat).
Proof.
  assert (Hgen : forall l,
    foldM (fun (_ : unit) i =>
             CSR.assertEach (fun j => (i <? nth j (CSR.adjcny_out G) 0)%nat)
                            (CSR.edgeIds (CSR.offsets_out G) i)) l tt = Ok tt
    <-> (forall i v, In i l -> In v (CSR.outNbrs G i) -> (i < v)%nat)).
  { induction l as [| i l IH]; simpl.
    - split; [intros _ i v [] | reflexivity].
    - rewrite assertEach_cases.
      destruct (forallb _ (CSR.edgeIds _ i)) eqn:Hb; simpl.
      + rewrite IH. rewrite forallb_forall in Hb. split.
        * intros Hl i' v [<- | Hi'] Hv; [| eauto].
          unfold CSR.outNbrs, adjRange in Hv. apply in_map_iff in Hv.
          destruct Hv as (j & <- & Hj). apply Nat.ltb_lt. now apply Hb.
        * intros Hl i' v Hi'. apply Hl. auto.
      + split; [discriminate |]. intros Hl. exfalso.
        assert (Hall : forallb (fun j => (i <? nth j (CSR.adjcny_out G) 0)%nat)
                               (CSR.edgeIds (CSR.offsets_out G) i) = true).
        { apply forallb_forall. intros j Hj. apply Nat.ltb_lt.
          apply (Hl i); [auto |].
          unfold CSR.outNbrs, adjRange. apply in_map_iff. eauto. }
        congruence. }
  rewrite Hgen. split; intros H i v Hi; apply H.
  - apply in_seq. lia.
  - apply in_seq in Hi. lia.
Qed.

(** [verify()] completes exactly when all its assertions hold. *)
Lemma verify_Ok G : CSR.verify G = Ok tt <-> verified G.
Proof.
  unfold CSR.verify, verified.
  repeat first
    [ apply cassert_bind_Ok; [apply Nat.eqb_eq || reflexivity |]
    | apply assertEach_bind_Ok;
      [apply forallb_In; intros;
       first [apply Nat.ltb_lt | apply Nat.leb_le] |] ].
  apply sortedOrder_Ok.
Qed.

Lemma verify_assertOnly G : assertOnly (CSR.verify G).
Proof.
  unfold CSR.verify, CSR.assertEach.
  repeat first [ apply bind_assertOnly; [| intros ]
               | apply cassert_assertOnly
               | apply foldM_assertOnly; intros ].
Qed.

(** In a container that [verify()] accepts, every edge leads to a vertex
    with a larger id: [edgeExists(u, v)] can only hold for [u < v], so the
    graph has no loop, no pair of opposite edges, no cycle. *)
Theorem verify_edges_forward G u v :
  CSR.verify G = Ok tt ->
  CSR.edgeExists G u v = Ok true ->
  (u < v < CSR.numVertices G)%nat.
Proof.
  intros Hv He. apply verify_Ok in Hv.
  destruct Hv as (_ & _ & _ & _ & _ & _ & _ & _ & _ & _ & _ & _ & _ & _ & Hfwd).
  unfold CSR.edgeExists in He.
  destruct (Nat.ltb_spec u (CSR.numVertices G)) as [Hu | Hu];
    [| discriminate].
  destruct (Nat.ltb_spec v (CSR.numVertices G)) as [Hv | Hv];
    [| discriminate].
  destruct (edgeExists_Ok G u v Hu Hv) as (b & Hb & Hiff).
  unfold CSR.edgeExists in Hb.
  apply Nat.ltb_lt in Hu, Hv. rewrite Hu, Hv in Hb.
  simpl bind in He, Hb. rewrite He in Hb. inversion Hb; subst b.
  apply Nat.ltb_lt in Hu, Hv. split; auto.
  apply (Hfwd u v Hu). now apply Hiff.
Qed.

Lemma is_sorted_mono (f : nat -> nat) a len :
  (forall j k, (j <= k)%nat -> (f j <= f k)%nat) ->
  CSR.is_sorted (map f (seq a len)) = true.
Proof.
  intros Hf. revert a. induction len as [| len IH]; intros a; [reflexivity |].
  simpl seq. simpl map. specialize (IH (S a)).
  destruct len as [| len]; [reflexivity |].
  simpl seq in *. simpl map in *. cbn [CSR.is_sorted].
  cbn [CSR.is_sorted] in IH. rewrite IH.
  destruct (Nat.ltb_spec (f (S a)) (f a)) as [Hlt | Hge]; auto.
  specialize (Hf a (S a)). lia.
Qed.

Lemma last_map_seq (f : nat -> nat) n d :
  last (map f (seq 0 (S n))) d = f n.
Proof. rewrite seq_S, map_app. simpl. apply last_last. Qed.

(** The part of [verify()] that holds after [initEdges] whatever the
    edges are. *)
Lemma initEdges_structure G E G' :
  noEdgesYet G ->
  CSR.initEdges G E = Ok G' ->
  length (CSR.adjcny_in G') = length E /\
  length (CSR.adjcny_out G') = length E /\
  (forall v, In v (CSR.adjcny_in G') -> (v < CSR.numVertices G)%nat) /\
  (forall v, In v (CSR.adjcny_out G') -> (v < CSR.numVertices G)%nat) /\
  length (CSR.offsets_in G') = (CSR.numVertices G + 1)%nat /\
  length (CSR.offsets_out G') = (CSR.numVertices G + 1)%nat /\
  (forall off, In off (CSR.offsets_in G') -> (off <= length E)%nat) /\
  (forall off, In off (CSR.offsets_out G') -> (off <= length E)%nat) /\
  CSR.is_sorted (CSR.offsets_in G') = true /\
  CSR.is_sorted (CSR.offsets_out G') = true /\
  last (CSR.offsets_in G') 0%nat = length E /\
  last (CSR.offsets_out G') 0%nat = length E.
Proof.
  intros [Hin Hout] Hrun.
  destruct (initEdges_Ok G E G' Hrun)
    as (Hrange & _ & _ & _ & Eoo & Eao & Eoi & Eai).
  set (n := CSR.numVertices G) in *.
  set (lo := PairSort.sort E) in *.
  set (li := PairSort.sort (map swapEdge lo)) in *.
  assert (Hlo : forall e, In e lo -> (fst e < n /\ snd e < n)%nat).
  { intros e He. apply -> sort_In in He. auto. }
  assert (Hli : forall e, In e li -> (fst e < n /\ snd e < n)%nat).
  { intros e He. apply -> sort_In in He. apply in_map_iff in He.
    destruct He as (e' & <- & He'). unfold swapEdge. simpl.
    destruct (Hlo e' He'). auto. }
  assert (Llo : length lo = length E) by apply sort_length.
  assert (Lli : length li = length E).
  { unfold li. now rewrite sort_length, length_map. }
  rewrite Hout, fillAdjacency_spec in Eoo, Eao by apply sort_keySorted.
  rewrite Hin, fillAdjacency_spec in Eoi, Eai by apply sort_keySorted.
  cbn [fst snd app] in Eoo, Eao, Eoi, Eai.
  rewrite edgesBelow_all, firstn_all in Eao
    by (intros e He; now destruct (Hlo e He)).
  rewrite edgesBelow_all, firstn_all in Eai
    by (intros e He; now destruct (Hli e He)).
  rewrite Eoo, Eao, Eoi, Eai.
  rewrite !length_map, !length_seq, Llo, Lli.
  repeat split; try lia.
  - intros v Hv. apply in_map_iff in Hv. destruct Hv as (e & <- & He).
    now destruct (Hli e He).
  - intros v Hv. apply in_map_iff in Hv. destruct Hv as (e & <- & He).
    now destruct (Hlo e He).
  - intros off Hoff. apply in_map_iff in Hoff.
    destruct Hoff as (k & <- & _). rewrite <- Lli. apply edgesBelow_le.
  - intros off Hoff. apply in_map_iff in Hoff.
    destruct Hoff as (k & <- & _). rewrite <- Llo. apply edgesBelow_le.
  - apply is_sorted_mono. apply edgesBelow_mono.
  - apply is_sorted_mono. apply edgesBelow_mono.
  - rewrite last_map_seq, edgesBelow_all; auto.
    intros e He; now destruct (Hli e He).
  - rewrite last_map_seq, edgesBelow_all; auto.
    intros e He; now destruct (Hlo e He).
Qed.

(** [verify()] after [initEdges], for a container without edges whose
    vertices all have a sequence: the container is accepted exactly when
    every edge of the vector leads from a vertex to one with a larger id;
    otherwise [verify()] stops on an assertion. *)
Theorem initEdges_verify G E G' :
  noEdgesYet G ->
  length (CSR.vertex_metadata G) = CSR.numVertices G ->
  (forall seq, In seq (CSR.vertex_metadata G) -> (0 < length seq)%nat) ->
  CSR.initEdges G E = Ok G' ->
  ((forall e, In e E -> (fst e < snd e)%nat) -> CSR.verify G' = Ok tt) /\
  ((exists e, In e E /\ (snd e <= fst e)%nat) ->
   CSR.verify G' = Err AssertionFailed).
Proof.
  intros Hfresh Hlen Hseq Hrun.
  destruct (initEdges_Ok G E G' Hrun) as (Hrange & Hn & Hm & Hmeta & _).
  pose proof (initEdges_structure G E G' Hfresh Hrun) as Hst.
  assert (Hiff : CSR.verify G' = Ok tt
                 <-> forall e, In e E -> (fst e < snd e)%nat).
  { rewrite verify_Ok. unfold verified. rewrite Hn, Hm, Hmeta. split.
    - intros (_ & _ & _ & _ & _ & _ & _ & _ & _ & _ & _ & _ & _ & _ & Hfwd).
      intros [u v] He. simpl. destruct (Hrange _ He) as [Hu _].
      simpl in Hu. apply (Hfwd u v Hu).
      destruct (initEdges_adjacency G E G' u Hfresh Hrun Hu) as [-> _].
      apply in_map_iff. exists (u, v). split; [reflexivity |].
      apply edgesFrom_In. split; [now apply <- sort_In | reflexivity].
    - intros Hfwd.
      destruct Hst as (H1 & H2 & H3 & H4 & H5 & H6 & H7 & H8 & H9 & H10
                       & H11 & H12).
      repeat (split; [assumption |]).
      intros i v Hi Hv.
      destruct (initEdges_adjacency G E G' i Hfresh Hrun Hi) as [Eo _].
      rewrite Eo in Hv. apply in_map_iff in Hv.
      destruct Hv as ([a c] & Hc & He). simpl in Hc. subst c.
      apply edgesFrom_In in He. destruct He as [He Ha]. simpl in Ha. subst a.
      apply -> sort_In in He. exact (Hfwd _ He). }
  split; [apply Hiff |].
  intros (e & He & Hbad).
  destruct (CSR.verify G') as [[] | err] eqn:Hv.
  - exfalso. destruct Hiff as [Hiff _]. specialize (Hiff eq_refl e He). lia.
  - now rewrite (verify_assertOnly G' err Hv).
Qed.

Lemma initEdges_verify_witness :
  let G := {| CSR.numVertices := 3; CSR.numEdges := 0;
              CSR.adjcny_in := []; CSR.adjcny_out := [];
              CSR.offsets_in := []; CSR.offsets_out := [];
              CSR.vertex_metadata := [s "AC"; s "G"; s "T"] |} in
  (exists G', CSR.initEdges G [(1, 2); (0, 2); (0, 1)]%nat = Ok G' /\
              CSR.verify G' = Ok tt) /\
  (exists G', CSR.initEdges G [(1, 2); (2, 0)]%nat = Ok G' /\
              CSR.verify G' = Err AssertionFailed).
Proof.
  intros G.
  assert (Hseq : forall seq, In seq (CSR.vertex_metadata G) ->
                             (0 < length seq)%nat)
    by (intros seq [<- | [<- | [<- | []]]]; simpl; lia).
  split.
  - assert (Hrun : exists G',
               CSR.initEdges G [(1, 2); (0, 2); (0, 1)]%nat = Ok G')
      by (eexists; vm_compute; reflexivity).
    destruct Hrun as [G' Hrun]. exists G'. split; [exact Hrun |].
    destruct (initEdges_verify G _ G' (conj eq_refl eq_refl) eq_refl Hseq
                               Hrun) as [H _].
    apply H. intros e [<- | [<- | [<- | []]]]; simpl; lia.
  - assert (Hrun : exists G', CSR.initEdges G [(1, 2); (2, 0)]%nat = Ok G')
      by (eexists; vm_compute; reflexivity).
    destruct Hrun as [G' Hrun]. exists G'. split; [exact Hrun |].
    destruct (initEdges_verify G _ G' (conj eq_refl eq_refl) eq_refl Hseq
                               Hrun) as [_ H].
    apply H. exists (2, 0)%nat. simpl. split; [auto | lia].
Defined.

Lemma verify_edges_forward_witness :
  let G := {| CSR.numVertices := 3; CSR.numEdges := 3;
              CSR.adjcny_in := [0; 0; 1]%nat; CSR.adjcny_out := [1; 2; 2]%nat;
              CSR.offsets_in := [0; 0; 1; 3]%nat;
              CSR.offsets_out := [0; 2; 3; 3]%nat;
              CSR.vertex_metadata := [s "AC"; s "G"; s "T"] |} in
  CSR.verify G = Ok tt /\ CSR.edgeExists G 0 2 = Ok true /\
  (0 < 2 < CSR.numVertices G)%nat.
Proof.
  intros G.
  assert (Hv : CSR.verify G = Ok tt) by (vm_compute; reflexivity).
  assert (He : CSR.edgeExists G 0 2 = Ok true) by (vm_compute; reflexivity).
  split; [exact Hv |]. split; [exact He |].
  exact (verify_edges_forward G 0%nat 2%nat Hv He).
Defined.

(** ** Vertices and their sequences *)

Lemma totalRefLength_from (v : list str) acc :
  foldM (fun totalLen (i : str) =>
           _ <- cassert (0 <? length i)%nat ;;
           Ok (totalLen + length i)%nat) v acc
  = if forallb (fun i : str => (0 <? length i)%nat) v
    then Ok (acc + length (concat v))%nat
    else Err AssertionFailed.
Proof.
  revert acc. induction v as [| x v IH]; intros acc; simpl.
  - f_equal. lia.
  - destruct (0 <? length x)%nat; simpl; auto.
    rewrite IH. destruct (forallb _ v); auto.
    f_equal. rewrite length_app. lia.
Qed.

Lemma concat_length_ge (v : list str) :
  (forall x, In x v -> (0 < length x)%nat) ->
  (length v <= length (concat v))%nat.
Proof.
  induction v as [| x v IH]; intros H; simpl; auto.
  rewrite length_app. specialize (H x (or_introl eq_refl)) as Hx.
  specialize (IH (fun y Hy => H y (or_intror Hy))). lia.
Qed.

(** [totalRefLength()] returns the number of characters of all sequences,
    which is at least the number of vertices, when every vertex has a
    sequence; it stops on an assertion when a vertex has none. *)
Theorem totalRefLength_counts G :
  ((forall x, In x (CSR.vertex_metadata G) -> (0 < length x)%nat) ->
   CSR.totalRefLength G = Ok (length (concat (CSR.vertex_metadata G))) /\
   (length (CSR.vertex_metadata G)
    <= length (concat (CSR.vertex_metadata G)))%nat) /\
  (In [] (CSR.vertex_metadata G) ->
   CSR.totalRefLength G = Err AssertionFailed).
Proof.
  unfold CSR.totalRefLength. rewrite totalRefLength_from. split.
  - intros H. split; [| now apply concat_length_ge].
    replace (forallb _ _) with true; [reflexivity |].
    symmetry. apply forallb_forall. intros x Hx. apply Nat.ltb_lt. auto.
  - intros H. destruct (forallb _ _) eqn:Hb; auto.
    rewrite forallb_forall in Hb. specialize (Hb [] H). discriminate.
Qed.

Lemma totalRefLength_counts_witness :
  let G := {| CSR.numVertices := 3; CSR.numEdges := 0;
              CSR.adjcny_in := []; CSR.adjcny_out := [];
              CSR.offsets_in := []; CSR.offsets_out := [];
              CSR.vertex_metadata := [s "AC"; s "G"; s "T"] |} in
  let G0 := {| CSR.numVertices := 2; CSR.numEdges := 0;
               CSR.adjcny_in := []; CSR.adjcny_out := [];
               CSR.offsets_in := []; CSR.offsets_out := [];
               CSR.vertex_metadata := [s "AC"; []] |} in
  CSR.totalRefLength G = Ok 4%nat /\
  CSR.totalRefLength G0 = Err AssertionFailed.
Proof.
  intros G G0. split.
  - destruct (totalRefLength_counts G) as [H _].
    destruct H as [H _]; [| exact H].
    intros x [<- | [<- | [<- | []]]]; simpl; lia.
  - destruct (totalRefLength_counts G0) as [_ H].
    apply H. simpl. auto.
Defined.

Lemma nth_resize n (v : list str) k :
  nth k (CSR.resize n v) [] = if (k <? n)%nat then nth k v [] else [].
Proof.
  unfold CSR.resize.
  destruct (Nat.ltb_spec k n) as [Hk | Hk].
  - destruct (Nat.lt_ge_cases k (length v)) as [Hv | Hv].
    + rewrite app_nth1 by (rewrite length_firstn; lia).
      now rewrite nth_firstn, (proj2 (Nat.ltb_lt k n) Hk).
    + rewrite app_nth2 by (rewrite length_firstn; lia).
      rewrite (nth_overflow v) by lia. apply nth_repeat.
  - apply nth_overflow.
    rewrite length_app, length_firstn, repeat_length. lia.
Qed.

Lemma length_resize n (v : list str) : length (CSR.resize n v) = n.
Proof.
  unfold CSR.resize. rewrite length_app, length_firstn, repeat_length. lia.
Qed.

(** A vertex gets its sequence once.  After [addVertexCount(n)], each of
    the [n] new ids can be given a sequence with [initVertexSequence],
    which changes the sequence of that vertex only; when the sequence is
    not empty, every further call for the same id stops on an assertion. *)
Theorem new_vertex_initialised_once G n G1 id seq :
  length (CSR.vertex_metadata G) = CSR.numVertices G ->
  CSR.addVertexCount G n = Ok G1 ->
  (CSR.numVertices G <= id < CSR.numVertices G + n)%nat ->
  seq <> [] ->
  CSR.numVertices G1 = (CSR.numVertices G + n)%nat /\
  exists G2,
    CSR.initVertexSequence G1 id seq = Ok G2 /\
    nth id (CSR.vertex_metadata G2) [] = seq /\
    (forall j, j <> id ->
               nth j (CSR.vertex_metadata G2) []
               = nth j (CSR.vertex_metadata G1) []) /\
    (forall j, (j < CSR.numVertices G)%nat ->
               nth j (CSR.vertex_metadata G2) []
               = nth j (CSR.vertex_metadata G) []) /\
    forall seq', CSR.initVertexSequence G2 id seq' = Err AssertionFailed.
Proof.
  intros Hlen Hadd Hid Hseq. unfold CSR.addVertexCount in Hadd.
  inv_bind Hadd as u Hu. inversion Hadd; subst G1; clear Hadd.
  split; [reflexivity |].
  unfold CSR.initVertexSequence at 1. cbn [CSR.vertex_metadata].
  rewrite length_resize, nth_resize.
  replace (id <? CSR.numVertices G + n)%nat with true
    by (symmetry; apply Nat.ltb_lt; lia).
  rewrite (nth_overflow (CSR.vertex_metadata G)) by lia.
  simpl bind. eexists. split; [reflexivity |].
  cbn [CSR.vertex_metadata CSR.numVertices].
  assert (Hin : (id < length (CSR.resize (CSR.numVertices G + n)
                                         (CSR.vertex_metadata G)))%nat)
    by (rewrite length_resize; lia).
  split; [now apply nth_list_set_same |].
  split; [intros j Hj; now apply nth_list_set_other |].
  split.
  - intros j Hj. rewrite nth_list_set_other by lia. rewrite nth_resize.
    now replace (j <? CSR.numVertices G + n)%nat with true
      by (symmetry; apply Nat.ltb_lt; lia).
  - intros seq'. unfold CSR.initVertexSequence.
    cbn [CSR.vertex_metadata]. rewrite list_set_length.
    replace (id <? _)%nat with true by (symmetry; apply Nat.ltb_lt; lia).
    rewrite nth_list_set_same by exact Hin. simpl bind.
    destruct seq as [| c seq]; [congruence | reflexivity].
Qed.

Lemma new_vertex_initialised_once_witness :
  exists G1 G2,
    CSR.addVertexCount CSR.CSR_container0 2 = Ok G1 /\
    CSR.initVertexSequence G1 1 (s "ACGT") = Ok G2 /\
    nth 1 (CSR.vertex_metadata G2) [] = s "ACGT" /\
    CSR.initVertexSequence G2 1 (s "T") = Err AssertionFailed.
Proof.
  assert (Hadd : exists G1, CSR.addVertexCount CSR.CSR_container0 2 = Ok G1)
    by (eexists; reflexivity).
  destruct Hadd as [G1 Hadd].
  destruct (new_vertex_initialised_once CSR.CSR_container0 2 G1 1 (s "ACGT")
              eq_refl Hadd) as (_ & G2 & Hinit & Hnth & _ & _ & Honce).
  - simpl. lia.
  - discriminate.
  - exists G1, G2. auto.
Defined.

(** ** Kahn's algorithm *)

Lemma list_sum_remove (f : nat -> nat) x U :
  NoDup U -> In x U ->
  list_sum (map f U) = (f x + list_sum (map f (remove Nat.eq_dec x U)))%nat.
Proof.
  induction U as [| u U IH]; intros Hnd Hin; [contradiction |].
  inversion Hnd as [| a b Hnot Hnd']; subst. simpl.
  destruct (Nat.eq_dec x u) as [-> | Hne].
  - rewrite notin_remove by exact Hnot. reflexivity.
  - destruct Hin as [-> | Hin]; [congruence |].
    simpl. rewrite (IH Hnd' Hin). lia.
Qed.

Lemma list_sum_zero (f : nat -> nat) U :
  list_sum (map f U) = 0%nat <-> forall u, In u U -> f u = 0%nat.
Proof.
  induction U as [| u U IH]; simpl.
  - split; [intros _ u [] | reflexivity].
  - split.
    + intros H x [<- | Hx]; [lia |]. apply IH; [lia | exact Hx].
    + intros H. rewrite (H u) by auto. simpl. apply IH. auto.
Qed.

Lemma NoDup_remove_length x (U : list nat) :
  NoDup U -> In x U -> S (length (remove Nat.eq_dec x U)) = length U.
Proof.
  induction U as [| u U IH]; intros Hnd Hin; [contradiction |].
  inversion Hnd as [| a b Hnot Hnd']; subst. simpl.
  destruct (Nat.eq_dec x u) as [-> | Hne].
  - now rewrite notin_remove.
  - destruct Hin as [-> | Hin]; [congruence |]. simpl. now rewrite IH.
Qed.

Lemma NoDup_remove_keep x (U : list nat) :
  NoDup U -> NoDup (remove Nat.eq_dec x U).
Proof.
  induction 1 as [| u U Hnot Hnd IH]; simpl; [constructor |].
  destruct (Nat.eq_dec x u); auto. constructor; auto.
  intros Hin. apply in_remove in Hin. tauto.
Qed.

Lemma In_remove_iff x (U : list nat) w :
  In w (remove Nat.eq_dec x U) <-> In w U /\ w <> x.
Proof.
  split; [apply in_remove | intros [H1 H2]; now apply in_in_remove].
Qed.

Lemma erase_split pos (Q : list nat) :
  (pos < length Q)%nat ->
  Q = firstn pos Q ++ nth pos Q 0%nat :: skipn (S pos) Q /\
  CSR.erase pos Q = firstn pos Q ++ skipn (S pos) Q.
Proof.
  intros Hpos. split; [| reflexivity].
  rewrite <- (firstn_skipn pos Q) at 1. f_equal.
  revert pos Hpos. induction Q as [| q Q IH]; intros [| pos] Hpos;
    simpl in *; try lia; auto. apply IH. lia.
Qed.

Lemma erase_NoDup pos (Q : list nat) :
  (pos < length Q)%nat -> NoDup Q ->
  NoDup (CSR.erase pos Q) /\
  forall w, In w (CSR.erase pos Q) <-> In w Q /\ w <> nth pos Q 0%nat.
Proof.
  intros Hpos Hnd. destruct (erase_split pos Q Hpos) as [HQ ->].
  set (x := nth pos Q 0%nat) in *.
  set (a := firstn pos Q) in *. set (b := skipn (S pos) Q) in *.
  rewrite HQ in Hnd. split; [now apply NoDup_remove_1 in Hnd |].
  apply NoDup_remove_2 in Hnd.
  intros w. split.
  - intros H. split.
    + rewrite HQ. apply in_app_iff. apply in_app_iff in H. simpl. tauto.
    + intros ->. auto.
  - intros [H Hne]. rewrite HQ in H. apply in_app_iff in H. simpl in H.
    apply in_app_iff. destruct H as [H | [H | H]]; auto. congruence.
Qed.

Lemma count_occ_pos (l : list nat) w :
  (0 < count_occ Nat.eq_dec l w)%nat <-> In w l.
Proof. symmetry. apply count_occ_In. Qed.

(** The loop over the out-edges of the vertex that has left [Q]. *)
Lemma relaxTo_loop n ws :
  forall Q1 deg,
    length deg = n ->
    (forall w, In w ws -> (w < n)%nat) ->
    (forall w, (w < n)%nat ->
               Z.of_nat (count_occ Nat.eq_dec ws w) <= nth w deg 0) ->
    exists pushed deg',
      fold_left relaxTo ws (Q1, deg) = (Q1 ++ pushed, deg') /\
      length deg' = n /\
      (forall w, (w < n)%nat ->
                 nth w deg' 0
                 = nth w deg 0 - Z.of_nat (count_occ Nat.eq_dec ws w)) /\
      NoDup pushed /\
      (forall w, In w pushed <-> In w ws /\ nth w deg' 0 = 0).
Proof.
  induction ws as [| x ws IH]; intros Q1 deg Hlen Hws Hge.
  - exists [], deg. simpl. rewrite app_nil_r.
    split; [reflexivity |]. split; [exact Hlen |].
    split; [intros; lia |]. split; [constructor |]. intros w. tauto.
  - assert (Hx : (x < n)%nat) by (apply Hws; simpl; auto).
    set (d := nth x deg 0 - 1).
    set (deg1 := list_set x d deg).
    assert (Hlen1 : length deg1 = n)
      by (unfold deg1; now rewrite list_set_length).
    assert (Hdeg1 : forall w, (w < n)%nat ->
              nth w deg1 0 = if Nat.eq_dec x w then d else nth w deg 0).
    { intros w Hw. unfold deg1. destruct (Nat.eq_dec x w) as [<- | Hne].
      - apply nth_list_set_same. lia.
      - now apply nth_list_set_other. }
    assert (Hge1 : forall w, (w < n)%nat ->
              Z.of_nat (count_occ Nat.eq_dec ws w) <= nth w deg1 0).
    { intros w Hw. rewrite (Hdeg1 w Hw). specialize (Hge w Hw).
      simpl in Hge. destruct (Nat.eq_dec x w); unfold d; subst; lia. }
    assert (Hws1 : forall w, In w ws -> (w < n)%nat)
      by (intros; apply Hws; simpl; auto).
    simpl fold_left. fold d. fold deg1.
    destruct (Z.eqb_spec d 0) as [Hd | Hd].
    + destruct (IH (Q1 ++ [x]) deg1 Hlen1 Hws1 Hge1)
        as (pushed & deg' & Hrun & Hl' & Hv' & Hnd & Hin).
      assert (Hxws : ~ In x ws).
      { intros Hc. apply count_occ_pos in Hc.
        specialize (Hge1 x Hx). rewrite (Hdeg1 x Hx) in Hge1.
        destruct (Nat.eq_dec x x); [lia | congruence]. }
      exists (x :: pushed), deg'. rewrite Hrun, <- app_assoc.
      split; [reflexivity |]. split; [exact Hl' |]. split.
      * intros w Hw. rewrite (Hv' w Hw), (Hdeg1 w Hw). simpl.
        destruct (Nat.eq_dec x w) as [Exw | Exw]; unfold d; try rewrite Exw; lia.
      * split.
        -- constructor; auto. intros Hc. apply Hin in Hc. tauto.
        -- intros w. simpl. rewrite Hin. split.
           ++ intros [<- | [H1 H2]]; [| tauto]. split; auto.
              rewrite (Hv' x Hx), (Hdeg1 x Hx).
              rewrite (count_occ_not_In Nat.eq_dec ws x) in Hxws.
              rewrite Hxws. destruct (Nat.eq_dec x x); [lia | congruence].
           ++ intros [[<- | H1] H2]; auto.
    + destruct (IH Q1 deg1 Hlen1 Hws1 Hge1)
        as (pushed & deg' & Hrun & Hl' & Hv' & Hnd & Hin).
      exists pushed, deg'. rewrite Hrun.
      split; [reflexivity |]. split; [exact Hl' |]. split.
      * intros w Hw. rewrite (Hv' w Hw), (Hdeg1 w Hw). simpl.
        destruct (Nat.eq_dec x w) as [Exw | Exw]; unfold d; try rewrite Exw; lia.
      * split; [exact Hnd |]. intros w. rewrite Hin. simpl. split.
        -- tauto.
        -- intros [[<- | H1] H2]; [| tauto]. split; auto.
           rewrite (Hv' x Hx), (Hdeg1 x Hx) in H2.
           destruct (Nat.eq_dec x x); [| congruence].
           apply count_occ_pos. lia.
Qed.

Lemma relax_relaxTo G ids st :
  fold_left (CSR.relax G) ids st
  = fold_left relaxTo (map (fun j => nth j (CSR.adjcny_out G) 0%nat) ids) st.
Proof.
  revert st. induction ids as [| j ids IH]; intros st; simpl; auto.
Qed.

Lemma NoDup_append {A} (l l' : list A) :
  NoDup l -> NoDup l' -> (forall x, In x l -> ~ In x l') -> NoDup (l ++ l').
Proof.
  induction 1 as [| a l Hnot Hnd IH]; intros Hl' Hdis; simpl; auto.
  constructor.
  - rewrite in_app_iff. intros [H | H]; [auto |].
    apply (Hdis a); simpl; auto.
  - apply IH; auto. intros x Hx. apply Hdis. simpl; auto.
Qed.

Lemma inCount_remove G U x w :
  NoDup U -> In x U ->
  inCount G U w
  = (count_occ Nat.eq_dec (CSR.outNbrs G x) w
     + inCount G (remove Nat.eq_dec x U) w)%nat.
Proof.
  intros Hnd Hin. unfold inCount.
  exact (list_sum_remove
           (fun u => count_occ Nat.eq_dec (CSR.outNbrs G u) w) x U Hnd Hin).
Qed.

Lemma inCount_zero G U w :
  inCount G U w = 0%nat <-> forall u, In u U -> ~ In w (CSR.outNbrs G u).
Proof.
  unfold inCount.
  rewrite (list_sum_zero
             (fun u => count_occ Nat.eq_dec (CSR.outNbrs G u) w) U).
  split; intros H u Hu.
  - apply (count_occ_not_In Nat.eq_dec). auto.
  - apply (count_occ_not_In Nat.eq_dec). auto.
Qed.

Lemma kahn_step_inv G U st pos :
  (forall v w, (v < CSR.numVertices G)%nat -> In w (CSR.outNbrs G v) ->
               (w < CSR.numVertices G)%nat) ->
  kahnInv G U st -> (pos < length (CSR.Q st))%nat ->
  kahnInv G (remove Nat.eq_dec (nth pos (CSR.Q st) 0%nat) U)
          (CSR.kahn_step G pos st).
Proof.
  intros Hout Hinv Hpos.
  destruct Hinv as (HndU & HU & Hcnt & Hlt & Hld & Hdeg & HndQ & HQ & Hdone
                    & Hinj & Hedge & Hzero).
  cbv zeta in *.
  set (n := CSR.numVertices G) in *.
  set (x := nth pos (CSR.Q st) 0%nat).
  set (U' := remove Nat.eq_dec x U).
  assert (HxQ : In x (CSR.Q st)) by (apply nth_In; exact Hpos).
  destruct (proj1 (HQ x) HxQ) as [HxU Hx0].
  assert (Hxn : (x < n)%nat) by auto.
  assert (Hsplit : forall w, inCount G U w
            = (count_occ Nat.eq_dec (CSR.outNbrs G x) w + inCount G U' w)%nat)
    by (intros w; now apply inCount_remove).
  assert (HU' : forall w, In w U' <-> In w U /\ w <> x)
    by (intros w; apply In_remove_iff).
  assert (Hinto : forall v, In x (CSR.outNbrs G v) -> ~ In v U).
  { intros v Hv HvU. apply (proj1 (inCount_zero G U x) Hx0 v HvU Hv). }
  unfold CSR.kahn_step. fold x. rewrite relax_relaxTo.
  change (map (fun j => nth j (CSR.adjcny_out G) 0%nat)
              (CSR.edgeIds (CSR.offsets_out G) x))
    with (CSR.outNbrs G x).
  destruct (erase_NoDup pos (CSR.Q st) Hpos HndQ) as [HndE HE]. fold x in HE.
  destruct (relaxTo_loop n (CSR.outNbrs G x) (CSR.erase pos (CSR.Q st))
                         (CSR.deg st) Hld)
    as (pushed & deg' & Hrun & Hld' & Hdeg' & HndP & HP).
  { intros w Hw. apply (Hout x w Hxn Hw). }
  { intros w Hw. rewrite (Hdeg w Hw), (Hsplit w). lia. }
  rewrite Hrun.
  unfold kahnInv.
  cbn [CSR.tmpOrder CSR.currentOrder CSR.Q CSR.deg]. fold n. fold U'.
  assert (Hdeg'' : forall w, (w < n)%nat ->
                     nth w deg' 0 = Z.of_nat (inCount G U' w)).
  { intros w Hw. rewrite (Hdeg' w Hw), (Hdeg w Hw), (Hsplit w). lia. }
  assert (Hset : forall v, v <> x ->
             nth v (list_set x (CSR.currentOrder st) (CSR.tmpOrder st)) 0%nat
             = nth v (CSR.tmpOrder st) 0%nat)
    by (intros v Hv; apply nth_list_set_other; auto).
  assert (Hsetx :
             nth x (list_set x (CSR.currentOrder st) (CSR.tmpOrder st)) 0%nat
             = CSR.currentOrder st)
    by (apply nth_list_set_same; lia).
  split; [now apply NoDup_remove_keep |].
  split; [intros u Hu; apply HU'  in Hu; apply HU; tauto |].
  split.
  { pose proof (NoDup_remove_length x U HndU HxU) as Hl. fold U' in Hl. lia. }
  split; [now rewrite list_set_length |].
  split; [exact Hld' |].
  split; [exact Hdeg'' |].
  split.
  { apply NoDup_append; auto. intros w Hw Hp.
    apply HE in Hw. destruct Hw as [Hw _]. apply HQ in Hw.
    destruct Hw as [_ Hw0]. apply HP in Hp. destruct Hp as [Hp _].
    apply count_occ_pos in Hp. specialize (Hsplit w). lia. }
  split.
  { intros w. rewrite in_app_iff, HE, HP, HU', HQ. split.
    - intros [[[Hw Hw0] Hne] | [Hw Hw0]].
      + split; [tauto |]. specialize (Hsplit w). lia.
      + assert (Hwn : (w < n)%nat) by (apply (Hout x w Hxn Hw)).
        rewrite (Hdeg'' w Hwn) in Hw0.
        assert (HwU : In w U).
        { destruct (in_dec Nat.eq_dec w U) as [Hi | Hi]; auto.
          exfalso. destruct (Hedge x w Hxn Hw Hi) as [Hc _]. auto. }
        assert (Hne : w <> x).
        { intros ->. apply (Hinto x Hw HxU). }
        split; [tauto | lia].
    - intros [[HwU Hne] Hw0].
      destruct (Nat.eq_dec (inCount G U w) 0) as [Hz | Hz].
      + left. tauto.
      + right. assert (Hwn : (w < n)%nat) by auto.
        rewrite (Hdeg'' w Hwn). split; [| lia].
        apply count_occ_pos. specialize (Hsplit w). lia. }
  split.
  { intros v Hv HvU'. destruct (Nat.eq_dec v x) as [-> | Hne].
    - rewrite Hsetx. lia.
    - rewrite (Hset v Hne).
      assert (HvU : ~ In v U) by (intros Hc; apply HvU'; apply HU'; tauto).
      specialize (Hdone v Hv HvU). lia. }
  split.
  { intros v v' Hv Hv' HvU' Hv'U' Heq.
    destruct (Nat.eq_dec v x) as [Ev | Nv], (Nat.eq_dec v' x) as [Ev' | Nv'].
    - congruence.
    - exfalso. subst v. rewrite Hsetx, (Hset v' Nv') in Heq.
      assert (H1 : ~ In v' U) by (intros Hc; apply Hv'U'; apply HU'; tauto).
      specialize (Hdone v' Hv' H1). lia.
    - exfalso. subst v'. rewrite Hsetx, (Hset v Nv) in Heq.
      assert (H1 : ~ In v U) by (intros Hc; apply HvU'; apply HU'; tauto).
      specialize (Hdone v Hv H1). lia.
    - rewrite (Hset v Nv), (Hset v' Nv') in Heq.
      apply Hinj; auto; intros Hc; [apply HvU' | apply Hv'U'];
        apply HU'; tauto. }
  split.
  { intros v w Hv Hw HwU'.
    destruct (Nat.eq_dec w x) as [-> | Hne].
    - pose proof (Hinto v Hw) as HvU.
      assert (Nv : v <> x) by (intros ->; auto).
      split; [intros Hc; apply HU' in Hc; tauto |].
      rewrite Hsetx, (Hset v Nv). apply Hdone; auto.
    - assert (HwU : ~ In w U) by (intros Hc; apply HwU'; apply HU'; tauto).
      destruct (Hedge v w Hv Hw HwU) as [HvU Hlt'].
      assert (Nv : v <> x) by (intros ->; auto).
      split; [intros Hc; apply HU' in Hc; tauto |].
      now rewrite (Hset v Nv), (Hset w Hne). }
  intros u Hu. apply HU' in Hu. destruct Hu as [Hu Hne].
  rewrite (Hset u Hne). now apply Hzero.
Qed.

Lemma kahn_loop_inv G select :
  (forall v w, (v < CSR.numVertices G)%nat -> In w (CSR.outNbrs G v) ->
               (w < CSR.numVertices G)%nat) ->
  validSelect select ->
  forall budget U st,
    kahnInv G U st -> (length U <= budget)%nat ->
    exists st' U',
      CSR.kahn_loop budget G select st = Ok st' /\
      kahnInv G U' st' /\ CSR.Q st' = [].
Proof.
  intros Hout Hsel. induction budget as [| budget IH]; intros U st Hinv Hlen.
  - destruct (CSR.Q st) as [| q Q'] eqn:EQ.
    + exists st, U. simpl. rewrite EQ. auto.
    + exfalso. destruct Hinv as (_ & _ & _ & _ & _ & _ & _ & HQ & _).
      destruct (proj1 (HQ q)) as [Hq _]; [rewrite EQ; simpl; auto |].
      destruct U; [contradiction | simpl in Hlen; lia].
  - destruct (CSR.Q st) as [| q Q'] eqn:EQ.
    + exists st, U. simpl. rewrite EQ. auto.
    + simpl. rewrite EQ. rewrite <- EQ.
      assert (Hpos : (select (CSR.Q st) < length (CSR.Q st))%nat)
        by (apply Hsel; rewrite EQ; discriminate).
      rewrite (proj2 (Nat.ltb_lt _ _) Hpos).
      pose proof (kahn_step_inv G U st _ Hout Hinv Hpos) as Hinv'.
      apply (IH _ _ Hinv').
      destruct Hinv as (HndU & _ & _ & _ & _ & _ & _ & HQ & _).
      assert (HxU : In (nth (select (CSR.Q st)) (CSR.Q st) 0%nat) U).
      { apply HQ. now apply nth_In. }
      pose proof (NoDup_remove_length _ U HndU HxU). lia.
Qed.

Lemma minimal_rank (rank : nat -> nat) (l : list nat) :
  l <> [] ->
  exists u, In u l /\ forall u', In u' l -> (rank u <= rank u')%nat.
Proof.
  induction l as [| a l IH]; intros Hne; [congruence |].
  destruct l as [| b l].
  - exists a. split; [simpl; auto |]. intros u' [<- | []]. lia.
  - destruct IH as (u & Hu & Hmin); [discriminate |].
    destruct (Nat.le_gt_cases (rank a) (rank u)) as [Hle | Hgt].
    + exists a. split; [simpl; auto |].
      intros u' [<- | Hu']; [lia |]. specialize (Hmin u' Hu'). lia.
    + exists u. split; [simpl; auto |].
      intros u' [<- | Hu']; [lia |]. now apply Hmin.
Qed.

Lemma kahn_initial G :
  consistent G ->
  kahnInv G (seq 0 (CSR.numVertices G))
          {| CSR.tmpOrder := repeat 0%nat (CSR.numVertices G);
             CSR.currentOrder := 0;
             CSR.Q := filter (fun i => nth i (inDegrees G) 0 =? 0)
                             (seq 0 (CSR.numVertices G));
             CSR.deg := inDegrees G |}.
Proof.
  intros [Hout Hdeg]. unfold kahnInv.
  cbn [CSR.tmpOrder CSR.currentOrder CSR.Q CSR.deg].
  split; [apply seq_NoDup |].
  split; [intros u Hu; apply in_seq in Hu; lia |].
  split; [rewrite length_seq; lia |].
  split; [apply repeat_length |].
  split; [unfold inDegrees; now rewrite length_map, length_seq |].
  split; [exact Hdeg |].
  split; [apply NoDup_filter, seq_NoDup |].
  split.
  { intros w. rewrite filter_In, in_seq. split.
    - intros [Hw Hz]. split; [exact Hw |]. apply Z.eqb_eq in Hz.
      rewrite Hdeg in Hz by lia. lia.
    - intros [Hw Hz]. split; [exact Hw |]. apply Z.eqb_eq.
      rewrite Hdeg by lia. lia. }
  split; [intros v Hv Hn; exfalso; apply Hn; apply in_seq; lia |].
  split; [intros v v' Hv _ Hn; exfalso; apply Hn; apply in_seq; lia |].
  split.
  { intros v w Hv Hw Hn. exfalso. apply Hn. apply in_seq.
    specialize (Hout v w Hv Hw). lia. }
  intros u _. apply nth_repeat.
Qed.

(** A run on a graph without a cycle numbers every vertex. *)
Lemma kahn_run_acyclic G select :
  consistent G -> acyclic G -> validSelect select ->
  exists order,
    CSR.kahn_run G select (inDegrees G) = Ok order /\
    topologicalOrder G order.
Proof.
  intros Hcons [rank Hrank] Hsel. pose proof Hcons as [Hout _].
  destruct (kahn_loop_inv G select Hout Hsel (CSR.numVertices G) _ _
              (kahn_initial G Hcons)) as (st & U & Hrun & Hinv & HQ).
  { now rewrite length_seq. }
  exists (CSR.tmpOrder st). unfold CSR.kahn_run. rewrite Hrun. simpl bind.
  split; [reflexivity |].
  destruct Hinv as (HndU & HU & Hcnt & Hlt & _ & _ & _ & HQ' & Hdone
                    & Hinj & Hedge & _).
  cbv zeta in *.
  assert (HUe : U = []).
  { destruct U as [| a U]; [reflexivity |]. exfalso.
    destruct (minimal_rank rank (a :: U)) as (u & Hu & Hmin);
      [discriminate |].
    assert (Hin : In u (CSR.Q st)).
    { apply HQ'. split; [exact Hu |]. apply inCount_zero.
      intros u' Hu' Hc. specialize (Hmin u' Hu').
      specialize (Hrank u' u (HU u' Hu') Hc). lia. }
    rewrite HQ in Hin. contradiction. }
  subst U. simpl in Hcnt.
  split; [exact Hlt |].
  split; [intros v Hv; specialize (Hdone v Hv (fun H => H)); lia |].
  split; [intros v v' Hv Hv'; apply Hinj; auto |].
  intros v w Hv Hw. now apply (Hedge v w Hv Hw).
Qed.

(** ** The container that [initEdges] builds is consistent *)

Lemma list_sum_add (f g : nat -> nat) l :
  list_sum (map (fun u => f u + g u)%nat l)
  = (list_sum (map f l) + list_sum (map g l))%nat.
Proof. induction l as [| a l IH]; simpl; lia. Qed.

Lemma list_sum_ext (f g : nat -> nat) l :
  (forall u, In u l -> f u = g u) -> list_sum (map f l) = list_sum (map g l).
Proof.
  induction l as [| a l IH]; intros H; simpl; auto.
  rewrite (H a) by (simpl; auto). rewrite IH; auto.
  intros; apply H; simpl; auto.
Qed.

Lemma list_sum_indicator k a len :
  list_sum (map (fun u => if (k =? u)%nat then 1 else 0)%nat (seq a len))
  = if ((a <=? k) && (k <? a + len))%nat then 1%nat else 0%nat.
Proof.
  revert a. induction len as [| len IH]; intros a; simpl.
  - destruct (Nat.leb_spec a k), (Nat.ltb_spec k (a + 0)); simpl; lia.
  - rewrite IH.
    destruct (Nat.eqb_spec k a), (Nat.leb_spec (S a) k),
      (Nat.ltb_spec k (S a + len)), (Nat.leb_spec a k),
      (Nat.ltb_spec k (a + S len)); simpl; lia.
Qed.

(** Counting the edges that enter [w] vertex by vertex. *)
Lemma count_by_source (l : list (nat * nat)) n w :
  (forall e, In e l -> (fst e < n)%nat) ->
  list_sum (map (fun u => count_occ Nat.eq_dec (map snd (edgesFrom l u)) w)
                (seq 0 n))
  = length (filter (fun e : nat * nat => (snd e =? w)%nat) l).
Proof.
  induction l as [| e l IH]; intros Hrange.
  - simpl. induction (seq 0 n) as [| a t IHt]; simpl; auto.
  - assert (He : (fst e < n)%nat) by (apply Hrange; simpl; auto).
    rewrite (list_sum_ext _
               (fun u => (if (fst e =? u)%nat
                          then (if (snd e =? w)%nat then 1 else 0)
                          else 0)
                         + count_occ Nat.eq_dec (map snd (edgesFrom l u)) w)%nat).
    + rewrite list_sum_add, IH by (intros; apply Hrange; simpl; auto).
      simpl filter. destruct (Nat.eqb_spec (snd e) w) as [Hw | Hw].
      * rewrite list_sum_indicator. simpl.
        rewrite (proj2 (Nat.ltb_lt _ _) He). simpl. lia.
      * rewrite (list_sum_ext _ (fun _ => 0%nat))
          by (intros u _; now destruct (fst e =? u)%nat).
        assert (Hz : forall t, list_sum (map (fun _ : nat => 0%nat) t) = 0%nat)
          by (induction t; simpl; auto).
        rewrite Hz. lia.
    + intros u _. unfold edgesFrom. simpl.
      destruct (Nat.eqb_spec (fst e) u) as [Hu | Hu]; simpl; auto.
      destruct (Nat.eq_dec (snd e) w) as [Hw | Hw],
        (Nat.eqb_spec (snd e) w); try lia; congruence.
Qed.

Lemma edgesFrom_swap_length E w :
  length (edgesFrom (map swapEdge E) w)
  = length (filter (fun e : nat * nat => (snd e =? w)%nat) E).
Proof.
  unfold edgesFrom. induction E as [| e E IH]; simpl; auto.
  destruct (snd e =? w)%nat; simpl; now rewrite IH.
Qed.

Lemma filter_perm_length {A} (f : A -> bool) l l' :
  Permutation l l' -> length (filter f l) = length (filter f l').
Proof.
  induction 1; simpl;
    repeat match goal with |- context [if ?c then _ else _] => destruct c end;
    simpl; congruence.
Qed.

Lemma initEdges_consistent G E G' :
  noEdgesYet G -> CSR.initEdges G E = Ok G' -> consistent G'.
Proof.
  intros Hfresh Hrun.
  destruct (initEdges_Ok G E G' Hrun)
    as (Hrange & Hn & _ & _ & _ & _ & Eoi & _).
  split.
  - rewrite Hn. intros v w Hv Hw.
    destruct (initEdges_adjacency G E G' v Hfresh Hrun Hv) as [Eo _].
    rewrite Eo in Hw. apply in_map_iff in Hw.
    destruct Hw as (e & <- & He). apply edgesFrom_In in He.
    destruct He as [He _]. apply -> sort_In in He.
    now destruct (Hrange e He).
  - rewrite Hn. intros w Hw. unfold inDegrees. rewrite Hn.
    rewrite nth_map_seq_gen by exact Hw.
    pose proof Hfresh as [Hin _].
    rewrite Eoi, Hin, fillAdjacency_spec by apply sort_keySorted.
    cbn [fst]. rewrite !nth_map_seq_gen by lia.
    replace (w + 1)%nat with (S w) by lia. rewrite edgesBelow_S.
    unfold inCount.
    rewrite (list_sum_ext _
               (fun u => count_occ Nat.eq_dec
                           (map snd (edgesFrom (PairSort.sort E) u)) w)).
    + rewrite count_by_source.
      * unfold edgesFrom at 1.
        rewrite <- (filter_perm_length _ _ _
                      (PairSort.Permuted_sort (map swapEdge (PairSort.sort E)))).
        fold (edgesFrom (map swapEdge (PairSort.sort E)) w).
        rewrite edgesFrom_swap_length. lia.
      * intros e He. apply -> sort_In in He. now destruct (Hrange e He).
    + intros u Hu. apply in_seq in Hu.
      destruct (initEdges_adjacency G E G' u Hfresh Hrun) as [Eo _]; [lia |].
      now rewrite Eo.
Qed.

(** ** The directed bandwidth *)

Lemma foldM_total {A B} (f : A -> B -> result A) (P : A -> Prop) l a :
  P a ->
  (forall a x, In x l -> P a -> exists a', f a x = Ok a' /\ P a') ->
  exists a', foldM f l a = Ok a' /\ P a'.
Proof.
  revert a. induction l as [| x l IH]; intros a Ha Hstep; simpl.
  - eauto.
  - destruct (Hstep a x (or_introl eq_refl) Ha) as (a1 & Ha1 & HP1).
    rewrite Ha1. simpl. apply IH; auto.
    intros a' x' Hx'. apply Hstep. simpl; auto.
Qed.

Lemma foldM_acc {X} (f : Z -> X -> result Z) (R : X -> Z -> Prop) l b0 b :
  (forall b x b', In x l -> f b x = Ok b' -> b <= b' /\ R x b') ->
  (forall x b b', R x b -> b <= b' -> R x b') ->
  foldM f l b0 = Ok b ->
  b0 <= b /\ forall x, In x l -> R x b.
Proof.
  intros Hstep Hmono. revert b0.
  induction l as [| x l IH]; intros b0 Hrun; simpl in Hrun.
  - inversion Hrun; subst. split; [lia | intros x []].
  - inv_bind Hrun as b1 Hb1.
    destruct (Hstep b0 x b1 (or_introl eq_refl) Hb1) as [Hle HR].
    destruct IH with (b0 := b1) as [Hle' Hall]; auto.
    { intros b2 x' b' Hx'. apply Hstep. simpl; auto. }
    split; [lia |]. intros x' [<- | Hx']; [| auto].
    apply (Hmono x b1 b); auto.
Qed.

Lemma size_t_small z : 0 <= z < 2 ^ 64 -> CSR.size_t z = z.
Proof. intros H. unfold CSR.size_t. now apply Z.mod_small. Qed.

Lemma edgeBandwidth_bound G vertexAt from_pos to_pos L :
  (forall k, (from_pos < k < to_pos)%nat ->
             1 <= CSR.seqLength G (vertexAt k) <= L) ->
  (from_pos < to_pos)%nat ->
  Z.of_nat to_pos * L < 2 ^ 64 -> 1 <= L ->
  Z.of_nat (to_pos - from_pos)
  <= CSR.edgeBandwidth G vertexAt from_pos to_pos
  <= Z.of_nat (to_pos - from_pos) * L.
Proof.
  intros Hlen Hlt Hbig HL. unfold CSR.edgeBandwidth.
  set (d := Z.of_nat (to_pos - from_pos)).
  assert (Hd : 1 <= d <= Z.of_nat to_pos) by (unfold d; lia).
  replace (Z.of_nat to_pos - Z.of_nat from_pos) with d by (unfold d; lia).
  rewrite size_t_small by nia.
  assert (Hgen : forall l acc j,
    (forall k, In k l -> 1 <= CSR.seqLength G (vertexAt k) <= L) ->
    d <= acc <= d + j * (L - 1) -> 0 <= j ->
    d + (j + Z.of_nat (length l)) * (L - 1) < 2 ^ 64 ->
    d <= fold_left (fun tmp_bandwidth k =>
                      CSR.size_t (tmp_bandwidth
                                  + CSR.size_t (CSR.seqLength G (vertexAt k) - 1)))
                   l acc
      <= d + (j + Z.of_nat (length l)) * (L - 1)).
  { induction l as [| k l IH]; intros acc j Hl Hacc Hj Hb.
    - simpl in *. lia.
    - simpl fold_left. specialize (Hl k (or_introl eq_refl)) as Hk.
      simpl length in Hb. rewrite Nat2Z.inj_succ in Hb.
      rewrite (size_t_small (CSR.seqLength G (vertexAt k) - 1)) by nia.
      rewrite size_t_small by nia.
      simpl length. rewrite Nat2Z.inj_succ.
      replace (j + Z.succ (Z.of_nat (length l)))
        with ((j + 1) + Z.of_nat (length l)) by lia.
      apply IH; try lia; try nia.
      intros k' Hk'. apply Hl. simpl; auto. }
  specialize (Hgen (seq (from_pos + 1) (to_pos - (from_pos + 1))) d 0).
  rewrite length_seq in Hgen.
  destruct Hgen as [H1 H2]; try lia; try nia.
  intros k Hk. apply in_seq in Hk. apply Hlen. lia.
Qed.

(** The loops of [directedBandwidth]: when they complete, every assertion
    has held and the result is at least the width of every edge. *)
Lemma bandwidthLoop_Ok G position vertexAt bw :
  CSR.bandwidthLoop G position vertexAt = Ok bw ->
  0 <= bw /\
  forall v j, (v < CSR.numVertices G)%nat ->
              In j (CSR.edgeIds (CSR.offsets_out G) v) ->
              (position v < position (nth j (CSR.adjcny_out G) 0))%nat /\
              CSR.edgeBandwidth G vertexAt (position v)
                                (position (nth j (CSR.adjcny_out G) 0%nat))
              <= bw.
Proof.
  unfold CSR.bandwidthLoop. intros Hrun.
  apply (foldM_acc _ (fun v b =>
           forall j, In j (CSR.edgeIds (CSR.offsets_out G) v) ->
             (position v < position (nth j (CSR.adjcny_out G) 0))%nat /\
             CSR.edgeBandwidth G vertexAt (position v)
                               (position (nth j (CSR.adjcny_out G) 0%nat))
             <= b)) in Hrun.
  - destruct Hrun as [H0 Hall]. split; [exact H0 |].
    intros v j Hv Hj. apply (Hall v); [apply in_seq; lia | exact Hj].
  - intros b v b' _ Hinner.
    apply (foldM_acc _ (fun j b =>
             (position v < position (nth j (CSR.adjcny_out G) 0))%nat /\
             CSR.edgeBandwidth G vertexAt (position v)
                               (position (nth j (CSR.adjcny_out G) 0%nat))
             <= b)) in Hinner; [exact Hinner | |].
    + intros b1 j b2 _ Hstep. inv_bind Hstep as u Hu.
      apply cassert_Ok in Hu. apply Nat.ltb_lt in Hu.
      inversion Hstep; subst; clear Hstep.
      destruct (Z.gtb_spec (CSR.edgeBandwidth G vertexAt (position v)
                  (position (nth j (CSR.adjcny_out G) 0%nat))) b1);
        split; try lia; split; auto; lia.
    + intros j b1 b2 [H1 H2] Hle. split; [exact H1 | lia].
  - intros v b1 b2 H Hle j Hj. destruct (H j Hj). split; [auto | lia].
Qed.

(** The loops complete when every edge leads to a later position. *)
Lemma bandwidthLoop_total G position vertexAt L :
  (forall v j, (v < CSR.numVertices G)%nat ->
               In j (CSR.edgeIds (CSR.offsets_out G) v) ->
               (position v < position (nth j (CSR.adjcny_out G) 0)
                < CSR.numVertices G)%nat) ->
  (forall k, (k < CSR.numVertices G)%nat ->
             1 <= CSR.seqLength G (vertexAt k) <= L) ->
  Z.of_nat (CSR.numVertices G) * L < 2 ^ 64 ->
  exists bw, CSR.bandwidthLoop G position vertexAt = Ok bw /\
             0 <= bw <= Z.of_nat (CSR.numVertices G) * L.
Proof.
  intros Hpos Hlen Hbig. unfold CSR.bandwidthLoop.
  set (n := CSR.numVertices G) in *.
  apply (foldM_total _ (fun b => 0 <= b <= Z.of_nat n * L)).
  { destruct (Nat.eq_dec n 0) as [-> | Hn]; [simpl; lia |].
    specialize (Hlen 0%nat ltac:(lia)). nia. }
  intros b v Hv Hb. apply in_seq in Hv.
  apply (foldM_total _ (fun b => 0 <= b <= Z.of_nat n * L)); [exact Hb |].
  intros b1 j Hj Hb1.
  destruct (Hpos v j ltac:(lia) Hj) as [Hlt Hto].
  rewrite (proj2 (Nat.ltb_lt _ _) Hlt). simpl bind.
  eexists. split; [reflexivity |].
  assert (HL : 1 <= L) by (specialize (Hlen 0%nat ltac:(lia)); lia).
  pose proof (edgeBandwidth_bound G vertexAt (position v)
                (position (nth j (CSR.adjcny_out G) 0%nat)) L) as Hbound.
  destruct Hbound as [H1 H2]; auto.
  - intros k Hk. apply Hlen. lia.
  - nia.
  - destruct (Z.gtb_spec (CSR.edgeBandwidth G vertexAt (position v)
                (position (nth j (CSR.adjcny_out G) 0%nat))) b1); [| lia].
    split; [lia | nia].
Qed.

(** ** [topologicalSort] *)

Lemma reverseOf_spec n order :
  length (CSR.reverseOf n order) = n /\
  (forall p, (p < n)%nat -> (nth p (CSR.reverseOf n order) 0 < n)%nat) /\
  ((forall v v', (v < n)%nat -> (v' < n)%nat ->
                 nth v order 0%nat = nth v' order 0%nat -> v = v') ->
   forall v, (v < n)%nat -> (nth v order 0 < n)%nat ->
             nth (nth v order 0%nat) (CSR.reverseOf n order) 0%nat = v).
Proof.
  unfold CSR.reverseOf.
  assert (Hgen : forall k, (k <= n)%nat ->
    let r := fold_left (fun reverseOrder i =>
                          list_set (nth i order 0%nat) i reverseOrder)
                       (seq 0 k) (repeat 0%nat n) in
    length r = n /\
    (forall p, (p < n)%nat -> (nth p r 0 < n)%nat) /\
    ((forall v v', (v < n)%nat -> (v' < n)%nat ->
                   nth v order 0%nat = nth v' order 0%nat -> v = v') ->
     forall v, (v < k)%nat -> (nth v order 0 < n)%nat ->
               nth (nth v order 0%nat) r 0%nat = v)).
  { induction k as [| k IH]; intros Hk; cbv zeta.
    - simpl. split; [apply repeat_length |]. split.
      + intros p Hp. rewrite nth_repeat. lia.
      + intros _ v Hv. lia.
    - rewrite seq_S, fold_left_app. cbn [fold_left Nat.add].
      destruct IH as (Hl & Hr & Hinv); [lia |].
      set (r := fold_left _ (seq 0 k) _) in *.
      split; [now rewrite list_set_length |]. split.
      + intros p Hp. rewrite nth_list_set.
        destruct (_ && _)%bool; [lia | auto].
      + intros Hinj v Hv Hvn. rewrite nth_list_set.
        destruct (Nat.eq_dec v k) as [-> | Hne].
        * rewrite Nat.eqb_refl, Hl. simpl.
          now rewrite (proj2 (Nat.ltb_lt _ _) Hvn).
        * destruct (Nat.eqb_spec (nth v order 0%nat) (nth k order 0%nat))
            as [E | E].
          -- exfalso. apply Hne. apply Hinj; auto; lia.
          -- simpl. apply Hinv; auto. lia. }
  exact (Hgen n (Nat.le_refl n)).
Qed.

Lemma edgeId_nbr G v j :
  In j (CSR.edgeIds (CSR.offsets_out G) v) ->
  In (nth j (CSR.adjcny_out G) 0%nat) (CSR.outNbrs G v).
Proof.
  intros Hj. unfold CSR.outNbrs, adjRange.
  apply in_map_iff. exists j. split; [reflexivity | exact Hj].
Qed.

Lemma nbr_edgeId G v w :
  In w (CSR.outNbrs G v) ->
  exists j, In j (CSR.edgeIds (CSR.offsets_out G) v) /\
            w = nth j (CSR.adjcny_out G) 0%nat.
Proof.
  unfold CSR.outNbrs, adjRange. intros Hw. apply in_map_iff in Hw.
  destruct Hw as (j & <- & Hj). eauto.
Qed.

(** [directedBandwidth(order)] completes for a topological order. *)
Lemma directedBandwidthOf_total G order L :
  consistent G -> topologicalOrder G order -> seqBound G L ->
  Z.of_nat (CSR.numVertices G) * L < 2 ^ 64 ->
  exists bw, CSR.directedBandwidthOf G order = Ok bw /\
             0 <= bw <= Z.of_nat (CSR.numVertices G) * L.
Proof.
  intros [Hout _] (Hlen & Hrange & Hinj & Hedge) Hseq Hbig.
  unfold CSR.directedBandwidthOf. rewrite Hlen, Nat.eqb_refl. simpl bind.
  apply bandwidthLoop_total; auto.
  - intros v j Hv Hj. apply edgeId_nbr in Hj. split; [now apply Hedge |].
    apply Hrange. now apply (Hout v).
  - intros k Hk. apply Hseq.
    now apply (proj1 (proj2 (reverseOf_spec (CSR.numVertices G) order))).
Qed.

(** When it completes, every edge leads to a later position. *)
Lemma directedBandwidthOf_Ok G order bw :
  CSR.directedBandwidthOf G order = Ok bw ->
  length order = CSR.numVertices G /\
  forall v w, (v < CSR.numVertices G)%nat -> In w (CSR.outNbrs G v) ->
              (nth v order 0 < nth w order 0)%nat.
Proof.
  unfold CSR.directedBandwidthOf. intros Hrun. inv_bind Hrun as u Hu.
  apply cassert_Ok in Hu. apply Nat.eqb_eq in Hu. split; [exact Hu |].
  apply bandwidthLoop_Ok in Hrun. destruct Hrun as [_ Hall].
  intros v w Hv Hw. destruct (nbr_edgeId G v w Hw) as (j & Hj & ->).
  now destruct (Hall v j Hv Hj).
Qed.

Lemma directedBandwidthOf_assertOnly G order :
  assertOnly (CSR.directedBandwidthOf G order).
Proof.
  unfold CSR.directedBandwidthOf, CSR.bandwidthLoop.
  apply bind_assertOnly; [apply cassert_assertOnly | intros _].
  apply foldM_assertOnly. intros b v. apply foldM_assertOnly. intros b' j.
  apply bind_assertOnly; [apply cassert_assertOnly | intros _].
  apply Ok_assertOnly.
Qed.

Lemma kahnInv_final G st :
  kahnInv G [] st -> topologicalOrder G (CSR.tmpOrder st).
Proof.
  intros (_ & _ & Hcnt & Hlt & _ & _ & _ & _ & Hdone & Hinj & Hedge & _).
  cbv zeta in *. simpl in Hcnt.
  split; [exact Hlt |].
  split; [intros v Hv; specialize (Hdone v Hv (fun H => H)); lia |].
  split; [intros v v' Hv Hv'; apply Hinj; auto |].
  intros v w Hv Hw. now apply (Hedge v w Hv Hw).
Qed.

(** A run of Kahn's algorithm completes whatever the graph is. *)
Lemma kahn_run_total G select :
  consistent G -> validSelect select ->
  exists st U,
    CSR.kahn_run G select (inDegrees G) = Ok (CSR.tmpOrder st) /\
    kahnInv G U st /\ CSR.Q st = [].
Proof.
  intros Hcons Hsel. pose proof Hcons as [Hout _].
  destruct (kahn_loop_inv G select Hout Hsel (CSR.numVertices G) _ _
              (kahn_initial G Hcons)) as (st & U & Hrun & Hinv & HQ).
  { now rewrite length_seq. }
  exists st, U. unfold CSR.kahn_run. rewrite Hrun. auto.
Qed.

Lemma list_sum_pos (f : nat -> nat) U :
  list_sum (map f U) <> 0%nat -> exists u, In u U /\ f u <> 0%nat.
Proof.
  induction U as [| a U IH]; simpl; [congruence |]. intros H.
  destruct (Nat.eq_dec (f a) 0) as [Ha | Ha].
  - destruct IH as (u & Hu & Hf); [lia |]. exists u. auto.
  - exists a. auto.
Qed.

(** A run whose order passes [directedBandwidth] has numbered all the
    vertices. *)
Lemma kahn_run_sound G select order bw :
  consistent G -> validSelect select ->
  CSR.kahn_run G select (inDegrees G) = Ok order ->
  CSR.directedBandwidthOf G order = Ok bw ->
  topologicalOrder G order.
Proof.
  intros Hcons Hsel Hrun Hbw.
  destruct (kahn_run_total G select Hcons Hsel) as (st & U & Hrun' & Hinv & HQ).
  rewrite Hrun in Hrun'. inversion Hrun'; subst order; clear Hrun'.
  destruct (directedBandwidthOf_Ok G _ bw Hbw) as [_ Hinc].
  assert (HU : U = []).
  { destruct U as [| a U]; [reflexivity |]. exfalso.
    destruct Hinv as (_ & HUn & _ & _ & _ & _ & _ & HQ' & _ & _ & _ & Hzero).
    cbv zeta in *.
    assert (Hnz : inCount G (a :: U) a <> 0%nat).
    { intros Hz. assert (Hin : In a (CSR.Q st))
        by (apply HQ'; split; [simpl; auto | exact Hz]).
      rewrite HQ in Hin. contradiction. }
    unfold inCount in Hnz. apply list_sum_pos in Hnz.
    destruct Hnz as (u & Hu & Hc).
    assert (Hau : In a (CSR.outNbrs G u)).
    { apply (count_occ_In Nat.eq_dec). lia. }
    specialize (Hinc u a (HUn u Hu) Hau).
    rewrite (Hzero u Hu), (Hzero a (or_introl eq_refl)) in Hinc. lia. }
  subst U. now apply kahnInv_final.
Qed.

Lemma topologicalOrder_acyclic G order :
  topologicalOrder G order -> acyclic G.
Proof.
  intros (_ & _ & _ & Hedge). exists (fun v => nth v order 0%nat). exact Hedge.
Qed.

(** One iteration of the loop over the runs. *)
Lemma topologicalSort_run G select L minbandwidth finalOrder r :
  consistent G -> validSelect select -> seqBound G L ->
  Z.of_nat (CSR.numVertices G) * L < 2 ^ 31 - 1 ->
  (tmpOrder <- CSR.kahn_run G select (inDegrees G) ;;
   currentBandwidth <- CSR.directedBandwidthOf G tmpOrder ;;
   if minbandwidth >? currentBandwidth
   then Ok (currentBandwidth, tmpOrder)
   else Ok (minbandwidth, finalOrder)) = Ok r ->
  (fst r = minbandwidth /\ snd r = finalOrder /\
   minbandwidth <= Z.of_nat (CSR.numVertices G) * L) \/
  (fst r < minbandwidth /\ topologicalOrder G (snd r)).
Proof.
  intros Hcons Hsel Hseq Hbig Hrun.
  inv_bind Hrun as tmpOrder Hk. inv_bind Hrun as bw Hbw.
  pose proof (kahn_run_sound G select tmpOrder bw Hcons Hsel Hk Hbw) as Htop.
  destruct (directedBandwidthOf_total G tmpOrder L Hcons Htop Hseq)
    as (bw' & Hbw' & Hb); [lia |].
  rewrite Hbw in Hbw'. inversion Hbw'; subst bw'; clear Hbw'.
  destruct (Z.gtb_spec minbandwidth bw) as [Hgt | Hle];
    inversion Hrun; subst r; cbn [fst snd]; [right | left]; auto.
  repeat split; auto. lia.
Qed.

(** The order that [topologicalSort] returns. *)
Lemma topologicalSort_order G select runs finalOrder L order :
  consistent G -> (forall i, validSelect (select i)) ->
  seqBound G L -> Z.of_nat (CSR.numVertices G) * L < 2 ^ 31 - 1 ->
  CSR.topologicalSort G select runs finalOrder = Ok order ->
  topologicalOrder G order.
Proof.
  intros Hcons Hsel Hseq Hbig Hrun. unfold CSR.topologicalSort in Hrun.
  inv_bind Hrun as u1 Hu1. inv_bind Hrun as u2 Hu2.
  apply cassert_Ok in Hu2. apply Nat.ltb_lt in Hu2.
  fold (inDegrees G) in Hrun.
  inv_bind Hrun as r Hr. inversion Hrun; subst order; clear Hrun.
  destruct runs as [| runs]; [lia |].
  change (seq 0 (S runs)) with (0%nat :: seq 1 runs) in Hr.
  simpl foldM in Hr. inv_bind Hr as r1 Hr1.
  destruct (topologicalSort_run G (select 0%nat) L _ _ r1 Hcons (Hsel 0%nat)
              Hseq Hbig Hr1) as [(_ & _ & Hc) | [Hlt Htop]]; [lia |].
  revert Hr.
  apply (foldM_inv _ (fun a => fst a < 2 ^ 31 - 1
                               /\ topologicalOrder G (snd a))).
  - auto.
  - intros [mb fo] i r2 [Hmb Hfo] Hstep. cbn [fst snd] in *.
    destruct (topologicalSort_run G (select i) L mb fo r2 Hcons (Hsel i)
                Hseq Hbig Hstep) as [(E1 & E2 & _) | [Hlt' Htop']].
    + rewrite E1, E2. auto.
    + split; [lia | exact Htop'].
Qed.

Lemma topologicalSort_assertOnly G select runs finalOrder :
  consistent G -> (forall i, validSelect (select i)) ->
  assertOnly (CSR.topologicalSort G select runs finalOrder).
Proof.
  intros Hcons Hsel. unfold CSR.topologicalSort.
  apply bind_assertOnly; [apply cassert_assertOnly | intros _].
  apply bind_assertOnly; [apply cassert_assertOnly | intros _].
  fold (inDegrees G).
  apply bind_assertOnly; [| intros; apply Ok_assertOnly].
  apply foldM_assertOnly. intros [mb fo] i.
  destruct (kahn_run_total G (select i) Hcons (Hsel i))
    as (st & U & Hrun & _). rewrite Hrun. simpl bind.
  apply bind_assertOnly; [apply directedBandwidthOf_assertOnly |].
  intros bw. destruct (_ >? _); apply Ok_assertOnly.
Qed.

(** Whether [topologicalSort] completes. *)
Lemma topologicalSort_cases G select runs finalOrder L :
  consistent G -> (forall i, validSelect (select i)) ->
  seqBound G L -> Z.of_nat (CSR.numVertices G) * L < 2 ^ 31 - 1 ->
  length finalOrder = CSR.numVertices G -> (0 < runs)%nat ->
  (acyclic G ->
   exists order, CSR.topologicalSort G select runs finalOrder = Ok order) /\
  (~ acyclic G ->
   CSR.topologicalSort G select runs finalOrder = Err AssertionFailed).
Proof.
  intros Hcons Hsel Hseq Hbig Hlen Hruns. split.
  - intros Hacyc. unfold CSR.topologicalSort.
    rewrite Hlen, Nat.eqb_refl, (proj2 (Nat.ltb_lt _ _) Hruns). simpl bind.
    fold (inDegrees G).
    match goal with
    | |- context [foldM ?f ?l ?a] =>
        destruct (foldM_total f (fun _ => True) l a I) as (r & Hr & _)
    end.
    + intros [mb fo] i _ _.
      destruct (kahn_run_acyclic G (select i) Hcons Hacyc (Hsel i))
        as (ord & Hk & Htop).
      rewrite Hk. simpl bind.
      destruct (directedBandwidthOf_total G ord L Hcons Htop Hseq)
        as (bw & Hbw & _); [lia |].
      rewrite Hbw. simpl bind. destruct (mb >? bw); eauto.
    + rewrite Hr. simpl. eauto.
  - intros Hcyc.
    destruct (CSR.topologicalSort G select runs finalOrder)
      as [order | e] eqn:Hrun.
    + exfalso. apply Hcyc. apply (topologicalOrder_acyclic G order).
      now apply (topologicalSort_order G select runs finalOrder L).
    + now rewrite (topologicalSort_assertOnly G select runs finalOrder
                     Hcons Hsel e Hrun).
Qed.

Lemma initEdges_out_iff G E G' u v :
  noEdgesYet G -> CSR.initEdges G E = Ok G' ->
  (u < CSR.numVertices G')%nat ->
  (In v (CSR.outNbrs G' u) <-> In (u, v) E).
Proof.
  intros Hfresh Hrun Hu.
  destruct (initEdges_Ok G E G' Hrun) as (_ & Hn & _).
  rewrite Hn in Hu.
  destruct (initEdges_adjacency G E G' u Hfresh Hrun Hu) as [-> _].
  rewrite in_map_iff. split.
  - intros ([a c] & Hc & He). simpl in Hc. subst c.
    apply edgesFrom_In in He. destruct He as [He Ha].
    simpl in Ha. subst a. apply -> sort_In in He. exact He.
  - intros He. exists (u, v). split; [reflexivity |].
    apply edgesFrom_In. split; [now apply <- sort_In | reflexivity].
Qed.

Lemma initEdges_acyclic G E G' (rank : nat -> nat) :
  noEdgesYet G -> CSR.initEdges G E = Ok G' ->
  (forall e, In e E -> (rank (fst e) < rank (snd e))%nat) ->
  acyclic G'.
Proof.
  intros Hfresh Hrun Hrank. exists rank. intros v w Hv Hw.
  apply (initEdges_out_iff G E G' v w Hfresh Hrun Hv) in Hw.
  exact (Hrank (v, w) Hw).
Qed.

Lemma initEdges_seqBound G E G' L :
  CSR.initEdges G E = Ok G' -> seqBound G L -> seqBound G' L.
Proof.
  intros Hrun Hb. destruct (initEdges_Ok G E G' Hrun) as (_ & Hn & _ & Hm & _).
  unfold seqBound, CSR.seqLength in *. rewrite Hn, Hm. exact Hb.
Qed.

Lemma fourVertices_seqBound : seqBound fourVertices 3.
Proof.
  intros v Hv. unfold CSR.seqLength.
  destruct v as [| [| [| [| v]]]]; simpl in *; lia.
Qed.

Lemma select_first_valid : validSelect (fun _ => 0%nat).
Proof. intros [| q Q] HQ; [congruence | simpl; lia]. Qed.

(** One run of Kahn's algorithm in [topologicalSort].  When the two
    adjacency structures of the container agree, the run completes within
    its [numVertices] iterations whatever elements [random::select] picks;
    the order it returns numbers the vertices topologically exactly when
    the graph has no cycle. *)
Theorem kahn_run_topological G select :
  consistent G -> validSelect select ->
  exists order,
    CSR.kahn_run G select (inDegrees G) = Ok order /\
    (acyclic G <-> topologicalOrder G order).
Proof.
  intros Hcons Hsel.
  destruct (kahn_run_total G select Hcons Hsel) as (st & U & Hrun & _).
  exists (CSR.tmpOrder st). split; [exact Hrun |]. split.
  - intros Hacyc.
    destruct (kahn_run_acyclic G select Hcons Hacyc Hsel)
      as (order & Hrun' & Htop).
    rewrite Hrun in Hrun'. inversion Hrun' as [E]. now rewrite E.
  - apply topologicalOrder_acyclic.
Qed.

Lemma kahn_run_topological_witness :
  exists G order,
    CSR.initEdges fourVertices diamondEdges = Ok G /\
    CSR.kahn_run G (fun _ => 0%nat) (inDegrees G) = Ok order /\
    (acyclic G <-> topologicalOrder G order).
Proof.
  assert (Hrun : exists G, CSR.initEdges fourVertices diamondEdges = Ok G)
    by (eexists; vm_compute; reflexivity).
  destruct Hrun as [G Hrun]. exists G.
  assert (Hfresh : noEdgesYet fourVertices) by (split; reflexivity).
  destruct (kahn_run_topological G (fun _ => 0%nat)
              (initEdges_consistent _ _ _ Hfresh Hrun)
              select_first_valid) as (order & Hk & Htop).
  exists order. auto.
Defined.

(** [topologicalSort] on a container whose two adjacency structures
    agree, whose vertices all have a sequence and whose total width is
    less than [INT_MAX], with an order vector of the right size and at
    least one run.  When the graph has no cycle it completes, and the
    order it leaves in [finalOrder] is a bijection from the vertices to
    the positions along which every edge leads forward; when the graph has
    a cycle it stops on an assertion. *)
Theorem topologicalSort_completes G select runs finalOrder L :
  consistent G -> (forall i, validSelect (select i)) ->
  seqBound G L -> Z.of_nat (CSR.numVertices G) * L < 2 ^ 31 - 1 ->
  length finalOrder = CSR.numVertices G -> (0 < runs)%nat ->
  (acyclic G ->
   exists order, CSR.topologicalSort G select runs finalOrder = Ok order /\
                 topologicalOrder G order) /\
  (~ acyclic G ->
   CSR.topologicalSort G select runs finalOrder = Err AssertionFailed).
Proof.
  intros Hcons Hsel Hseq Hbig Hlen Hruns.
  destruct (topologicalSort_cases G select runs finalOrder L Hcons Hsel Hseq
              Hbig Hlen Hruns) as [Hok Hfail].
  split; [| exact Hfail].
  intros Hacyc. destruct (Hok Hacyc) as [order Hrun].
  exists order. split; [exact Hrun |].
  exact (topologicalSort_order G select runs finalOrder L order Hcons Hsel
           Hseq Hbig Hrun).
Qed.

Lemma diamond_acyclic G :
  CSR.initEdges fourVertices diamondEdges = Ok G -> acyclic G.
Proof.
  intros Hrun.
  apply (initEdges_acyclic fourVertices diamondEdges G (fun v => 4 - v)%nat);
    [split; reflexivity | exact Hrun |].
  intros e He. simpl in He.
  repeat destruct He as [<- | He]; simpl; try lia.
Qed.

Lemma cycle_not_acyclic G :
  CSR.initEdges fourVertices cycleEdges = Ok G -> ~ acyclic G.
Proof.
  intros Hrun [rank Hrank].
  assert (Hfresh : noEdgesYet fourVertices) by (split; reflexivity).
  assert (Hn : CSR.numVertices G = 4%nat).
  { now destruct (initEdges_Ok _ _ _ Hrun) as (_ & -> & _). }
  assert (H12 : In 2%nat (CSR.outNbrs G 1))
    by (apply (initEdges_out_iff fourVertices cycleEdges G 1 2 Hfresh Hrun);
        [lia | simpl; auto]).
  assert (H21 : In 1%nat (CSR.outNbrs G 2))
    by (apply (initEdges_out_iff fourVertices cycleEdges G 2 1 Hfresh Hrun);
        [lia | simpl; auto]).
  pose proof (Hrank 1%nat 2%nat ltac:(lia) H12).
  pose proof (Hrank 2%nat 1%nat ltac:(lia) H21). lia.
Qed.

Lemma fourVertices_initEdges E G :
  CSR.initEdges fourVertices E = Ok G ->
  consistent G /\ seqBound G 3 /\ CSR.numVertices G = 4%nat.
Proof.
  intros Hrun. split; [| split].
  - apply (initEdges_consistent fourVertices E G); [split; reflexivity | auto].
  - exact (initEdges_seqBound _ _ _ _ Hrun fourVertices_seqBound).
  - now destruct (initEdges_Ok _ _ _ Hrun) as (_ & -> & _).
Qed.

Lemma topologicalSort_completes_witness :
  (exists G order,
      CSR.initEdges fourVertices diamondEdges = Ok G /\
      CSR.topologicalSort G (fun _ _ => 0%nat) 5 (repeat 0%nat 4) = Ok order /\
      topologicalOrder G order) /\
  (exists G,
      CSR.initEdges fourVertices cycleEdges = Ok G /\
      CSR.topologicalSort G (fun _ _ => 0%nat) 5 (repeat 0%nat 4)
      = Err AssertionFailed).
Proof.
  split.
  - assert (Hrun : exists G, CSR.initEdges fourVertices diamondEdges = Ok G)
      by (eexists; vm_compute; reflexivity).
    destruct Hrun as [G Hrun]. exists G.
    destruct (fourVertices_initEdges _ _ Hrun) as (Hcons & Hseq & Hn).
    destruct (topologicalSort_completes G (fun _ _ => 0%nat) 5
                (repeat 0%nat 4) 3 Hcons (fun _ => select_first_valid) Hseq)
      as [Hok _].
    + rewrite Hn. vm_compute. reflexivity.
    + rewrite Hn. reflexivity.
    + lia.
    + destruct (Hok (diamond_acyclic G Hrun)) as (order & Hsort & Htop).
      exists order. auto.
  - assert (Hrun : exists G, CSR.initEdges fourVertices cycleEdges = Ok G)
      by (eexists; vm_compute; reflexivity).
    destruct Hrun as [G Hrun]. exists G. split; [exact Hrun |].
    destruct (fourVertices_initEdges _ _ Hrun) as (Hcons & Hseq & Hn).
    destruct (topologicalSort_completes G (fun _ _ => 0%nat) 5
                (repeat 0%nat 4) 3 Hcons (fun _ => select_first_valid) Hseq)
      as [_ Hfail].
    + rewrite Hn. vm_compute. reflexivity.
    + rewrite Hn. reflexivity.
    + lia.
    + exact (Hfail (cycle_not_acyclic G Hrun)).
Defined.

(** ** The relabelling of [sort()] *)

Lemma order_onto n (order : list nat) :
  (forall v, (v < n)%nat -> (nth v order 0 < n)%nat) ->
  (forall v v', (v < n)%nat -> (v' < n)%nat ->
                nth v order 0%nat = nth v' order 0%nat -> v = v') ->
  forall p, (p < n)%nat -> exists v, (v < n)%nat /\ nth v order 0%nat = p.
Proof.
  intros Hrange Hinj p Hp.
  set (l := map (fun v => nth v order 0%nat) (seq 0 n)).
  assert (Hnd : NoDup l).
  { apply NoDup_map_NoDup_ForallPairs; [| apply seq_NoDup].
    intros v v' Hv Hv' E. apply in_seq in Hv, Hv'. apply Hinj; auto; lia. }
  assert (Hincl : incl l (seq 0 n)).
  { intros x Hx. apply in_map_iff in Hx. destruct Hx as (v & <- & Hv).
    apply in_seq in Hv. apply in_seq. specialize (Hrange v). lia. }
  assert (Hback : incl (seq 0 n) l).
  { apply NoDup_length_incl; auto. unfold l.
    rewrite length_map. lia. }
  assert (Hin : In p l) by (apply Hback; apply in_seq; lia).
  apply in_map_iff in Hin. destruct Hin as (v & Hv & Hvn).
  apply in_seq in Hvn. exists v. split; [lia | exact Hv].
Qed.

(** [rOrder] is the inverse of a bijective [order]. *)
Lemma rOrder_spec n (order : list nat) :
  (forall v, (v < n)%nat -> (nth v order 0 < n)%nat) ->
  (forall v v', (v < n)%nat -> (v' < n)%nat ->
                nth v order 0%nat = nth v' order 0%nat -> v = v') ->
  (forall v, (v < n)%nat ->
             nth (nth v order 0%nat) (CSR.reverseOf n order) 0%nat = v) /\
  (forall p, (p < n)%nat ->
             (nth p (CSR.reverseOf n order) 0 < n)%nat /\
             nth (nth p (CSR.reverseOf n order) 0%nat) order 0%nat = p).
Proof.
  intros Hrange Hinj.
  destruct (reverseOf_spec n order) as (_ & Hr & Hinv).
  specialize (Hinv Hinj).
  split; [intros v Hv; apply Hinv; auto |].
  intros p Hp. split; [now apply Hr |].
  destruct (order_onto n order Hrange Hinj p Hp) as (v & Hv & <-).
  rewrite Hinv; auto.
Qed.

Lemma rOrder_perm n (order : list nat) :
  (forall v, (v < n)%nat -> (nth v order 0 < n)%nat) ->
  (forall v v', (v < n)%nat -> (v' < n)%nat ->
                nth v order 0%nat = nth v' order 0%nat -> v = v') ->
  Permutation (map (fun i => nth i (CSR.reverseOf n order) 0%nat) (seq 0 n))
              (seq 0 n).
Proof.
  intros Hrange Hinj.
  destruct (rOrder_spec n order Hrange Hinj) as [Hro Hor].
  apply NoDup_Permutation.
  - apply NoDup_map_NoDup_ForallPairs; [| apply seq_NoDup].
    intros i i' Hi Hi' E. apply in_seq in Hi, Hi'.
    destruct (Hor i ltac:(lia)) as [_ <-].
    destruct (Hor i' ltac:(lia)) as [_ <-]. now rewrite E.
  - apply seq_NoDup.
  - intros x. rewrite in_map_iff, in_seq. split.
    + intros (i & <- & Hi). apply in_seq in Hi.
      destruct (Hor i ltac:(lia)). lia.
    + intros Hx. exists (nth x order 0%nat). split.
      * apply Hro. lia.
      * apply in_seq. specialize (Hrange x). lia.
Qed.

Lemma list_sum_perm l l' : Permutation l l' -> list_sum l = list_sum l'.
Proof. induction 1; simpl; lia. Qed.

Lemma prefixSum_S deg i : prefixSum deg (S i) = (prefixSum deg i + deg i)%nat.
Proof.
  unfold prefixSum. rewrite seq_S, map_app, list_sum_app. simpl. lia.
Qed.

Lemma prefixSum_mono deg j k :
  (j <= k)%nat -> (prefixSum deg j <= prefixSum deg k)%nat.
Proof.
  induction 1; [lia |]. rewrite prefixSum_S. lia.
Qed.

Lemma prefixSum_ext deg deg' i :
  (forall k, (k < i)%nat -> deg k = deg' k) ->
  prefixSum deg i = prefixSum deg' i.
Proof.
  intros H. unfold prefixSum. f_equal. apply map_ext_in.
  intros k Hk. apply in_seq in Hk. apply H. lia.
Qed.

(** The loop that computes the new offsets. *)
Lemma offsetsNew_spec (deg : nat -> nat) n :
  fold_left (fun new i => list_set (i + 1) (nth i new 0 + deg i)%nat new)
            (seq 0 n) (repeat 0%nat (n + 1))
  = map (prefixSum deg) (seq 0 (n + 1)).
Proof.
  assert (Hgen : forall k, (k <= n)%nat ->
    let new := fold_left (fun new i =>
                 list_set (i + 1) (nth i new 0 + deg i)%nat new)
                 (seq 0 k) (repeat 0%nat (n + 1)) in
    length new = (n + 1)%nat /\
    (forall i, (i <= k)%nat -> nth i new 0%nat = prefixSum deg i) /\
    (forall i, (k < i)%nat -> nth i new 0%nat = 0%nat)).
  { induction k as [| k IH]; intros Hk; cbv zeta.
    - simpl. rewrite repeat_length. split; [reflexivity |]. split.
      + intros i Hi. replace i with 0%nat by lia. now rewrite nth_repeat.
      + intros i _. apply nth_repeat.
    - rewrite seq_S, fold_left_app. simpl.
      destruct (IH ltac:(lia)) as (Hlen & Hle & Hgt).
      set (new := fold_left _ (seq 0 k) _) in *.
      rewrite list_set_length. split; [exact Hlen |]. split.
      + intros i Hi. rewrite nth_list_set.
        destruct (Nat.eqb_spec i (k + 1)) as [-> | Hne]; simpl.
        * rewrite Hlen. destruct (Nat.ltb_spec (k + 1) (n + 1)); [| lia].
          rewrite Hle by lia. replace (k + 1)%nat with (S k) by lia.
          now rewrite prefixSum_S.
        * apply Hle. lia.
      + intros i Hi. rewrite nth_list_set.
        destruct (Nat.eqb_spec i (k + 1)) as [-> | Hne]; [lia |].
        simpl. apply Hgt. lia. }
  destruct (Hgen n (le_n n)) as (Hlen & Hle & _).
  apply (nth_ext _ _ 0%nat 0%nat).
  - now rewrite Hlen, length_map, length_seq.
  - intros i Hi. rewrite Hlen in Hi.
    rewrite nth_map_seq_gen by lia. apply Hle. lia.
Qed.

(** The range of a position in the new adjacency vector. *)
Lemma adjRange_flat_map (block : nat -> list nat) (deg : nat -> nat) n i :
  (forall k, length (block k) = deg k) -> (i < n)%nat ->
  adjRange (map (prefixSum deg) (seq 0 (n + 1))) (flat_map block (seq 0 n)) i
  = block i.
Proof.
  intros Hdeg Hi. unfold adjRange.
  rewrite !nth_map_seq_gen by lia.
  replace (i + 1)%nat with (S i) by lia. rewrite prefixSum_S.
  replace (prefixSum deg i + deg i - prefixSum deg i)%nat with (deg i) by lia.
  assert (En : seq 0 n = seq 0 i ++ i :: seq (S i) (n - S i)).
  { replace n with (i + S (n - S i))%nat at 1 by lia.
    now rewrite seq_app. }
  rewrite En, flat_map_app. simpl flat_map at 2.
  assert (Hl : length (flat_map block (seq 0 i)) = prefixSum deg i).
  { rewrite length_flat_map. unfold prefixSum. f_equal.
    apply map_ext. exact Hdeg. }
  rewrite nth_segment by (rewrite !length_app, Hl, Hdeg; lia).
  rewrite skipn_app, Hl, Nat.sub_diag. simpl skipn at 2.
  rewrite skipn_all2 by lia. simpl app.
  rewrite firstn_app, Hdeg, Nat.sub_diag. simpl firstn at 2.
  rewrite app_nil_r. apply firstn_all2. rewrite Hdeg. lia.
Qed.

(** After the relabelling, the neighbours of a position are the images
    of the neighbours of the vertex that takes the position. *)
Lemma relabel_nbrs G order rOrder i :
  (i < CSR.numVertices G)%nat ->
  CSR.outNbrs (CSR.relabel G order rOrder) i
  = map (fun w => nth w order 0%nat) (CSR.outNbrs G (nth i rOrder 0%nat)) /\
  CSR.inNbrs (CSR.relabel G order rOrder) i
  = map (fun w => nth w order 0%nat) (CSR.inNbrs G (nth i rOrder 0%nat)).
Proof.
  intros Hi. unfold CSR.outNbrs, CSR.inNbrs, CSR.relabel.
  cbn [CSR.offsets_out CSR.adjcny_out CSR.offsets_in CSR.adjcny_in].
  rewrite !offsetsNew_spec. split.
  - rewrite (adjRange_flat_map _ _ _ i); [| | exact Hi].
    + unfold adjRange, CSR.edgeIds. now rewrite map_map.
    + intros k. unfold CSR.edgeIds. now rewrite length_map, length_seq.
  - rewrite (adjRange_flat_map _ _ _ i); [| | exact Hi].
    + unfold adjRange, CSR.edgeIds. now rewrite map_map.
    + intros k. unfold CSR.edgeIds. now rewrite length_map, length_seq.
Qed.

Lemma is_sorted_step l i :
  CSR.is_sorted l = true -> (i + 1 < length l)%nat ->
  (nth i l 0 <= nth (i + 1) l 0)%nat.
Proof.
  revert i. induction l as [| x t IH]; intros i Hs Hi; [simpl in Hi; lia |].
  destruct t as [| y t]; [simpl in Hi; lia |].
  cbn [CSR.is_sorted] in Hs. apply andb_true_iff in Hs. destruct Hs as [Hxy Hs].
  destruct i as [| i].
  - simpl. destruct (Nat.ltb_spec y x); [discriminate | lia].
  - change (nth (S i) (x :: y :: t) 0%nat) with (nth i (y :: t) 0%nat).
    change (nth (S i + 1) (x :: y :: t) 0%nat)
      with (nth (i + 1) (y :: t) 0%nat).
    apply IH; [exact Hs | simpl in *; lia].
Qed.

Lemma is_sorted_le l i j :
  CSR.is_sorted l = true -> (i <= j)%nat -> (j < length l)%nat ->
  (nth i l 0 <= nth j l 0)%nat.
Proof.
  intros Hs Hij. induction Hij as [| j Hij IH]; intros Hj; [lia |].
  specialize (IH ltac:(lia)).
  pose proof (is_sorted_step l j Hs ltac:(lia)) as Hstep.
  replace (j + 1)%nat with (S j) in Hstep by lia. lia.
Qed.

Lemma last_nth (l : list nat) : last l 0%nat = nth (length l - 1) l 0%nat.
Proof.
  induction l as [| x t IH]; [reflexivity |].
  destruct t as [| y t]; [reflexivity |].
  change (last (x :: y :: t) 0%nat) with (last (y :: t) 0%nat).
  rewrite IH. simpl. now rewrite Nat.sub_0_r.
Qed.

(** The degrees of the first [k] vertices add up to [offsets[k]]. *)
Lemma degree_sum offs k :
  CSR.is_sorted offs = true -> (k < length offs)%nat ->
  prefixSum (fun v => nth (v + 1) offs 0 - nth v offs 0)%nat k
  = (nth k offs 0 - nth 0 offs 0)%nat.
Proof.
  intros Hs. induction k as [| k IH]; intros Hk.
  - unfold prefixSum. simpl. lia.
  - rewrite prefixSum_S, IH by lia.
    pose proof (is_sorted_le offs 0 k Hs ltac:(lia) ltac:(lia)).
    pose proof (is_sorted_step offs k Hs ltac:(lia)).
    replace (k + 1)%nat with (S k) in * by lia. lia.
Qed.

(** One of the two adjacency structures after the relabelling. *)
Lemma relabel_shape offs adj order n m :
  length adj = m -> (forall v, In v adj -> (v < n)%nat) ->
  length offs = (n + 1)%nat -> nth 0 offs 0%nat = 0%nat ->
  CSR.is_sorted offs = true -> last offs 0%nat = m ->
  (forall v, (v < n)%nat -> (nth v order 0 < n)%nat) ->
  (forall v v', (v < n)%nat -> (v' < n)%nat ->
                nth v order 0%nat = nth v' order 0%nat -> v = v') ->
  let rOrder := CSR.reverseOf n order in
  let deg := fun i => (nth (nth i rOrder 0 + 1) offs 0
                       - nth (nth i rOrder 0) offs 0)%nat in
  let adj' :=
    flat_map (fun i => map (fun j => nth (nth j adj 0%nat) order 0%nat)
                           (CSR.edgeIds offs (nth i rOrder 0%nat)))
             (seq 0 n) in
  let offs' := map (prefixSum deg) (seq 0 (n + 1)) in
  length adj' = m /\ (forall v, In v adj' -> (v < n)%nat) /\
  length offs' = (n + 1)%nat /\ (forall off, In off offs' -> (off <= m)%nat) /\
  CSR.is_sorted offs' = true /\ last offs' 0%nat = m.
Proof.
  intros Hadj Hvs Hoffs H0 Hs Hlast Hrange Hinj rOrder deg adj' offs'.
  destruct (rOrder_spec n order Hrange Hinj) as [Hro Hor].
  fold rOrder in Hro, Hor.
  assert (Hn : nth n offs 0%nat = m).
  { rewrite <- Hlast, last_nth, Hoffs. f_equal. lia. }
  assert (Hsum : prefixSum deg n = m).
  { unfold prefixSum.
    change (map deg (seq 0 n))
      with (map (fun i => (fun v => nth (v + 1) offs 0 - nth v offs 0)%nat
                            (nth i rOrder 0%nat)) (seq 0 n)).
    rewrite <- (map_map (fun i => nth i rOrder 0%nat)
                        (fun v => nth (v + 1) offs 0 - nth v offs 0)%nat).
    rewrite (list_sum_perm _ _
               (Permutation_map _ (rOrder_perm n order Hrange Hinj))).
    fold (prefixSum (fun v => nth (v + 1) offs 0 - nth v offs 0)%nat n).
    rewrite degree_sum by (auto; lia). lia. }
  split; [| split; [| split; [| split; [| split]]]].
  - unfold adj'. rewrite length_flat_map. rewrite <- Hsum. unfold prefixSum.
    f_equal. apply map_ext. intros i. unfold deg, CSR.edgeIds.
    now rewrite length_map, length_seq.
  - intros v Hv. unfold adj' in Hv. apply in_flat_map in Hv.
    destruct Hv as (i & Hi & Hv). apply in_seq in Hi.
    apply in_map_iff in Hv. destruct Hv as (j & <- & Hj).
    unfold CSR.edgeIds in Hj. apply in_seq in Hj.
    destruct (Hor i ltac:(lia)) as [Hri _].
    pose proof (is_sorted_step offs (nth i rOrder 0%nat) Hs
                  ltac:(rewrite Hoffs; lia)) as H1.
    pose proof (is_sorted_le offs (nth i rOrder 0 + 1)%nat n Hs
                  ltac:(lia) ltac:(lia)) as H2.
    apply Hrange. apply Hvs. apply nth_In. lia.
  - unfold offs'. now rewrite length_map, length_seq.
  - intros off Hoff. unfold offs' in Hoff. apply in_map_iff in Hoff.
    destruct Hoff as (k & <- & Hk). apply in_seq in Hk.
    rewrite <- Hsum. apply prefixSum_mono. lia.
  - apply is_sorted_mono. intros j k. apply prefixSum_mono.
  - unfold offs'. replace (n + 1)%nat with (S n) by lia.
    now rewrite last_map_seq.
Qed.

(** A relabelling along a topological order gives a container that
    [verify()] accepts. *)
Lemma relabel_verified G order L :
  csrShape G -> seqBound G L -> topologicalOrder G order ->
  verified (CSR.relabel G order (CSR.reverseOf (CSR.numVertices G) order)).
Proof.
  intros (Hai & Hao & Hvi & Hvo & Hoi & Hoo & Hzi & Hzo & Hsi & Hso & Hli
          & Hlo) Hseq (Hlen & Hrange & Hinj & Hedge).
  destruct (relabel_shape _ _ order _ _ Hai Hvi Hoi Hzi Hsi Hli Hrange Hinj)
    as (I1 & I2 & I3 & I4 & I5 & I6).
  destruct (relabel_shape _ _ order _ _ Hao Hvo Hoo Hzo Hso Hlo Hrange Hinj)
    as (O1 & O2 & O3 & O4 & O5 & O6).
  destruct (rOrder_spec _ order Hrange Hinj) as [Hro Hor].
  unfold verified.
  split; [| split].
  - unfold CSR.relabel. cbn [CSR.vertex_metadata CSR.numVertices].
    now rewrite length_map, length_seq.
  - unfold CSR.relabel. cbn [CSR.vertex_metadata]. intros sq Hsq.
    apply in_map_iff in Hsq. destruct Hsq as (i & <- & Hi).
    apply in_seq in Hi. destruct (Hor i ltac:(lia)) as [Hri _].
    specialize (Hseq _ Hri). unfold CSR.seqLength in Hseq. lia.
  - assert (Hfwd : forall i v,
      (i < CSR.numVertices G)%nat ->
      In v (CSR.outNbrs (CSR.relabel G order
                           (CSR.reverseOf (CSR.numVertices G) order)) i) ->
      (i < v)%nat).
    { intros i v Hi Hv.
      destruct (relabel_nbrs G order
                  (CSR.reverseOf (CSR.numVertices G) order) i Hi) as [Eo _].
      rewrite Eo in Hv. apply in_map_iff in Hv. destruct Hv as (w & <- & Hw).
      destruct (Hor i Hi) as [Hri Ei].
      specialize (Hedge _ w Hri Hw). rewrite Ei in Hedge. exact Hedge. }
    revert Hfwd. unfold CSR.relabel.
    cbn [CSR.offsets_out CSR.adjcny_out CSR.offsets_in CSR.adjcny_in
         CSR.numVertices CSR.numEdges].
    rewrite !offsetsNew_spec. intros Hfwd.
    repeat (split; [assumption |]). exact Hfwd.
Qed.

(** [lowerBoundBandwidth()] completes: its calls of [edgeExists] are on
    vertices. *)
Lemma lowerBoundBandwidth_total G :
  (forall v w, (v < CSR.numVertices G)%nat -> In w (CSR.outNbrs G v) ->
               (w < CSR.numVertices G)%nat) ->
  exists lbound, CSR.lowerBoundBandwidth G = Ok lbound.
Proof.
  intros Hout. unfold CSR.lowerBoundBandwidth.
  match goal with
  | |- context [foldM ?f ?l ?a] =>
      destruct (foldM_total f (fun _ => True) l a I) as (r & Hr & _)
  end; [| eauto].
  intros lb i Hi _. apply in_seq in Hi.
  destruct (Nat.eqb_spec (nth (i + 1) (CSR.offsets_out G) 0
                          - nth i (CSR.offsets_out G) 0)%nat 2) as [E | E];
    [| simpl; eauto].
  set (j := nth i (CSR.offsets_out G) 0%nat).
  assert (Hu : (nth j (CSR.adjcny_out G) 0 < CSR.numVertices G)%nat).
  { apply (Hout i); [lia |]. apply edgeId_nbr. unfold CSR.edgeIds.
    apply in_seq. fold j. lia. }
  assert (Hv : (nth (j + 1) (CSR.adjcny_out G) 0 < CSR.numVertices G)%nat).
  { apply (Hout i); [lia |]. apply edgeId_nbr. unfold CSR.edgeIds.
    apply in_seq. fold j. lia. }
  destruct (edgeExists_Ok G _ _ Hu Hv) as (b & Hb & _).
  destruct (edgeExists_Ok G _ _ Hv Hu) as (b' & Hb' & _).
  rewrite Hb. simpl bind. destruct b; [simpl; eauto |].
  rewrite Hb'. simpl bind. destruct b'; simpl; eauto.
Qed.

Lemma sort_cases G select L :
  consistent G -> (forall i, validSelect (select i)) ->
  seqBound G L -> Z.of_nat (CSR.numVertices G) * L < 2 ^ 31 - 1 ->
  (acyclic G ->
   exists order,
     topologicalOrder G order /\
     CSR.sort G select
     = Ok (CSR.relabel G order (CSR.reverseOf (CSR.numVertices G) order))) /\
  (~ acyclic G -> CSR.sort G select = Err AssertionFailed).
Proof.
  intros Hcons Hsel Hseq Hbig.
  destruct (topologicalSort_cases G select 5
              (repeat 0%nat (CSR.numVertices G)) L Hcons Hsel Hseq Hbig)
    as [Hok Hfail]; [apply repeat_length | lia |].
  split.
  - intros Hacyc. destruct (Hok Hacyc) as [order Hrun].
    pose proof (topologicalSort_order G select _ _ L order Hcons Hsel Hseq
                  Hbig Hrun) as Htop.
    exists order. split; [exact Htop |].
    destruct (directedBandwidthOf_total G order L Hcons Htop Hseq)
      as (bw & Hbw & _); [lia |].
    destruct (lowerBoundBandwidth_total G (proj1 Hcons)) as [lb Hlb].
    unfold CSR.sort. rewrite Hrun. simpl bind. rewrite Hbw. simpl bind.
    rewrite Hlb. reflexivity.
  - intros Hcyc. unfold CSR.sort. rewrite (Hfail Hcyc). reflexivity.
Qed.

Lemma relabel_relabelled G order :
  topologicalOrder G order ->
  relabelled G (CSR.relabel G order (CSR.reverseOf (CSR.numVertices G) order))
             order.
Proof.
  intros (Hlen & Hrange & Hinj & Hedge).
  destruct (rOrder_spec _ order Hrange Hinj) as [Hro Hor].
  split; [reflexivity |]. split; [reflexivity |].
  intros v Hv. specialize (Hrange v Hv).
  destruct (relabel_nbrs G order (CSR.reverseOf (CSR.numVertices G) order)
              _ Hrange) as [Eo Ei].
  rewrite Eo, Ei, Hro by exact Hv. split; [| auto].
  unfold CSR.relabel. cbn [CSR.vertex_metadata].
  rewrite nth_map_seq_gen by exact Hrange. now rewrite Hro.
Qed.

(** [sort()] on a container whose adjacency vectors and offsets are as
    [verify()] asks, whose two adjacency structures agree, whose vertices
    all have a sequence and whose total width is less than [INT_MAX].
    When the graph has no cycle, [sort()] completes: it renames every
    vertex to its position in a topological order, the sequences and the
    neighbours in both directions move along, and [verify()] accepts the
    result.  When the graph has a cycle, [sort()] stops on an
    assertion. *)
Theorem sort_verified G select L :
  csrShape G -> consistent G -> (forall i, validSelect (select i)) ->
  seqBound G L -> Z.of_nat (CSR.numVertices G) * L < 2 ^ 31 - 1 ->
  (acyclic G ->
   exists G' order,
     CSR.sort G select = Ok G' /\ topologicalOrder G order /\
     relabelled G G' order /\ CSR.verify G' = Ok tt) /\
  (~ acyclic G -> CSR.sort G select = Err AssertionFailed).
Proof.
  intros Hshape Hcons Hsel Hseq Hbig.
  destruct (sort_cases G select L Hcons Hsel Hseq Hbig) as [Hok Hfail].
  split; [| exact Hfail].
  intros Hacyc. destruct (Hok Hacyc) as (order & Htop & Hrun).
  eexists. exists order. split; [exact Hrun |]. split; [exact Htop |].
  split; [now apply relabel_relabelled |].
  apply verify_Ok. now apply (relabel_verified G order L).
Qed.

Lemma initEdges_csrShape G E G' :
  noEdgesYet G -> CSR.initEdges G E = Ok G' -> csrShape G'.
Proof.
  intros Hfresh Hrun.
  destruct (initEdges_structure G E G' Hfresh Hrun)
    as (H1 & H2 & H3 & H4 & H5 & H6 & _ & _ & H9 & H10 & H11 & H12).
  destruct (initEdges_Ok G E G' Hrun)
    as (_ & Hn & Hm & _ & Eoo & _ & Eoi & _).
  unfold csrShape. rewrite Hn, Hm, Eoo, Eoi.
  rewrite !fillAdjacency_spec by apply sort_keySorted.
  rewrite Eoo, Eoi in *. rewrite !fillAdjacency_spec in * by apply sort_keySorted.
  cbn [fst] in *. simpl nth. rewrite !edgesBelow_0.
  repeat (split; [assumption || reflexivity |]). assumption.
Qed.

Lemma sort_verified_witness :
  (exists G G' order,
      CSR.initEdges fourVertices diamondEdges = Ok G /\
      CSR.sort G (fun _ _ => 0%nat) = Ok G' /\ topologicalOrder G order /\
      relabelled G G' order /\ CSR.verify G' = Ok tt) /\
  (exists G,
      CSR.initEdges fourVertices cycleEdges = Ok G /\
      CSR.sort G (fun _ _ => 0%nat) = Err AssertionFailed).
Proof.
  assert (Hfresh : noEdgesYet fourVertices) by (split; reflexivity).
  split.
  - assert (Hrun : exists G, CSR.initEdges fourVertices diamondEdges = Ok G)
      by (eexists; vm_compute; reflexivity).
    destruct Hrun as [G Hrun]. exists G.
    destruct (fourVertices_initEdges _ _ Hrun) as (Hcons & Hseq & Hn).
    destruct (sort_verified G (fun _ _ => 0%nat) 3
                (initEdges_csrShape _ _ _ Hfresh Hrun) Hcons
                (fun _ => select_first_valid) Hseq) as [Hok _].
    + rewrite Hn. vm_compute. reflexivity.
    + destruct (Hok (diamond_acyclic G Hrun)) as (G' & order & H).
      exists G', order. tauto.
  - assert (Hrun : exists G, CSR.initEdges fourVertices cycleEdges = Ok G)
      by (eexists; vm_compute; reflexivity).
    destruct Hrun as [G Hrun]. exists G. split; [exact Hrun |].
    destruct (fourVertices_initEdges _ _ Hrun) as (Hcons & Hseq & Hn).
    destruct (sort_verified G (fun _ _ => 0%nat) 3
                (initEdges_csrShape _ _ _ Hfresh Hrun) Hcons
                (fun _ => select_first_valid) Hseq) as [_ Hfail].
    + rewrite Hn. vm_compute. reflexivity.
    + exact (Hfail (cycle_not_acyclic G Hrun)).
Defined.

Lemma foldM_inv_in {A B} (f : A -> B -> result A) (P : A -> Prop) l a a' :
  P a -> (forall a x a', In x l -> P a -> f a x = Ok a' -> P a') ->
  foldM f l a = Ok a' -> P a'.
Proof.
  revert a. induction l as [| x l IH]; intros a Ha Hstep H; simpl in H.
  - inversion H; subst; auto.
  - inv_bind H as a1 Ha1. apply (IH a1); [| | exact H].
    + apply (Hstep a x a1); simpl; auto.
    + intros a2 x' a3 Hx'. apply Hstep. simpl; auto.
Qed.

(** The inner loop of [directedBandwidth] without overflow. *)
Lemma edgeBandwidth_fold G (vertexAt : nat -> nat) L (l : list nat) acc :
  (forall k, In k l -> 1 <= CSR.seqLength G (vertexAt k) <= L) ->
  0 <= acc -> acc + Z.of_nat (length l) * (L - 1) < 2 ^ 64 ->
  fold_left (fun tmp_bandwidth k =>
               CSR.size_t (tmp_bandwidth
                           + CSR.size_t (CSR.seqLength G (vertexAt k) - 1)))
            l acc
  = acc + sumZ (map (fun k => CSR.seqLength G (vertexAt k)) l)
    - Z.of_nat (length l).
Proof.
  revert acc. induction l as [| k l IH]; intros acc Hl Hacc Hbig.
  - simpl. lia.
  - pose proof (Hl k (or_introl eq_refl)) as Hk.
    simpl length in *. rewrite Nat2Z.inj_succ in *.
    simpl fold_left.
    rewrite (size_t_small (CSR.seqLength G (vertexAt k) - 1)) by nia.
    rewrite size_t_small by nia.
    rewrite IH; [simpl; lia | | lia | nia].
    intros k' Hk'. apply Hl. simpl; auto.
Qed.

Lemma edgeBandwidth_span G vertexAt from_pos to_pos L :
  (forall k, (from_pos < k < to_pos)%nat ->
             1 <= CSR.seqLength G (vertexAt k) <= L) ->
  (from_pos < to_pos)%nat ->
  Z.of_nat to_pos * L < 2 ^ 64 -> 1 <= L ->
  CSR.edgeBandwidth G vertexAt from_pos to_pos
  = span G vertexAt from_pos to_pos.
Proof.
  intros Hlen Hlt Hbig HL. unfold CSR.edgeBandwidth, span.
  rewrite size_t_small by nia.
  rewrite (edgeBandwidth_fold G vertexAt L).
  - rewrite length_seq. set (chars := sumZ _). lia.
  - intros k Hk. apply in_seq in Hk. apply Hlen. lia.
  - lia.
  - rewrite length_seq. nia.
Qed.

(** The result of the loops of [directedBandwidth] is zero or the width
    of an edge. *)
Lemma bandwidthLoop_attained G position vertexAt bw :
  CSR.bandwidthLoop G position vertexAt = Ok bw ->
  bw = 0 \/
  exists v j, (v < CSR.numVertices G)%nat /\
              In j (CSR.edgeIds (CSR.offsets_out G) v) /\
              bw = CSR.edgeBandwidth G vertexAt (position v)
                     (position (nth j (CSR.adjcny_out G) 0%nat)).
Proof.
  unfold CSR.bandwidthLoop.
  set (P := fun b : Z =>
    b = 0 \/
    exists v j, (v < CSR.numVertices G)%nat /\
                In j (CSR.edgeIds (CSR.offsets_out G) v) /\
                b = CSR.edgeBandwidth G vertexAt (position v)
                      (position (nth j (CSR.adjcny_out G) 0%nat))).
  apply (foldM_inv_in _ P); [now left |].
  intros b v b' Hv Hb. apply in_seq in Hv.
  apply (foldM_inv_in _ P); [exact Hb |].
  intros b1 j b2 Hj Hb1 Hstep. inv_bind Hstep as u Hu.
  inversion Hstep; subst b2; clear Hstep.
  destruct (_ >? _); [| exact Hb1].
  right. exists v, j. split; [lia |]. split; [exact Hj | reflexivity].
Qed.

Lemma bandwidthLoop_assertOnly G position vertexAt :
  assertOnly (CSR.bandwidthLoop G position vertexAt).
Proof.
  unfold CSR.bandwidthLoop.
  apply foldM_assertOnly. intros b v. apply foldM_assertOnly. intros b' j.
  apply bind_assertOnly; [apply cassert_assertOnly | intros _].
  apply Ok_assertOnly.
Qed.

(** The loops of [directedBandwidth] compute the largest span. *)
Lemma bandwidthLoop_maxSpan G position vertexAt L :
  (forall v w, (v < CSR.numVertices G)%nat -> In w (CSR.outNbrs G v) ->
               (position v < position w < CSR.numVertices G)%nat) ->
  (forall k, (k < CSR.numVertices G)%nat ->
             1 <= CSR.seqLength G (vertexAt k) <= L) ->
  Z.of_nat (CSR.numVertices G) * L < 2 ^ 64 ->
  exists bw, CSR.bandwidthLoop G position vertexAt = Ok bw /\
             maxSpan G position vertexAt bw /\
             0 <= bw <= Z.of_nat (CSR.numVertices G) * L.
Proof.
  intros Hpos Hlen Hbig.
  destruct (bandwidthLoop_total G position vertexAt L) as (bw & Hrun & Hbw);
    auto.
  { intros v j Hv Hj. apply Hpos; [exact Hv | now apply edgeId_nbr]. }
  exists bw. split; [exact Hrun |]. split; [| exact Hbw].
  assert (Hspan : forall v w,
    (v < CSR.numVertices G)%nat -> In w (CSR.outNbrs G v) ->
    CSR.edgeBandwidth G vertexAt (position v) (position w)
    = span G vertexAt (position v) (position w)).
  { intros v w Hv Hw. destruct (Hpos v w Hv Hw) as [H1 H2].
    assert (HL : 1 <= L) by (specialize (Hlen 0%nat ltac:(lia)); lia).
    apply (edgeBandwidth_span G vertexAt _ _ L); auto.
    - intros k Hk. apply Hlen. lia.
    - nia. }
  split.
  - intros v w Hv Hw. rewrite <- Hspan by assumption.
    destruct (nbr_edgeId G v w Hw) as (j & Hj & ->).
    destruct (bandwidthLoop_Ok G position vertexAt bw Hrun) as [_ Hall].
    now destruct (Hall v j Hv Hj).
  - destruct (bandwidthLoop_attained G position vertexAt bw Hrun)
      as [E | (v & j & Hv & Hj & E)]; [now left |].
    right. exists v, (nth j (CSR.adjcny_out G) 0%nat).
    pose proof (edgeId_nbr G v j Hj) as Hw.
    split; [exact Hv |]. split; [exact Hw |].
    rewrite E. now apply Hspan.
Qed.

(** [directedBandwidth()] on a container whose out-neighbours are
    vertices, whose vertices all have a sequence and whose total width
    fits [std::size_t].  When every edge leads to a vertex with a larger
    id, it returns the largest distance in characters that an edge spans:
    one plus the lengths of the sequences of the vertices strictly between
    the two ends; it returns zero when there is no edge.  When an edge
    does not lead forward, it stops on an assertion. *)
Theorem directedBandwidth_maxSpan G L :
  (forall v w, (v < CSR.numVertices G)%nat -> In w (CSR.outNbrs G v) ->
               (w < CSR.numVertices G)%nat) ->
  seqBound G L -> Z.of_nat (CSR.numVertices G) * L < 2 ^ 64 ->
  ((forall v w, (v < CSR.numVertices G)%nat -> In w (CSR.outNbrs G v) ->
                (v < w)%nat) ->
   exists bw, CSR.directedBandwidth G = Ok bw /\
              maxSpan G (fun v => v) (fun k => k) bw) /\
  ((exists v w, (v < CSR.numVertices G)%nat /\ In w (CSR.outNbrs G v) /\
                (w <= v)%nat) ->
   CSR.directedBandwidth G = Err AssertionFailed).
Proof.
  intros Hout Hseq Hbig. unfold CSR.directedBandwidth. split.
  - intros Hfwd.
    destruct (bandwidthLoop_maxSpan G (fun v => v) (fun k => k) L)
      as (bw & Hrun & Hmax & _); auto.
    + intros v w Hv Hw. split; [now apply Hfwd | now apply (Hout v)].
    + eauto.
  - intros (v & w & Hv & Hw & Hback).
    destruct (CSR.bandwidthLoop G (fun v => v) (fun k => k)) as [bw | e] eqn:E.
    + exfalso. destruct (nbr_edgeId G v w Hw) as (j & Hj & ->).
      destruct (bandwidthLoop_Ok G _ _ bw E) as [_ Hall].
      destruct (Hall v j Hv Hj) as [Hlt _]. lia.
    + now rewrite (bandwidthLoop_assertOnly G _ _ e E).
Qed.

Lemma directedBandwidth_maxSpan_witness :
  exists G bw,
    CSR.initEdges fourVertices [(0, 3); (1, 2)]%nat = Ok G /\
    CSR.directedBandwidth G = Ok bw /\
    maxSpan G (fun v => v) (fun k => k) bw.
Proof.
  assert (Hrun : exists G,
             CSR.initEdges fourVertices [(0, 3); (1, 2)]%nat = Ok G)
    by (eexists; vm_compute; reflexivity).
  destruct Hrun as [G Hrun]. exists G.
  destruct (fourVertices_initEdges _ _ Hrun) as (Hcons & Hseq & Hn).
  assert (Hfresh : noEdgesYet fourVertices) by (split; reflexivity).
  destruct (directedBandwidth_maxSpan G 3 (proj1 Hcons) Hseq) as [Hok _].
  - rewrite Hn. vm_compute. reflexivity.
  - destruct Hok as (bw & Hbw & Hmax).
    + intros v w Hv Hw.
      apply (initEdges_out_iff fourVertices _ G v w Hfresh Hrun Hv) in Hw.
      simpl in Hw. destruct Hw as [Hw | [Hw | []]]; inversion Hw; lia.
    + exists bw. auto.
Defined.






(** From the vector of edges to the sorted container.  [initEdges] on a
    container without edges whose vertices all have a sequence (the total
    width less than [INT_MAX]), then [sort()]: when the edges allow a
    ranking of the vertices along which they all lead upwards, [sort()]
    completes, [verify()] accepts the container, and for any two vertices
    [u] and [v], [edgeExists] at their new ids answers whether [(u, v)] is
    in the vector. *)
Theorem initEdges_sort G0 E G select L (rank : nat -> nat) :
  noEdgesYet G0 -> seqBound G0 L ->
  Z.of_nat (CSR.numVertices G0) * L < 2 ^ 31 - 1 ->
  (forall i, validSelect (select i)) ->
  CSR.initEdges G0 E = Ok G ->
  (forall e, In e E -> (rank (fst e) < rank (snd e))%nat) ->
  exists G' order,
    CSR.sort G select = Ok G' /\ CSR.verify G' = Ok tt /\
    topologicalOrder G order /\
    forall u v, (u < CSR.numVertices G0)%nat -> (v < CSR.numVertices G0)%nat ->
      exists b, CSR.edgeExists G' (nth u order 0%nat) (nth v order 0%nat)
                = Ok b /\
                (b = true <-> In (u, v) E).
Proof.
  intros Hfresh Hseq0 Hbig Hsel Hrun Hrank.
  pose proof (initEdges_consistent _ _ _ Hfresh Hrun) as Hcons.
  pose proof (initEdges_seqBound _ _ _ _ Hrun Hseq0) as Hseq.
  destruct (initEdges_Ok _ _ _ Hrun) as (_ & Hn & _).
  rewrite <- Hn in *.
  destruct (sort_cases G select L Hcons Hsel Hseq Hbig) as [Hok _].
  destruct (Hok (initEdges_acyclic _ _ _ rank Hfresh Hrun Hrank))
    as (order & Htop & Hsort).
  eexists. exists order. split; [exact Hsort |].
  split.
  { apply verify_Ok.
    apply (relabel_verified G order L); auto.
    exact (initEdges_csrShape _ _ _ Hfresh Hrun). }
  split; [exact Htop |].
  intros u v Hu Hv. pose proof Htop as (Hlen & Hrange & Hinj & Hedge).
  set (rOrder := CSR.reverseOf (CSR.numVertices G) order).
  destruct (edgeExists_Ok (CSR.relabel G order rOrder)
              (nth u order 0%nat) (nth v order 0%nat))
    as (b & Hb & Hiff); [now apply Hrange | now apply Hrange |].
  exists b. split; [exact Hb |]. rewrite Hiff.
  destruct (relabel_relabelled G order Htop) as (_ & _ & Hnb).
  destruct (Hnb u Hu) as (_ & Eo & _). fold rOrder in Eo. rewrite Eo.
  rewrite <- (initEdges_out_iff G0 E G u v Hfresh Hrun Hu).
  rewrite in_map_iff. split.
  - intros (w & Ew & Hw). destruct Hcons as [Hout _].
    apply Hinj in Ew; [now subst w | now apply (Hout u) | exact Hv].
  - intros Hw. exists v. auto.
Qed.

Lemma initEdges_sort_witness :
  exists G G' order,
    CSR.initEdges fourVertices diamondEdges = Ok G /\
    CSR.sort G (fun _ _ => 0%nat) = Ok G' /\ CSR.verify G' = Ok tt /\
    topologicalOrder G order /\
    forall u v, (u < 4)%nat -> (v < 4)%nat ->
      exists b, CSR.edgeExists G' (nth u order 0%nat) (nth v order 0%nat)
                = Ok b /\
                (b = true <-> In (u, v) diamondEdges).
Proof.
  assert (Hrun : exists G, CSR.initEdges fourVertices diamondEdges = Ok G)
    by (eexists; vm_compute; reflexivity).
  destruct Hrun as [G Hrun]. exists G.
  destruct (initEdges_sort fourVertices diamondEdges G (fun _ _ => 0%nat) 3
              (fun v => 4 - v)%nat) as (G' & order & H1 & H2 & H3 & H4).
  - split; reflexivity.
  - exact fourVertices_seqBound.
  - vm_compute. reflexivity.
  - intros i. exact select_first_valid.
  - exact Hrun.
  - intros e He. simpl in He.
    repeat destruct He as [<- | He]; simpl; try lia.
  - exists G', order. auto.
Defined.

(** ** The lower bound on the bandwidth *)

Lemma sumZ_app l l' : sumZ (l ++ l') = sumZ l + sumZ l'.
Proof. unfold sumZ. induction l as [| x l IH]; simpl; lia. Qed.

Lemma sumZ_nonneg (f : nat -> Z) l :
  (forall x, 0 <= f x) -> 0 <= sumZ (map f l).
Proof.
  intros Hf. induction l as [| x l IH]; simpl; [lia |].
  specialize (Hf x). unfold sumZ in *. simpl. lia.
Qed.

Lemma sumZ_remove (f : nat -> Z) x l :
  NoDup l -> In x l ->
  sumZ (map f l) = f x + sumZ (map f (remove Nat.eq_dec x l)).
Proof.
  induction l as [| u l IH]; intros Hnd Hin; [contradiction |].
  inversion Hnd as [| a b Hnot Hnd']; subst. simpl.
  destruct (Nat.eq_dec x u) as [-> | Hne].
  - rewrite notin_remove by exact Hnot. reflexivity.
  - destruct Hin as [-> | Hin]; [congruence |].
    simpl. unfold sumZ in *. simpl. rewrite (IH Hnd' Hin). lia.
Qed.

(** A sum over some distinct elements of a list is at most the sum over
    the list. *)
Lemma sumZ_incl (f : nat -> Z) l l' :
  (forall x, 0 <= f x) -> NoDup l -> incl l l' ->
  sumZ (map f l) <= sumZ (map f l').
Proof.
  intros Hf. revert l'. induction l as [| x l IH]; intros l' Hnd Hincl.
  - simpl. now apply sumZ_nonneg.
  - inversion Hnd as [| a b Hnot Hnd']; subst.
    destruct (in_split x l' (Hincl x (or_introl eq_refl))) as (l1 & l2 & ->).
    rewrite map_app, sumZ_app. simpl.
    assert (Hrest : incl l (l1 ++ l2)).
    { intros y Hy. specialize (Hincl y (or_intror Hy)).
      apply in_app_or in Hincl. apply in_or_app.
      destruct Hincl as [H | [H | H]]; auto. subst y. contradiction. }
    specialize (IH (l1 ++ l2) Hnd' Hrest).
    rewrite map_app, sumZ_app in IH. unfold sumZ in *. simpl. lia.
Qed.

(** The sequences of distinct vertices that all but one lie strictly
    between two positions are spanned by an edge between the positions. *)
Lemma span_covers G (position vertexAt : nat -> nat) n l wstar a b :
  (forall v, (v < n)%nat -> vertexAt (position v) = v) ->
  NoDup l -> (forall w, In w l -> (w < n)%nat) -> In wstar l ->
  (forall w, In w l -> w <> wstar -> (a < position w < b)%nat) ->
  1 + sumZ (map (CSR.seqLength G) l) - CSR.seqLength G wstar
  <= span G vertexAt a b.
Proof.
  intros Hinv Hnd Hn Hstar Hbetween.
  rewrite (sumZ_remove _ wstar l Hnd Hstar). unfold span.
  set (S := remove Nat.eq_dec wstar l).
  assert (HS : forall w, In w S -> In w l /\ w <> wstar).
  { intros w Hw. unfold S in Hw. apply in_remove in Hw. exact Hw. }
  assert (E : map (CSR.seqLength G) S
              = map (fun k => CSR.seqLength G (vertexAt k)) (map position S)).
  { rewrite map_map. apply map_ext_in. intros w Hw.
    destruct (HS w Hw) as [Hl _]. now rewrite Hinv by auto. }
  rewrite E.
  assert (Hle : sumZ (map (fun k => CSR.seqLength G (vertexAt k))
                          (map position S))
                <= sumZ (map (fun k => CSR.seqLength G (vertexAt k))
                             (seq (a + 1) (b - (a + 1))))).
  { apply sumZ_incl.
    - intros k. unfold CSR.seqLength. lia.
    - apply NoDup_map_NoDup_ForallPairs.
      + intros w w' Hw Hw' Epos.
        destruct (HS w Hw) as [Hl _]. destruct (HS w' Hw') as [Hl' _].
        rewrite <- (Hinv w), <- (Hinv w') by auto. now rewrite Epos.
      + unfold S. now apply NoDup_remove_keep.
    - intros p Hp. apply in_map_iff in Hp. destruct Hp as (w & <- & Hw).
      destruct (HS w Hw) as [Hl Hne].
      specialize (Hbetween w Hl Hne). apply in_seq. lia. }
  lia.
Qed.

(** An element of a non-empty list with the largest, or the smallest,
    position. *)
Lemma farthest (position : nat -> nat) (l : list nat) :
  l <> [] ->
  (exists w, In w l /\ forall w', In w' l -> (position w' <= position w)%nat)
  /\
  (exists w, In w l /\ forall w', In w' l -> (position w <= position w')%nat).
Proof.
  induction l as [| x l IH]; [congruence |]. intros _.
  destruct l as [| y l].
  - split; exists x; (split; [now left |]);
      intros w' [<- | []]; lia.
  - destruct IH as [(wmax & Hmax & Hmax') (wmin & Hmin & Hmin')];
      [discriminate |].
    split.
    + destruct (Nat.le_gt_cases (position x) (position wmax)).
      * exists wmax. split; [now right |].
        intros w' [<- | Hw']; [lia | auto].
      * exists x. split; [now left |].
        intros w' [<- | Hw']; [lia |]. specialize (Hmax' w' Hw'). lia.
    + destruct (Nat.le_gt_cases (position wmin) (position x)).
      * exists wmin. split; [now right |].
        intros w' [<- | Hw']; [lia | auto].
      * exists x. split; [now left |].
        intros w' [<- | Hw']; [lia |]. specialize (Hmin' w' Hw'). lia.
Qed.

(** The loop over the neighbours of one vertex in [lowerBoundBandwidth]. *)
Lemma lowerBound_inner G (l : list nat) md mw :
  1 <= md -> 0 <= mw <= md - 1 ->
  md + sumZ (map (CSR.seqLength G) l) < 2 ^ 64 ->
  let r := fold_left (fun '(minimum_dist, max_width) w =>
                        (CSR.size_t (minimum_dist + CSR.seqLength G w),
                         Z.max (CSR.seqLength G w) max_width))
                     l (md, mw) in
  fst r = md + sumZ (map (CSR.seqLength G) l) /\
  mw <= snd r <= fst r - 1 /\
  forall w, In w l -> CSR.seqLength G w <= snd r.
Proof.
  revert md mw. induction l as [| x l IH]; intros md mw Hmd Hmw Hbig; cbv zeta.
  - simpl. unfold sumZ. simpl. split; [lia |]. split; [lia | intros w []].
  - simpl fold_left.
    assert (Hx : 0 <= CSR.seqLength G x) by (unfold CSR.seqLength; lia).
    assert (Hrest : 0 <= sumZ (map (CSR.seqLength G) l)).
    { apply sumZ_nonneg. intros k. unfold CSR.seqLength. lia. }
    assert (Es : sumZ (map (CSR.seqLength G) (x :: l))
                 = CSR.seqLength G x + sumZ (map (CSR.seqLength G) l))
      by reflexivity.
    rewrite Es in *.
    rewrite size_t_small by lia.
    destruct (IH (md + CSR.seqLength G x) (Z.max (CSR.seqLength G x) mw))
      as (H1 & H2 & H3); try lia.
    split; [lia |]. split; [lia |].
    intros w [<- | Hw]; [lia | auto].
Qed.

(** One of the first two loops of [lowerBoundBandwidth] stays below a
    bound that every vertex with its neighbours stays below. *)
Lemma lowerBoundOf_le G (nbrs : nat -> list nat) lbound bw :
  lbound <= bw -> 1 <= bw ->
  (forall i, (i < CSR.numVertices G)%nat ->
             1 + sumZ (map (CSR.seqLength G) (nbrs i)) < 2 ^ 64) ->
  (forall i, (i < CSR.numVertices G)%nat -> nbrs i <> [] ->
             exists w, In w (nbrs i) /\
                       1 + sumZ (map (CSR.seqLength G) (nbrs i))
                       - CSR.seqLength G w <= bw) ->
  lbound <= CSR.lowerBoundOf G nbrs lbound <= bw /\
  ((0 < CSR.numVertices G)%nat -> 1 <= CSR.lowerBoundOf G nbrs lbound).
Proof.
  intros Hlb Hbw Hbig Hcover. unfold CSR.lowerBoundOf.
  assert (Hgen : forall l lb,
    (forall i, In i l -> (i < CSR.numVertices G)%nat) -> lb <= bw ->
    lb <= fold_left (fun lbound i =>
            let '(minimum_dist, max_width) :=
              fold_left (fun '(minimum_dist, max_width) w =>
                           (CSR.size_t (minimum_dist + CSR.seqLength G w),
                            Z.max (CSR.seqLength G w) max_width))
                        (nbrs i) (1, 0) in
            let minimum_dist := CSR.size_t (minimum_dist - max_width) in
            Z.max minimum_dist lbound) l lb <= bw /\
    (l <> [] ->
     1 <= fold_left (fun lbound i =>
            let '(minimum_dist, max_width) :=
              fold_left (fun '(minimum_dist, max_width) w =>
                           (CSR.size_t (minimum_dist + CSR.seqLength G w),
                            Z.max (CSR.seqLength G w) max_width))
                        (nbrs i) (1, 0) in
            let minimum_dist := CSR.size_t (minimum_dist - max_width) in
            Z.max minimum_dist lbound) l lb)).
  { induction l as [| i l IH]; intros lb Hl Hle;
      [simpl; split; [lia | congruence] |].
    simpl fold_left.
    pose proof (Hl i (or_introl eq_refl)) as Hi.
    destruct (lowerBound_inner G (nbrs i) 1 0) as (H1 & H2 & H3);
      [lia | lia | now apply Hbig |].
    cbv zeta in H1, H2, H3.
    destruct (fold_left _ (nbrs i) (1, 0)) as [md mw]. cbn [fst snd] in *.
    rewrite size_t_small by (specialize (Hbig i Hi); lia).
    assert (Hstep : md - mw <= bw).
    { destruct (nbrs i) as [| x t] eqn:En.
      - unfold sumZ in H1. simpl in H1. lia.
      - destruct (Hcover i Hi) as (w & Hw & Hle'); [rewrite En; discriminate |].
        rewrite En in Hw, Hle'. specialize (H3 w Hw). lia. }
    destruct (IH (Z.max (md - mw) lb)) as [[I1 I2] _];
      [intros i' Hi'; apply Hl; now right | lia |].
    split; [split; [lia | exact I2] | intros _; lia]. }
  destruct (Hgen (seq 0 (CSR.numVertices G)) lbound) as [Hr Hpos];
    [intros i Hi; apply in_seq in Hi; lia | exact Hlb |].
  split; [exact Hr |]. intros Hn. apply Hpos.
  destruct (CSR.numVertices G); [lia | discriminate].
Qed.

(** The sequences of distinct vertices hold at most as many characters as
    the vertices of the container times the longest sequence. *)
Lemma sumZ_neighbours G L (l : list nat) :
  seqBound G L -> NoDup l ->
  (forall w, In w l -> (w < CSR.numVertices G)%nat) ->
  sumZ (map (CSR.seqLength G) l) <= Z.of_nat (length l) * L /\
  (length l <= CSR.numVertices G)%nat.
Proof.
  intros Hseq Hnd Hl. split.
  - clear Hnd. induction l as [| x l IH]; [unfold sumZ; simpl; lia |].
    change (sumZ (map (CSR.seqLength G) (x :: l)))
      with (CSR.seqLength G x + sumZ (map (CSR.seqLength G) l)).
    simpl length. rewrite Nat2Z.inj_succ.
    specialize (Hseq x (Hl x (or_introl eq_refl))).
    specialize (IH (fun w Hw => Hl w (or_intror Hw))). lia.
  - replace (CSR.numVertices G)
      with (length (seq 0 (CSR.numVertices G))) at 1 by apply length_seq.
    apply NoDup_incl_length; [exact Hnd |].
    intros w Hw. apply in_seq. specialize (Hl w Hw). lia.
Qed.

Lemma span_pos G vertexAt a b : 1 <= span G vertexAt a b.
Proof.
  unfold span.
  pose proof (sumZ_nonneg (fun k => CSR.seqLength G (vertexAt k))
                (seq (a + 1) (b - (a + 1)))) as H.
  rewrite <- map_map in H. rewrite map_map in H.
  assert (0 <= sumZ (map (fun k => CSR.seqLength G (vertexAt k))
                         (seq (a + 1) (b - (a + 1))))).
  { apply H. intros k. unfold CSR.seqLength. lia. }
  lia.
Qed.

(** [initEdges] on a vector without repeated edges. *)
Lemma initEdges_simple G E G' :
  noEdgesYet G -> CSR.initEdges G E = Ok G' -> NoDup E -> simpleGraph G'.
Proof.
  intros Hfresh Hrun Hnd.
  destruct (initEdges_Ok G E G' Hrun) as (Hrange & Hn & _).
  assert (Hlo : NoDup (PairSort.sort E)).
  { apply (Permutation_NoDup (PairSort.Permuted_sort E) Hnd). }
  assert (Hli : NoDup (PairSort.sort (map swapEdge (PairSort.sort E)))).
  { apply (Permutation_NoDup (PairSort.Permuted_sort _)).
    apply NoDup_map_NoDup_ForallPairs; [| exact Hlo].
    intros [a b] [c d] _ _ H. unfold swapEdge in H. simpl in H. congruence. }
  assert (Hfrom : forall l i, NoDup l -> NoDup (map snd (edgesFrom l i))).
  { intros l i Hl. apply NoDup_map_NoDup_ForallPairs.
    - intros [a b] [c d] H1 H2 H. apply edgesFrom_In in H1, H2.
      simpl in *. destruct H1 as [_ ->], H2 as [_ ->]. congruence.
    - unfold edgesFrom. now apply NoDup_filter. }
  split; [| split].
  - intros v Hv. rewrite Hn in Hv.
    destruct (initEdges_adjacency G E G' v Hfresh Hrun Hv) as [-> _]. auto.
  - intros v Hv. rewrite Hn in Hv.
    destruct (initEdges_adjacency G E G' v Hfresh Hrun Hv) as [_ ->]. auto.
  - intros v u Hv Hu. rewrite Hn in Hv.
    destruct (initEdges_adjacency G E G' v Hfresh Hrun Hv) as [_ Ei].
    rewrite Ei in Hu. apply in_map_iff in Hu.
    destruct Hu as ([a c] & Hc & He). simpl in Hc. subst c.
    apply edgesFrom_In in He. destruct He as [He Ha]. simpl in Ha. subst a.
    apply -> sort_In in He. apply in_map_iff in He.
    destruct He as ([a b] & Hsw & He). unfold swapEdge in Hsw. simpl in Hsw.
    inversion Hsw; subst a b. apply -> sort_In in He.
    destruct (Hrange _ He) as [Hu' _]. simpl in Hu'. rewrite Hn.
    split; [exact Hu' |].
    apply (initEdges_out_iff G E G' u v Hfresh Hrun); [now rewrite Hn | exact He].
Qed.

(** The loose lower bound that [sort()] prints is one: on a container
    with at least one edge and without parallel edges, whose in-neighbours
    are the sources of its edges, [lowerBoundBandwidth()] completes and
    returns at least one and at most [directedBandwidth(order)] for every
    topological order.  (The two adjacency structures agree, every vertex
    has a sequence and the total width fits [std::size_t].) *)
Theorem lowerBound_below_bandwidth G order L :
  consistent G -> simpleGraph G -> seqBound G L ->
  Z.of_nat (CSR.numVertices G) * L < 2 ^ 64 - 1 ->
  topologicalOrder G order ->
  (exists v w, (v < CSR.numVertices G)%nat /\ In w (CSR.outNbrs G v)) ->
  exists lbound bw,
    CSR.lowerBoundBandwidth G = Ok lbound /\
    CSR.directedBandwidthOf G order = Ok bw /\
    1 <= lbound <= bw.
Proof.
  intros Hcons (Hndo & Hndi & Hmirror) Hseq Hbig Htop (v0 & w0 & Hv0 & Hw0).
  pose proof Hcons as [Hout _].
  pose proof Htop as (Hlen & Hrange & Hinj & Hedge).
  set (n := CSR.numVertices G) in *.
  set (rOrder := CSR.reverseOf n order).
  destruct (rOrder_spec n order Hrange Hinj) as [Hro Hor].
  fold rOrder in Hro, Hor.
  set (position := fun v : nat => nth v order 0%nat).
  set (vertexAt := fun k : nat => nth k rOrder 0%nat).
  destruct (bandwidthLoop_maxSpan G position vertexAt L)
    as (bw & Hrun & [Hub _] & _); [| | fold n; lia |].
  { intros v w Hv Hw. split; [now apply Hedge |].
    apply Hrange. now apply (Hout v). }
  { intros k Hk. apply Hseq. now apply Hor. }
  assert (Hbw1 : 1 <= bw).
  { pose proof (Hub v0 w0 Hv0 Hw0).
    pose proof (span_pos G vertexAt (position v0) (position w0)). lia. }
  assert (HL : 1 <= L) by (specialize (Hseq v0 Hv0); lia).
  assert (Hsum : forall l, NoDup l -> (forall w, In w l -> (w < n)%nat) ->
                           1 + sumZ (map (CSR.seqLength G) l) < 2 ^ 64).
  { intros l Hl Hln.
    destruct (sumZ_neighbours G L l Hseq Hl Hln) as [H1 H2].
    fold n in H2. nia. }
  assert (Hcover : forall l wstar a b,
    NoDup l -> (forall w, In w l -> (w < n)%nat) -> In wstar l ->
    (forall w, In w l -> w <> wstar -> (a < position w < b)%nat) ->
    1 + sumZ (map (CSR.seqLength G) l) - CSR.seqLength G wstar
    <= span G vertexAt a b).
  { intros l wstar a b. apply (span_covers G position vertexAt n).
    intros v Hv. unfold vertexAt, position. now apply Hro. }
  (* the loop over the out-neighbours *)
  assert (Hn0 : (0 < n)%nat) by lia.
  assert (H1 : 0 <= CSR.lowerBoundOf G (CSR.outNbrs G) 0 <= bw /\
               ((0 < n)%nat -> 1 <= CSR.lowerBoundOf G (CSR.outNbrs G) 0)).
  { apply lowerBoundOf_le; [lia | exact Hbw1 | |].
    - intros i Hi. apply Hsum; [now apply Hndo |].
      intros w Hw. now apply (Hout i).
    - intros i Hi Hne.
      destruct (farthest position (CSR.outNbrs G i) Hne)
        as [(w & Hw & Hmax) _].
      exists w. split; [exact Hw |].
      etransitivity; [| apply (Hub i w Hi Hw)].
      apply Hcover; auto.
      + intros w' Hw'. now apply (Hout i).
      + intros w' Hw' Hne'. specialize (Hmax w' Hw').
        pose proof (Hedge i w' Hi Hw') as Hlt. fold (position i) in Hlt.
        fold (position w') in Hlt.
        assert (position w' <> position w).
        { intros E. apply Hne'. apply Hinj; auto; [now apply (Hout i) ..]. }
        lia. }
  set (lb1 := CSR.lowerBoundOf G (CSR.outNbrs G) 0) in *.
  destruct H1 as [H1 H1'']. specialize (H1'' Hn0).
  (* the loop over the in-neighbours *)
  assert (H2 : lb1 <= CSR.lowerBoundOf G (CSR.inNbrs G) lb1 <= bw).
  { apply (lowerBoundOf_le G (CSR.inNbrs G) lb1 bw); [lia | exact Hbw1 | |].
    - intros i Hi. apply Hsum; [now apply Hndi |].
      intros u Hu. now destruct (Hmirror i u Hi Hu).
    - intros i Hi Hne.
      destruct (farthest position (CSR.inNbrs G i) Hne)
        as [_ (u & Hu & Hmin)].
      exists u. split; [exact Hu |].
      destruct (Hmirror i u Hi Hu) as [Hun Hui].
      etransitivity; [| apply (Hub u i Hun Hui)].
      apply Hcover; auto.
      + intros u' Hu'. now destruct (Hmirror i u' Hi Hu').
      + intros u' Hu' Hne'. specialize (Hmin u' Hu').
        destruct (Hmirror i u' Hi Hu') as [Hun' Hui'].
        pose proof (Hedge u' i Hun' Hui') as Hlt. fold (position i) in Hlt.
        fold (position u') in Hlt.
        assert (position u' <> position u).
        { intros E. apply Hne'. apply Hinj; auto. }
        lia. }
  set (lb2 := CSR.lowerBoundOf G (CSR.inNbrs G) lb1) in *.
  (* the loop over the vertices with two out-neighbours *)
  assert (Hbody : forall lb i,
    In i (seq 0 n) -> lb <= bw ->
    exists lb',
      (minimum_dist <-
         (if (nth (i + 1) (CSR.offsets_out G) 0 - nth i (CSR.offsets_out G) 0
              =? 2)%nat
          then
            let j := nth i (CSR.offsets_out G) 0%nat in
            let u := nth j (CSR.adjcny_out G) 0%nat in
            let v := nth (j + 1) (CSR.adjcny_out G) 0%nat in
            uv <- CSR.edgeExists G u v ;;
            if (uv : bool) then Ok (CSR.size_t (1 + CSR.seqLength G u))
            else
              vu <- CSR.edgeExists G v u ;;
              if (vu : bool) then Ok (CSR.size_t (1 + CSR.seqLength G v))
              else Ok 1
          else Ok 1) ;;
       Ok (Z.max minimum_dist lb)) = Ok lb' /\
      lb <= lb' /\ 1 <= lb' <= bw).
  { intros lb i Hi Hlb. apply in_seq in Hi.
    destruct (Nat.eqb_spec (nth (i + 1) (CSR.offsets_out G) 0
                            - nth i (CSR.offsets_out G) 0)%nat 2) as [E | E];
      [| cbn [bind]; eexists; split; [reflexivity | lia]].
    cbv zeta.
    set (j := nth i (CSR.offsets_out G) 0%nat) in *.
    set (u := nth j (CSR.adjcny_out G) 0%nat).
    set (v := nth (j + 1) (CSR.adjcny_out G) 0%nat).
    assert (Enb : CSR.outNbrs G i = [u; v]).
    { unfold CSR.outNbrs, adjRange. fold j. rewrite E. simpl.
      replace (S j) with (j + 1)%nat by lia. reflexivity. }
    assert (Hiu : In u (CSR.outNbrs G i)) by (rewrite Enb; simpl; auto).
    assert (Hiv : In v (CSR.outNbrs G i)) by (rewrite Enb; simpl; auto).
    assert (Hun : (u < n)%nat) by (apply (Hout i); [lia | exact Hiu]).
    assert (Hvn : (v < n)%nat) by (apply (Hout i); [lia | exact Hiv]).
    assert (Hi' : (i < n)%nat) by lia.
    pose proof (Hedge i u Hi' Hiu) as Hpu.
    pose proof (Hedge i v Hi' Hiv) as Hpv.
    pose proof (Hseq u Hun) as Hlu. pose proof (Hseq v Hvn) as Hlv.
    assert (HLn : L <= Z.of_nat n * L) by nia.
    destruct (edgeExists_Ok G u v Hun Hvn) as (b & Hb & Hiff).
    destruct (edgeExists_Ok G v u Hvn Hun) as (b' & Hb' & Hiff').
    rewrite Hb. cbn [bind]. destruct b.
    - cbn [bind]. rewrite size_t_small by lia.
      eexists. split; [reflexivity |].
      assert (Huv : In v (CSR.outNbrs G u)) by now apply Hiff.
      pose proof (Hedge u v Hun Huv) as Hlt.
      pose proof (Hcover [u; v] v (position i) (position v)) as Hc.
      unfold sumZ in Hc. simpl in Hc.
      pose proof (Hub i v Hi' Hiv) as Hle.
      assert (1 + (CSR.seqLength G u + (CSR.seqLength G v + 0))
              - CSR.seqLength G v
              <= span G vertexAt (position i) (position v)).
      { apply Hc.
        - constructor; [| constructor; [intros [] | constructor]].
          intros [Hx | []]. rewrite Hx in Hlt. lia.
        - intros w [<- | [<- | []]]; assumption.
        - auto.
        - intros w [<- | [<- | []]] Hne; [| congruence].
          unfold position. lia. }
      lia.
    - rewrite Hb'. cbn [bind]. destruct b'.
      + cbn [bind]. rewrite size_t_small by lia.
        eexists. split; [reflexivity |].
        assert (Hvu : In u (CSR.outNbrs G v)) by now apply Hiff'.
        pose proof (Hedge v u Hvn Hvu) as Hlt.
        pose proof (Hcover [v; u] u (position i) (position u)) as Hc.
        unfold sumZ in Hc. simpl in Hc.
        pose proof (Hub i u Hi' Hiu) as Hle.
        assert (1 + (CSR.seqLength G v + (CSR.seqLength G u + 0))
                - CSR.seqLength G u
                <= span G vertexAt (position i) (position u)).
        { apply Hc.
          - constructor; [| constructor; [intros [] | constructor]].
            intros [Hx | []]. rewrite Hx in Hlt. lia.
          - intros w [<- | [<- | []]]; assumption.
          - auto.
          - intros w [<- | [<- | []]] Hne; [| congruence].
            unfold position. lia. }
        lia.
      + cbn [bind]. eexists. split; [reflexivity | lia]. }
  unfold CSR.lowerBoundBandwidth. fold lb1. fold lb2. fold n.
  match goal with
  | |- context [foldM ?f ?l ?a] =>
      destruct (foldM_total f (fun b => 1 <= b <= bw) l a) as (lb & Hlb & Hle)
  end.
  { lia. }
  { intros lb i Hi [_ Hlb].
    destruct (Hbody lb i Hi Hlb) as (lb' & E & _ & H).
    exists lb'. auto. }
  exists lb, bw. split; [exact Hlb |]. split; [| exact Hle].
  unfold CSR.directedBandwidthOf. fold n. rewrite Hlen, Nat.eqb_refl.
  exact Hrun.
Qed.

Lemma lowerBound_below_bandwidth_witness :
  exists G order lbound bw,
    CSR.initEdges fourVertices diamondEdges = Ok G /\
    CSR.kahn_run G (fun _ => 0%nat) (inDegrees G) = Ok order /\
    CSR.lowerBoundBandwidth G = Ok lbound /\
    CSR.directedBandwidthOf G order = Ok bw /\
    1 <= lbound <= bw.
Proof.
  assert (Hrun : exists G, CSR.initEdges fourVertices diamondEdges = Ok G)
    by (eexists; vm_compute; reflexivity).
  destruct Hrun as [G Hrun]. exists G.
  assert (Hfresh : noEdgesYet fourVertices) by (split; reflexivity).
  destruct (fourVertices_initEdges _ _ Hrun) as (Hcons & Hseq & Hn).
  destruct (kahn_run_acyclic G (fun _ => 0%nat) Hcons (diamond_acyclic G Hrun)
              select_first_valid) as (order & Hk & Htop).
  destruct (lowerBound_below_bandwidth G order 3 Hcons
              (initEdges_simple _ _ _ Hfresh Hrun
                 ltac:(repeat constructor; simpl; intuition congruence))
              Hseq) as (lb & bw & H1 & H2 & H3).
  - rewrite Hn. vm_compute. reflexivity.
  - exact Htop.
  - exists 3%nat, 1%nat. split; [lia |].
    apply (initEdges_out_iff fourVertices diamondEdges G 3 1 Hfresh Hrun);
      [lia | simpl; auto].
  - exists order, lb, bw. auto.
Defined.

(** ** The printed path *)

Lemma dedupFrom_noRepeat prev l : noRepeat (prev :: dedupFrom prev l).
Proof.
  revert prev. induction l as [| x l IH]; intros prev.
  - intros i Hi. simpl in Hi. lia.
  - simpl. destruct (Nat.eqb_spec x prev) as [E | E]; [apply IH |].
    intros [| i] Hi.
    + simpl. congruence.
    + apply (IH x i). simpl in *. lia.
Qed.

Lemma dedupFrom_last prev l y :
  last (prev :: dedupFrom prev (l ++ [y])) 0%nat = y.
Proof.
  revert prev. induction l as [| x l IH]; intros prev.
  - simpl. destruct (Nat.eqb_spec y prev) as [E | E]; simpl; auto.
  - simpl app. simpl dedupFrom.
    destruct (Nat.eqb_spec x prev) as [E | E]; [apply IH |].
    specialize (IH x).
    change (last (prev :: x :: dedupFrom x (l ++ [y])) 0%nat)
      with (last (x :: dedupFrom x (l ++ [y])) 0%nat). exact IH.
Qed.

Lemma originalVertex_Ok originalVertexId c :
  (c < length originalVertexId)%nat ->
  originalVertex originalVertexId c
  = Ok (fst (nth c originalVertexId (0, 0)%nat)).
Proof.
  intros Hc. unfold originalVertex.
  destruct (nth_error originalVertexId c) as [x |] eqn:E.
  - now rewrite (nth_error_nth _ _ _ E).
  - apply nth_error_None in E. lia.
Qed.

(** The loop over the columns, for columns of the band. *)
Lemma printedPath_loop originalVertexId first last_ cols path path_str :
  Forall (fun c => (first <= c <= last_)%nat) cols ->
  (last_ < length originalVertexId)%nat ->
  path <> [] ->
  let seen := dedupFrom (last path 0%nat)
                (map (fun c => fst (nth c originalVertexId (0, 0)%nat)) cols) in
  foldM (fun '(path, path_str) c =>
           if (first <=? c)%nat && (c <=? last_)%nat
           then
             n <- originalVertex originalVertexId c ;;
             if negb (n =? last path 0)%nat
             then Ok (path ++ [n], path_str ++ "-"%char :: decimal n)
             else Ok (path, path_str)
           else Ok (path, path_str))
        cols (path, path_str)
  = Ok (path ++ seen,
        path_str ++ flat_map (fun m => "-"%char :: decimal m) seen).
Proof.
  intros Hcols Hlen. revert path path_str.
  induction Hcols as [| c cols Hc Hcols IH]; intros path path_str Hne;
    cbv zeta.
  - simpl. now rewrite !app_nil_r.
  - simpl foldM. simpl map. simpl dedupFrom.
    destruct (Nat.leb_spec first c); [| lia].
    destruct (Nat.leb_spec c last_); [| lia]. cbn [andb].
    rewrite originalVertex_Ok by lia. cbn [bind].
    set (n := fst (nth c originalVertexId (0, 0)%nat)).
    destruct (Nat.eqb_spec n (last path 0%nat)) as [E | E]; cbn [negb bind].
    + now apply IH.
    + rewrite IH by (destruct path; discriminate).
      rewrite last_last. cbn [flat_map].
      rewrite <- !app_assoc. reflexivity.
Qed.

(** The columns that Phase 2 stores in a record. *)
Lemma phase2_read_columns g p read b r :
  topological g ->
  (refColumnStart b <= refColumnEnd b)%nat ->
  (qryRowStart b <= qryRowEnd b)%nat ->
  phase2_read g p read b = Ok r ->
  refColumnStart r = refColumnStart b /\
  refColumnEnd r = refColumnEnd b /\
  Forall (fun c => (refColumnStart b <= c <= refColumnEnd b)%nat)
         (refColumns r) /\
  exists l, refColumns r = l ++ [refColumnEnd b].
Proof.
  intros Htopo Hc Hr H. unfold phase2_read in H.
  inv_bind H as band Hband. inv_bind H as t Ht.
  inv_bind H as u Hu. inversion H; subst; clear H. cbn.
  split; [reflexivity |]. split; [reflexivity |].
  unfold phase2_trace in Ht.
  rewrite (bandSize_nat _ _ Hc), (bandSize_nat _ _ Hr) in Ht.
  simpl bind in Ht.
  set (W := (refColumnEnd b - refColumnStart b + 1)%nat) in *.
  set (Hh := (qryRowEnd b - qryRowStart b + 1)%nat) in *.
  replace (W =? 0)%nat with false in Ht
    by (symmetry; apply Nat.eqb_neq; unfold W; lia).
  assert (Hend : (W - 1 + refColumnStart b = refColumnEnd b)%nat)
    by (unfold W; lia).
  split.
  - assert (Hinv : traceInv (refColumnStart b) W t).
    { eapply trace_loop_inv; [exact Htopo | | exact Ht].
      repeat split; simpl; [lia | constructor | constructor]. }
    destruct Hinv as (_ & _ & Hb).
    apply Forall_rev. eapply Forall_impl; [| exact Hb].
    simpl. intros c Hcb. unfold W in Hcb. lia.
  - assert (Hfirst : exists l, used_cols t = refColumnEnd b :: l).
    { match type of Ht with
      | trace_loop _ _ _ _ _ _ _ _ ?st0 = _ =>
          assert (Hinv : pushInv (refColumnStart b) (W - 1) st0)
            by (split; [constructor | split; [reflexivity | left; auto]]);
          destruct (trace_loop_push _ _ _ _ _ _ _ _ _ _ _ Hinv Ht)
            as [[_ Hneg] | [(_ & _ & Hf) | (_ & Hf)]]
      end.
      - cbn [row] in Hneg. unfold Hh in Hneg. lia.
      - now rewrite Hend in Hf.
      - now rewrite Hend in Hf. }
    destruct Hfirst as [l Hl]. exists (rev l). rewrite Hl. reflexivity.
Qed.

(** The path that [printResultsToFile] prints for a record of Phase 2 (on
    a topologically numbered graph, for a band that is not empty, with an
    [originalVertexId] that covers the band).  The loop completes without
    reading beyond the vector; its range test rejects no column of the
    record; the path holds the vertices of the start column and of the
    columns of the record, in this order, without the ones that repeat
    their predecessor: it begins with the vertex of [refColumnStart], ends
    with the vertex of [refColumnEnd], and no vertex follows itself.
    [path_str] holds the numbers of the path with dashes in between. *)
Theorem printed_path_of_record g p read b r originalVertexId :
  topological g ->
  (refColumnStart b <= refColumnEnd b)%nat ->
  (qryRowStart b <= qryRowEnd b)%nat ->
  phase2_read g p read b = Ok r ->
  (refColumnEnd b < length originalVertexId)%nat ->
  let vertexOf := fun c => fst (nth c originalVertexId (0, 0)%nat) in
  exists path,
    printedPath originalVertexId r = Ok (path, dashed path) /\
    path = vertexOf (refColumnStart b)
           :: dedupFrom (vertexOf (refColumnStart b))
                        (map vertexOf (refColumns r)) /\
    last path 0%nat = vertexOf (refColumnEnd b) /\
    noRepeat path.
Proof.
  intros Htopo Hc Hr Hrun Hlen vertexOf.
  destruct (phase2_read_columns g p read b r Htopo Hc Hr Hrun)
    as (Es & Ee & Hcols & l & El).
  eexists. split; [| split; [reflexivity | split]].
  - unfold printedPath. rewrite Es, Ee.
    rewrite originalVertex_Ok by lia. cbn [bind].
    rewrite (printedPath_loop originalVertexId _ _ _ _ _ Hcols Hlen)
      by discriminate.
    reflexivity.
  - rewrite El, map_app. apply dedupFrom_last.
  - apply dedupFrom_noRepeat.
Qed.

Lemma printed_path_of_record_witness :
  let g := graphOfEdges (s "ACGT") [(0, 1); (0, 2); (1, 3); (2, 3)]%nat in
  let b := {| score := 3; refColumnStart := 0; refColumnEnd := 3;
              qryRowStart := 0; qryRowEnd := 2; strand := "+"%char;
              qryId := 0; cigar := []; refColumns := [] |} in
  let originalVertexId := [(0, 0); (1, 0); (2, 0); (3, 0)]%nat in
  exists r path,
    phase2_read g unitScores (s "ACT") b = Ok r /\
    printedPath originalVertexId r = Ok (path, dashed path) /\
    last path 0%nat = 3%nat /\ noRepeat path.
Proof.
  intros g b originalVertexId.
  assert (Hrun : exists r, phase2_read g unitScores (s "ACT") b = Ok r)
    by (eexists; vm_compute; reflexivity).
  destruct Hrun as [r Hrun]. exists r.
  assert (Htopo : topological g)
    by (apply topologicalb_sound; vm_compute; reflexivity).
  destruct (printed_path_of_record g unitScores (s "ACT") b r
              originalVertexId Htopo) as (path & H1 & _ & H3 & H4);
    [simpl; lia | simpl; lia | exact Hrun | simpl; lia |].
  exists path. auto.
Defined.

(** ** The records of Phase 1, with the scores inside [int32_t] *)


Lemma recurrence_terms p ms nbrs Hprev Hcur j :
  recurrence p ms nbrs Hprev Hcur j
  = fold_right Z.max 0 (recurrenceTerms p ms nbrs Hprev Hcur j).
Proof. reflexivity. Qed.

(** A cell of row [k - 1] holds at most [k * match]. *)
Lemma Htab_upper_topo g p read :
  topological g -> nonneg p ->
  forall k j, (j < numVertices g)%nat ->
              Htab g p read k j <= Z.of_nat k * match_ p.
Proof.
  intros Htopo (Hm & Hmm & Hi & Hd).
  induction k as [| k IHk].
  - intros j _. simpl. lia.
  - intros j. induction j as [j IHj] using lt_wf_ind. intros Hj.
    rewrite (Htab_rec g p read k j Htopo Hj). unfold fwdCell.
    set (ms := matchScoreOf p (labelOf g j) (nth k read zero)).
    assert (Hms : ms <= match_ p).
    { unfold ms. destruct (matchScoreOf_cases p (labelOf g j)
                             (nth k read zero)) as [-> | ->]; lia. }
    pose proof (currentMaxOf_cases p (inNbrs g j) (Htab g p read k)
                  (Htab g p read (S k)) ms j) as Hc.
    cbv zeta in Hc.
    destruct Hc as [E | [E | [E | (u & Hu & [E | E])]]]; rewrite E.
    + nia.
    + nia.
    + specialize (IHk j Hj). nia.
    + pose proof (Htopo j u Hu) as Hlt.
      specialize (IHk u ltac:(lia)). nia.
    + pose proof (Htopo j u Hu) as Hlt.
      specialize (IHj u Hlt ltac:(lia)). nia.
Qed.


(** The record that Phase 1 leaves for a query of the set holds what one
    sweep over the query finds, whatever the matrix held before. *)
Lemma phase1_scalar_record readSet g p bsv k matrix0 :
  topological g -> length bsv = length readSet ->
  (k < length readSet)%nat -> shape (numVertices g) matrix0 ->
  exists out,
    alignToDAGLocal_Phase1_scalar readSet g p bsv = Ok out /\
    length out = length readSet /\
    let st := phase1_read g p (nth k readSet []) matrix0 in
    score (nth k out BestScoreInfo0) = bestScore st /\
    qryRowEnd (nth k out BestScoreInfo0) = bestRow st /\
    refColumnEnd (nth k out BestScoreInfo0) = bestCol st.
Proof.
  intros Htopo Hlen Hk Hsh.
  destruct (phase1_scalar_Ok readSet g p bsv Hlen) as [out Hout].
  exists out. split; [exact Hout |].
  destruct (phase1_scalar_spec readSet g p bsv out Hout) as [Hl Hrec].
  split; [exact Hl |].
  destruct (Hrec k Hk) as (m & Hm & Hs & Hc & Hr).
  destruct (phase1_read_indep g p (nth k readSet []) m matrix0 Htopo Hm Hsh)
    as (Es & Er & Ec).
  cbv zeta. rewrite Hs, Hc, Hr. auto.
Qed.



(** C6.  Phase 1 on a set of queries (topologically numbered graph, one
    record per query, the scores inside [int32_t]).  For a query that is
    not empty, on a graph that is not empty, the end coordinates that the
    run writes into the record are those of a cell whose value is the
    score of the record, the maximum; and every cell with that value is at
    or before it in row-major order (rows ascending, columns ascending
    within a row): among the cells with the maximum, the last one scanned
    is recorded. *)
Theorem phase1_records_last_maximum readSet g p bsv k matrix0 :
  topological g ->
  int32Run p readSet ->
  length bsv = length readSet ->
  (k < length readSet)%nat ->
  shape (numVertices g) matrix0 ->
  let read := nth k readSet [] in
  (0 < length read)%nat ->
  (0 < numVertices g)%nat ->
  let H := Hcode g p read matrix0 in
  exists out,
    alignToDAGLocal_Phase1_scalar readSet g p bsv = Ok out /\
    let r := nth k out BestScoreInfo0 in
    (qryRowEnd r < length read)%nat /\
    (refColumnEnd r < numVertices g)%nat /\
    H (Z.of_nat (qryRowEnd r)) (refColumnEnd r) = score r /\
    0 <= score r <= INT32_MAX /\
    forall i j, (i < length read)%nat -> (j < numVertices g)%nat ->
      H (Z.of_nat i) j <= score r /\
      (H (Z.of_nat i) j = score r ->
       (i < qryRowEnd r \/ (i = qryRowEnd r /\ j <= refColumnEnd r))%nat).
Proof.
  intros Htopo Hfit Hlen Hk Hsh read Hm Hn H.
  assert (Hfitk : int32Scores p (length read))
    by (apply Hfit; unfold read; now apply nth_In).
  destruct (phase1_scalar_record readSet g p bsv k matrix0 Htopo Hlen Hk Hsh)
    as (out & Hout & _ & Hs & Hr & Hc).
  cbv zeta in Hs, Hr, Hc. fold read in Hs, Hr, Hc.
  exists out. split; [exact Hout |]. cbv zeta. rewrite Hs, Hr, Hc.
  destruct (phase1_read_last_maximum g p read matrix0 Htopo Hsh Hm Hn)
    as (H1 & H2 & H3 & H4).
  fold H in H3, H4.
  split; [exact H1 |]. split; [exact H2 |]. split; [exact H3 |].
  split; [| exact H4].
  rewrite <- H3. unfold H. rewrite Hcode_Htab by auto.
  destruct Hfitk as (Hnn & _ & _ & _ & _ & Hbig).
  split; [apply Htab_nonneg |].
  pose proof (Htab_upper_topo g p read Htopo Hnn
                (S (bestRow (phase1_read g p read matrix0)))
                (bestCol (phase1_read g p read matrix0)) H2).
  destruct Hnn as (Hm0 & _). unfold INT32_MAX in *. nia.
Qed.

(** On the chain AA the query A scores 1 at both columns: the later cell
    ties the first one and is the one recorded. *)
Lemma phase1_records_last_maximum_witness :
  let g := chainGraph (s "AA") in
  let p := unitScores in
  let H := Hcode g p (s "A") (freshMatrix g) in
  exists out,
    alignToDAGLocal_Phase1_scalar [s "A"] g p [BestScoreInfo0] = Ok out /\
    H 0 0%nat = 1 /\ H 0 1%nat = 1 /\
    score (nth 0 out BestScoreInfo0) = 1 /\
    qryRowEnd (nth 0 out BestScoreInfo0) = 0%nat /\
    refColumnEnd (nth 0 out BestScoreInfo0) = 1%nat /\
    forall i j, (i < 1)%nat -> (j < 2)%nat ->
      H (Z.of_nat i) j = score (nth 0 out BestScoreInfo0) ->
      (i < qryRowEnd (nth 0 out BestScoreInfo0)
       \/ (i = qryRowEnd (nth 0 out BestScoreInfo0)
           /\ j <= refColumnEnd (nth 0 out BestScoreInfo0)))%nat.
Proof.
  intros g p H.
  assert (Htopo : topological g)
    by (apply topologicalb_sound; vm_compute; reflexivity).
  assert (Hfit : int32Run p [s "A"])
    by (intros read [<- | []]; apply unitScores_int32; simpl; lia).
  destruct (phase1_records_last_maximum [s "A"] g p [BestScoreInfo0] 0%nat
              (freshMatrix g) Htopo Hfit eq_refl ltac:(simpl; lia)
              (freshMatrix_shape g) ltac:(simpl; lia) ltac:(simpl; lia))
    as (out & Hout & _ & _ & _ & _ & Hlast).
  exists out. split; [exact Hout |].
  assert (Eout : score (nth 0 out BestScoreInfo0) = 1 /\
                 qryRowEnd (nth 0 out BestScoreInfo0) = 0%nat /\
                 refColumnEnd (nth 0 out BestScoreInfo0) = 1%nat).
  { vm_compute in Hout. inversion Hout; subst out. vm_compute. auto. }
  split; [vm_compute; reflexivity |]. split; [vm_compute; reflexivity |].
  split; [apply Eout |]. split; [apply Eout |]. split; [apply Eout |].
  intros i j Hi Hj. apply (Hlast i j); simpl; lia.
Defined.

(** ** The recomputation inside the band *)




(** ** Empty queries *)

(** The reverse sweep does not get past a query without characters whose
    record holds the score 0: its loops do not run, the best score stays 0,
    and the assertion [score == bestScore - 1] fails. *)
Lemma phase1_rev_read_empty g p b m :
  score b = 0 -> phase1_rev_read g p [] b m = Err AssertionFailed.
Proof.
  intros Hs. unfold phase1_rev_read, phase1_rev_rows.
  cbn [length seq foldM bind sweepInit bestScore]. rewrite Hs. reflexivity.
Qed.

Lemma seq_split_at k n :
  (k < n)%nat -> seq 0 n = seq 0 k ++ k :: seq (S k) (n - S k).
Proof.
  intros Hk. replace n with (k + S (n - S k))%nat at 1 by lia.
  rewrite seq_app. reflexivity.
Qed.

(** The reverse sweep over a set that holds such a query aborts: at that
    query, or at an earlier one. *)
Lemma rev_scalar_aborts (rs : list str) g p bsv k :
  length bsv = length rs -> (k < length rs)%nat ->
  nth k rs [] = [] -> score (nth k bsv BestScoreInfo0) = 0 ->
  alignToDAGLocal_Phase1_rev_scalar rs g p bsv = Err AssertionFailed.
Proof.
  intros Hlen Hk Hread Hscore. unfold alignToDAGLocal_Phase1_rev_scalar.
  rewrite Hlen, Nat.eqb_refl. cbn [cassert bind].
  match goal with |- context [foldM ?f _ _] => set (F := f) end.
  assert (HF : forall a x, assertOnly (F a x)).
  { intros [m v] x. unfold F. apply bind_assertOnly.
    - apply phase1_rev_read_assertOnly.
    - intros st. apply Ok_assertOnly. }
  match goal with
  | |- context [seq 0 ?n] => rewrite (seq_split_at k n Hk), foldM_app
  end.
  destruct (foldM F (seq 0 k) (freshMatrix g, bsv)) as [[m v] | e] eqn:Ehead.
  - assert (Hv : nth k v BestScoreInfo0 = nth k bsv BestScoreInfo0).
    { revert Ehead.
      apply (foldM_inv_in F
               (fun a => nth k (snd a) BestScoreInfo0
                         = nth k bsv BestScoreInfo0)).
      - reflexivity.
      - intros [m1 v1] x [m2 v2] Hx Hinv Hstep. unfold F in Hstep.
        inv_bind Hstep as st Hst. inversion Hstep; subst; clear Hstep.
        cbn [snd] in *. apply in_seq in Hx.
        rewrite nth_list_set_other by lia. exact Hinv. }
    cbn [bind foldM]. unfold F at 1. cbv beta iota zeta.
    rewrite Hread, Hv, (phase1_rev_read_empty g p _ m Hscore).
    reflexivity.
  - cbn [bind]. f_equal. apply (foldM_assertOnly F _ _ HF e Ehead).
Qed.

(** C9 fails on the code.  Nothing looks at the length of a query before
    it is aligned, and no statement of the alignment raises
    [std::invalid_argument] for a query.  For every query set that holds an
    empty query (the scores of the other queries inside [int32_t]) the run
    ends on a failed assertion: both Phase-1 records of the empty query
    hold the score 0, and in the reverse sweep the loops over its
    characters do not run, so that [bestScore] is still 0 at the assertion
    [score == bestScore - 1]; if an earlier query of the set stops the
    reverse sweep first, that is a failed assertion as well. *)
Theorem empty_query_aborts (readSet : list str) g p :
  In [] readSet -> int32Run p readSet ->
  alignToDAG readSet g p LOCAL = Err AssertionFailed /\
  ~ rejects (alignToDAG readSet g p LOCAL).
Proof.
  intros Hin _.
  assert (Hgoal : alignToDAGLocal readSet g p = Err AssertionFailed).
  { destruct (In_nth readSet [] [] Hin) as (k & Hk & Hnth).
    unfold alignToDAGLocal.
    assert (Hpos : (0 <? length readSet)%nat = true)
      by (apply Nat.ltb_lt; lia).
    rewrite Hpos. cbn [cassert bind].
    destruct (phase1_scalar_Ok (readSet_P1_of readSet) g p
                (repeat BestScoreInfo0 (2 * length readSet)))
      as [v1 Hv1].
    { now rewrite repeat_length, readSet_P1_of_length. }
    rewrite Hv1. cbn [bind].
    destruct (phase1_scalar_spec _ _ _ _ _ Hv1) as [Hl1 Hrec].
    rewrite readSet_P1_of_length in Hl1, Hrec.
    destruct (readSet_P1_of_nth readSet k) as [He Ho].
    assert (Hfwd : score (nth (2 * k) v1 BestScoreInfo0) = 0).
    { destruct (Hrec (2 * k)%nat) as (m & _ & Hs & _); [lia |].
      rewrite Hs, He, Hnth. reflexivity. }
    assert (Hrc : score (nth (2 * k + 1) v1 BestScoreInfo0) = 0).
    { destruct (Hrec (2 * k + 1)%nat) as (m & _ & Hs & _); [lia |].
      rewrite Hs, Ho, Hnth. reflexivity. }
    rewrite (rev_scalar_aborts _ g p _ k).
    - reflexivity.
    - now rewrite !length_map.
    - now rewrite !length_map, length_seq.
    - rewrite map_map, nth_map_seq_gen by exact Hk.
      unfold selectStrand. rewrite He, Ho, Hnth.
      destruct (_ >? _); reflexivity.
    - rewrite map_map, nth_map_seq_gen by exact Hk.
      unfold selectStrand.
      destruct (_ >? _); cbn [fst withStrand score]; assumption. }
  cbn [alignToDAG]. rewrite Hgoal. split; [reflexivity |].
  unfold rejects. discriminate.
Qed.

Lemma empty_query_aborts_witness :
  let g := chainGraph (s "A") in
  In [] [[] : str] /\ int32Run unitScores [[] : str] /\
  alignToDAG [[]] g unitScores LOCAL = Err AssertionFailed /\
  alignToDAG [[]] g unitScores LOCAL <> Err InvalidArgument.
Proof.
  intros g.
  assert (Hin : In [] [[] : str]) by (left; reflexivity).
  assert (Hfit : int32Run unitScores [[] : str])
    by (intros read [<- | []]; apply unitScores_int32; simpl; lia).
  split; [exact Hin |]. split; [exact Hfit |].
  exact (empty_query_aborts [[]] g unitScores Hin Hfit).
Defined.
